(** * scanreader / tifffile.py : a shallow embedding of the TIFF structural decoder

    The development follows the source file [scanreader/tifffile.py]:
    the byte channel ([FileHandle]), [struct.unpack], the format descriptors
    of the [TIFF] namespace, the header dispatch of [TiffFile.__init__],
    [TiffTag.__init__], the directory walker [TiffPages._seek], the layout
    queries of [TiffPage], [TiffFrame] and the segment reader
    [buffered_read] with the strip and tile placement of [TiffPage.asarray].

    Python integers are [Z]; [//] and [%] are [Z.div] and [Z.modulo] (both
    floor towards minus infinity, like Python) guarded by an explicit
    [ZeroDivisionError]; byte strings are [list byte]; an exception is a value
    of [exn] and a computation that may raise while mutating an object
    returns the outcome together with the mutated state. *)

From Stdlib Require Import ZArith String List Bool Lia.
From Stdlib.Strings Require Import Byte.
Import ListNotations.
Open Scope string_scope.
Open Scope list_scope.
Open Scope Z_scope.

Set Implicit Arguments.

(* ================================================================== *)
(** * Python exceptions and the state-and-exception monad *)

Inductive exn : Type :=
  | TiffFileError (msg : string) (args : list Z)
  | struct_error
  | IndexError (msg : string)
  | ValueError (msg : string)
  | RuntimeError (msg : string)
  | NotImplementedError (msg : string)
  | IOError (msg : string)
  | TypeError (msg : string)
  | AttributeError
  | ZeroDivisionError
  | KeyError
  | StopIteration
  | AssertionError.

Inductive result (A : Type) : Type :=
  | Ok (a : A)
  | Raise (e : exn).
Arguments Raise {A} e.

Definition is_Ok {A} (r : result A) : bool :=
  match r with Ok _ => true | Raise _ => false end.

(** A computation over a mutable object of type [S]: mutations made before
    an exception is raised stay visible, as in Python. *)
Definition M (S A : Type) : Type := S -> result A * S.

Definition ret {S A} (a : A) : M S A := fun s => (Ok a, s).
Definition raise {S A} (e : exn) : M S A := fun s => (Raise e, s).
Definition bind {S A B} (m : M S A) (k : A -> M S B) : M S B :=
  fun s => match m s with
           | (Ok a, s') => k a s'
           | (Raise e, s') => (Raise e, s')
           end.
Definition get {S} : M S S := fun s => (Ok s, s).
Definition modify {S} (f : S -> S) : M S unit := fun s => (Ok tt, f s).
Definition lift {S A} (r : result A) : M S A := fun s => (r, s).

Declare Scope py_scope.
Delimit Scope py_scope with py.
Notation "x <- m ;; k" := (bind m (fun x => k))
  (at level 100, m at next level, right associativity) : py_scope.
Notation "m ;;; k" := (bind m (fun _ => k))
  (at level 100, right associativity) : py_scope.
Open Scope py_scope.

(* ================================================================== *)
(** * Python sequences *)

(** [xs[i]] for a non-negative or negative index. *)
Definition py_index {A} (xs : list A) (i : Z) : result A :=
  let n := Z.of_nat (length xs) in
  let j := if i <? 0 then i + n else i in
  if (j <? 0) || (n <=? j) then Raise (IndexError "index out of range")
  else match nth_error xs (Z.to_nat j) with
       | Some a => Ok a
       | None => Raise (IndexError "index out of range")
       end.

(** [xs[a:b]] for non-negative bounds. *)
Definition py_slice {A} (xs : list A) (a b : Z) : list A :=
  firstn (Z.to_nat (b - a)) (skipn (Z.to_nat a) xs).

(** [product(iterable)]. *)
Definition product (xs : list Z) : Z := fold_left Z.mul xs 1.

(** [a // b] and [a % b]. *)
Definition floordiv (a b : Z) : result Z :=
  if b =? 0 then Raise ZeroDivisionError else Ok (a / b).
Definition pymod (a b : Z) : result Z :=
  if b =? 0 then Raise ZeroDivisionError else Ok (a mod b).

(* ================================================================== *)
(** * struct.unpack on unsigned integer formats *)

Inductive byteorder : Type := LittleEndian (* '<' *) | BigEndian (* '>' *).

Definition byteorder_eqb (a b : byteorder) : bool :=
  match a, b with
  | LittleEndian, LittleEndian | BigEndian, BigEndian => true
  | _, _ => false
  end.

(** The integer codes used by the format descriptors. *)
Inductive intcode : Type := fmt_H | fmt_I | fmt_Q.

Definition calcsize (c : intcode) : Z :=
  match c with fmt_H => 2 | fmt_I => 4 | fmt_Q => 8 end.

Fixpoint le_to_Z (bs : list byte) : Z :=
  match bs with
  | [] => 0
  | b :: r => Z.of_N (Byte.to_N b) + 256 * le_to_Z r
  end.

Definition bytes_to_Z (bo : byteorder) (bs : list byte) : Z :=
  match bo with
  | LittleEndian => le_to_Z bs
  | BigEndian => le_to_Z (rev bs)
  end.

(** [struct.unpack(bo + c, bs)[0]]: the buffer must have exactly the size
    of the format, otherwise [struct.error]. *)
Definition unpack (bo : byteorder) (c : intcode) (bs : list byte) : result Z :=
  if Z.of_nat (length bs) =? calcsize c then Ok (bytes_to_Z bo bs)
  else Raise struct_error.

(** [struct.unpack(bo + 'HH', bs)]. *)
Definition unpack_HH (bo : byteorder) (bs : list byte) : result (Z * Z) :=
  if Z.of_nat (length bs) =? 4
  then Ok (bytes_to_Z bo (firstn 2 bs), bytes_to_Z bo (skipn 2 bs))
  else Raise struct_error.

(* ================================================================== *)
(** * FileHandle: the supplied byte channel, and the module logger *)

Inductive io_event : Type :=
  | EvSeek (offset : Z)
  | EvRead (pos : Z) (count : Z).

Record FileHandle : Type := mkFileHandle {
    fh_data : list byte;      (* the bytes of the file *)
    fh_pos : Z;               (* current position *)
    fh_size : Z;              (* FileHandle.size *)
    fh_is_file : bool;        (* FileHandle.is_file *)
    fh_closed : bool;         (* FileHandle.closed *)
    fh_events : list io_event (* every seek and read, oldest first *)
}.

Definition FileHandle_of_bytes (data : list byte) : FileHandle :=
  mkFileHandle data 0 (Z.of_nat (length data)) true false [].

(** A [log.warning] call: the format string and its integer arguments. *)
Definition warning : Type := (string * list Z)%type.

(** What the decoder acts on: the channel and the log. *)
Record World : Type := mkWorld {
    fh : FileHandle;
    log : list warning (* oldest first *)
}.

Definition World_of_bytes (data : list byte) : World :=
  mkWorld (FileHandle_of_bytes data) [].

Definition log_warning (fmt : string) (args : list Z) : M World unit :=
  modify (fun w => mkWorld (fh w) (log w ++ [(fmt, args)])).

(** [fh.seek(offset)]. *)
Definition fh_seek (offset : Z) : M World unit := fun w =>
  if offset <? 0 then (Raise (IOError "Invalid argument"), w)
  else let f := fh w in
       (Ok tt, mkWorld (mkFileHandle (fh_data f) offset (fh_size f) (fh_is_file f)
                          (fh_closed f) (fh_events f ++ [EvSeek offset])) (log w)).

(** [fh.read(size)]: up to [size] bytes from the current position; a
    negative size reads to the end of the file. *)
Definition fh_read (size : Z) : M World (list byte) := fun w =>
  let f := fh w in
  let avail := skipn (Z.to_nat (fh_pos f)) (fh_data f) in
  let got := if size <? 0 then avail else firstn (Z.to_nat size) avail in
  (Ok got, mkWorld (mkFileHandle (fh_data f) (fh_pos f + Z.of_nat (length got))
                      (fh_size f) (fh_is_file f) (fh_closed f)
                      (fh_events f ++ [EvRead (fh_pos f) size])) (log w)).

Definition fh_tell : M World Z := fun w => (Ok (fh_pos (fh w)), w).

(** The reads recorded on a channel, as (position, requested size). *)
Definition reads_of (evs : list io_event) : list (Z * Z) :=
  flat_map (fun e => match e with EvRead p n => [(p, n)] | EvSeek _ => [] end) evs.

Definition reads (w : World) : list (Z * Z) := reads_of (fh_events (fh w)).

(* ================================================================== *)
(** * The TIFF namespace: format descriptors and registries *)

(** A struct format character of [TIFF.DATA_FORMATS]. *)
Inductive fmtchar : Type :=
  | c_B | c_s | c_H | c_I | c_b | c_h | c_i | c_f | c_d | c_Q | c_q.

Definition itemsize (c : fmtchar) : Z :=
  match c with
  | c_B | c_s | c_b => 1
  | c_H | c_h => 2
  | c_I | c_i | c_f => 4
  | c_d | c_Q | c_q => 8
  end.

(** An entry such as ['2I']: [dtype[0]] and [dtype[1]]. *)
Record dtype_fmt : Type := mkDtype { dt_n : Z; dt_c : fmtchar }.

Module TIFF.

Record descriptor : Type := mkDescriptor {
  version : Z;
  byteorder_ : byteorder;
  offsetsize : Z;
  offsetformat : intcode;
  ifdoffsetsize : Z;
  ifdoffsetformat : intcode;
  tagnosize : Z;
  tagnoformat : intcode;
  tagsize : Z
  (* tagformat1 is byteorder+'HH'; tagformat2 is byteorder + the code of
     offsetformat + a raw field of offsetsize bytes ('I4s' or 'Q8s') *)
}.

Definition CLASSIC_LE := mkDescriptor 42 LittleEndian 4 fmt_I 4 fmt_I 2 fmt_H 12.
Definition CLASSIC_BE := mkDescriptor 42 BigEndian 4 fmt_I 4 fmt_I 2 fmt_H 12.
Definition BIG_LE := mkDescriptor 43 LittleEndian 8 fmt_Q 8 fmt_Q 8 fmt_Q 20.
Definition BIG_BE := mkDescriptor 43 BigEndian 8 fmt_Q 8 fmt_Q 8 fmt_Q 20.
Definition NDPI_LE := mkDescriptor 42 LittleEndian 4 fmt_I 8 fmt_Q 2 fmt_H 12.

(** [TIFF.DATA_FORMATS]; [None] is KeyError. *)
Definition DATA_FORMATS (type_ : Z) : option dtype_fmt :=
  match type_ with
  | 1 => Some (mkDtype 1 c_B)
  | 2 => Some (mkDtype 1 c_s)
  | 3 => Some (mkDtype 1 c_H)
  | 4 => Some (mkDtype 1 c_I)
  | 5 => Some (mkDtype 2 c_I)
  | 6 => Some (mkDtype 1 c_b)
  | 7 => Some (mkDtype 1 c_B)
  | 8 => Some (mkDtype 1 c_h)
  | 9 => Some (mkDtype 1 c_i)
  | 10 => Some (mkDtype 2 c_i)
  | 11 => Some (mkDtype 1 c_f)
  | 12 => Some (mkDtype 1 c_d)
  | 13 => Some (mkDtype 1 c_I)
  | 16 => Some (mkDtype 1 c_Q)
  | 17 => Some (mkDtype 1 c_q)
  | 18 => Some (mkDtype 1 c_Q)
  | _ => None
  end.

Definition mem (x : Z) (xs : list Z) : bool := existsb (Z.eqb x) xs.

(** The keys of [TIFF.TAG_READERS]: codes always read out of line. *)
Definition TAG_READERS_codes : list Z :=
  [320; 33723; 33628; 33629; 33630; 33631; 34118; 34361; 34362; 34363;
   34386; 34412; 34680; 34682; 37706; 37724; 33923; 43314; 40100; 50288;
   50296; 50839; 51123; 33471; 33560; 34665; 34853; 40965].
Definition in_TAG_READERS (code : Z) : bool := mem code TAG_READERS_codes.

(** [TIFF.TAG_TUPLE]. *)
Definition in_TAG_TUPLE (code : Z) : bool :=
  mem code [273; 279; 324; 325; 330; 530; 531; 34736].

(** The keys of [TIFF.TAG_ENUM]. *)
Definition in_TAG_ENUM (code : Z) : bool :=
  mem code [255; 259; 262; 263; 266; 274; 284; 290; 296; 300; 317; 338; 339].

End TIFF.

(* ================================================================== *)
(** * TiffFile.__init__ : header dispatch *)

Module TiffFile.

(** [{b'II': '<', b'MM': '>'}[header[:2]]]; [None] stands for KeyError. *)
Definition order_mark (mark : list byte) : option byteorder :=
  match mark with
  | [x49; x49] => Some LittleEndian
  | [x4d; x4d] => Some BigEndian
  | _ => None
  end.

(** The part of [TiffFile.__init__] between [fh.seek(0)] and the creation
    of [TiffPages]: it returns the selected descriptor ([self.tiff]) and
    leaves the channel at the offset to the first page.  [is_ndpi] is
    [kwargs.get('is_ndpi', False)]. *)
Definition read_header (is_ndpi : bool) : M World TIFF.descriptor :=
  fh_seek 0 ;;;
  header <- fh_read 4 ;;
  match order_mark (py_slice header 0 2) with
  | None => raise (TiffFileError "not a TIFF file" [])
  | Some bo =>
      version <- lift (unpack bo fmt_H (py_slice header 2 4)) ;;
      if version =? 43 then
        field <- fh_read 4 ;;
        oz <- lift (unpack_HH bo field) ;;
        let '(offsetsize, zero) := oz in
        if negb (zero =? 0) || negb (offsetsize =? 8)
        then raise (TiffFileError "invalid BigTIFF file" [])
        else match bo with
             | BigEndian => ret TIFF.BIG_BE
             | LittleEndian => ret TIFF.BIG_LE
             end
      else if version =? 42 then
        match bo with
        | BigEndian => ret TIFF.CLASSIC_BE
        | LittleEndian => if is_ndpi then ret TIFF.NDPI_LE
                          else ret TIFF.CLASSIC_LE
        end
      else raise (TiffFileError "invalid TIFF file" [])
  end.

End TiffFile.

(* ================================================================== *)
(** * Values held by tags *)

(** Numbers: Python ints, and IEEE floats kept as their bit patterns. *)
Inductive num : Type :=
  | NInt (z : Z)
  | NFloat32 (bits : Z)
  | NFloat64 (bits : Z).

Inductive pyvalue : Type :=
  | PNum (x : num)
  | PTuple (xs : list num)
  | PBytes (bs : list byte)
  | PBytes1 (bs : list byte)   (* the 1-tuple (bs,) that struct returns for 's' *)
  | PStr (bs : list byte)      (* a str, given by the bytes it was decoded from *)
  | PArray (xs : list num)     (* numpy.ndarray *)
  | POpaque (id : Z).          (* what a TAG_READERS function returns *)

(** [len(value)]. *)
Definition py_len (v : pyvalue) : result Z :=
  match v with
  | PTuple xs | PArray xs => Ok (Z.of_nat (length xs))
  | PBytes bs | PStr bs => Ok (Z.of_nat (length bs))
  | PBytes1 _ => Ok 1
  | PNum _ | POpaque _ => Raise (TypeError "object has no len()")
  end.

(** The exact value of a finite IEEE float as (mantissa, exponent, negative). *)
Definition float_parts (ebits fbits : Z) (bits : Z) : option (Z * Z * bool) :=
  let frac := bits mod 2 ^ fbits in
  let e := (bits / 2 ^ fbits) mod 2 ^ ebits in
  let neg := Z.odd (bits / 2 ^ (fbits + ebits)) in
  let bias := 2 ^ (ebits - 1) - 1 in
  if e =? 2 ^ ebits - 1 then None (* inf, nan *)
  else if e =? 0 then Some (frac, 1 - bias - fbits, neg)
  else Some (2 ^ fbits + frac, e - bias - fbits, neg).

Definition float_eq_int (ebits fbits bits : Z) (w : Z) : bool :=
  match float_parts ebits fbits bits with
  | None => false
  | Some (m, e, neg) =>
      let a := Z.abs w in
      (if 0 <=? e then m * 2 ^ e =? a else m =? a * 2 ^ (- e))
      && ((m =? 0) || Bool.eqb neg (w <? 0))
  end.

(** [x == w] for a number [x] and an int [w]. *)
Definition num_eq_int (x : num) (w : Z) : bool :=
  match x with
  | NInt z => z =? w
  | NFloat32 b => float_eq_int 8 23 b w
  | NFloat64 b => float_eq_int 11 52 b w
  end.

(** [w != v] for an int [w] and a tag value [v]. *)
Definition py_ne_int (w : Z) (v : pyvalue) : bool :=
  match v with
  | PNum x => negb (num_eq_int x w)
  | _ => true
  end.

(* ================================================================== *)
(** * struct.calcsize and struct.unpack on the tag data formats *)

(** CPython's limit on the size of a struct format (64-bit platform). *)
Definition PY_SSIZE_T_MAX : Z := 2 ^ 63 - 1.

(** [struct.calcsize('%s%i%s' % (byteorder, n, c))]. *)
Definition struct_calcsize (n : Z) (c : fmtchar) : result Z :=
  if n * itemsize c >? PY_SSIZE_T_MAX then Raise struct_error
  else Ok (n * itemsize c).

Definition signed (width : Z) (u : Z) : Z :=
  if u <? 2 ^ (width - 1) then u else u - 2 ^ width.

Definition decode_item (bo : byteorder) (c : fmtchar) (bs : list byte) : num :=
  let u := bytes_to_Z bo bs in
  match c with
  | c_B | c_s | c_H | c_I | c_Q => NInt u
  | c_b => NInt (signed 8 u)
  | c_h => NInt (signed 16 u)
  | c_i => NInt (signed 32 u)
  | c_q => NInt (signed 64 u)
  | c_f => NFloat32 u
  | c_d => NFloat64 u
  end.

Fixpoint chunks (k : nat) (width : nat) (bs : list byte) : list (list byte) :=
  match k with
  | O => []
  | S k' => firstn width bs :: chunks k' width (skipn width bs)
  end.

Definition decode_items (bo : byteorder) (n : Z) (c : fmtchar) (bs : list byte) : list num :=
  map (decode_item bo c) (chunks (Z.to_nat n) (Z.to_nat (itemsize c)) bs).

(** [struct.unpack('%s%i%s' % (byteorder, n, c), data)]. *)
Definition struct_unpack (bo : byteorder) (n : Z) (c : fmtchar) (data : list byte)
  : result pyvalue :=
  match struct_calcsize n c with
  | Raise e => Raise e
  | Ok size =>
      if negb (Z.of_nat (length data) =? size) then Raise struct_error
      else match c with
           | c_s => Ok (PBytes1 data)
           | _ => Ok (PTuple (decode_items bo n c data))
           end
  end.

(* ================================================================== *)
(** * TiffTag *)

Module TiffTag.

(** The parts of the module that [TiffTag.__init__] consults and that are
    taken as given: the name registry [TIFF.TAGS], the functions stored in
    [TIFF.TAG_READERS], the enumerations of [TIFF.TAG_ENUM] and the text
    codec behind [bytes2str]. *)
Record TagEnv : Type := mkTagEnv {
  in_TAGS : Z -> bool;
  readfunc : Z -> byteorder -> dtype_fmt -> Z -> Z -> M World pyvalue;
  enum_member : Z -> num -> option Z;   (* t(v), None for ValueError *)
  decodable : list byte -> bool         (* bytes2str does not raise *)
}.

Record t : Type := mk {
  code : Z;
  count : Z;
  dtype : dtype_fmt;
  value : pyvalue;
  valueoffset : Z
}.

(** [stripascii(string)]: truncate after the last byte [c] with [8 < c < 127]. *)
Fixpoint stripascii (bs : list byte) : list byte :=
  match bs with
  | [] => []
  | b :: r =>
    match stripascii r with
    | [] => let c := Z.of_N (Byte.to_N b) in
            if (8 <? c) && (c <? 127) then [b] else []
    | r' => b :: r'
    end
  end.

Definition is_space (b : byte) : bool :=
  let c := Z.of_N (Byte.to_N b) in
  (c =? 32) || ((9 <=? c) && (c <=? 13)).

Fixpoint lstrip (bs : list byte) : list byte :=
  match bs with
  | [] => []
  | b :: r => if is_space b then lstrip r else bs
  end.

(** [bytes.strip()]. *)
Definition strip (bs : list byte) : list byte := rev (lstrip (rev (lstrip bs))).

Fixpoint all_some {A} (xs : list (option A)) : option (list A) :=
  match xs with
  | [] => Some []
  | None :: _ => None
  | Some a :: r => match all_some r with Some l => Some (a :: l) | None => None end
  end.

Section init.

Variable env : TagEnv.
Variable tiff : TIFF.descriptor.

(** [struct.unpack(tiff.tagformat2, data)]: the count and the raw value
    field. *)
Definition unpack_tagformat2 (data : list byte) : result (Z * list byte) :=
  let osz := TIFF.offsetsize tiff in
  if Z.of_nat (length data) =? 2 * osz
  then Ok (bytes_to_Z (TIFF.byteorder_ tiff) (firstn (Z.to_nat osz) data),
       skipn (Z.to_nat osz) data)
  else Raise struct_error.

(** [read_bytes(fh, byteorder, dtype, count, offsetsize)]. *)
Definition read_bytes (dt : dtype_fmt) (count : Z) : M World pyvalue :=
  let count := count * itemsize (dt_c dt) in
  data <- fh_read count ;;
  (if negb (Z.of_nat (length data) =? count)
  then log_warning "read_bytes: failed to read all bytes (%i < %i)"
      [Z.of_nat (length data); count]
  else ret tt) ;;;
  ret (PBytes data).

(** [read_numpy(fh, byteorder, dtype, count, offsetsize)], through
    [FileHandle.read_array]. *)
Definition read_numpy (dt : dtype_fmt) (count : Z) : M World pyvalue :=
  let c := match dt_c dt with c_s => c_b | c => c end in
  let size := count * itemsize c in
  data <- fh_read size ;;
  if negb (Z.of_nat (length data) =? size)
  then raise (ValueError "failed to read %i bytes")
  else ret (PArray (decode_items (TIFF.byteorder_ tiff) count c data)).

Definition is_c_B (c : fmtchar) : bool := match c with c_B => true | _ => false end.
Definition is_c_s (c : fmtchar) : bool := match c with c_s => true | _ => false end.

(** The items of a value when it is iterated. *)
Definition py_items (v : pyvalue) : option (list num) :=
  match v with
  | PTuple xs | PArray xs => Some xs
  | PBytes bs => Some (map (fun b => NInt (Z.of_N (Byte.to_N b))) bs)
  | _ => None
  end.

(** [value[0]] of a value of length one. *)
Definition py_first (v : pyvalue) : pyvalue :=
  match v with
  | PTuple (x :: _) | PArray (x :: _) => PNum x
  | PBytes (b :: _) => PNum (NInt (Z.of_N (Byte.to_N b)))
  | PBytes1 bs => PBytes bs
  | _ => v
  end.

(** The first half of [TiffTag.__init__], after the size of the encoded
    value is known: where the value is and what it is, before the
    normalisation of strings, enumerations and single values. *)
Definition read_value (tagoffset code type_ count : Z) (value : list byte)
       (dtype : dtype_fmt) (size : Z) : M World (Z * pyvalue) :=
  let byteorder := TIFF.byteorder_ tiff in
  let offsetsize := TIFF.offsetsize tiff in
  let n := count * dt_n dtype in
  let c := dt_c dtype in
  if (size >? offsetsize) || TIFF.in_TAG_READERS code then
  offset <- lift (unpack byteorder (TIFF.offsetformat tiff) value) ;;
  w <- get ;;
  if (offset <? 8) || (offset >? fh_size (fh w) - size)
  then raise (TiffFileError "invalid tag value offset" [])
  else
  fh_seek offset ;;;
  v <- (if TIFF.in_TAG_READERS code
        then readfunc env code byteorder dtype count offsetsize
        else if (type_ =? 7) || ((count >? 1) && is_c_B c)
        then read_bytes dtype count
        else if in_TAGS env code || is_c_s c
        then data <- fh_read size ;;
             lift (struct_unpack byteorder n c data)
        else read_numpy dtype count) ;;
  ret (offset, v)
  else if is_c_B c || (type_ =? 7)
  then ret (tagoffset + offsetsize + 4, PBytes (py_slice value 0 size))
  else v <- lift (struct_unpack byteorder n c (py_slice value 0 size)) ;;
   ret (tagoffset + offsetsize + 4, v).

(** The second half: strings, enumerations, single values. *)
Definition normalise (code type_ count : Z) (dtype : dtype_fmt)
       (valueoffset : Z) (value : pyvalue) : M World t :=
  let c := dt_c dtype in
  let process := negb (TIFF.in_TAG_READERS code)
             && negb (TIFF.in_TAG_TUPLE code) && negb (type_ =? 7) in
  match value with
  | PBytes1 bs =>
  if process && is_c_s c then
    (* TIFF ASCII fields *)
    let s := strip (stripascii bs) in
    if decodable env s
    then ret (mk code count dtype (PStr s) valueoffset)
    else log_warning "TiffTag %i: coercing invalid ASCII to bytes" [code] ;;;
         ret (mk code count (mkDtype 1 c_B) (PBytes bs) valueoffset)
  else
    (if TIFF.in_TAG_ENUM code
     then log_warning "TiffTag  %i: %s" [code] else ret tt) ;;;
    ret (mk code count dtype
           (if process then PBytes bs else value) valueoffset)
  | _ =>
  value <- (if TIFF.in_TAG_ENUM code then
              match py_items value with
              | Some xs =>
                  match all_some (map (enum_member env code) xs) with
                  | Some ms => ret (PTuple (map NInt ms))
                  | None => log_warning "TiffTag  %i: %s" [code] ;;;
                            ret value
                  end
              | None => raise (TypeError "object is not iterable")
              end
            else ret value) ;;
  value <- (if process
            then len <- lift (py_len value) ;;
                 ret (if len =? 1 then py_first value else value)
            else ret value) ;;
  ret (mk code count dtype value valueoffset)
  end.

(** [TiffTag.__init__(parent, tagheader, tagoffset)]. *)
Definition init (tagheader : list byte) (tagoffset : Z) : M World t :=
  let byteorder := TIFF.byteorder_ tiff in
  ct <- lift (unpack_HH byteorder (py_slice tagheader 0 4)) ;;
  let '(code, type_) := ct in
  cv <- lift (unpack_tagformat2 (skipn 4 tagheader)) ;;
  let '(count, value) := cv in
  match TIFF.DATA_FORMATS type_ with
  | None => raise (TiffFileError "unknown tag data type %i" [type_])
  | Some dtype =>
  size <- lift (struct_calcsize (count * dt_n dtype) (dt_c dtype)) ;;
  ov <- read_value tagoffset code type_ count value dtype size ;;
  normalise code type_ count dtype (fst ov) (snd ov)
  end.

End init.

End TiffTag.

(* ================================================================== *)
(** * Computations that only raise *)

Definition rbind {A B} (r : result A) (k : A -> result B) : result B :=
  match r with Ok a => k a | Raise e => Raise e end.

Notation "x <~ m ;; k" := (rbind m (fun x => k))
  (at level 100, m at next level, right associativity) : py_scope.

(** What [lazyattr.__get__] does with an exception of the wrapped function. *)
Definition lazyattr {A} (r : result A) : result A :=
  match r with
  | Raise AttributeError => Raise (RuntimeError "AttributeError")
  | _ => r
  end.

(* ================================================================== *)
(** * TiffPage: the attributes of a parsed directory and its layout queries *)

Module TiffPage.

(** [bitspersample]: an int, or a tuple when the samples differ. *)
Inductive bits : Type := Bits (z : Z) | BitsTuple (zs : list Z).

(** The attributes that [TiffPage.__init__] leaves on the object.  The
    layout attributes are those of pages whose tags hold integers; [dtype]
    is the struct character of the numpy type, [None] when
    [TIFF.SAMPLE_DTYPES] has no entry. *)
Record t : Type := mk {
  oid : Z;                      (* identity of the Python object *)
  index : Z;
  offset : Z;
  tags : list (string * TiffTag.t);
  imagewidth : Z;
  imagelength : Z;
  imagedepth : Z;
  tilewidth : Z;
  tilelength : Z;
  tiledepth : Z;
  bitspersample : bits;
  samplesperpixel : Z;
  rowsperstrip : option Z;
  compression : Z;
  planarconfig : Z;
  fillorder : Z;
  photometric : Z;
  predictor : Z;
  _shape : list Z;
  shape : list Z;
  dtype : option fmtchar;
  dataoffsets : list Z;
  databytecounts : list Z
}.

Definition lookup (self : t) (name : string) : option TiffTag.t :=
  match find (fun kv => String.eqb (fst kv) name) (tags self) with
  | Some kv => Some (snd kv)
  | None => None
  end.

(** [name in self.tags]. *)
Definition has_tag (self : t) (name : string) : bool :=
  match lookup self name with Some _ => true | None => false end.

Definition is_tiled (self : t) : bool := has_tag self "TileWidth".
Definition is_stk (self : t) : bool := has_tag self "UIC2tag".

(** [value != (1, 1)]. *)
Definition ne_1_1 (v : pyvalue) : bool :=
  match v with
  | PTuple [a; b] => negb (num_eq_int a 1 && num_eq_int b 1)
  | _ => true
  end.

Definition is_subsampled (self : t) : bool :=
  match lookup self "YCbCrSubSampling" with
  | Some tag => ne_1_1 (TiffTag.value tag)
  | None => false
  end.

Definition bits_in (b : bits) (allowed : list Z) : bool :=
  match b with
  | Bits z => TIFF.mem z allowed
  | BitsTuple _ => false
  end.

(** The generator inside [all(...)] of [is_contiguous], from index [i]
    for [k] more indices. *)
Fixpoint all_adjacent (offsets bytecounts : list Z) (k : nat) (i : Z) : result bool :=
  match k with
  | O => Ok true
  | S k' =>
      o_i <~ py_index offsets i ;;
      b_i <~ py_index bytecounts i ;;
      o_n <~ py_index offsets (i + 1) ;;
      ok <~ (if o_i + b_i =? o_n then Ok true
             else b_n <~ py_index bytecounts (i + 1) ;; Ok (b_n =? 0)) ;;
      if ok then all_adjacent offsets bytecounts k' (i + 1) else Ok false
  end.

Definition sum (xs : list Z) : Z := fold_right Z.add 0 xs.

(** [is_contiguous]: offset and size of contiguous data, else None. *)
Definition is_contiguous (self : t) : result (option (Z * Z)) :=
  lazyattr (
  if negb (compression self =? 1) || negb (bits_in (bitspersample self) [8; 16; 32; 64])
  then Ok None
  else
    tiled_ok <~ (if has_tag self "TileWidth" then
                   c1 <~ (if negb (imagewidth self =? tilewidth self) then Ok true
                          else
                            m1 <~ pymod (imagelength self) (tilelength self) ;;
                            if negb (m1 =? 0) then Ok true
                            else if negb (tilewidth self mod 16 =? 0) then Ok true
                            else Ok (negb (tilelength self mod 16 =? 0))) ;;
                   if c1 then Ok false
                   else if has_tag self "ImageDepth" && has_tag self "TileDepth" then
                     c2 <~ (if negb (imagelength self =? tilelength self) then Ok true
                            else m2 <~ pymod (imagedepth self) (tiledepth self) ;;
                                 Ok (negb (m2 =? 0))) ;;
                     Ok (negb c2)
                   else Ok true
                 else Ok true) ;;
    if negb tiled_ok then Ok None
    else
      let offsets := dataoffsets self in
      let bytecounts := databytecounts self in
      if Z.of_nat (length offsets) =? 1 then
        o <~ py_index offsets 0 ;;
        b <~ py_index bytecounts 0 ;;
        Ok (Some (o, b))
      else
        adj <~ (if is_stk self then Ok true
                else all_adjacent offsets bytecounts (length offsets - 1) 0) ;;
        if adj then
          o <~ py_index offsets 0 ;;
          Ok (Some (o, sum bytecounts))
        else Ok None).

(** [_offsetscounts]: simplified offsets and bytecounts. *)
Definition _offsetscounts (self : t) : result (list Z * list Z) :=
  lazyattr (
  c <~ is_contiguous self ;;
  match c with
  | Some (offset, bytecount) => Ok ([offset], [bytecount])
  | None => Ok (dataoffsets self, databytecounts self)
  end).

(** [is_final]: the truth value of the [and] chain. *)
Definition is_final (self : t) : result bool :=
  lazyattr (
  c <~ is_contiguous self ;;
  Ok (match c with
      | None => false
      | Some _ => (fillorder self =? 1) && (predictor self =? 1)
                  && negb (is_subsampled self)
      end)).

(** What a page reaches through [self.parent]: the TiffFile's format
    descriptor and its file handle. *)
Record parent : Type := mkParent {
  parent_tiff : TIFF.descriptor;
  filehandle : FileHandle
}.

(** [is_memmappable]: the truth value of the [and] chain. *)
Definition is_memmappable (p : parent) (self : t) : result bool :=
  lazyattr (
  if negb (fh_is_file (filehandle p)) then Ok false
  else
    f <~ is_final self ;;
    if negb f then Ok false
    else
      (* (self.bitspersample == 8 or self.parent.isnative) and
         is commented out in the source *)
      c <~ is_contiguous self ;;
      match c, dtype self with
      | Some (offset, _), Some ch => Ok (offset mod itemsize ch =? 0)
      | Some _, None => Raise AttributeError
      | None, _ => Raise (TypeError "'NoneType' object is not subscriptable")
      end).

End TiffPage.

(* ================================================================== *)
(** * TiffFrame *)

Module TiffFrame.

Record t : Type := mk {
  index : Z;
  offset : option Z;
  _offsetscounts : pyvalue * pyvalue;
  _keyframe : option TiffPage.t
}.

(** [not value] for the values a frame stores as offsets. *)
Definition is_empty (v : pyvalue) : bool :=
  match v with
  | PTuple [] | PArray [] | PBytes [] | PStr [] => true
  | PNum x => num_eq_int x 0
  | _ => false
  end.

(** [(value[0],)]. *)
Definition first_item (v : pyvalue) : result num :=
  match v with
  | PTuple (x :: _) | PArray (x :: _) => Ok x
  | PBytes (b :: _) => Ok (NInt (Z.of_N (Byte.to_N b)))
  | PTuple [] | PArray [] | PBytes [] | PStr [] =>
      Raise (IndexError "index out of range")
  | _ => Raise (TypeError "object is not subscriptable")
  end.

(** The [keyframe] setter: the frame after the assignment, or the
    exception, in which case the frame is unchanged. *)
Definition set_keyframe (self : t) (keyframe : TiffPage.t) : result t :=
  match _keyframe self with
  | Some k =>
      if TiffPage.oid k =? TiffPage.oid keyframe then Ok self
      else Raise (RuntimeError "cannot reset keyframe")
  | None =>
      len <~ py_len (fst (_offsetscounts self)) ;;
      if negb (len =? Z.of_nat (length (TiffPage.dataoffsets keyframe)))
      then Raise (RuntimeError "incompatible keyframe")
      else
        c <~ TiffPage.is_contiguous keyframe ;;
        match c with
        | Some (_, bytecount) =>
            x <~ first_item (fst (_offsetscounts self)) ;;
            Ok (mk (index self) (offset self)
                   (PTuple [x], PTuple [NInt bytecount]) (Some keyframe))
        | None =>
            Ok (mk (index self) (offset self) (_offsetscounts self) (Some keyframe))
        end
  end.

(** The assignment [frame.keyframe = keyframe] as an action on the frame
    object: an exception leaves the object as it was. *)
Definition assign_keyframe (keyframe : TiffPage.t) : M t unit := fun self =>
  match set_keyframe self keyframe with
  | Ok self' => (Ok tt, self')
  | Raise e => (Raise e, self)
  end.

Section init.

Variable env : TiffTag.TagEnv.
Variable tiff : TIFF.descriptor.

(** The loop of [_gettags] over the [tagno] entries of [tagbytes]. *)
Fixpoint gettags_loop (codes : list Z) (tagbytes : list byte) (tagoffset : Z)
       (k : nat) (tagindex : Z) : M World (list (Z * TiffTag.t)) :=
  match k with
  | O => ret []
  | S k' =>
    let tagsize := TIFF.tagsize tiff in
    let tagindex := tagindex + tagsize in
    code <- lift (unpack (TIFF.byteorder_ tiff) fmt_H
                    (py_slice tagbytes tagindex (tagindex + 2))) ;;
    if negb (Nat.eqb (length codes) 0) && negb (TIFF.mem code codes)
    then gettags_loop codes tagbytes tagoffset k' tagindex
    else fun w =>
      match TiffTag.init env tiff
              (py_slice tagbytes tagindex (tagindex + tagsize))
              (tagoffset + tagindex) w with
      | (Raise (TiffFileError msg args), w') =>
          (log_warning "%s: %s" [] ;;;
           gettags_loop codes tagbytes tagoffset k' tagindex) w'
      | (Raise e, w') => (Raise e, w')
      | (Ok tag, w') =>
          (rest <- gettags_loop codes tagbytes tagoffset k' tagindex ;;
           ret ((code, tag) :: rest)) w'
      end
  end.

(** [_gettags(codes)] for a frame at [offset] (no lock). *)
Definition _gettags (offset : Z) (codes : list Z) : M World (list (Z * TiffTag.t)) :=
  fh_seek offset ;;;
  raw <- fh_read (TIFF.tagnosize tiff) ;;
  match unpack (TIFF.byteorder_ tiff) (TIFF.tagnoformat tiff) raw with
  | Raise _ => raise (TiffFileError "corrupted page list at offset %i" [offset])
  | Ok tagno =>
    if tagno >? 4096
    then raise (TiffFileError "corrupted page list at offset %i" [offset])
    else
      let tagoffset := offset + TIFF.tagnosize tiff in
      let tagsize := TIFF.tagsize tiff in
      tagbytes <- fh_read (tagsize * tagno) ;;
      gettags_loop codes tagbytes tagoffset (Z.to_nat tagno) (- tagsize)
  end.

(** The loop of [__init__] over the tags that were read. *)
Fixpoint scan_tags (keyframe : option TiffPage.t) (tags : list (Z * TiffTag.t))
       (dataoffsets databytecounts : pyvalue) : result (pyvalue * pyvalue) :=
  match tags with
  | [] => Ok (dataoffsets, databytecounts)
  | (code, tag) :: rest =>
    if (code =? 273) || (code =? 324)
    then scan_tags keyframe rest (TiffTag.value tag) databytecounts
    else if (code =? 279) || (code =? 325)
    then scan_tags keyframe rest dataoffsets (TiffTag.value tag)
    else if code =? 256 then
      match keyframe with
      | None => Raise AttributeError
      | Some kf =>
          if py_ne_int (TiffPage.imagewidth kf) (TiffTag.value tag)
          then Raise (RuntimeError "incompatible keyframe")
          else scan_tags keyframe rest dataoffsets databytecounts
      end
    else scan_tags keyframe rest dataoffsets databytecounts
  end.

(** [self.offset] once the channel is positioned: the given offset, or
    the current position. *)
Definition start (offset : option Z) : M World Z :=
  match offset with
  | None => fh_tell
  | Some o => fh_seek o ;;; ret o
  end.

(** The codes that are read for a frame. *)
Definition wanted (keyframe : option TiffPage.t) : result (list Z) :=
  match keyframe with
  | None => Ok [273; 279; 324; 325]
  | Some kf =>
    c <~ TiffPage.is_contiguous kf ;;
    match c with
    | Some _ => Ok [256; 273; 324]
    | None => Ok [256; 273; 279; 324; 325]
    end
  end.

(** [TiffFrame.__init__(parent, index, offset, keyframe, offsets,
    bytecounts)]; [virtual] is the pair (offsets, bytecounts) when
    [offsets is not None]. *)
Definition init (index : Z) (offset : option Z) (keyframe : option TiffPage.t)
         (virtual : option (pyvalue * pyvalue)) : M World t :=
  match virtual with
  | Some oc => ret (mk index offset oc keyframe)
  | None =>
    offset <- start offset ;;
    codes <- lift (wanted keyframe) ;;
    tags <- _gettags offset codes ;;
    oc <- lift (scan_tags keyframe tags (PTuple []) (PTuple [])) ;;
    (if is_empty (fst oc)
     then log_warning "TiffFrame %i is missing required tags" [index]
     else ret tt) ;;;
    let self := mk index (Some offset) oc None in
    match keyframe with
    | None => ret self
    | Some kf => lift (set_keyframe self kf)
    end
  end.

End init.

End TiffFrame.

(* ================================================================== *)
(** * TiffPages: the directory chain and its walker *)

Module TiffPages.

(** An entry of [self.pages]: an offset, a TiffPage or a TiffFrame. *)
Inductive slot : Type :=
  | SlotOffset (offset : Z)
  | SlotPage (page : TiffPage.t)
  | SlotFrame (frame : TiffFrame.t).

(** [page if isinstance(page, inttypes) else page.offset]; [None] is the
    offset of a virtual frame. *)
Definition slot_offset (p : slot) : option Z :=
  match p with
  | SlotOffset o => Some o
  | SlotPage pg => Some (TiffPage.offset pg)
  | SlotFrame fr => TiffFrame.offset fr
  end.

(** [page.offset], an attribute that an int does not have. *)
Definition attr_offset (p : slot) : result (option Z) :=
  match p with
  | SlotOffset _ => Raise AttributeError
  | SlotPage pg => Ok (Some (TiffPage.offset pg))
  | SlotFrame fr => Ok (TiffFrame.offset fr)
  end.

Record t : Type := mk {
  world : World;                 (* parent.filehandle and the logger *)
  tiff : TIFF.descriptor;        (* parent.tiff *)
  parent_is_scanimage : bool;    (* parent.is_scanimage *)
  pages : list slot;
  _indexed : bool;
  _nextpageoffset : option Z;
  stdout : list Z                (* what [print] wrote *)
}.

Definition set_world (w : World) (s : t) : t :=
  mk w (tiff s) (parent_is_scanimage s) (pages s) (_indexed s)
     (_nextpageoffset s) (stdout s).
Definition set_pages (ps : list slot) (s : t) : t :=
  mk (world s) (tiff s) (parent_is_scanimage s) ps (_indexed s)
     (_nextpageoffset s) (stdout s).
Definition set_indexed (b : bool) (s : t) : t :=
  mk (world s) (tiff s) (parent_is_scanimage s) (pages s) b
     (_nextpageoffset s) (stdout s).
Definition set_nextpageoffset (o : Z) (s : t) : t :=
  mk (world s) (tiff s) (parent_is_scanimage s) (pages s) (_indexed s)
     (Some o) (stdout s).
Definition print (x : Z) (s : t) : t :=
  mk (world s) (tiff s) (parent_is_scanimage s) (pages s) (_indexed s)
     (_nextpageoffset s) (stdout s ++ [x]).

(** Run a computation on the channel and the logger of the parent. *)
Definition io {A} (m : M World A) : M t A := fun s =>
  let (r, w) := m (world s) in (r, set_world w s).

(** [fh.seek(offset)] where the offset may be None. *)
Definition seek_slot (o : option Z) : M t unit :=
  match o with
  | Some z => io (fh_seek z)
  | None => raise (TypeError "an integer is required")
  end.

(** The guarded read of the tag count:
    [tagno = unpack(tagnoformat, fh.read(tagnosize))[0]] followed by the
    test [tagno > 4096]; the exception is whatever the [try] block raised. *)
Definition read_tagno : M t Z :=
  s <- get ;;
  raw <- io (fh_read (TIFF.tagnosize (tiff s))) ;;
  tagno <- lift (unpack (TIFF.byteorder_ (tiff s)) (TIFF.tagnoformat (tiff s)) raw) ;;
  if tagno >? 4096
  then raise (TiffFileError "suspicious number of tags: %i" [tagno])
  else ret tagno.

(** The [except Exception] handler shared by both branches, up to the
    statement that ends it ([raise] or [break]). *)
Definition corrupted (lenpages offset : Z) : M t unit :=
  io (log_warning "TiffPages: corrupted tag list of page %i @ %i" [lenpages; offset]) ;;;
  modify (fun s => set_pages (removelast (pages s)) s) ;;;
  modify (set_indexed true).

(** [unpack(offsetformat, fh.read(offsetsize))[0]] at [_nextpageoffset]. *)
Definition read_next_offset : M t Z :=
  s <- get ;;
  raw <- io (fh_read (TIFF.ifdoffsetsize (tiff s))) ;;
  lift (unpack (TIFF.byteorder_ (tiff s)) (TIFF.ifdoffsetformat (tiff s)) raw).

(** [offset == (p if isinstance(p, inttypes) else p.offset)] for some [p]
    of [pages[:-1]]. *)
Definition seen_before (offset : Z) (ps : list slot) : bool :=
  existsb (fun p => match slot_offset p with
                    | Some o => offset =? o
                    | None => false
                    end) (removelast ps).

(** The [while lenpages < maxpages] loop of the general branch; it
    returns the value of [lenpages] when the loop is left.  The loop
    variable [lenpages] grows by one in every iteration that continues,
    so [fuel] = [maxpages - lenpages] iterations exhaust the condition. *)
Fixpoint walk (fuel : nat) (index maxpages offset lenpages : Z) : M t Z :=
  match fuel with
  | O => ret lenpages
  | S fuel' =>
      if negb (lenpages <? maxpages) then ret lenpages
      else
        io (fh_seek offset) ;;;
        fun s0 =>
        match read_tagno s0 with
        | (Raise _, s1) =>
            (corrupted lenpages offset ;;; ret (lenpages - 1)) s1
        | (Ok tagno, s1) =>
            (s <- get ;;
             let next := offset + TIFF.tagnosize (tiff s) + tagno * TIFF.tagsize (tiff s) in
             modify (set_nextpageoffset next) ;;;
             io (fh_seek next) ;;;
             offset <- read_next_offset ;;
             if offset =? 0 then
               modify (set_indexed true) ;;; ret lenpages
             else
               s <- get ;;
               if offset >=? fh_size (fh (world s)) then
                 io (log_warning "TiffPages: invalid page offset (%i)" [offset]) ;;;
                 modify (set_indexed true) ;;; ret lenpages
               else
                 modify (fun s => set_pages (pages s ++ [SlotOffset offset]) s) ;;;
                 let lenpages := lenpages + 1 in
                 if (0 <=? index) && (index <? lenpages) then ret lenpages
                 else
                   s <- get ;;
                   if (lenpages =? 100) && seen_before offset (pages s)
                   then raise (TiffFileError "invalid circular IFD reference" [])
                   else walk fuel' index maxpages offset lenpages) s1
        end
  end.

(** The ScanImage branch. *)
Definition seek_scanimage (page : slot) (offset lenpages : Z) : M t unit :=
  io (fh_seek offset) ;;;
  tagno <- (fun s0 =>
              match read_tagno s0 with
              | (Raise e, s1) => (corrupted lenpages offset ;;; raise e) s1
              | (Ok tagno, s1) => (Ok tagno, s1)
              end) ;;
  s <- get ;;
  modify (print (TIFF.tagnosize (tiff s) + tagno * TIFF.tagsize (tiff s))) ;;;
  modify (print offset) ;;;
  let next := offset + TIFF.tagnosize (tiff s) + tagno * TIFF.tagsize (tiff s) in
  modify (set_nextpageoffset next) ;;;
  io (fh_seek next) ;;;
  offset <- read_next_offset ;;
  po <- lift (attr_offset page) ;;
  match po with
  | None => raise (TypeError "unsupported operand type(s) for -")
  | Some page_offset =>
      let offset_unit := offset - page_offset in
      s <- get ;;
      int_lenpages <- lift (floordiv (fh_size (fh (world s)) - page_offset) offset_unit) ;;
      let _pages := map (fun i => SlotOffset (page_offset + offset_unit * Z.of_nat i))
                        (seq 1 (Z.to_nat (int_lenpages - 1))) in
      modify (fun s => set_pages (pages s ++ _pages) s) ;;;
      modify (set_indexed true)
  end.

(** The last statements of [_seek]: the range test against the local
    [lenpages] and the seek to the slot. *)
Definition land (index lenpages : Z) : M t unit :=
  if index >=? lenpages then raise (IndexError "index out of range")
  else
    s <- get ;;
    page <- lift (py_index (pages s) index) ;;
    seek_slot (slot_offset page).

(** [_seek(index, maxpages=None)]. *)
Definition _seek (index : Z) (maxpages : option Z) : M t unit :=
  s <- get ;;
  let lenpages := Z.of_nat (length (pages s)) in
  if lenpages =? 0 then raise (IndexError "index out of range")
  else if fh_closed (fh (world s)) then raise (ValueError "seek of closed file")
  else if _indexed s || ((0 <=? index) && (index <? lenpages)) then
    page <- lift (py_index (pages s) index) ;;
    seek_slot (slot_offset page)
  else
    page <- lift (py_index (pages s) (-1)) ;;
    let maxpages := match maxpages with None => 2 ^ 22 | Some m => m end in
    lenpages <- match slot_offset page with
                | None =>
                    (* [fh.seek(None)], reached unless the loop is empty *)
                    if parent_is_scanimage s || (lenpages <? maxpages)
                    then raise (TypeError "an integer is required")
                    else ret lenpages
                | Some offset =>
                    if parent_is_scanimage s then
                      seek_scanimage page offset lenpages ;;; ret lenpages
                    else
                      walk (Z.to_nat (maxpages - lenpages)) index maxpages
                           offset lenpages
                end ;;
    land index lenpages.

(** [__len__]: the page count. *)
Definition __len__ : M t Z :=
  s <- get ;;
  (if negb (_indexed s) then _seek (-1) None else ret tt) ;;;
  s <- get ;;
  ret (Z.of_nat (length (pages s))).

(** [str(exc)] for the exceptions of this module, without the formatted
    arguments. *)
Definition exn_str (e : exn) : string :=
  match e with
  | TiffFileError msg _ | IndexError msg | ValueError msg | RuntimeError msg
  | NotImplementedError msg | IOError msg | TypeError msg => msg
  | struct_error => "unpack requires a buffer"
  | AttributeError => "object has no attribute"
  | ZeroDivisionError => "integer division or modulo by zero"
  | KeyError | StopIteration | AssertionError => EmptyString
  end.

(** A slot as an operand of [-]: only offsets are ints. *)
Definition slot_int (p : slot) : result Z :=
  match p with
  | SlotOffset o => Ok o
  | _ => Raise (TypeError "unsupported operand type(s) for -")
  end.

(** [page._offsetscounts[1]] for the first slot. *)
Definition slot_bytecounts (p : slot) : result pyvalue :=
  match p with
  | SlotOffset _ => Raise AttributeError
  | SlotPage pg =>
      oc <~ TiffPage._offsetscounts pg ;;
      Ok (PTuple (map NInt (snd oc)))
  | SlotFrame fr => Ok (snd (TiffFrame._offsetscounts fr))
  end.

(** The elements of [range(start, stop, step)] for a positive step, at
    most [fuel] of them. *)
Fixpoint range_up (fuel : nat) (start stop step : Z) : list Z :=
  match fuel with
  | O => []
  | S fuel' => if start <? stop
               then start :: range_up fuel' (start + step) stop step
               else []
  end.

(** [range(start, stop, step)]. *)
Definition range (start stop step : Z) : result (list Z) :=
  if step =? 0 then Raise (ValueError "range() arg 3 must not be zero")
  else if step <? 0
  then Ok (map (fun x => - x) (range_up (Z.to_nat (start - stop)) (- start) (- stop) (- step)))
  else Ok (range_up (Z.to_nat (stop - start)) start stop step).

(** [bool(pages[1])]: an int is true unless it is 0, an object is true. *)
Definition slot_true (p : slot) : bool :=
  match p with
  | SlotOffset o => negb (o =? 0)
  | _ => true
  end.

Section virtual_frames.

(** [self._getitem(1, validate=page.hash)] for the first page [page]:
    the second page is built by TiffPage.__init__ from its directory. *)
Variable getitem : TiffPage.t -> M t TiffPage.t.

(** The [try] block of [_load_virtual_frames].  It returns the local
    variable [pages] when it rebinds it, together with the exception
    that was raised after that; an exception raised before leaves the
    local variable an alias of [self.pages].  TiffFile.__init__ calls
    the method right after the first page was read, so the first slot
    is a TiffPage; a TiffFrame there would become the keyframe of the
    virtual frames, which the frames of this model cannot hold, and the
    block ends at that point. *)
Definition virtual_frames_body : M t (option exn * list slot) :=
  s <- get ;;
  if Z.of_nat (length (pages s)) >? 1 then raise (ValueError "pages already loaded")
  else
    page <- lift (py_index (pages s) 0) ;;
    bytecounts <- lift (slot_bytecounts page) ;;
    len <- lift (py_len bytecounts) ;;
    if negb (len =? 1) then raise (ValueError "data not contiguous")
    else
      _seek 4 None ;;;
      s <- get ;;
      p1 <- lift (py_index (pages s) 1) ;;
      p2 <- lift (py_index (pages s) 2) ;;
      o1 <- lift (slot_int p1) ;;
      o2 <- lift (slot_int p2) ;;
      let delta := o2 - o1 in
      p3 <- lift (py_index (pages s) 3) ;;
      o3 <- lift (slot_int p3) ;;
      equidistant <- (if negb (o3 - o2 =? delta) then ret false
                      else
                        p4 <- lift (py_index (pages s) 4) ;;
                        o4 <- lift (slot_int p4) ;;
                        ret (o4 - o3 =? delta)) ;;
      if negb equidistant then raise (ValueError "page offsets not equidistant")
      else
        match page with
        | SlotPage pg =>
            page1 <- getitem pg ;;
            oc1 <- lift (TiffPage._offsetscounts page1) ;;
            first <- lift (py_index (fst oc1) 0) ;;
            let offsetoffset := first - TiffPage.offset page1 in
            if (offsetoffset <? 0) || (offsetoffset >? delta)
            then raise (ValueError "page offsets not equidistant")
            else
              s <- get ;;
              let local := [page; SlotPage page1] in
              let filesize := fh_size (fh (world s)) - delta in
              match range (TiffPage.offset page1 + delta) filesize delta with
              | Raise e => ret (Some e, local)
              | Ok offsets =>
                  let frames :=
                    map (fun io =>
                           SlotFrame (TiffFrame.mk (Z.of_nat (fst io) + 2) None
                                        (PTuple [NInt (snd io + offsetoffset)], bytecounts)
                                        (Some pg)))
                        (combine (seq 0 (length offsets)) offsets) in
                  ret (None, local ++ frames)
              end
        | _ => raise AttributeError
        end.

(** [_load_virtual_frames()].  The attributes [_cache] and [_cached],
    which it sets at the end, are not part of the state. *)
Definition _load_virtual_frames : M t unit := fun s =>
  let '(exc, local, s1) :=
    match virtual_frames_body s with
    | (Ok (exc, local), s1) => (exc, local, s1)
    | (Raise e, s1) => (Some e, pages s1, s1)
    end in
  ((match exc with
    | Some e => io (log_warning ("TiffPages: failed to load virtual frames: " ++ exn_str e) [])
    | None => ret tt
    end) ;;;
   p1 <- lift (py_index local 1) ;;
   if negb (slot_true p1) then raise AssertionError
   else
     modify (set_pages local) ;;;
     modify (set_indexed true)) s1.

End virtual_frames.

End TiffPages.

(* ================================================================== *)
(** * numpy arrays in C order *)

Module Np.

(** [slice(start, stop).indices(len)] for step 1. *)
Definition norm (len x : Z) : Z :=
  if x <? 0 then Z.max 0 (x + len) else Z.min x len.

(** Elementwise rewrite of the positions [a <= i < b] of a list whose
    first element has position [i]; [g] gets the position relative
    to [a]. *)
Fixpoint set_range {A} (xs : list A) (i a b : Z) (g : Z -> option A) : list A :=
  match xs with
  | [] => []
  | x :: r =>
      (if (a <=? i) && (i <? b)
       then match g (i - a) with Some v => v | None => x end
       else x) :: set_range r (i + 1) a b g
  end.

(** [xs[start:stop] = v] for a scalar [v]. *)
Definition fill_slice {A} (xs : list A) (start stop : Z) (v : A) : list A :=
  let len := Z.of_nat (length xs) in
  set_range xs 0 (norm len start) (norm len stop) (fun _ => Some v).

(** [xs[:stop]]. *)
Definition take {A} (xs : list A) (stop : Z) : list A :=
  firstn (Z.to_nat (norm (Z.of_nat (length xs)) stop)) xs.

(** [xs[start:stop] = src] for a one-dimensional [src]: the lengths must
    agree unless [src] has a single element, which is broadcast. *)
Definition assign_slice {A} (xs : list A) (start stop : Z) (src : list A)
  : result (list A) :=
  let len := Z.of_nat (length xs) in
  let a := norm len start in
  let b := norm len stop in
  let n := Z.max 0 (b - a) in
  match src with
  | [v] => Ok (set_range xs 0 a b (fun _ => Some v))
  | _ =>
      if Z.of_nat (length src) =? n
      then Ok (set_range xs 0 a b (fun k => nth_error src (Z.to_nat k)))
      else Raise (ValueError "could not broadcast input array")
  end.

(** Coordinates of a flat index, last axis first. *)
Fixpoint unravel_rev (rdims : list Z) (i : Z) : list Z :=
  match rdims with
  | [] => []
  | d :: r => (i mod d) :: unravel_rev r (i / d)
  end.

(** The coordinates of the flat index [i] in an array of shape [dims]. *)
Definition unravel (dims : list Z) (i : Z) : list Z :=
  rev (unravel_rev (rev dims) i).

(** The flat index of coordinates. *)
Fixpoint ravel_acc (dims coords : list Z) (acc : Z) : Z :=
  match dims, coords with
  | d :: ds, c :: cs => ravel_acc ds cs (acc * d + c)
  | _, _ => acc
  end.
Definition ravel (dims coords : list Z) : Z := ravel_acc dims coords 0.

(** Elementwise rewrite by flat index: [g i x] is the new element. *)
Fixpoint mapi_from {A} (g : Z -> A -> A) (i : Z) (xs : list A) : list A :=
  match xs with
  | [] => []
  | x :: r => g i x :: mapi_from g (i + 1) r
  end.

End Np.

(* ================================================================== *)
(** * TiffPage.asarray: the decode pipeline *)

Module Asarray.

Definition all_some_ints (xs : list num) : option (list Z) :=
  TiffTag.all_some (map (fun x => match x with NInt z => Some z | _ => None end) xs).

(** The [out] argument: None, the str 'memmap', or something else (an
    array, a file name, a file object). *)
Inductive out_arg : Type := OutNone | OutMemmap | OutGiven (id : Z).

(** The keyword arguments; [validate] is True, False or None.  The [lock]
    argument is a context manager and has no effect on the result. *)
Record args : Type := mkArgs {
  out : out_arg;
  squeeze : bool;
  reopen : bool;
  maxsize : option Z;
  maxworkers : option Z;
  validate : option bool
}.

Record ndarray : Type := mkarr {
  arr_shape : list Z;
  arr_data : list num;
  arr_memmap : bool       (* backed by the file, not a copy *)
}.

(** [decompress(data, out=...)], [unpack(data)] and
    [unpredict(array, axis=-2)] on an array given by shape and data. *)
Definition decompressor : Type := option Z -> list byte -> result (list byte).
Definition unpacker : Type := list byte -> result (list num).
Definition unpredictor : Type := list Z -> list num -> result (list num).

(** The codecs and registries that the pipeline is handed. *)
Record Env : Type := mkEnv {
  DECOMPESSORS : Z -> option decompressor;
  UNPREDICTORS : Z -> option unpredictor;
  COMPRESSION_member : Z -> bool;   (* the value is a COMPRESSION enum member *)
  bitorder_decode : list byte -> list byte;
  (* the branch for compression 6 and 7: the new lsb2msb and the closures *)
  jpeg_setup : TiffPage.t -> bool -> decompressor -> M World (bool * decompressor * unpacker);
  unpack_rgb : byteorder -> fmtchar -> list Z -> unpacker;
  packints_decode : byteorder -> fmtchar -> Z -> Z -> unpacker;
  create_output_given : Z -> list Z -> result (list num);
  cpu_count : Z;
  native : byteorder                (* sys.byteorder *)
}.

(** The default of [buffered_read]. *)
Definition buffersize : Z := 2 ^ 26.

(** The element that numpy stores for the int [TiffPage.nodata] = 0, and
    for numpy.zeros. *)
Definition zero_elem (c : fmtchar) : num :=
  match c with
  | c_f => NFloat32 0
  | c_d => NFloat64 0
  | _ => NInt 0
  end.

(** The class attribute [TiffPage.nodata]; no code assigns it. *)
Definition nodata : Z := 0.

(** What the segment loops act on: the channel and logger, the flat
    [result] array and the running [index] of the strip loop. *)
Record dstate : Type := mkD {
  dworld : World;
  result_ : list num;
  index_ : Z
}.

Definition dio {A} (m : M World A) : M dstate A := fun s =>
  let (r, w) := m (dworld s) in (r, mkD w (result_ s) (index_ s)).
Definition set_result (d : list num) (s : dstate) : dstate :=
  mkD (dworld s) d (index_ s).
Definition set_index (i : Z) (s : dstate) : dstate :=
  mkD (dworld s) (result_ s) i.

(** One step of the inner loop of [buffered_read] for the offset [o] and
    the bytecounts from the same position on: the segment (None when it
    is skipped) and the growth of [size]. *)
Definition read_segment (o : Z) (bcs : list Z) : M World (option (list byte) * Z) :=
  if o >? 0 then
    match bcs with
    | [] => raise (IndexError "index out of range")
    | bytecount :: _ =>
        if bytecount >? 0 then
          fh_seek o ;;;
          data <- fh_read bytecount ;;
          ret (Some data, bytecount)
        else ret (None, 0)
    end
  else ret (None, 0).

(** The consumer runs on the segments of a batch once the batch is read. *)
Fixpoint run_pending (body : Z -> option (list byte) -> M dstate unit)
         (pending : list (Z * option (list byte))) : M dstate unit :=
  match pending with
  | [] => ret tt
  | (i, seg) :: rest => body i seg ;;; run_pending body rest
  end.

(** [for i, segment in enumerate(buffered_read(fh, lock, offsets,
    bytecounts)): body(i, segment)]: batches of at least [buffersize]
    bytes are read, then handed to the consumer one segment at a time. *)
Fixpoint for_segments (body : Z -> option (list byte) -> M dstate unit)
         (offs bcs : list Z) (i size : Z)
         (pending : list (Z * option (list byte))) : M dstate unit :=
  match offs with
  | [] => run_pending body pending
  | o :: offs' =>
      r <- dio (read_segment o bcs) ;;
      let '(seg, n) := r in
      let size := size + n in
      let pending := pending ++ [(i, seg)] in
      if size <? buffersize
      then for_segments body offs' (tl bcs) (i + 1) size pending
      else run_pending body pending ;;;
           for_segments body offs' (tl bcs) (i + 1) 0 []
  end.

Definition buffered_read_for (body : Z -> option (list byte) -> M dstate unit)
           (offsets bytecounts : list Z) : M dstate unit :=
  for_segments body offsets bytecounts 0 0 [].

(** ** The strip loop *)

Section strips.

Variable env : Env.
Variable c : fmtchar.            (* the dtype of the result *)
Variable lsb2msb : bool.
Variable decompress : decompressor.
Variable unpack : unpacker.
Variable stripsize outsize : Z.

Definition strip_body (_ : Z) (strip : option (list byte)) : M dstate unit :=
  s <- get ;;
  let index := index_ s in
  match strip with
  | None =>
    modify (set_result (Np.fill_slice (result_ s) index (index + stripsize)
                          (zero_elem c))) ;;;
    modify (set_index (index + stripsize))
  | Some strip =>
    let strip := if lsb2msb then bitorder_decode env strip else strip in
    strip <- lift (decompress (Some outsize) strip) ;;
    strip <- lift (unpack strip) ;;
    let rsize := Z.of_nat (length (result_ s)) in
    let size := Z.min (Z.min rsize (Z.of_nat (length strip)))
                      (Z.min stripsize (rsize - index)) in
    r <- lift (Np.assign_slice (result_ s) index (index + size)
                 (Np.take strip size)) ;;
    modify (set_result r) ;;;
    modify (set_index (index + size))
  end.

Definition decode_strips (offsets bytecounts : list Z) : M dstate unit :=
  buffered_read_for strip_body offsets bytecounts.

End strips.

(** ** tile_decode *)

Definition shape_ok (dims : list Z) (size : Z) : bool :=
  forallb (fun d => 0 <=? d) dims && (product dims =? size).

Definition bcast (r b : Z) : bool := (r =? b) || (r =? 1).
Definition pick (r k : Z) : Z := if r =? 1 then 0 else k.

(** [out[pl, td:td+tiledepth, tl:tl+tilelength, tw:tw+tilewidth] = rhs]
    where [out] is [result[0]], [result] has the six-slot [shape] and the
    right-hand side has shape [rshape] and elements [g]. *)
Definition set_block (shape : list Z) (data : list num)
           (pl td tiledepth tl tilelength tw tilewidth : Z)
           (rshape : list Z) (g : list Z -> option num) : result (list num) :=
  match shape, rshape with
  | [_; nP; nD; nL; nW; nS], [rd; rl; rw; rs] =>
      let pl' := if pl <? 0 then pl + nP else pl in
      if (pl' <? 0) || (nP <=? pl') then Raise (IndexError "index out of bounds")
      else
        let ad := Np.norm nD td in let bd := Np.norm nD (td + tiledepth) in
        let al := Np.norm nL tl in let bl := Np.norm nL (tl + tilelength) in
        let aw := Np.norm nW tw in let bw := Np.norm nW (tw + tilewidth) in
        if bcast rd (Z.max 0 (bd - ad)) && bcast rl (Z.max 0 (bl - al))
           && bcast rw (Z.max 0 (bw - aw)) && bcast rs nS
        then Ok (Np.mapi_from
                   (fun i x =>
                      match Np.unravel shape i with
                      | [n; p; d; l; w; s] =>
                          if (n =? 0) && (p =? pl')
                             && (ad <=? d) && (d <? bd)
                             && (al <=? l) && (l <? bl)
                             && (aw <=? w) && (w <? bw)
                          then match g [pick rd (d - ad); pick rl (l - al);
                                        pick rw (w - aw); pick rs s] with
                               | Some v => v
                               | None => x
                               end
                          else x
                      | _ => x
                      end) 0 data)
        else Raise (ValueError "could not broadcast input array")
  | _, _ => Raise (ValueError "not enough values to unpack")
  end.

Section tiles.

Variable env : Env.
Variable c : fmtchar.
Variable shape : list Z.          (* the shape of [result]; [out] is [result[0]] *)
Variable tileshape tiledshape : list Z.
Variable lsb2msb : bool.
Variable decompress : decompressor.
Variable unpack : unpacker.
Variable unpredict : unpredictor.

Definition tile_decode (tileindex : Z) (tile : option (list byte)) : M dstate unit :=
  match shape, tiledshape, tileshape with
  | [_; _; imagedepth; imagelength; imagewidth; _],
  [tileddepth; tiledlength; tiledwidth],
  [tiledepth; tilelength; tilewidth; samples] =>
    let tilesize := tiledepth * tilelength * tilewidth * samples in
    pl <- lift (floordiv tileindex (tiledwidth * tiledlength * tileddepth)) ;;
    q1 <- lift (floordiv tileindex (tiledwidth * tiledlength)) ;;
    m1 <- lift (pymod q1 tileddepth) ;;
    let td := m1 * tiledepth in
    q2 <- lift (floordiv tileindex tiledwidth) ;;
    m2 <- lift (pymod q2 tiledlength) ;;
    let tl := m2 * tilelength in
    m3 <- lift (pymod tileindex tiledwidth) ;;
    let tw := m3 * tilewidth in
    s <- get ;;
    match tile with
    | None =>
        r <- lift (set_block shape (result_ s) pl td tiledepth tl tilelength
                     tw tilewidth [1; 1; 1; 1]
                     (fun _ => Some (zero_elem c))) ;;
        modify (set_result r)
    | Some tile =>
        let tile := if lsb2msb then bitorder_decode env tile else tile in
        tile <- lift (decompress None tile) ;;
        tile <- lift (unpack tile) ;;
        let tile := Np.take tile tilesize in
        let len := Z.of_nat (length tile) in
        st <- (if shape_ok tileshape len then ret (tileshape, tile)
               else
                 let s := [Z.min (imagedepth - td) tiledepth;
                           Z.min (imagelength - tl) tilelength;
                           Z.min (imagewidth - tw) tilewidth; samples] in
                 if shape_ok s len then ret (s, tile)
                 else
                   dio (log_warning "tile_decode: incomplete tile %s %s" []) ;;;
                   if negb (shape_ok tileshape tilesize)
                   then raise (ValueError "negative dimensions are not allowed")
                   else
                     let n := Z.min len tilesize in
                     ret (tileshape,
                          Np.take tile n
                          ++ repeat (zero_elem c) (Z.to_nat (tilesize - n)))) ;;
        let '(tshape, tile) := st in
        tile <- lift (unpredict tshape tile) ;;
        match tshape with
        | [sd; sl; sw; ss] =>
            let rshape := [Np.norm sd (imagedepth - td);
                           Np.norm sl (imagelength - tl);
                           Np.norm sw (imagewidth - tw); ss] in
            s <- get ;;
            r <- lift (set_block shape (result_ s) pl td tiledepth tl tilelength
                         tw tilewidth rshape
                         (fun k => nth_error tile (Z.to_nat (Np.ravel tshape k)))) ;;
            modify (set_result r)
        | _ => raise (ValueError "not enough values to unpack")
        end
    end
  | _, _, _ => raise (ValueError "not enough values to unpack")
  end.

(** A task of [executor.map]: its exception stays in the future. *)
Definition submitted (tileindex : Z) (tile : option (list byte)) : M dstate unit :=
  fun s => match tile_decode tileindex tile s with
         | (_, s') => (Ok tt, s')
         end.

(** The tile loop for the final value of [maxworkers].  With two or
    more workers the first tile is decoded by the caller and the others
    are tasks of the pool, taken here in the order of submission. *)
Definition decode_tiles (maxworkers : Z) (offsets bytecounts : list Z) : M dstate unit :=
  if maxworkers <? 2
  then buffered_read_for tile_decode offsets bytecounts
  else
  match offsets with
  | [] => raise StopIteration
  | _ =>
      buffered_read_for
        (fun i tile =>
           if i =? 0 then tile_decode i tile
           else if i <? Z.of_nat (length offsets) then submitted i tile
           else ret tt)
        offsets bytecounts
  end.

End tiles.

(** ** asarray *)

Section asarray.

Variable env : Env.
Variable tiff : TIFF.descriptor.

Definition num_eqb (x y : num) : bool :=
  match y with
  | NInt w => num_eq_int x w
  | NFloat32 b => match x with NFloat32 a => a =? b | NInt z => num_eq_int y z | _ => false end
  | NFloat64 b => match x with NFloat64 a => a =? b | NInt z => num_eq_int y z | _ => false end
  end.

(** [tag.count != 1 and any((i-tag.value[0] for i in tag.value))]. *)
Definition sample_formats_differ (tag : TiffTag.t) : result bool :=
  if TiffTag.count tag =? 1 then Ok false
  else match TiffTag.py_items (TiffTag.value tag) with
     | Some [] => Ok false
     | Some (x0 :: xs) => Ok (existsb (fun x => negb (num_eqb x x0)) xs)
     | None => Raise (TypeError "object is not iterable")
     end.

(** The block guarded by [if validate or validate is None]; [false]
    means that asarray returns None after the block. *)
Definition validation (self : TiffPage.t) (a : args) : result bool :=
  match validate a with
  | Some false => Ok true
  | v =>
    let maxsize := match maxsize a with None => 2 ^ 44 | Some m => m end in
    if negb (maxsize =? 0) && (product (TiffPage._shape self) >? maxsize)
    then Raise (ValueError "data are too large %s")
    else match TiffPage.dtype self with
    | None =>
        match TiffPage.bitspersample self with
        | TiffPage.Bits _ => Raise (ValueError "data type not supported: %s%i")
        | TiffPage.BitsTuple _ => Raise (TypeError "%i format: a number is required")
        end
    | Some _ =>
    match DECOMPESSORS env (TiffPage.compression self) with
    | None => if COMPRESSION_member env (TiffPage.compression self)
              then Raise (ValueError "cannot decompress %s")
              else Raise AttributeError
    | Some _ =>
        differ <~ match TiffPage.lookup self "SampleFormat" with
                  | Some tag => sample_formats_differ tag
                  | None => Ok false
                  end ;;
        if differ then Raise (ValueError "sample formats do not match %s")
        else if TiffPage.is_subsampled self
                && (negb (TIFF.mem (TiffPage.compression self) [6; 7])
                    || (TiffPage.planarconfig self =? 2))
        then Raise (NotImplementedError "chroma subsampling not supported")
        else Ok (match v with None => false | _ => true end)
    end
    end
  end.

Definition set_closed (b : bool) : M World unit :=
  modify (fun w => let f := fh w in
          mkWorld (mkFileHandle (fh_data f) (fh_pos f) (fh_size f)
                     (fh_is_file f) b (fh_events f)) (log w)).

(** [numpy.frombuffer(data, typecode)] inside the closure [unpack] of
    the branch for 8, 16, 32, 64 and 128 bits. *)
Definition frombuffer (bo : byteorder) (c : fmtchar) (data : list byte) : result (list num) :=
  let len := Z.of_nat (length data) in
  if len mod itemsize c =? 0
  then Ok (decode_items bo (len / itemsize c) c data)
  else Raise (ValueError "buffer size must be a multiple of element size").

Definition unpack_aligned (bo : byteorder) (c : fmtchar) (bitspersample : Z) : unpacker :=
  fun data =>
  match frombuffer bo c data with
  | Raise (ValueError _) =>
      let bps := bitspersample / 8 in
      let xlen := (Z.of_nat (length data) / bps) * bps in
      frombuffer bo c (Np.take data xlen)
  | r => r
  end.

(** [create_output(out, shape, dtype)]. *)
Definition create_output (o : out_arg) (shape : list Z) (c : fmtchar) : result (list num) :=
  match o with
  | OutNone | OutMemmap =>
    if forallb (fun d => 0 <=? d) shape
    then Ok (repeat (zero_elem c) (Z.to_nat (product shape)))
    else Raise (ValueError "negative dimensions are not allowed")
  | OutGiven id => create_output_given env id shape
  end.

(** [fh.memmap_array(typecode, shape, offset)]: a view of the bytes of
    the file, without a read.  [numpy.memmap] is handed the file object
    and measures the file with [fid.seek(0, 2)] before it maps it: the
    position is left at the end of the file, and the seek is recorded
    with the position it reaches. *)
Definition memmap_array (bo : byteorder) (c : fmtchar) (shape : list Z) (offset : Z)
  : M World (list num) :=
  w <- get ;;
  let count := product shape in
  let bytes := py_slice (fh_data (fh w)) offset (offset + count * itemsize c) in
  if negb (fh_is_file (fh w))
  then raise (ValueError "Cannot memory-map file without fileno")
  else
    fh_seek (Z.of_nat (length (fh_data (fh w)))) ;;;
    if (offset <? 0) || negb (forallb (fun d => 0 <=? d) shape)
       || negb (Z.of_nat (length bytes) =? count * itemsize c)
    then raise (ValueError "mmap length is greater than file size")
    else ret (decode_items bo count c bytes).

(** [fh.read_array(typecode, count, out=out)], with the bit order
    reversal applied to the bytes when [lsb2msb] holds. *)
Definition read_array (bo : byteorder) (c : fmtchar) (count : Z)
         (given : option (list num)) (lsb2msb : bool) : M World (list num) :=
  w <- get ;;
  let nbytes_out := match given with
                  | Some d => Z.of_nat (length d) * itemsize c
                  | None => fh_size (fh w)
                  end in
  let size := if count <? 0 then nbytes_out else count * itemsize c in
  let count := if count <? 0 then size / itemsize c else count in
  let nbytes := match given with
              | Some d => Z.of_nat (length d) * itemsize c
              | None => count * itemsize c
              end in
  if negb (nbytes =? size) then raise (ValueError "size mismatch")
  else
  data <- fh_read size ;;
  if negb (Z.of_nat (length data) =? size)
  then raise (ValueError "failed to read %i bytes")
  else
    let data := if lsb2msb then bitorder_decode env data else data in
    ret (decode_items bo count c data).

(** The statements of asarray after the lines that fetch the offsets and
    the keyframe.  [self_is_frame] tells whether asarray was entered
    through [TiffFrame.asarray]; [self] is the keyframe; [oc] are the
    offsets and bytecounts of the page or frame, looked at when a
    segment is first needed. *)
Definition body (self : TiffPage.t) (oc : result (list Z * list Z)) (a : args)
  : M World (option ndarray) :=
  let shape := TiffPage._shape self in
  if Nat.eqb (length shape) 0 || (product shape =? 0) then ret None
  else
  go <- lift (validation self a) ;;
  if negb go then ret None
  else
    w <- get ;;
    let closed := fh_closed (fh w) in
    (if closed then
       if reopen a then set_closed false
       else raise (IOError "file handle is closed")
     else ret tt) ;;;
    let byteorder := TIFF.byteorder_ tiff in
    match TiffPage.dtype self with
    | None => raise AttributeError
    | Some c =>
        let lsb2msb := TiffPage.fillorder self =? 2 in
        let istiled := TiffPage.is_tiled self in
        let imagewidth := TiffPage.imagewidth self in
        let imagelength := TiffPage.imagelength self in
        let imagedepth := TiffPage.imagedepth self in
        let tilewidth := TiffPage.tilewidth self in
        let tilelength := TiffPage.tilelength self in
        let tiledepth := TiffPage.tiledepth self in
        geom <- (if istiled then
                   tw <- lift (floordiv (imagewidth + tilewidth - 1) tilewidth) ;;
                   tl <- lift (floordiv (imagelength + tilelength - 1) tilelength) ;;
                   td <- lift (floordiv (imagedepth + tiledepth - 1) tiledepth) ;;
                   ret ([td; tl; tw],
                        [tiledepth; tilelength; tilewidth; last shape 0],
                        tilewidth)
                 else ret ([], [], imagewidth)) ;;
        let '(tiledshape, tileshape, runlen) := geom in
        let runlen := if TiffPage.planarconfig self =? 1
                      then runlen * TiffPage.samplesperpixel self else runlen in
        mm <- (match out a with
               | OutMemmap => lift (TiffPage.is_memmappable (TiffPage.mkParent tiff (fh w)) self)
               | _ => ret false
               end) ;;
        contiguous <- lift (TiffPage.is_contiguous self) ;;
        r <- (if mm then
                oc <- lift oc ;;
                o <- lift (py_index (fst oc) 0) ;;
                d <- memmap_array byteorder c shape o ;;
                ret (d, true)
              else match contiguous with
              | Some _ =>
                  given <- (match out a with
                            | OutNone => ret None
                            | o => d <- lift (create_output o shape c) ;; ret (Some d)
                            end) ;;
                  oc <- lift oc ;;
                  o <- lift (py_index (fst oc) 0) ;;
                  fh_seek o ;;;
                  d <- read_array byteorder c (product shape) given lsb2msb ;;
                  ret (d, false)
              | None =>
                  res <- lift (create_output (out a) shape c) ;;
                  match DECOMPESSORS env (TiffPage.compression self) with
                  | None => raise KeyError
                  | Some decompress =>
                      codec <- (if TIFF.mem (TiffPage.compression self) [6; 7]
                                then jpeg_setup env self lsb2msb decompress
                                else match TiffPage.bitspersample self with
                                | TiffPage.Bits b =>
                                    if TIFF.mem b [8; 16; 32; 64; 128] then
                                      if negb ((b * runlen) mod 8 =? 0)
                                      then raise (ValueError "data and sample size mismatch")
                                      else
                                        let bo := if TiffPage.predictor self =? 3
                                                  then native env else byteorder in
                                        ret (lsb2msb, decompress, unpack_aligned bo c b)
                                    else ret (lsb2msb, decompress,
                                              packints_decode env byteorder c b runlen)
                                | TiffPage.BitsTuple bs =>
                                    ret (lsb2msb, decompress, unpack_rgb env byteorder c bs)
                                end) ;;
                      let '(lsb2msb, decompress, unpack) := codec in
                      oc <- lift oc ;;
                      let '(offsets, bytecounts) := oc in
                      if istiled then
                        match UNPREDICTORS env (TiffPage.predictor self) with
                        | None => raise KeyError
                        | Some unpredict =>
                            let mw := match maxworkers a with
                                      | None => if TiffPage.compression self >? 1 then 0 else 1
                                      | Some m => m
                                      end in
                            let mw := if mw =? 0 then cpu_count env / 2 else mw in
                            fun w0 =>
                              match decode_tiles env c shape tileshape tiledshape lsb2msb
                                      decompress unpack unpredict mw offsets bytecounts
                                      (mkD w0 res 0) with
                              | (Ok _, s) => (Ok (result_ s, false), dworld s)
                              | (Raise e, s) => (Raise e, dworld s)
                              end
                        end
                      else
                        match TiffPage.rowsperstrip self with
                        | None => raise (TypeError "unsupported operand type(s) for *")
                        | Some rowsperstrip =>
                            let stripsize := rowsperstrip * imagewidth in
                            let stripsize := if TiffPage.planarconfig self =? 1
                                             then stripsize * TiffPage.samplesperpixel self
                                             else stripsize in
                            let outsize := stripsize * itemsize c in
                            fun w0 =>
                              match decode_strips env c lsb2msb decompress unpack
                                      stripsize outsize offsets bytecounts
                                      (mkD w0 res 0) with
                              | (Ok _, s) => (Ok (result_ s, false), dworld s)
                              | (Raise e, s) => (Raise e, dworld s)
                              end
                        end
                  end
              end) ;;
        let '(data, mapped) := r in
        if negb (shape_ok shape (Z.of_nat (length data)))
        then raise (ValueError "cannot reshape array")
        else
          data <- (if negb (TiffPage.predictor self =? 1)
                      && negb (istiled && match contiguous with None => true | _ => false end)
                   then match UNPREDICTORS env (TiffPage.predictor self) with
                        | None => raise KeyError
                        | Some unpredict => lift (unpredict shape data)
                        end
                   else ret data) ;;
          rshape <- (if squeeze a then
                       if shape_ok (TiffPage.shape self) (Z.of_nat (length data))
                       then ret (TiffPage.shape self)
                       else log_warning "TiffPage.asarray: failed to reshape %s to %s" [] ;;;
                            ret shape
                     else ret shape) ;;
          (if closed then set_closed true else ret tt) ;;;
          ret (Some (mkarr rshape data mapped))
    end.

(** Tuples of ints as the lists that the segment reader walks. *)
Definition ints_of (v : pyvalue) : result (list Z) :=
  match TiffTag.py_items v with
  | Some xs =>
    match all_some_ints xs with
    | Some zs => Ok zs
    | None => Raise (TypeError "an integer is required")
    end
  | None => Raise (TypeError "object is not iterable")
  end.

(** [TiffPage.asarray(self, ...)] for a TiffPage. *)
Definition asarray (self : TiffPage.t) (a : args) : M World (option ndarray) :=
  oc <- lift (TiffPage._offsetscounts self) ;;
  body self (Ok oc) a.

(** [TiffFrame.asarray(self, ...)]. *)
Definition frame_asarray (self : TiffFrame.t) (a : args) : M World (option ndarray) :=
  match TiffFrame._keyframe self with
  | None => raise (RuntimeError "keyframe not set")
  | Some keyframe =>
    let a := mkArgs (out a) (squeeze a) (reopen a) (maxsize a) (maxworkers a)
                    (Some false) in
    let oc := (offsets <~ ints_of (fst (TiffFrame._offsetscounts self)) ;;
               bytecounts <~ ints_of (snd (TiffFrame._offsetscounts self)) ;;
               Ok (offsets, bytecounts)) in
    body keyframe oc a
  end.

End asarray.

End Asarray.

(* ================================================================== *)
(** * Helper functions of the module *)

From Stdlib Require Import Ascii.

Module Util.

(** [sub] is a prefix of [s]. *)
Fixpoint startswith (s sub : list byte) : bool :=
  match sub, s with
  | [], _ => true
  | _ :: _, [] => false
  | a :: sub', b :: s' => Byte.eqb a b && startswith s' sub'
  end.

(** [s.find(sub)] counted from [i], the index of the head of [s]. *)
Fixpoint find_from (s sub : list byte) (i : Z) : Z :=
  if startswith s sub then i
  else match s with
       | [] => -1
       | _ :: r => find_from r sub (i + 1)
       end.

(** [bytes.find(sub)]. *)
Definition find (s sub : list byte) : Z := find_from s sub 0.

(** [stripnull(string, null)]; the default of [null] is one zero byte. *)
Definition stripnull (string null : list byte) : list byte :=
  let i := find string null in
  if i <? 0 then string else py_slice string 0 i.

(** [byte2int(b)], and the byte of an integer modulo 256. *)
Definition byte2int (b : byte) : Z := Z.of_N (Byte.to_N b).

Definition int2byte (z : Z) : byte :=
  match Byte.of_N (Z.to_N (z mod 256)) with
  | Some b => b
  | None => x00
  end.

(** The [while i:] loop of [stripascii]: the index of the last byte [c]
    with [8 < c < 127] among the first [i] bytes, or -1 (the [else]
    branch of the loop). *)
Fixpoint stripascii_loop (string : list byte) (i : nat) : Z :=
  match i with
  | O => -1
  | S i' => let c := byte2int (nth i' string x00) in
            if (8 <? c) && (c <? 127) then Z.of_nat i'
            else stripascii_loop string i'
  end.

(** [stripascii(string)]. *)
Definition stripascii (string : list byte) : list byte :=
  py_slice string 0 (stripascii_loop string (length string) + 1).

(** [reshape_nd(shape, ndim)] for a shape tuple. *)
Definition reshape_nd (shape : list Z) (ndim : Z) : list Z :=
  if Z.of_nat (length shape) >=? ndim then shape
  else repeat 1 (Z.to_nat (ndim - Z.of_nat (length shape))) ++ shape.

(** [c in s] for a character [c]. *)
Definition char_in (c : ascii) (s : list ascii) : bool :=
  existsb (Ascii.eqb c) s.

(** [squeeze_axes(shape, axes, skip)]; the default of [skip] is ['XY'].
    The two targets are unpacked from the [zip] of the pairs that are
    kept, which has no item when no pair is left. *)
Definition squeeze_axes (shape : list Z) (axes skip : list ascii)
  : result (list Z * list ascii) :=
  if negb (Z.of_nat (length shape) =? Z.of_nat (length axes))
  then Raise (ValueError "dimensions of axes and shape do not match")
  else
    match filter (fun i => (fst i >? 1) || char_in (snd i) skip) (combine shape axes) with
    | [] => Raise (ValueError "not enough values to unpack (expected 2, got 0)")
    | kept => Ok (map fst kept, map snd kept)
    end.

(** [while i > 0 and shape[i] == 1 and ns != 1: i -= 1]; [i] is at most
    [len(shape) - 1] here, so that [shape[i]] exists. *)
Fixpoint skip_ones (fuel : nat) (shape : list Z) (ns i : Z) : Z :=
  match fuel with
  | O => i
  | S fuel' =>
      if (i >? 0) && (nth (Z.to_nat i) shape 0 =? 1) && negb (ns =? 1)
      then skip_ones fuel' shape ns (i - 1)
      else i
  end.

(** The [for ns in newshape[::-1]] loop of [reshape_axes]; [unknown] is
    false when it is None or empty. *)
Fixpoint reshape_axes_loop (axes : list ascii) (shape : list Z) (todo : list Z)
         (i prodns prods : Z) (res : list (list ascii)) (unknown : list ascii)
  : result (list (list ascii)) :=
  match todo with
  | [] => Ok res
  | ns :: todo' =>
      let prodns := prodns * ns in
      let i := skip_ones (Z.to_nat i) shape ns i in
      match py_index shape i with
      | Raise e => Raise e
      | Ok si =>
          if (ns =? si) && (prodns =? prods * si) then
            match py_index axes i with
            | Raise e => Raise e
            | Ok a =>
                reshape_axes_loop axes shape todo' (i - 1) prodns (prods * si)
                                  (res ++ [[a]]) unknown
            end
          else
            match unknown with
            | _ :: _ =>
                reshape_axes_loop axes shape todo' i prodns prods
                                  (res ++ [unknown]) unknown
            | [] =>
                reshape_axes_loop axes shape todo' i prodns prods
                                  (res ++ [["Q"%char]]) ["Q"%char]
            end
      end
  end.

(** [reshape_axes(axes, shape, newshape, unknown)]. *)
Definition reshape_axes (axes : list ascii) (shape newshape : list Z)
           (unknown : list ascii) : result (list ascii) :=
  if negb (Z.of_nat (length axes) =? Z.of_nat (length shape))
  then Raise (ValueError "axes do not match shape")
  else if negb (product shape =? product newshape)
  then Raise (ValueError "cannot reshape %s to %s")
  else
    match axes, newshape with
    | [], _ | _, [] => Ok []
    | _, _ =>
        let lendiff := Z.max 0 (Z.of_nat (length shape) - Z.of_nat (length newshape)) in
        let newshape := if lendiff =? 0 then newshape
                        else newshape ++ repeat 1 (Z.to_nat lendiff) in
        match reshape_axes_loop axes shape (rev newshape)
                                (Z.of_nat (length shape) - 1) 1 1 [] unknown with
        | Raise e => Raise e
        | Ok res => Ok (concat (rev (skipn (Z.to_nat lendiff) res)))
        end
    end.

(** [numpy.diff] and [numpy.cumsum] on a one-dimensional array of dtype
    u1: the arithmetic is modulo 256. *)
Fixpoint diff (data : list Z) : list Z :=
  match data with
  | a :: (b :: _) as r => (b - a) mod 256 :: diff r
  | _ => []
  end.

Fixpoint cumsum (acc : Z) (data : list Z) : list Z :=
  match data with
  | [] => []
  | a :: r => let acc' := (acc + a) mod 256 in acc' :: cumsum acc' r
  end.

(** [delta_encode(data)] for a byte string: [data[0]] of an empty array
    is an IndexError. *)
Definition delta_encode (data : list byte) : result (list byte) :=
  let data := map byte2int data in
  let diff := diff data in
  match data with
  | [] => Raise (IndexError "index 0 is out of bounds for axis 0 with size 0")
  | d0 :: _ => Ok (map int2byte (d0 :: diff))
  end.

(** [delta_decode(data)] for a byte string. *)
Definition delta_decode (data : list byte) : list byte :=
  map int2byte (cumsum 0 (map byte2int data)).

(** The translation table [_bitorder[0]] of [bitorder_decode], 256 bytes. *)
Definition _bitorder : list byte :=
  [x00; x80; x40; xc0; x20; xa0; x60; xe0;
   x10; x90; x50; xd0; x30; xb0; x70; xf0;
   x08; x88; x48; xc8; x28; xa8; x68; xe8;
   x18; x98; x58; xd8; x38; xb8; x78; xf8;
   x04; x84; x44; xc4; x24; xa4; x64; xe4;
   x14; x94; x54; xd4; x34; xb4; x74; xf4;
   x0c; x8c; x4c; xcc; x2c; xac; x6c; xec;
   x1c; x9c; x5c; xdc; x3c; xbc; x7c; xfc;
   x02; x82; x42; xc2; x22; xa2; x62; xe2;
   x12; x92; x52; xd2; x32; xb2; x72; xf2;
   x0a; x8a; x4a; xca; x2a; xaa; x6a; xea;
   x1a; x9a; x5a; xda; x3a; xba; x7a; xfa;
   x06; x86; x46; xc6; x26; xa6; x66; xe6;
   x16; x96; x56; xd6; x36; xb6; x76; xf6;
   x0e; x8e; x4e; xce; x2e; xae; x6e; xee;
   x1e; x9e; x5e; xde; x3e; xbe; x7e; xfe;
   x01; x81; x41; xc1; x21; xa1; x61; xe1;
   x11; x91; x51; xd1; x31; xb1; x71; xf1;
   x09; x89; x49; xc9; x29; xa9; x69; xe9;
   x19; x99; x59; xd9; x39; xb9; x79; xf9;
   x05; x85; x45; xc5; x25; xa5; x65; xe5;
   x15; x95; x55; xd5; x35; xb5; x75; xf5;
   x0d; x8d; x4d; xcd; x2d; xad; x6d; xed;
   x1d; x9d; x5d; xdd; x3d; xbd; x7d; xfd;
   x03; x83; x43; xc3; x23; xa3; x63; xe3;
   x13; x93; x53; xd3; x33; xb3; x73; xf3;
   x0b; x8b; x4b; xcb; x2b; xab; x6b; xeb;
   x1b; x9b; x5b; xdb; x3b; xbb; x7b; xfb;
   x07; x87; x47; xc7; x27; xa7; x67; xe7;
   x17; x97; x57; xd7; x37; xb7; x77; xf7;
   x0f; x8f; x4f; xcf; x2f; xaf; x6f; xef;
   x1f; x9f; x5f; xdf; x3f; xbf; x7f; xff].

(** [bitorder_decode(data)] for a byte string:
    [data.translate(_bitorder[0])]. *)
Definition bitorder_decode (data : list byte) : list byte :=
  map (fun b => nth (Z.to_nat (byte2int b)) _bitorder x00) data.

End Util.

(* ================================================================== *)
(** * TiffPages.__init__ : the first page *)

Module TiffPages_init.

Section init.

(** [TiffPage(parent, index)] with the channel at the directory: the
    constructor reads the tags of the directory from the channel. *)
Variable new_page : Z -> M World TiffPage.t.

(** [TiffPages.__init__(parent)] for a parent that is a TiffFile, with the
    channel of the parent at the offset to the first page; the branch for
    a parent that is a TiffPage takes the offsets from its SubIFDs tag
    and is not part of this definition.  [is_scanimage] is the value of
    [parent.is_scanimage], which the parent derives from the first page;
    without a page the flag is False. *)
Definition __init__ (tiff : TIFF.descriptor) (is_scanimage : bool) : M World TiffPages.t :=
  pos <- fh_tell ;;
  raw <- fh_read (TIFF.ifdoffsetsize tiff) ;;
  offset <- lift (unpack (TIFF.byteorder_ tiff) (TIFF.ifdoffsetformat tiff) raw) ;;
  w <- get ;;
  if offset =? 0 then
    log_warning "TiffPages: file contains no pages" [] ;;;
    w <- get ;;
    ret (TiffPages.mk w tiff false [] true (Some pos) [])
  else if offset >=? fh_size (fh w) then
    log_warning "TiffPages: invalid page offset (%i)" [offset] ;;;
    w <- get ;;
    ret (TiffPages.mk w tiff false [] true (Some pos) [])
  else
    fh_seek offset ;;;
    page <- new_page 0 ;;
    w <- get ;;
    ret (TiffPages.mk w tiff is_scanimage [TiffPages.SlotPage page] false (Some pos) []).

End init.

(** [__bool__]: the file contains pages. *)
Definition __bool__ (self : TiffPages.t) : bool :=
  Z.of_nat (length (TiffPages.pages self)) >? 0.

End TiffPages_init.

(* ================================================================== *)
(** * TiffPages._getitem *)

Module TiffPages_getitem.

Section getitem.

(** [hash(...)] of the attributes that [TiffPage.hash] collects. *)
Variable page_hash : TiffPage.t -> Z.

(** [self._cache], and whether [self._tiffpage] is TiffFrame
    ([useframes]) or TiffPage. *)
Variable _cache : bool.
Variable useframes : bool.

(** [self._tiffpage(self.parent, index=key, keyframe=self._keyframe)]
    with the channel at the directory. *)
Variable tiffpage : Z -> M World TiffPages.slot.

(** [page.hash]. *)
Definition slot_hash (page : TiffPages.slot) : result Z :=
  match page with
  | TiffPages.SlotOffset _ => Raise AttributeError
  | TiffPages.SlotPage p => Ok (page_hash p)
  | TiffPages.SlotFrame f =>
      match TiffFrame._keyframe f with
      | None => Raise (RuntimeError "keyframe not set")
      | Some k => Ok (page_hash k)
      end
  end.

(** [if validate and validate != page.hash: raise RuntimeError]; False is
    the int 0. *)
Definition check {S} (validate : Z) (page : TiffPages.slot) : M S unit :=
  if validate =? 0 then ret tt
  else
    h <- lift (slot_hash page) ;;
    if negb (validate =? h) then raise (RuntimeError "page hash mismatch")
    else ret tt.

(** [isinstance(page, (TiffPage, self._tiffpage))]. *)
Definition is_page (page : TiffPages.slot) : bool :=
  match page with
  | TiffPages.SlotOffset _ => false
  | TiffPages.SlotPage _ => true
  | TiffPages.SlotFrame _ => useframes
  end.

(** [pages[key] = page] for a key that is not negative. *)
Definition set_item (pages : list TiffPages.slot) (key : Z) (page : TiffPages.slot)
  : result (list TiffPages.slot) :=
  if (0 <=? key) && (key <? Z.of_nat (length pages))
  then Ok (firstn (Z.to_nat key) pages ++ page :: skipn (S (Z.to_nat key)) pages)
  else Raise (IndexError "list assignment index out of range").

(** The statements of [_getitem] after the key was normalised. *)
Definition fetch (key validate : Z) : M TiffPages.t TiffPages.slot :=
  s <- get ;;
  cached <- (if key <? Z.of_nat (length (TiffPages.pages s)) then
               page <- lift (py_index (TiffPages.pages s) key) ;;
               if _cache then
                 match page with
                 | TiffPages.SlotOffset _ => ret None
                 | _ => check validate page ;;; ret (Some page)
                 end
               else if is_page page then check validate page ;;; ret (Some page)
               else ret None
             else ret None) ;;
  match cached with
  | Some page => ret page
  | None =>
      TiffPages._seek key None ;;;
      page <- TiffPages.io (tiffpage key) ;;
      check validate page ;;;
      (if _cache then
         s <- get ;;
         pages <- lift (set_item (TiffPages.pages s) key page) ;;
         modify (TiffPages.set_pages pages)
       else ret tt) ;;;
      ret page
  end.

(** [_getitem(key, validate)] for an int [key]. *)
Definition _getitem (key validate : Z) : M TiffPages.t TiffPages.slot :=
  key <- (if key <? 0 then
            n <- TiffPages.__len__ ;;
            lift (pymod key n)
          else
            s <- get ;;
            if TiffPages._indexed s && (key >=? Z.of_nat (length (TiffPages.pages s)))
            then raise (IndexError "index out of range")
            else ret key) ;;
  fetch key validate.

End getitem.

End TiffPages_getitem.

(* ================================================================== *)
(** * TiffFile.__init__ : the constructor *)

Module TiffFile_init.

(** What [__init__] leaves on the object: [self.tiff] and [self.pages],
    which hold the file handle and the logger. *)
Record t : Type := mk {
  tiff : TIFF.descriptor;
  pages : TiffPages.t
}.

(** [fh.close()]: the file is closed when the handle owns it
    ([FileHandle._close]), as it does when it was opened from a file
    name. *)
Definition fh_close (owned : bool) : M World unit :=
  if owned
  then modify (fun w => let f := fh w in
                 mkWorld (mkFileHandle (fh_data f) (fh_pos f) (fh_size f)
                            (fh_is_file f) true (fh_events f)) (log w))
  else ret tt.

Section init.

(** [TiffPage(self, index, keyframe)] with the channel at the
    directory. *)
Variable new_page : Z -> M World TiffPage.t.

(** [TiffPage.is_scanimage], which looks at the description and the
    software of the page, and [TiffPage.hash]. *)
Variable page_is_scanimage : TiffPage.t -> bool.
Variable page_hash : TiffPage.t -> Z.

(** [self._lsm_load_pages()], and [pages._getitem(1, validate=page.hash)]
    of [_load_virtual_frames]. *)
Variable _lsm_load_pages : M TiffPages.t unit.
Variable getitem : TiffPage.t -> M TiffPages.t TiffPage.t.

(** [TiffFile.__getattr__] for an 'is_' flag that no keyword argument has
    set: False without pages, else the flag of [self.pages[0]], which is
    a TiffPage when the constructor runs. *)
Definition file_flag (flag : TiffPage.t -> bool) (ps : TiffPages.t) : result bool :=
  if negb (TiffPages_init.__bool__ ps) then Ok false
  else
    p <~ py_index (TiffPages.pages ps) 0 ;;
    match p with
    | TiffPages.SlotPage page => Ok (flag page)
    | _ => Raise AttributeError
    end.

(** [page.compression] for an item of [self.pages]. *)
Definition slot_compression (p : TiffPages.slot) : result Z :=
  match p with
  | TiffPages.SlotPage page => Ok (TiffPage.compression page)
  | _ => Raise AttributeError
  end.

(** The value of [parent.is_scanimage] for the walker. *)
Definition with_flags (ps : TiffPages.t) : TiffPages.t :=
  match file_flag page_is_scanimage ps with
  | Ok b => TiffPages.mk (TiffPages.world ps) (TiffPages.tiff ps) b (TiffPages.pages ps)
                         (TiffPages._indexed ps) (TiffPages._nextpageoffset ps)
                         (TiffPages.stdout ps)
  | Raise _ => ps
  end.

(** The statements after [self.pages = TiffPages(self)].  The last
    branch, [pages.useframes = True], sets the class used for later
    pages, which is not part of this state. *)
Definition set_up (tiff : TIFF.descriptor) : M TiffPages.t unit :=
  ps <- get ;;
  is_lsm <- lift (file_flag (fun page => TiffPage.has_tag page "CZ_LSMINFO") ps) ;;
  lsm <- (if is_lsm then
            if fh_size (fh (TiffPages.world ps)) >=? 2 ^ 32 then ret true
            else
              p0 <- lift (py_index (TiffPages.pages ps) 0) ;;
              c0 <- lift (slot_compression p0) ;;
              if negb (c0 =? 1) then ret true
              else
                p1 <- TiffPages_getitem._getitem page_hash false false
                        (fun key => page <- new_page key ;; ret (TiffPages.SlotPage page))
                        1 0 ;;
                c1 <- lift (slot_compression p1) ;;
                ret (negb (c1 =? 1))
          else ret false) ;;
  if lsm then _lsm_load_pages
  else
    ps <- get ;;
    is_scanimage <- lift (file_flag page_is_scanimage ps) ;;
    if is_scanimage && negb (TIFF.version tiff =? 43)
       && (fh_size (fh (TiffPages.world ps)) >=? 2 ^ 31)
    then TiffPages._load_virtual_frames getitem
    else ret tt.

(** The constructor from the creation of [TiffPages] on, for the
    descriptor that the header selected. *)
Definition load (tiff : TIFF.descriptor) : M World t := fun w =>
  match TiffPages_init.__init__ new_page tiff false w with
  | (Raise e, w') => (Raise e, w')
  | (Ok ps, _) =>
      match set_up tiff (with_flags ps) with
      | (Ok _, ps') => (Ok (mk tiff ps'), TiffPages.world ps')
      | (Raise e, ps') => (Raise e, TiffPages.world ps')
      end
  end.

(** [TiffFile.__init__] from [fh.seek(0)] on: the [try] block and its
    handler, which closes the file handle and raises the exception
    again.  [is_ndpi] is [kwargs.get('is_ndpi', False)]. *)
Definition __init__ (is_ndpi owned : bool) : M World t := fun w =>
  match (tiff <- TiffFile.read_header is_ndpi ;; load tiff) w with
  | (Ok file, w') => (Ok file, w')
  | (Raise e, w') => (Raise e, snd (fh_close owned w'))
  end.

End init.

End TiffFile_init.

(* ================================================================== *)
(** * Keyword arguments *)

Module Kwargs.

Section dicts.

(** The values of the keyword arguments. *)
Variable V : Type.

(** A dict with str keys: its items in insertion order, a key once. *)
Definition dict : Type := list (string * V).

(** [d.get(key)]: [None] when the key is missing. *)
Fixpoint lookup (d : dict) (key : string) : option V :=
  match d with
  | [] => None
  | (k, v) :: r => if String.eqb k key then Some v else lookup r key
  end.

(** [key in d]. *)
Definition contains (d : dict) (key : string) : bool :=
  match lookup d key with Some _ => true | None => false end.

(** [d[key] = value]: a key that is present keeps its place. *)
Fixpoint setitem (d : dict) (key : string) (value : V) : dict :=
  match d with
  | [] => [(key, value)]
  | (k, v) :: r => if String.eqb k key then (k, value) :: r
                   else (k, v) :: setitem r key value
  end.

(** [del d[key]] for a key that is present. *)
Definition delitem (d : dict) (key : string) : dict :=
  filter (fun kv => negb (String.eqb (fst kv) key)) d.

(** [update_kwargs(kwargs, **keyvalues)]: the dict [kwargs] after the
    call. *)
Definition update_kwargs (kwargs keyvalues : dict) : dict :=
  fold_left (fun kwargs kv =>
               if negb (contains kwargs (fst kv))
               then setitem kwargs (fst kv) (snd kv)
               else kwargs)
            keyvalues kwargs.

(** The body of the first loop of [parse_kwargs] on the pair
    (result, kwargs). *)
Definition move (st : dict * dict) (key : string) : dict * dict :=
  match lookup (snd st) key with
  | Some v => (setitem (fst st) key v, delitem (snd st) key)
  | None => st
  end.

(** The body of the second loop. *)
Definition move_or_default (st : dict * dict) (kv : string * V) : dict * dict :=
  match lookup (snd st) (fst kv) with
  | Some v => (setitem (fst st) (fst kv) v, delitem (snd st) (fst kv))
  | None => (setitem (fst st) (fst kv) (snd kv), snd st)
  end.

(** [parse_kwargs(kwargs, *keys, **keyvalues)]: the dict that is
    returned and the dict [kwargs] after the call. *)
Definition parse_kwargs (kwargs : dict) (keys : list string) (keyvalues : dict)
  : dict * dict :=
  fold_left move_or_default keyvalues (fold_left move keys ([], kwargs)).

End dicts.

End Kwargs.

(* ================================================================== *)
(** * FileHandle on an embedded file *)

(** The object behind [FileHandle._fh]: a binary file opened for reading,
    with its bytes and its position. *)
Module Stream.

Record t : Type := mk {
  data : list byte;
  pos : Z
}.

(** [seek(offset, whence)]: from the start (0), the position (1) or the
    end (2); a negative target is an error, one past the end is not. *)
Definition seek (offset whence : Z) : M t unit := fun s =>
  if negb (TIFF.mem whence [0; 1; 2])
  then (Raise (ValueError "invalid whence"), s)
  else
    let target := if whence =? 0 then offset
                  else if whence =? 1 then pos s + offset
                  else Z.of_nat (length (data s)) + offset in
    if target <? 0 then (Raise (IOError "Invalid argument"), s)
    else (Ok tt, mk (data s) target).

Definition tell : M t Z := fun s => (Ok (pos s), s).

(** [read(size)]: a negative size reads to the end. *)
Definition read (size : Z) : M t (list byte) := fun s =>
  let avail := skipn (Z.to_nat (pos s)) (data s) in
  let got := if size <? 0 then avail else firstn (Z.to_nat size) avail in
  (Ok got, mk (data s) (pos s + Z.of_nat (length got))).

End Stream.

Module FileHandle_methods.

Record t : Type := mk {
  _fh : Stream.t;
  _offset : Z;
  _size : Z
}.

(** The end of [FileHandle.open], once [self._fh] is the open file or the
    given stream: the offset defaults to the position of the stream (0
    for a file that was just opened), the size to what [tell] returns
    after [seek(self._offset, 2)]. *)
Definition open (offset size : option Z) : M Stream.t (Z * Z) :=
  _offset <- (match offset with
              | Some o => ret o
              | None => Stream.tell
              end) ;;
  (if negb (_offset =? 0) then Stream.seek _offset 0 else ret tt) ;;;
  _size <- (match size with
            | Some n => ret n
            | None =>
                pos <- Stream.tell ;;
                Stream.seek _offset 2 ;;;
                n <- Stream.tell ;;
                Stream.seek pos 0 ;;;
                ret n
            end) ;;
  ret (_offset, _size).

(** [FileHandle(file, offset=offset, size=size)] for a file or stream. *)
Definition __init__ (file : Stream.t) (offset size : option Z) : result t :=
  match open offset size file with
  | (Ok (o, n), fh) => Ok (mk fh o n)
  | (Raise e, _) => Raise e
  end.

(** A call on [self._fh]. *)
Definition on_fh {A} (m : M Stream.t A) : M t A := fun self =>
  let (r, fh) := m (_fh self) in (r, mk fh (_offset self) (_size self)).

(** [read(size=-1)]. *)
Definition read (size : Z) : M t (list byte) :=
  self <- get ;;
  let size := if (size <? 0) && negb (_offset self =? 0) then _size self else size in
  on_fh (Stream.read size).

(** [tell()]. *)
Definition tell : M t Z :=
  self <- get ;;
  p <- on_fh Stream.tell ;;
  ret (p - _offset self).

(** [seek(offset, whence=0)]. *)
Definition seek (offset whence : Z) : M t unit :=
  self <- get ;;
  if negb (_offset self =? 0) then
    if whence =? 0 then on_fh (Stream.seek (_offset self + offset) whence)
    else if (whence =? 2) && (_size self >? 0)
    then on_fh (Stream.seek (_offset self + _size self + offset) 0)
    else on_fh (Stream.seek offset whence)
  else on_fh (Stream.seek offset whence).

(** The [size] property. *)
Definition size (self : t) : Z := _size self.

End FileHandle_methods.

(* ================================================================== *)
(** * OpenFileCache *)

Module OpenFileCache.

(** The cache, and the state of the file handles that it opens and
    closes.  A file handle is known by its identity. *)
Record t : Type := mk {
  past : list Z;          (* FIFO of opened files *)
  files : list (Z * Z);   (* refcounts of opened files *)
  size : Z;
  closed : Z -> bool      (* [filehandle.closed] *)
}.

(** [OpenFileCache(size)], given the state of the file handles. *)
Definition __init__ (size : Z) (closed : Z -> bool) : t := mk [] [] size closed.

(** [self.files.get(filehandle)]. *)
Fixpoint refcount (files : list (Z * Z)) (f : Z) : option Z :=
  match files with
  | [] => None
  | (k, n) :: r => if k =? f then Some n else refcount r f
  end.

(** [self.files[filehandle] = n]. *)
Fixpoint set_refcount (files : list (Z * Z)) (f n : Z) : list (Z * Z) :=
  match files with
  | [] => [(f, n)]
  | (k, m) :: r => if k =? f then (k, n) :: r else (k, m) :: set_refcount r f n
  end.

(** [del self.files[filehandle]]. *)
Definition del_refcount (files : list (Z * Z)) (f : Z) : list (Z * Z) :=
  filter (fun kv => negb (fst kv =? f)) files.

(** [filehandle.open()] and [filehandle.close()]. *)
Definition set_closed (closed : Z -> bool) (f : Z) (b : bool) : Z -> bool :=
  fun g => if g =? f then b else closed g.

(** [del xs[i]]. *)
Fixpoint remove_at {A} (i : nat) (xs : list A) : list A :=
  match xs, i with
  | [], _ => []
  | _ :: r, O => r
  | x :: r, S i' => x :: remove_at i' r
  end.

(** [open(filehandle)]. *)
Definition open (filehandle : Z) (self : t) : t :=
  match refcount (files self) filehandle with
  | Some n => mk (past self) (set_refcount (files self) filehandle (n + 1))
                 (size self) (closed self)
  | None =>
      if closed self filehandle
      then mk (past self ++ [filehandle]) (set_refcount (files self) filehandle 1)
              (size self) (set_closed (closed self) filehandle false)
      else self
  end.

(** The loop of [close] that trims the file cache, entered with the local
    variables [index] and [size].  Every iteration either removes a file
    or moves the index, so [size - index] iterations end the loop. *)
Fixpoint trim (fuel : nat) (index size_ : Z) (self : t) : result t :=
  match fuel with
  | O => Ok self
  | S fuel' =>
      if (size_ >? size self) && (index <? size_) then
        filehandle <~ py_index (past self) index ;;
        match refcount (files self) filehandle with
        | None => Raise KeyError
        | Some n =>
            if n =? 0 then
              trim fuel' index (size_ - 1)
                   (mk (remove_at (Z.to_nat index) (past self))
                       (del_refcount (files self) filehandle)
                       (size self)
                       (set_closed (closed self) filehandle true))
            else trim fuel' (index + 1) size_ self
        end
      else Ok self
  end.

(** [close(filehandle)]. *)
Definition close (filehandle : Z) (self : t) : result t :=
  match refcount (files self) filehandle with
  | None => Ok self
  | Some n =>
      let self := mk (past self) (set_refcount (files self) filehandle (n - 1))
                     (size self) (closed self) in
      trim (length (past self)) 0 (Z.of_nat (length (past self))) self
  end.

End OpenFileCache.

(* ================================================================== *)
(** * Properties *)

Unset Implicit Arguments.

Arguments bytes_to_Z : simpl never.
Arguments TiffFile.order_mark : simpl never.

(** ** Header dispatch *)

Lemma order_mark_cases (m0 m1 : byte) :
  (m0 = x49 /\ m1 = x49 /\ TiffFile.order_mark [m0; m1] = Some LittleEndian)
  \/ (m0 = x4d /\ m1 = x4d /\ TiffFile.order_mark [m0; m1] = Some BigEndian)
  \/ TiffFile.order_mark [m0; m1] = None.
Proof.
  destruct m0; try (right; right; reflexivity);
    destruct m1; try (right; right; reflexivity);
    [ left | right; left ]; repeat split; reflexivity.
Qed.

Lemma order_mark_other (mark : list byte) :
  mark <> [x49; x49] -> mark <> [x4d; x4d] -> TiffFile.order_mark mark = None.
Proof.
  intros HI HM.
  destruct mark as [|a [|b [|c r]]].
  - reflexivity.
  - destruct a; reflexivity.
  - destruct (order_mark_cases a b) as [(-> & -> & _) | [(-> & -> & _) | H]];
      [contradiction | contradiction | exact H].
  - destruct a; try reflexivity; destruct b; reflexivity.
Qed.

(** The descriptor chosen for version 42. *)
Definition classic_of (is_ndpi : bool) (bo : byteorder) : TIFF.descriptor :=
  match bo with
  | BigEndian => TIFF.CLASSIC_BE
  | LittleEndian => if is_ndpi then TIFF.NDPI_LE else TIFF.CLASSIC_LE
  end.

(** The descriptor chosen for a valid version 43 header. *)
Definition big_of (bo : byteorder) : TIFF.descriptor :=
  match bo with
  | BigEndian => TIFF.BIG_BE
  | LittleEndian => TIFF.BIG_LE
  end.

(** The channel over [data] once the header was read: at [pos], open,
    with the seek and the reads of the header as its events, and nothing
    logged. *)
Definition header_world (data : list byte) (pos : Z) (evs : list io_event) : World :=
  mkWorld (mkFileHandle data pos (Z.of_nat (length data)) true false evs) [].

Lemma header_bad_mark (is_ndpi : bool) (data : list byte) :
  TiffFile.order_mark (firstn 2 data) = None ->
  TiffFile.read_header is_ndpi (World_of_bytes data)
  = (Raise (TiffFileError "not a TIFF file" []),
     header_world data (Z.of_nat (length (firstn 4 data))) [EvSeek 0; EvRead 0 4]).
Proof.
  intros H. unfold TiffFile.read_header, bind, fh_seek, fh_read.
  cbn -[TiffFile.order_mark firstn skipn Z.to_nat].
  unfold py_slice. cbn -[TiffFile.order_mark firstn].
  change (Pos.to_nat 2) with 2%nat. change (Pos.to_nat 4) with 4%nat.
  rewrite firstn_firstn. cbn -[TiffFile.order_mark firstn]. rewrite H. reflexivity.
Qed.

Lemma header_short (is_ndpi : bool) (bo : byteorder) (data : list byte) :
  TiffFile.order_mark (firstn 2 data) = Some bo ->
  (length data < 4)%nat ->
  TiffFile.read_header is_ndpi (World_of_bytes data)
  = (Raise struct_error,
     header_world data (Z.of_nat (length data)) [EvSeek 0; EvRead 0 4]).
Proof.
  intros H Hlen.
  destruct data as [|m0 [|m1 [|v0 [|v1 rest]]]]; try (simpl in Hlen; lia).
  - discriminate H.
  - destruct m0; discriminate H.
  - unfold TiffFile.read_header, bind, fh_seek, fh_read, py_slice.
    simpl. simpl in H. rewrite H. reflexivity.
  - unfold TiffFile.read_header, bind, fh_seek, fh_read, py_slice.
    simpl. simpl in H. rewrite H. reflexivity.
Qed.

Lemma header_version (is_ndpi : bool) (bo : byteorder) (m0 m1 v0 v1 : byte)
      (rest : list byte) :
  TiffFile.order_mark [m0; m1] = Some bo ->
  let data := m0 :: m1 :: v0 :: v1 :: rest in
  let version := bytes_to_Z bo [v0; v1] in
  TiffFile.read_header is_ndpi (World_of_bytes data)
  = if version =? 43 then
      (match unpack_HH bo (firstn 4 rest) with
       | Raise e => Raise e
       | Ok (offsetsize, zero) =>
           if negb (zero =? 0) || negb (offsetsize =? 8)
           then Raise (TiffFileError "invalid BigTIFF file" [])
           else Ok (big_of bo)
       end,
       header_world data (4 + Z.of_nat (length (firstn 4 rest)))
                    [EvSeek 0; EvRead 0 4; EvRead 4 4])
    else
      (if version =? 42 then Ok (classic_of is_ndpi bo)
       else Raise (TiffFileError "invalid TIFF file" []),
       header_world data 4 [EvSeek 0; EvRead 0 4]).
Proof.
  intros H data version. unfold data.
  unfold TiffFile.read_header, bind, fh_seek, fh_read, py_slice, header_world.
  destruct rest as [|o0 [|o1 [|z0 [|z1 rest']]]];
    simpl; rewrite H; simpl; fold version;
    (destruct (version =? 43);
     [ simpl; try reflexivity;
       match goal with
       | |- context [negb (?z =? 0) || negb (?o =? 8)] =>
           destruct (negb (z =? 0) || negb (o =? 8)); [reflexivity|]
       end; destruct bo; reflexivity
     | destruct (version =? 42); [|reflexivity];
       destruct bo; [destruct is_ndpi|]; reflexivity ]).
Qed.

Section constructor.

Variable new_page : Z -> M World TiffPage.t.
Variable page_is_scanimage : TiffPage.t -> bool.
Variable page_hash : TiffPage.t -> Z.
Variable _lsm_load_pages : M TiffPages.t unit.
Variable getitem : TiffPage.t -> M TiffPages.t TiffPage.t.
Variables is_ndpi owned : bool.

(** [open(channel)] for a channel that holds [data]: the constructor of
    TiffFile on a file handle at the start of the file. *)
Definition open (data : list byte) : result TiffFile_init.t * World :=
  TiffFile_init.__init__ new_page page_is_scanimage page_hash _lsm_load_pages getitem
                         is_ndpi owned (World_of_bytes data).

(** The constructor from the creation of the pages on, with the handler
    of its [try] block. *)
Definition resume (tiff : TIFF.descriptor) (w : World) : result TiffFile_init.t * World :=
  match TiffFile_init.load new_page page_is_scanimage page_hash _lsm_load_pages getitem
                           tiff w with
  | (Ok file, w') => (Ok file, w')
  | (Raise e, w') => (Raise e, snd (TiffFile_init.fh_close owned w'))
  end.

Lemma open_header (data : list byte) :
  open data
  = match TiffFile.read_header is_ndpi (World_of_bytes data) with
    | (Ok tiff, w) => resume tiff w
    | (Raise e, w) => (Raise e, snd (TiffFile_init.fh_close owned w))
    end.
Proof.
  unfold open, TiffFile_init.__init__, resume, bind.
  destruct (TiffFile.read_header is_ndpi (World_of_bytes data)) as [[tiff|e] w]; reflexivity.
Qed.

(** A file that [resume] returns carries the descriptor it was given. *)
Lemma resume_tiff (tiff : TIFF.descriptor) (w : World) (file : TiffFile_init.t) :
  fst (resume tiff w) = Ok file -> TiffFile_init.tiff file = tiff.
Proof.
  unfold resume, TiffFile_init.load.
  destruct (TiffPages_init.__init__ new_page tiff false w) as [[ps|e] w1]; [|discriminate].
  destruct (TiffFile_init.set_up _ _ _ _ _ _ _) as [[u|e] ps']; [|discriminate].
  cbn [fst]. intros H. injection H as <-. reflexivity.
Qed.

Lemma closed_after (data : list byte) (pos : Z) (evs : list io_event) :
  fh_closed (fh (snd (TiffFile_init.fh_close owned (header_world data pos evs)))) = owned.
Proof. unfold TiffFile_init.fh_close. destruct owned; reflexivity. Qed.

(** C1 (amended). [open] reads the 2-byte order mark and the 2-byte
    version: 'II' selects little-endian and 'MM' big-endian, any other
    mark fails with TiffFileError.  Version 42 selects a classic
    descriptor.  Version 43 selects the big descriptor exactly when the
    next two 2-byte fields are 8 and 0; when the two fields are there
    with other values it fails with TiffFileError.  Any other version
    fails with TiffFileError.  A channel that ends inside the version or
    inside the two fields of the big variant fails with struct.error
    instead.  Every such failure yields no TiffFile and closes a file
    handle that owns its file.  With a descriptor selected the
    constructor goes on at the offset to the first page, position 4 or 8,
    and a TiffFile that it returns carries that descriptor. *)
Theorem header_selects_format :
  TiffFile.order_mark [x49; x49] = Some LittleEndian
  /\ TiffFile.order_mark [x4d; x4d] = Some BigEndian
  /\ (forall mark, mark <> [x49; x49] -> mark <> [x4d; x4d] ->
        TiffFile.order_mark mark = None)
  /\ (forall data, TiffFile.order_mark (firstn 2 data) = None ->
        fst (open data) = Raise (TiffFileError "not a TIFF file" [])
        /\ fh_closed (fh (snd (open data))) = owned)
  /\ (forall bo data, TiffFile.order_mark (firstn 2 data) = Some bo ->
        (length data < 4)%nat ->
        fst (open data) = Raise struct_error
        /\ fh_closed (fh (snd (open data))) = owned)
  /\ (forall bo m0 m1 v0 v1 rest,
        TiffFile.order_mark [m0; m1] = Some bo ->
        let data := m0 :: m1 :: v0 :: v1 :: rest in
        let version := bytes_to_Z bo [v0; v1] in
        let r := open data in
        (version = 42 ->
           r = resume (classic_of is_ndpi bo) (header_world data 4 [EvSeek 0; EvRead 0 4])
           /\ TIFF.version (classic_of is_ndpi bo) = 42
           /\ TIFF.byteorder_ (classic_of is_ndpi bo) = bo
           /\ forall file, fst r = Ok file ->
                TiffFile_init.tiff file = classic_of is_ndpi bo)
        /\ (version = 43 ->
            (forall o0 o1 z0 z1 rest', rest = o0 :: o1 :: z0 :: z1 :: rest' ->
               let offsetsize := bytes_to_Z bo [o0; o1] in
               let zero := bytes_to_Z bo [z0; z1] in
               (offsetsize = 8 /\ zero = 0 ->
                  r = resume (big_of bo)
                        (header_world data 8 [EvSeek 0; EvRead 0 4; EvRead 4 4])
                  /\ TIFF.version (big_of bo) = 43
                  /\ TIFF.byteorder_ (big_of bo) = bo
                  /\ forall file, fst r = Ok file -> TiffFile_init.tiff file = big_of bo)
               /\ (offsetsize <> 8 \/ zero <> 0 ->
                   fst r = Raise (TiffFileError "invalid BigTIFF file" [])
                   /\ fh_closed (fh (snd r)) = owned))
            /\ ((length rest < 4)%nat ->
                fst r = Raise struct_error /\ fh_closed (fh (snd r)) = owned))
        /\ (version <> 42 -> version <> 43 ->
            fst r = Raise (TiffFileError "invalid TIFF file" [])
            /\ fh_closed (fh (snd r)) = owned)).
Proof.
  split; [reflexivity|]. split; [reflexivity|].
  split; [apply order_mark_other|].
  split.
  { intros data H. rewrite open_header, (header_bad_mark is_ndpi data H).
    split; [reflexivity | apply closed_after]. }
  split.
  { intros bo data H Hlen. rewrite open_header, (header_short is_ndpi bo data H Hlen).
    split; [reflexivity | apply closed_after]. }
  intros bo m0 m1 v0 v1 rest Hm data version r.
  pose proof (header_version is_ndpi bo m0 m1 v0 v1 rest Hm) as E.
  cbv zeta in E. fold data in E. fold version in E.
  assert (Er : r = match TiffFile.read_header is_ndpi (World_of_bytes data) with
                   | (Ok tiff, w) => resume tiff w
                   | (Raise e, w) => (Raise e, snd (TiffFile_init.fh_close owned w))
                   end) by apply open_header.
  rewrite E in Er. clear E.
  split; [|split].
  - intros Hv. rewrite Hv in Er. cbn [Z.eqb Pos.eqb] in Er.
    split; [exact Er|].
    split; [destruct bo; try destruct is_ndpi; reflexivity|].
    split; [destruct bo; try destruct is_ndpi; reflexivity|].
    intros file Hf. rewrite Er in Hf. exact (resume_tiff _ _ _ Hf).
  - intros Hv. rewrite Hv in Er. cbn [Z.eqb Pos.eqb] in Er. split.
    + intros o0 o1 z0 z1 rest' Hrest offsetsize zero.
      rewrite Hrest in Er. cbn [firstn length] in Er.
      unfold unpack_HH in Er. cbn [length Z.of_nat Pos.of_succ_nat Pos.succ Z.eqb Pos.eqb
                                   firstn skipn] in Er.
      change (bytes_to_Z bo [o0; o1]) with offsetsize in Er.
      change (bytes_to_Z bo [z0; z1]) with zero in Er.
      change (4 + 4) with 8 in Er.
      split.
      * intros (Ho & Hz). rewrite Ho, Hz in Er. cbn [Z.eqb Pos.eqb negb orb] in Er.
        split; [exact Er|].
        split; [destruct bo; reflexivity|].
        split; [destruct bo; reflexivity|].
        intros file Hf. rewrite Er in Hf. exact (resume_tiff _ _ _ Hf).
      * intros Hbad.
        assert (Hb : negb (zero =? 0) || negb (offsetsize =? 8) = true).
        { destruct (Z.eqb_spec zero 0); destruct (Z.eqb_spec offsetsize 8);
            simpl; try reflexivity. lia. }
        rewrite Hb in Er. rewrite Er.
        split; [reflexivity | apply closed_after].
    + intros Hlen.
      assert (Hu : unpack_HH bo (firstn 4 rest) = Raise struct_error).
      { unfold unpack_HH.
        destruct rest as [|o0 [|o1 [|z0 [|z1 rest']]]]; try reflexivity.
        simpl in Hlen. lia. }
      rewrite Hu in Er. rewrite Er. split; [reflexivity | apply closed_after].
  - intros H42 H43.
    destruct (Z.eqb_spec version 43); [contradiction|].
    destruct (Z.eqb_spec version 42); [contradiction|].
    rewrite Er. split; [reflexivity | apply closed_after].
Qed.

End constructor.

(** What stands for the parts of the constructor that are not reached in
    the files below. *)
Definition no_page : Z -> M World TiffPage.t := fun _ => raise AttributeError.
Definition no_pages : M TiffPages.t unit := raise AttributeError.
Definition no_item : TiffPage.t -> M TiffPages.t TiffPage.t := fun _ => raise AttributeError.

(** [open] for a file handle that owns its file, without the 'is_ndpi'
    argument. *)
Definition open_file (data : list byte) : result TiffFile_init.t * World :=
  open no_page (fun _ => false) (fun _ => 0) no_pages no_item false true data.

(** A big-endian BigTIFF file without pages: the header and the offset 0
    to the first page. *)
Definition empty_big_file : list byte :=
  [x4d; x4d; x00; x2b; x00; x08; x00; x00;
   x00; x00; x00; x00; x00; x00; x00; x00].

Example open_empty_big_file :
  exists ps,
    fst (open_file empty_big_file) = Ok (TiffFile_init.mk TIFF.BIG_BE ps)
    /\ TiffPages.pages ps = []
    /\ log (TiffPages.world ps) = [("TiffPages: file contains no pages", [])]
    /\ fh_closed (fh (snd (open_file empty_big_file))) = false.
Proof. eexists. vm_compute. repeat split; reflexivity. Qed.

Lemma header_selects_format_witness :
  (exists file, fst (open_file empty_big_file) = Ok file
                /\ TiffFile_init.tiff file = TIFF.BIG_BE)
  /\ fst (open_file [x49; x49; x2b; x00; x08; x00; x01; x00])
     = Raise (TiffFileError "invalid BigTIFF file" [])
  /\ fst (open_file [x49; x49; x2c; x00]) = Raise (TiffFileError "invalid TIFF file" [])
  /\ fst (open_file [x49; x4d; x2a; x00]) = Raise (TiffFileError "not a TIFF file" [])
  /\ fst (open_file [x49; x49; x2a]) = Raise struct_error.
Proof.
  destruct (header_selects_format no_page (fun _ => false) (fun _ => 0) no_pages no_item
              false true) as (_ & _ & _ & Hbad & Hshort & H).
  split; [|split; [|split; [|split]]].
  - destruct (H BigEndian x4d x4d x00 x2b
                [x00; x08; x00; x00; x00; x00; x00; x00; x00; x00; x00; x00] eq_refl)
      as (_ & H43 & _).
    destruct (H43 eq_refl) as (Hfull & _).
    destruct (Hfull x00 x08 x00 x00 [x00; x00; x00; x00; x00; x00; x00; x00] eq_refl)
      as (Hok & _).
    destruct (Hok (conj eq_refl eq_refl)) as (_ & _ & _ & Hfile).
    eexists. split; [vm_compute; reflexivity|].
    apply Hfile. vm_compute. reflexivity.
  - destruct (H LittleEndian x49 x49 x2b x00 [x08; x00; x01; x00] eq_refl)
      as (_ & H43 & _).
    destruct (H43 eq_refl) as (Hfull & _).
    destruct (Hfull x08 x00 x01 x00 [] eq_refl) as (_ & Hno).
    apply Hno. right. discriminate.
  - destruct (H LittleEndian x49 x49 x2c x00 [] eq_refl) as (_ & _ & Hv).
    apply Hv; discriminate.
  - apply Hbad. reflexivity.
  - apply (Hshort LittleEndian); [reflexivity | simpl; lia].
Defined.

(** The claim for a header of the big variant that is not well-formed:
    [open] fails with TiffFileError. *)
Definition rejected_as_format_error (data : list byte) : Prop :=
  exists msg args, fst (open_file data) = Raise (TiffFileError msg args).

(** A little-endian header of version 43 that ends after the offset
    size, and one that ends after the version: the reserved field cannot
    be 0, and [open] fails with struct.error, not with TiffFileError. *)
Lemma truncated_big_header_not_format_error :
  TiffFile.order_mark [x49; x49] = Some LittleEndian
  /\ bytes_to_Z LittleEndian [x2b; x00] = 43
  /\ fst (open_file [x49; x49; x2b; x00; x08; x00]) = Raise struct_error
  /\ ~ rejected_as_format_error [x49; x49; x2b; x00; x08; x00]
  /\ fst (open_file [x49; x49; x2b; x00]) = Raise struct_error
  /\ ~ rejected_as_format_error [x49; x49; x2b; x00]
  /\ fh_closed (fh (snd (open_file [x49; x49; x2b; x00; x08; x00]))) = true.
Proof.
  split; [reflexivity|]. split; [reflexivity|].
  split; [reflexivity|].
  split; [intros (msg & args & H); discriminate H|].
  split; [reflexivity|].
  split; [intros (msg & args & H); discriminate H|].
  reflexivity.
Qed.

(** ** A small program logic for the state-and-exception monad *)

Section triples.

Context {S : Type}.

(** From a state that satisfies [P], the computation ends (normally or
    with an exception) in an outcome and a state related by [Q]. *)
Definition triple {A} (P : S -> Prop) (m : M S A) (Q : result A -> S -> Prop) : Prop :=
  forall s, P s -> Q (fst (m s)) (snd (m s)).

Lemma triple_ret {A} (P : S -> Prop) (a : A) (Q : result A -> S -> Prop) :
  (forall s, P s -> Q (Ok a) s) -> triple P (ret a) Q.
Proof. intros H s Hs. apply H, Hs. Qed.

Lemma triple_raise {A} (P : S -> Prop) (e : exn) (Q : result A -> S -> Prop) :
  (forall s, P s -> Q (Raise e) s) -> triple P (raise e) Q.
Proof. intros H s Hs. apply H, Hs. Qed.

Lemma triple_lift {A} (P : S -> Prop) (r : result A) (Q : result A -> S -> Prop) :
  (forall s, P s -> Q r s) -> triple P (lift r) Q.
Proof. intros H s Hs. apply H, Hs. Qed.

Lemma triple_get (P : S -> Prop) (Q : result S -> S -> Prop) :
  (forall s, P s -> Q (Ok s) s) -> triple P get Q.
Proof. intros H s Hs. apply H, Hs. Qed.

Lemma triple_modify (P : S -> Prop) (f : S -> S) (Q : result unit -> S -> Prop) :
  (forall s, P s -> Q (Ok tt) (f s)) -> triple P (modify f) Q.
Proof. intros H s Hs. apply H, Hs. Qed.

Lemma triple_bind {A B} (P : S -> Prop) (m : M S A) (k : A -> M S B)
      (R : A -> S -> Prop) (Q : result B -> S -> Prop) :
  triple P m (fun r s => match r with Ok a => R a s | Raise e => Q (Raise e) s end) ->
  (forall a, triple (R a) (k a) Q) ->
  triple P (bind m k) Q.
Proof.
  intros Hm Hk s Hs. unfold bind. specialize (Hm s Hs).
  destruct (m s) as [[a|e] s']; simpl in *.
  - apply Hk, Hm.
  - exact Hm.
Qed.

Lemma triple_weaken {A} (P P' : S -> Prop) (m : M S A) (Q Q' : result A -> S -> Prop) :
  triple P' m Q' -> (forall s, P s -> P' s) -> (forall r s, Q' r s -> Q r s) ->
  triple P m Q.
Proof. intros H HP HQ s Hs. apply HQ, H, HP, Hs. Qed.

(** A fact that does not mention the state survives any computation. *)
Lemma triple_const {A} (C : Prop) (m : M S A) (Q : result A -> S -> Prop) :
  (forall a s, C -> Q (Ok a) s) -> (forall e s, Q (Raise e) s) ->
  triple (fun _ => C) m Q.
Proof.
  intros Hok Herr s Hs. destruct (m s) as [[a|e] s']; simpl; auto.
Qed.

End triples.

(** ** Tag decoding *)

Lemma bytes_to_Z_nonneg (bo : byteorder) (bs : list byte) : 0 <= bytes_to_Z bo bs.
Proof.
  assert (H : forall l, 0 <= le_to_Z l).
  { induction l as [|b r IH]; cbn [le_to_Z]; [lia|].
    pose proof (N2Z.is_nonneg (Byte.to_N b)). lia. }
  destruct bo; unfold bytes_to_Z; apply H.
Qed.


(** The channel is left as it was; only the log may grow. *)
Definition same_channel (f : FileHandle) (w : World) : Prop := fh w = f.

Lemma log_warning_same_channel f fmt args (Q : result unit -> World -> Prop) :
  (forall w, same_channel f w -> Q (Ok tt) w) ->
  triple (same_channel f) (log_warning fmt args) Q.
Proof. intros H w Hw. apply H. exact Hw. Qed.

Ltac triple_step :=
  first
    [ apply triple_ret; intros ? ?
    | apply triple_raise; intros ? ?
    | apply triple_lift; intros ? ?
    | apply log_warning_same_channel; intros ? ?
    | match goal with
      | |- triple _ (if ?b then _ else _) _ => destruct b
      | |- triple _ (match ?x with _ => _ end) _ => destruct x
      end ].

Ltac channel_done :=
  solve [ assumption
        | split; [assumption | let t := fresh in let E := fresh in
                                intros t E; inversion E; reflexivity]
        | match goal with
          | |- match ?r with _ => _ end => destruct r
          end; channel_done ].

Lemma normalise_keeps_channel env code type_ count dt valueoffset value f :
  triple (same_channel f)
         (TiffTag.normalise env code type_ count dt valueoffset value)
         (fun r w => same_channel f w
                     /\ forall tag, r = Ok tag -> TiffTag.valueoffset tag = valueoffset).
Proof.
  unfold TiffTag.normalise.
  destruct value;
    repeat first
      [ triple_step
      | eapply triple_bind with (R := fun _ => same_channel f); [|intros ?] ];
    channel_done.
Qed.

(** A computation that may log but neither reads the channel nor looks
    at the world: its outcome and what it logs are the same in every
    world. *)
Definition oblivious {A} (m : M World A) : Prop :=
  exists (r : result A) (l : list warning),
    forall w, m w = (r, mkWorld (fh w) (log w ++ l)).

Lemma oblivious_ret {A} (a : A) : oblivious (ret a).
Proof. exists (Ok a), []. intros [f l]. unfold ret. simpl. now rewrite app_nil_r. Qed.

Lemma oblivious_raise {A} (e : exn) : oblivious (raise (A:=A) e).
Proof. exists (Raise e), []. intros [f l]. unfold raise. simpl. now rewrite app_nil_r. Qed.

Lemma oblivious_lift {A} (r : result A) : oblivious (lift r).
Proof. exists r, []. intros [f l]. unfold lift. simpl. now rewrite app_nil_r. Qed.

Lemma oblivious_log fmt args : oblivious (log_warning fmt args).
Proof. exists (Ok tt), [(fmt, args)]. intros w. reflexivity. Qed.

Lemma oblivious_bind {A B} (m : M World A) (k : A -> M World B) :
  oblivious m -> (forall a, oblivious (k a)) -> oblivious (bind m k).
Proof.
  intros (r & l & Hm) Hk. destruct r as [a|e].
  - destruct (Hk a) as (r2 & l2 & Hk2). exists r2, (l ++ l2).
    intros w. unfold bind. rewrite Hm, Hk2. simpl. now rewrite app_assoc.
  - exists (Raise e), l. intros w. unfold bind. rewrite Hm. reflexivity.
Qed.

Ltac oblivious_step :=
  first
    [ apply oblivious_ret
    | apply oblivious_raise
    | apply oblivious_lift
    | apply oblivious_log
    | apply oblivious_bind; [|intros ?]
    | match goal with
      | |- oblivious (if ?b then _ else _) => destruct b
      | |- oblivious (match ?x with _ => _ end) => destruct x
      end ].

Lemma normalise_oblivious env code type_ count dt valueoffset value :
  oblivious (TiffTag.normalise env code type_ count dt valueoffset value).
Proof. unfold TiffTag.normalise. destruct value; repeat oblivious_step. Qed.

(** The outcome of the normalisation does not depend on the channel. *)
Lemma normalise_same_outcome env code type_ count dt valueoffset value (w1 w2 : World) :
  fst (TiffTag.normalise env code type_ count dt valueoffset value w1)
  = fst (TiffTag.normalise env code type_ count dt valueoffset value w2).
Proof.
  destruct (normalise_oblivious env code type_ count dt valueoffset value) as (r & l & H).
  now rewrite !H.
Qed.

Section tag_routing.

Variable env : TiffTag.TagEnv.
Variable tiff : TIFF.descriptor.
Variables (tagheader : list byte) (tagoffset : Z).
Variables (code type_ count size : Z) (raw : list byte) (dt : dtype_fmt).

Hypothesis Hhead :
  unpack_HH (TIFF.byteorder_ tiff) (py_slice tagheader 0 4) = Ok (code, type_).
Hypothesis Hfield :
  TiffTag.unpack_tagformat2 tiff (skipn 4 tagheader) = Ok (count, raw).
Hypothesis Hdt : TIFF.DATA_FORMATS type_ = Some dt.
Hypothesis Hsize : struct_calcsize (count * dt_n dt) (dt_c dt) = Ok size.

Lemma init_unfold (w : World) :
  TiffTag.init env tiff tagheader tagoffset w
  = bind (TiffTag.read_value env tiff tagoffset code type_ count raw dt size)
         (fun ov => TiffTag.normalise env code type_ count dt (fst ov) (snd ov)) w.
Proof.
  unfold TiffTag.init. unfold bind at 1, lift at 1. rewrite Hhead.
  unfold bind at 1, lift at 1. rewrite Hfield, Hdt.
  unfold bind at 1, lift at 1. rewrite Hsize. reflexivity.
Qed.

Lemma tag_indirect_out_of_bounds (w : World) (offset : Z) :
  size > TIFF.offsetsize tiff \/ TIFF.in_TAG_READERS code = true ->
  unpack (TIFF.byteorder_ tiff) (TIFF.offsetformat tiff) raw = Ok offset ->
  offset < 8 \/ offset + size > fh_size (fh w) ->
  TiffTag.init env tiff tagheader tagoffset w
  = (Raise (TiffFileError "invalid tag value offset" []), w).
Proof.
  intros Hroute Hoff Hbad. rewrite init_unfold.
  unfold TiffTag.read_value, bind, lift.
  assert (Hr : (size >? TIFF.offsetsize tiff) || TIFF.in_TAG_READERS code = true).
  { destruct Hroute as [H|H]; [|rewrite H; apply orb_true_r].
    apply orb_true_iff; left. apply Z.gtb_lt. lia. }
  rewrite Hr, Hoff. unfold get.
  assert (Hb : (offset <? 8) || (offset >? fh_size (fh w) - size) = true).
  { apply orb_true_iff. destruct Hbad; [left; apply Z.ltb_lt|right; apply Z.gtb_lt]; lia. }
  rewrite Hb. reflexivity.
Qed.

Lemma tag_inline_no_io (w : World) :
  size <= TIFF.offsetsize tiff -> TIFF.in_TAG_READERS code = false ->
  fh (snd (TiffTag.init env tiff tagheader tagoffset w)) = fh w
  /\ forall tag, fst (TiffTag.init env tiff tagheader tagoffset w) = Ok tag ->
       TiffTag.valueoffset tag = tagoffset + TIFF.offsetsize tiff + 4.
Proof.
  intros Hfit Hnot. rewrite init_unfold.
  assert (Hr : (size >? TIFF.offsetsize tiff) || TIFF.in_TAG_READERS code = false).
  { rewrite Hnot, orb_false_r. rewrite Z.gtb_ltb. apply Z.ltb_ge. lia. }
  refine (triple_bind (same_channel (fh w)) _ _
            (fun ov w' => same_channel (fh w) w'
                          /\ fst ov = tagoffset + TIFF.offsetsize tiff + 4)
            (fun r w' => fh w' = fh w
               /\ forall tag, r = Ok tag ->
                    TiffTag.valueoffset tag = tagoffset + TIFF.offsetsize tiff + 4)
            _ _ w eq_refl).
  - unfold TiffTag.read_value. rewrite Hr.
    repeat first
      [ triple_step
      | eapply triple_bind with (R := fun _ => same_channel (fh w)); [|intros ?] ];
      try channel_done; try (split; [assumption|reflexivity]).
  - intros [vo v]. simpl.
    intros w' (Hw' & ->).
    exact (normalise_keeps_channel env code type_ count dt _ v (fh w) w' Hw').
Qed.

Lemma tag_indirect_valueoffset (w : World) (offset : Z) :
  size > TIFF.offsetsize tiff \/ TIFF.in_TAG_READERS code = true ->
  unpack (TIFF.byteorder_ tiff) (TIFF.offsetformat tiff) raw = Ok offset ->
  forall tag, fst (TiffTag.init env tiff tagheader tagoffset w) = Ok tag ->
    TiffTag.valueoffset tag = offset.
Proof.
  intros Hroute Hoff. rewrite init_unfold.
  assert (Hr : (size >? TIFF.offsetsize tiff) || TIFF.in_TAG_READERS code = true).
  { destruct Hroute as [H|H]; [|rewrite H; apply orb_true_r].
    apply orb_true_iff; left. apply Z.gtb_lt. lia. }
  refine (triple_bind (fun _ => True) _ _
            (fun ov _ => fst ov = offset)
            (fun r _ => forall tag, r = Ok tag -> TiffTag.valueoffset tag = offset)
            _ _ w I).
  - unfold TiffTag.read_value. rewrite Hr, Hoff.
    eapply triple_bind with (R := fun a _ => a = offset).
    { apply triple_lift. intros; reflexivity. }
    intros a. eapply triple_bind with (R := fun _ _ => a = offset).
    { apply triple_get. intros; assumption. }
    intros w0. destruct ((a <? 8) || (a >? fh_size (fh w0) - size)).
    { apply triple_raise. intros; discriminate. }
    eapply triple_bind with (R := fun _ _ => a = offset).
    { apply triple_const; [intros; assumption | intros; discriminate]. }
    intros _. eapply triple_bind with (R := fun _ _ => a = offset).
    { apply triple_const; [intros; assumption | intros; discriminate]. }
    intros v. apply triple_ret. intros; assumption.
  - intros [vo v]. simpl. intros w' -> tag Htag.
    exact (proj2 (normalise_keeps_channel env code type_ count dt _ v (fh w') w' eq_refl)
             tag Htag).
Qed.

(** The value decoded from the first [size] bytes [field] of the inline
    field of an entry of [n] items of the struct character [c]: the bytes
    themselves for BYTE and UNDEFINED data, the 1-tuple of the bytes for
    ASCII, and the tuple of the items in the byte order of the file
    otherwise. *)
Definition decoded_in_place (type_ n : Z) (c : fmtchar) (field : list byte) : pyvalue :=
  if TiffTag.is_c_B c || (type_ =? 7) then PBytes field
  else match c with
       | c_s => PBytes1 field
       | _ => PTuple (decode_items (TIFF.byteorder_ tiff) n c field)
       end.

Lemma inline_field_length : Z.of_nat (length raw) = TIFF.offsetsize tiff.
Proof.
  revert Hfield. unfold TiffTag.unpack_tagformat2.
  destruct (Z.eqb_spec (Z.of_nat (length (skipn 4 tagheader))) (2 * TIFF.offsetsize tiff))
    as [E|E]; [|discriminate].
  intros H.
  assert (Hr : raw = skipn (Z.to_nat (TIFF.offsetsize tiff)) (skipn 4 tagheader))
    by congruence.
  rewrite Hr, length_skipn. lia.
Qed.

Lemma encoded_size : size = count * dt_n dt * itemsize (dt_c dt) /\ 0 <= size.
Proof.
  revert Hsize. unfold struct_calcsize.
  destruct (_ >? _); [discriminate|]. intros H. injection H as <-.
  split; [reflexivity|].
  assert (Hc : 0 <= count).
  { revert Hfield. unfold TiffTag.unpack_tagformat2. destruct (_ =? _); [|discriminate].
    intros H. injection H as <- _. apply bytes_to_Z_nonneg. }
  assert (Hn : 0 <= dt_n dt).
  { revert Hdt. unfold TIFF.DATA_FORMATS.
    destruct type_ as [|q|q]; try discriminate.
    do 6 (try destruct q as [q|q|]; try discriminate);
      intros H; injection H as <-; simpl; lia. }
  assert (Hi : 0 < itemsize (dt_c dt)) by (destruct (dt_c dt); simpl; lia).
  nia.
Qed.

Lemma tag_inline_decoded (w : World) :
  size <= TIFF.offsetsize tiff -> TIFF.in_TAG_READERS code = false ->
  TiffTag.init env tiff tagheader tagoffset w
  = TiffTag.normalise env code type_ count dt (tagoffset + TIFF.offsetsize tiff + 4)
      (decoded_in_place type_ (count * dt_n dt) (dt_c dt) (firstn (Z.to_nat size) raw)) w.
Proof.
  intros Hfit Hnot. rewrite init_unfold.
  assert (Hr : (size >? TIFF.offsetsize tiff) || TIFF.in_TAG_READERS code = false).
  { rewrite Hnot, orb_false_r. rewrite Z.gtb_ltb. apply Z.ltb_ge. lia. }
  destruct encoded_size as (Es & Hs0).
  pose proof inline_field_length as Hlen.
  assert (Hslice : py_slice raw 0 size = firstn (Z.to_nat size) raw).
  { unfold py_slice. rewrite Z.sub_0_r. reflexivity. }
  unfold TiffTag.read_value. rewrite Hr, Hslice. unfold decoded_in_place.
  destruct (TiffTag.is_c_B (dt_c dt) || (type_ =? 7)); [reflexivity|].
  unfold bind at 1. unfold bind at 1, lift at 1.
  unfold struct_unpack. rewrite Hsize.
  assert (Hl : (Z.of_nat (length (firstn (Z.to_nat size) raw)) =? size) = true).
  { apply Z.eqb_eq. rewrite length_firstn. lia. }
  rewrite Hl. cbn [negb].
  destruct (dt_c dt); reflexivity.
Qed.

End tag_routing.

(** A registry environment for worked examples: every code is named, the
    tag readers return an opaque object, enumerations accept every int and
    every byte string decodes. *)
Definition example_env : TiffTag.TagEnv :=
  TiffTag.mkTagEnv (fun _ => true)
                   (fun _ _ _ _ _ => ret (POpaque 0))
                   (fun _ x => match x with NInt z => Some z | _ => None end)
                   (fun _ => true).

(** C7 (amended). For an entry whose encoded size, count times the size
    of the type, is within the limit of [struct.calcsize]: when the size
    exceeds the inline field, or the code is in TAG_READERS, the inline
    field is read as a file offset, and an offset below 8 or with
    offset + size beyond the channel size makes [TiffTag.__init__] fail
    with TiffFileError before the channel is touched, so a tag that is
    decoded on this route has its value at an offset within both bounds.
    A value that fits the inline field of a code outside TAG_READERS is
    decoded in place: the value that is normalised is the decoding of the
    first [size] bytes of the inline field, the channel sees neither a
    seek nor a read, and the tag is the same whatever the channel holds.
    An entry whose encoded size is beyond the limit fails with
    struct.error whatever its offset is. *)
Theorem tag_value_offset_checked
        (env : TiffTag.TagEnv) (tiff : TIFF.descriptor)
        (tagheader : list byte) (tagoffset : Z)
        (code type_ count : Z) (raw : list byte) (dt : dtype_fmt) (w : World) :
  unpack_HH (TIFF.byteorder_ tiff) (py_slice tagheader 0 4) = Ok (code, type_) ->
  TiffTag.unpack_tagformat2 tiff (skipn 4 tagheader) = Ok (count, raw) ->
  TIFF.DATA_FORMATS type_ = Some dt ->
  let size := count * dt_n dt * itemsize (dt_c dt) in
  let r := TiffTag.init env tiff tagheader tagoffset w in
  (size > PY_SSIZE_T_MAX -> r = (Raise struct_error, w))
  /\ (size <= PY_SSIZE_T_MAX ->
      (size > TIFF.offsetsize tiff \/ TIFF.in_TAG_READERS code = true ->
       forall offset,
         unpack (TIFF.byteorder_ tiff) (TIFF.offsetformat tiff) raw = Ok offset ->
         (offset < 8 \/ offset + size > fh_size (fh w) ->
          r = (Raise (TiffFileError "invalid tag value offset" []), w))
         /\ (forall tag, fst r = Ok tag ->
               TiffTag.valueoffset tag = offset
               /\ 8 <= offset /\ offset + size <= fh_size (fh w)))
      /\ (size <= TIFF.offsetsize tiff -> TIFF.in_TAG_READERS code = false ->
          r = TiffTag.normalise env code type_ count dt
                (tagoffset + TIFF.offsetsize tiff + 4)
                (decoded_in_place tiff type_ (count * dt_n dt) (dt_c dt)
                                  (firstn (Z.to_nat size) raw)) w
          /\ fh (snd r) = fh w
          /\ (forall tag, fst r = Ok tag ->
                TiffTag.valueoffset tag = tagoffset + TIFF.offsetsize tiff + 4)
          /\ (forall f,
                fst (TiffTag.init env tiff tagheader tagoffset (mkWorld f (log w)))
                = fst r))).
Proof.
  intros Hhead Hfield Hdt size r. split.
  - intros Hbig. unfold r, TiffTag.init. unfold bind at 1, lift at 1. rewrite Hhead.
    unfold bind at 1, lift at 1. rewrite Hfield, Hdt.
    unfold bind at 1, lift at 1. unfold struct_calcsize. fold size.
    destruct (Z.gtb_spec size PY_SSIZE_T_MAX); [reflexivity|lia].
  - intros Hsmall.
    assert (Hsize : struct_calcsize (count * dt_n dt) (dt_c dt) = Ok size).
    { unfold struct_calcsize. fold size.
      destruct (Z.gtb_spec size PY_SSIZE_T_MAX); [lia|reflexivity]. }
    split.
    + intros Hroute offset Hoff.
      assert (Hbad : offset < 8 \/ offset + size > fh_size (fh w) ->
                     r = (Raise (TiffFileError "invalid tag value offset" []), w)).
      { intros Hb. subst r.
        eapply tag_indirect_out_of_bounds; eauto. }
      split; [exact Hbad|].
      intros tag Htag. split.
      * subst r. eapply tag_indirect_valueoffset; eauto.
      * destruct (Z_lt_ge_dec offset 8) as [Hlt|Hge].
        { rewrite (Hbad (or_introl Hlt)) in Htag. discriminate. }
        destruct (Z_le_gt_dec (offset + size) (fh_size (fh w))) as [Hle|Hgt].
        { lia. }
        rewrite (Hbad (or_intror Hgt)) in Htag. discriminate.
    + intros Hfit Hnot.
      pose proof (tag_inline_no_io env tiff tagheader tagoffset code type_ count size raw dt
                    Hhead Hfield Hdt Hsize w Hfit Hnot) as (Hio & Hvo).
      pose proof (tag_inline_decoded env tiff tagheader tagoffset code type_ count size raw dt
                    Hhead Hfield Hdt Hsize) as Hdec.
      split; [exact (Hdec w Hfit Hnot)|]. split; [exact Hio|]. split; [exact Hvo|].
      intros f. unfold r. rewrite !Hdec by assumption.
      apply normalise_same_outcome.
Qed.

Lemma tag_value_offset_checked_witness :
  let hdr := [x11; x01; x04; x00; x02; x00; x00; x00; x04; x00; x00; x00] in
  let inline := [x00; x01; x03; x00; x02; x00; x00; x00; x00; x02; x01; x00] in
  let w := World_of_bytes (repeat x00 64) in
  TiffTag.init example_env TIFF.CLASSIC_LE hdr 10 w
  = (Raise (TiffFileError "invalid tag value offset" []), w)
  /\ TiffTag.init example_env TIFF.CLASSIC_LE inline 10 w
     = (Ok (TiffTag.mk 256 2 (mkDtype 1 c_H) (PTuple [NInt 512; NInt 1]) 18), w).
Proof.
  intros hdr inline w. split.
  - refine (proj1 (proj1 (proj2 (tag_value_offset_checked example_env TIFF.CLASSIC_LE hdr 10
                                    273 4 2 [x04; x00; x00; x00] (mkDtype 1 c_I) w
                                    eq_refl eq_refl eq_refl) _)
                           (or_introl _) 4 eq_refl) (or_introl _));
      [vm_compute; discriminate | simpl; lia | lia].
  - rewrite (proj1 (proj2 (proj2 (tag_value_offset_checked example_env TIFF.CLASSIC_LE
                                    inline 10 256 3 2 [x00; x02; x01; x00] (mkDtype 1 c_H) w
                                    eq_refl eq_refl eq_refl) ltac:(vm_compute; discriminate))
                     ltac:(simpl; lia) eq_refl)).
    reflexivity.
Defined.

(** The claim for one entry: an offset that violates a bound makes the
    decoding fail with TiffFileError. *)
Definition bad_offset_rejected (env : TiffTag.TagEnv) (tiff : TIFF.descriptor)
           (tagheader : list byte) (tagoffset : Z) (w : World) : Prop :=
  forall code type_ count raw dt offset,
    unpack_HH (TIFF.byteorder_ tiff) (py_slice tagheader 0 4) = Ok (code, type_) ->
    TiffTag.unpack_tagformat2 tiff (skipn 4 tagheader) = Ok (count, raw) ->
    TIFF.DATA_FORMATS type_ = Some dt ->
    count * dt_n dt * itemsize (dt_c dt) > TIFF.offsetsize tiff
    \/ TIFF.in_TAG_READERS code = true ->
    unpack (TIFF.byteorder_ tiff) (TIFF.offsetformat tiff) raw = Ok offset ->
    offset < 8 \/ offset + count * dt_n dt * itemsize (dt_c dt) > fh_size (fh w) ->
    exists msg args,
      fst (TiffTag.init env tiff tagheader tagoffset w) = Raise (TiffFileError msg args).

(** An entry of a BigTIFF file: StripOffsets, 2^62 LONGs, at the offset
    4.  Its encoded size of 2^64 bytes exceeds the inline field and the
    offset is below 8, but the size is more than [struct.calcsize]
    accepts and the decoding fails with struct.error. *)
Definition huge_count_entry : list byte :=
  [x11; x01; x04; x00;
   x00; x00; x00; x00; x00; x00; x00; x40;
   x04; x00; x00; x00; x00; x00; x00; x00].

Lemma huge_count_not_format_error :
  let w := World_of_bytes (repeat x00 64) in
  unpack_HH LittleEndian (py_slice huge_count_entry 0 4) = Ok (273, 4)
  /\ TiffTag.unpack_tagformat2 TIFF.BIG_LE (skipn 4 huge_count_entry)
     = Ok (2 ^ 62, [x04; x00; x00; x00; x00; x00; x00; x00])
  /\ TiffTag.init example_env TIFF.BIG_LE huge_count_entry 16 w = (Raise struct_error, w)
  /\ ~ bad_offset_rejected example_env TIFF.BIG_LE huge_count_entry 16 w.
Proof.
  intros w.
  split; [reflexivity|]. split; [vm_compute; reflexivity|].
  assert (E : TiffTag.init example_env TIFF.BIG_LE huge_count_entry 16 w
              = (Raise struct_error, w)) by (vm_compute; reflexivity).
  split; [exact E|].
  intros H.
  destruct (H 273 4 (2 ^ 62) [x04; x00; x00; x00; x00; x00; x00; x00] (mkDtype 1 c_I) 4)
    as (msg & args & Hm).
  - reflexivity.
  - vm_compute. reflexivity.
  - reflexivity.
  - left. vm_compute. reflexivity.
  - vm_compute. reflexivity.
  - left. lia.
  - rewrite E in Hm. discriminate Hm.
Qed.

(** An inline SHORT: the width tag 256 with value 512 is decoded in place. *)
Example tag_inline_width :
  let hdr := [x00; x01; x03; x00; x01; x00; x00; x00; x00; x02; x00; x00] in
  let w := World_of_bytes (repeat x00 64) in
  TiffTag.init example_env TIFF.CLASSIC_LE hdr 10 w
  = (Ok (TiffTag.mk 256 1 (mkDtype 1 c_H) (PNum (NInt 512)) 18), w).
Proof. reflexivity. Qed.

(** Two LONGs do not fit four bytes: they are read at the offset 16. *)
Example tag_indirect_offsets :
  let hdr := [x11; x01; x04; x00; x02; x00; x00; x00; x10; x00; x00; x00] in
  let w := World_of_bytes (repeat x01 64) in
  let r := TiffTag.init example_env TIFF.CLASSIC_LE hdr 10 w in
  fst r = Ok (TiffTag.mk 273 2 (mkDtype 1 c_I)
                (PTuple [NInt 16843009; NInt 16843009]) 16)
  /\ fh_events (fh (snd r)) = [EvSeek 16; EvRead 16 8].
Proof. split; reflexivity. Qed.

(** ** Layout queries *)

(** A page with the class defaults of TiffPage and no tags. *)
Definition default_page : TiffPage.t :=
  TiffPage.mk 0 0 8 [] 0 0 1 0 0 1 (TiffPage.Bits 1) 1 (Some (2 ^ 32 - 1))
              1 1 1 0 1 [] [] None [] [].

(** An untiled page of [rows] strips of [width] samples of [bits] bits,
    one row per strip, with the given segments. *)
Definition strip_page (bits : Z) (c : fmtchar) (width rows : Z)
           (offsets bytecounts : list Z) : TiffPage.t :=
  TiffPage.mk 1 0 8 [] width rows 1 0 0 1 (TiffPage.Bits bits) 1 (Some 1)
              1 1 1 1 1 [1; 1; 1; rows; width; 1] [rows; width] (Some c)
              offsets bytecounts.

Lemma lazyattr_Ok {A} (r : result A) (a : A) : lazyattr r = Ok a -> r = Ok a.
Proof. destruct r as [x|[]]; simpl; congruence. Qed.

Lemma rbind_Ok {A B} (r : result A) (k : A -> result B) (b : B) :
  rbind r k = Ok b -> exists a, r = Ok a /\ k a = Ok b.
Proof. destruct r as [a|e]; simpl; [eauto|discriminate]. Qed.

Lemma is_contiguous_Some (self : TiffPage.t) (x : Z * Z) :
  TiffPage.is_contiguous self = Ok (Some x) ->
  TiffPage.compression self = 1
  /\ TiffPage.bits_in (TiffPage.bitspersample self) [8; 16; 32; 64] = true.
Proof.
  unfold TiffPage.is_contiguous. intros H. apply lazyattr_Ok in H.
  destruct (Z.eqb_spec (TiffPage.compression self) 1) as [Hc|Hc];
    simpl in H; [|discriminate].
  destruct (TiffPage.bits_in (TiffPage.bitspersample self) [8; 16; 32; 64]);
    simpl in H; [|discriminate].
  split; [assumption|reflexivity].
Qed.

Lemma is_final_true (self : TiffPage.t) :
  TiffPage.is_final self = Ok true ->
  (exists x, TiffPage.is_contiguous self = Ok (Some x))
  /\ TiffPage.fillorder self = 1 /\ TiffPage.predictor self = 1
  /\ TiffPage.is_subsampled self = false.
Proof.
  unfold TiffPage.is_final. intros H. apply lazyattr_Ok in H.
  apply rbind_Ok in H. destruct H as (c & Hc & H).
  destruct c as [x|]; [|discriminate].
  assert (H1 : (TiffPage.fillorder self =? 1) && (TiffPage.predictor self =? 1)
               && negb (TiffPage.is_subsampled self) = true) by congruence.
  apply andb_true_iff in H1. destruct H1 as (H1 & Hs).
  apply andb_true_iff in H1. destruct H1 as (Hf & Hp).
  split; [eauto|]. repeat split.
  - apply Z.eqb_eq, Hf.
  - apply Z.eqb_eq, Hp.
  - apply negb_true_iff, Hs.
Qed.

Lemma is_memmappable_true (p : TiffPage.parent) (self : TiffPage.t) :
  TiffPage.is_memmappable p self = Ok true ->
  fh_is_file (TiffPage.filehandle p) = true
  /\ TiffPage.is_final self = Ok true
  /\ exists offset bytecount c,
       TiffPage.is_contiguous self = Ok (Some (offset, bytecount))
       /\ TiffPage.dtype self = Some c
       /\ offset mod itemsize c = 0.
Proof.
  unfold TiffPage.is_memmappable. intros H. apply lazyattr_Ok in H.
  destruct (fh_is_file (TiffPage.filehandle p)); simpl in H; [|discriminate].
  apply rbind_Ok in H. destruct H as (f & Hf & H).
  destruct f; simpl in H; [|discriminate].
  apply rbind_Ok in H. destruct H as (c & Hc & H).
  destruct c as [[offset bytecount]|]; [|discriminate].
  destruct (TiffPage.dtype self) as [ch|] eqn:Hd; [|discriminate].
  assert (Ha : (offset mod itemsize ch =? 0) = true) by congruence.
  split; [reflexivity|]. split; [assumption|].
  exists offset, bytecount, ch. split; [assumption|]. split; [reflexivity|].
  apply Z.eqb_eq, Ha.
Qed.

(** Memory-mappable only with the byte order [native] of the platform. *)
Definition memmappable_only_if_native (native : byteorder)
           (p : TiffPage.parent) (self : TiffPage.t) : Prop :=
  TiffPage.is_memmappable p self = Ok true ->
  TIFF.byteorder_ (TiffPage.parent_tiff p) = native.

(** A 16-bit page of one strip at offset 8 in a big-endian file, read on a
    little-endian platform. *)
Definition big_endian_parent : TiffPage.parent :=
  TiffPage.mkParent TIFF.CLASSIC_BE (FileHandle_of_bytes (repeat x00 24)).

Lemma memmappable_in_non_native_order :
  TiffPage.is_memmappable big_endian_parent (strip_page 16 c_H 8 1 [8] [16]) = Ok true
  /\ ~ memmappable_only_if_native LittleEndian big_endian_parent
        (strip_page 16 c_H 8 1 [8] [16]).
Proof.
  split; [reflexivity|].
  intros H. specialize (H eq_refl). discriminate H.
Qed.

(** C2 (amended). [is_memmappable] holds only if the channel is a real
    file, the data are contiguous and in final form (compression 1,
    predictor 1, fill order 1, no chroma subsampling) and the start offset
    is a multiple of the element size.  The byte order of the file is not
    consulted: whenever these conditions hold the page is memory-mappable,
    under every format descriptor, little-endian or big-endian. *)
Theorem memmappable_requirements (p : TiffPage.parent) (self : TiffPage.t) :
  (TiffPage.is_memmappable p self = Ok true ->
   fh_is_file (TiffPage.filehandle p) = true
   /\ (exists offset bytecount c,
         TiffPage.is_contiguous self = Ok (Some (offset, bytecount))
         /\ TiffPage.dtype self = Some c
         /\ offset mod itemsize c = 0)
   /\ TiffPage.compression self = 1
   /\ TiffPage.predictor self = 1
   /\ TiffPage.fillorder self = 1
   /\ TiffPage.is_subsampled self = false)
  /\ (forall offset bytecount c,
        fh_is_file (TiffPage.filehandle p) = true ->
        TiffPage.is_contiguous self = Ok (Some (offset, bytecount)) ->
        TiffPage.predictor self = 1 ->
        TiffPage.fillorder self = 1 ->
        TiffPage.is_subsampled self = false ->
        TiffPage.dtype self = Some c ->
        offset mod itemsize c = 0 ->
        TiffPage.compression self = 1
        /\ forall tiff',
             TiffPage.is_memmappable (TiffPage.mkParent tiff' (TiffPage.filehandle p)) self
             = Ok true).
Proof.
  split.
  - intros H.
    destruct (is_memmappable_true p self H)
      as (Hfile & Hfinal & (o & n & c & Hc & Hd & Ha)).
    destruct (is_final_true self Hfinal) as (_ & Hfill & Hpred & Hsub).
    destruct (is_contiguous_Some self (o, n) Hc) as (Hcomp & _).
    split; [assumption|]. split; [eauto 6|].
    repeat (split; [assumption|]). assumption.
  - intros offset bytecount c Hfile Hc Hpred Hfill Hsub Hd Ha.
    split; [exact (proj1 (is_contiguous_Some self _ Hc))|].
    intros tiff'.
    unfold TiffPage.is_memmappable, TiffPage.is_final.
    cbn [TiffPage.filehandle]. rewrite Hfile, Hc. cbn [negb rbind lazyattr].
    rewrite Hpred, Hfill, Hsub. cbn [Z.eqb Pos.eqb andb negb rbind lazyattr].
    rewrite Hd, Ha. reflexivity.
Qed.

Lemma memmappable_requirements_witness :
  TiffPage.compression (strip_page 16 c_H 8 1 [8] [16]) = 1
  /\ TiffPage.is_memmappable
       (TiffPage.mkParent TIFF.CLASSIC_LE (TiffPage.filehandle big_endian_parent))
       (strip_page 16 c_H 8 1 [8] [16]) = Ok true
  /\ TiffPage.is_memmappable
       (TiffPage.mkParent TIFF.CLASSIC_BE (TiffPage.filehandle big_endian_parent))
       (strip_page 16 c_H 8 1 [8] [16]) = Ok true.
Proof.
  destruct (memmappable_requirements big_endian_parent (strip_page 16 c_H 8 1 [8] [16]))
    as (Honly & Hif).
  split; [apply (Honly eq_refl)|].
  destruct (Hif 8 16 c_H eq_refl eq_refl eq_refl eq_refl eq_refl eq_refl eq_refl)
    as (_ & Hall).
  split; apply Hall.
Defined.

(** Misaligned data are not memory-mappable. *)
Example memmappable_needs_alignment :
  TiffPage.is_memmappable big_endian_parent (strip_page 16 c_H 8 1 [9] [16]) = Ok false.
Proof. reflexivity. Qed.

(** ** asarray on empty pages *)

(** The normalized shape is empty or has no elements. *)
Definition empty_shape (self : TiffPage.t) : Prop :=
  TiffPage._shape self = [] \/ product (TiffPage._shape self) = 0.

Lemma body_empty env tiff (self : TiffPage.t) oc a w :
  empty_shape self -> Asarray.body env tiff self oc a w = (Ok None, w).
Proof.
  intros [H|H]; unfold Asarray.body; rewrite H; simpl; [reflexivity|].
  rewrite orb_true_r. reflexivity.
Qed.

(** A frame bound to a keyframe with an empty shape decodes to None, for
    all arguments, without touching the channel or the log. *)
Lemma frame_asarray_empty env tiff (self : TiffFrame.t) (keyframe : TiffPage.t) a w :
  TiffFrame._keyframe self = Some keyframe -> empty_shape keyframe ->
  Asarray.frame_asarray env tiff self a w = (Ok None, w).
Proof.
  intros Hk He. unfold Asarray.frame_asarray. rewrite Hk. apply body_empty, He.
Qed.

(** So does a page, when its simplified offsets and bytecounts can be
    computed. *)
Lemma asarray_empty env tiff (self : TiffPage.t) oc a w :
  TiffPage._offsetscounts self = Ok oc -> empty_shape self ->
  Asarray.asarray env tiff self a w = (Ok None, w).
Proof.
  intros Hoc He. unfold Asarray.asarray, bind, lift. rewrite Hoc.
  apply body_empty, He.
Qed.

(** The page that [TiffPage.__init__] builds from a directory whose only
    tag is BitsPerSample = 8: no width, no length, no strips. *)
Definition bits_only_page : TiffPage.t :=
  TiffPage.mk 2 0 8
    [("BitsPerSample", TiffTag.mk 258 1 (mkDtype 1 c_H) (PNum (NInt 8)) 18)]
    0 0 1 0 0 1 (TiffPage.Bits 8) 1 (Some (2 ^ 32 - 1))
    1 1 1 0 1 [1; 1; 1; 0; 0; 1] [0; 0] (Some c_B) [] [0].

(** C10. The shape of [bits_only_page] has no elements, and yet asarray
    raises IndexError for every combination of arguments: the simplified
    offsets are computed before the shape is looked at, and
    [is_contiguous] indexes the empty offsets. *)
Theorem asarray_empty_page_raises env tiff a w :
  product (TiffPage._shape bits_only_page) = 0
  /\ Asarray.asarray env tiff bits_only_page a w
     = (Raise (IndexError "index out of range"), w).
Proof. split; reflexivity. Qed.

(** ** Frames and keyframes *)

Definition incompatible : exn := RuntimeError "incompatible keyframe".

(** With a keyframe, the scan of the tags fails only for a width that
    disagrees. *)
Lemma scan_tags_width (kf : TiffPage.t) (tags : list (Z * TiffTag.t)) :
  forall offs counts,
    (exists tag, In (256, tag) tags
                 /\ py_ne_int (TiffPage.imagewidth kf) (TiffTag.value tag) = true) ->
    TiffFrame.scan_tags (Some kf) tags offs counts = Raise incompatible.
Proof.
  induction tags as [|[code tag] rest IH]; intros offs counts (t & Hin & Hne).
  - contradiction.
  - simpl.
    destruct (Z.eqb_spec code 273) as [->|H273];
      [ simpl; apply IH; exists t; split; [|assumption];
        destruct Hin as [E|Hin]; [discriminate E|assumption] |].
    destruct (Z.eqb_spec code 324) as [->|H324];
      [ simpl; apply IH; exists t; split; [|assumption];
        destruct Hin as [E|Hin]; [discriminate E|assumption] |].
    simpl.
    destruct (Z.eqb_spec code 279) as [->|H279];
      [ simpl; apply IH; exists t; split; [|assumption];
        destruct Hin as [E|Hin]; [discriminate E|assumption] |].
    destruct (Z.eqb_spec code 325) as [->|H325];
      [ simpl; apply IH; exists t; split; [|assumption];
        destruct Hin as [E|Hin]; [discriminate E|assumption] |].
    simpl.
    destruct (Z.eqb_spec code 256) as [->|H256].
    + destruct (py_ne_int (TiffPage.imagewidth kf) (TiffTag.value tag)) eqn:Hv;
        [reflexivity|].
      apply IH. exists t. split; [|assumption].
      destruct Hin as [E|Hin]; [|assumption].
      inversion E; subst. congruence.
    + apply IH. exists t. split; [|assumption].
      destruct Hin as [E|Hin]; [|assumption]. inversion E; subst. contradiction.
Qed.

Lemma set_keyframe_count (self : TiffFrame.t) (kf : TiffPage.t) (n : Z) :
  TiffFrame._keyframe self = None ->
  py_len (fst (TiffFrame._offsetscounts self)) = Ok n ->
  n <> Z.of_nat (length (TiffPage.dataoffsets kf)) ->
  TiffFrame.set_keyframe self kf = Raise incompatible.
Proof.
  intros Hk Hn Hne. unfold TiffFrame.set_keyframe. rewrite Hk, Hn. simpl.
  destruct (Z.eqb_spec n (Z.of_nat (length (TiffPage.dataoffsets kf))));
    [contradiction|reflexivity].
Qed.

(** With a keyframe whose layout query [is_contiguous] can be computed,
    so that the codes to read are known: materializing a frame whose
    directory holds a width tag that disagrees with the width of the
    keyframe fails with RuntimeError 'incompatible keyframe'.  Assigning,
    to a frame without keyframe, a keyframe whose number of segments
    differs from the frame's fails with the same error and the frame
    stays without keyframe; the same holds when the assignment is the
    last step of the constructor. *)
Lemma frame_rejects_incompatible_keyframe
        (env : TiffTag.TagEnv) (tiff : TIFF.descriptor) :
  (forall index offset kf w o w1 codes tags w2,
      TiffFrame.start offset w = (Ok o, w1) ->
      TiffFrame.wanted (Some kf) = Ok codes ->
      TiffFrame._gettags env tiff o codes w1 = (Ok tags, w2) ->
      (exists tag, In (256, tag) tags
                   /\ py_ne_int (TiffPage.imagewidth kf) (TiffTag.value tag) = true) ->
      TiffFrame.init env tiff index offset (Some kf) None w = (Raise incompatible, w2))
  /\ (forall self kf n,
      TiffFrame._keyframe self = None ->
      py_len (fst (TiffFrame._offsetscounts self)) = Ok n ->
      n <> Z.of_nat (length (TiffPage.dataoffsets kf)) ->
      TiffFrame.assign_keyframe kf self = (Raise incompatible, self)
      /\ TiffFrame._keyframe (snd (TiffFrame.assign_keyframe kf self)) = None)
  /\ (forall index offset kf w o w1 codes tags w2 oc n,
      TiffFrame.start offset w = (Ok o, w1) ->
      TiffFrame.wanted (Some kf) = Ok codes ->
      TiffFrame._gettags env tiff o codes w1 = (Ok tags, w2) ->
      TiffFrame.scan_tags (Some kf) tags (PTuple []) (PTuple []) = Ok oc ->
      py_len (fst oc) = Ok n ->
      n <> Z.of_nat (length (TiffPage.dataoffsets kf)) ->
      fst (TiffFrame.init env tiff index offset (Some kf) None w) = Raise incompatible).
Proof.
  split; [|split].
  - intros index offset kf w o w1 codes tags w2 Hstart Hcodes Htags Hw.
    unfold TiffFrame.init, bind, lift. rewrite Hstart, Hcodes, Htags.
    rewrite (scan_tags_width kf tags _ _ Hw). reflexivity.
  - intros self kf n Hk Hn Hne. unfold TiffFrame.assign_keyframe.
    rewrite (set_keyframe_count self kf n Hk Hn Hne). simpl. auto.
  - intros index offset kf w o w1 codes tags w2 oc n Hstart Hcodes Htags Hscan Hn Hne.
    unfold TiffFrame.init, bind, lift. rewrite Hstart, Hcodes, Htags, Hscan.
    assert (Hset : TiffFrame.set_keyframe (TiffFrame.mk index (Some o) oc None) kf
                   = Raise incompatible)
      by (apply (set_keyframe_count _ kf n); auto).
    destruct (TiffFrame.is_empty (fst oc)); simpl; rewrite Hset; reflexivity.
Qed.

(** A directory at offset 8 of a little-endian classic file with two tags:
    ImageWidth = 512 and StripOffsets = (40,). *)
Definition frame_file : list byte :=
  [x49; x49; x2a; x00; x08; x00; x00; x00;
   x02; x00;
   x00; x01; x03; x00; x01; x00; x00; x00; x00; x02; x00; x00;
   x11; x01; x04; x00; x01; x00; x00; x00; x28; x00; x00; x00;
   x00; x00; x00; x00] ++ repeat x07 10.

(** A keyframe of width 256 with one strip. *)
Definition keyframe_256 : TiffPage.t := strip_page 8 c_B 256 1 [100] [256].

(** A keyframe of width 512 with two strips. *)
Definition keyframe_two_strips : TiffPage.t :=
  TiffPage.mk 3 0 8 [] 512 2 1 0 0 1 (TiffPage.Bits 8) 1 (Some 1)
              1 1 1 1 1 [1; 1; 1; 2; 512; 1] [2; 512] (Some c_B)
              [100; 700] [512; 512].

Example frame_tags_read :
  fst (TiffFrame._gettags example_env TIFF.CLASSIC_LE 8 [256; 273; 324]
         (World_of_bytes frame_file))
  = Ok [(256, TiffTag.mk 256 1 (mkDtype 1 c_H) (PNum (NInt 512)) 18);
        (273, TiffTag.mk 273 1 (mkDtype 1 c_I) (PTuple [NInt 40]) 30)].
Proof. reflexivity. Qed.

Lemma frame_rejects_incompatible_keyframe_witness :
  (exists w2,
     TiffFrame.init example_env TIFF.CLASSIC_LE 1 (Some 8) (Some keyframe_256) None
       (World_of_bytes frame_file) = (Raise incompatible, w2))
  /\ TiffFrame.assign_keyframe keyframe_two_strips
       (TiffFrame.mk 1 (Some 8) (PTuple [NInt 40], PTuple []) None)
     = (Raise incompatible, TiffFrame.mk 1 (Some 8) (PTuple [NInt 40], PTuple []) None)
  /\ fst (TiffFrame.init example_env TIFF.CLASSIC_LE 1 (Some 8)
            (Some keyframe_two_strips) None (World_of_bytes frame_file))
     = Raise incompatible.
Proof.
  destruct (frame_rejects_incompatible_keyframe example_env TIFF.CLASSIC_LE)
    as (Hwidth & Hassign & Hinit).
  split; [|split].
  - eexists. eapply Hwidth.
    + vm_compute; reflexivity.
    + vm_compute; reflexivity.
    + vm_compute; reflexivity.
    + eexists; split; [left; reflexivity | reflexivity].
  - apply (Hassign (TiffFrame.mk 1 (Some 8) (PTuple [NInt 40], PTuple []) None)
             keyframe_two_strips 1 eq_refl eq_refl). simpl. lia.
  - eapply Hinit.
    + vm_compute; reflexivity.
    + vm_compute; reflexivity.
    + vm_compute; reflexivity.
    + vm_compute; reflexivity.
    + reflexivity.
    + simpl. lia.
Defined.

(** A file of two directories.  The one at offset 8 holds a single tag,
    BitsPerSample = 8, and is what [bits_only_page] is built from; the
    one at offset 26 holds ImageWidth = 512 and StripOffsets = (56,). *)
Definition bits_then_frame_file : list byte :=
  [x49; x49; x2a; x00; x08; x00; x00; x00;
   x01; x00;
   x02; x01; x03; x00; x01; x00; x00; x00; x08; x00; x00; x00;
   x1a; x00; x00; x00;
   x02; x00;
   x00; x01; x03; x00; x01; x00; x00; x00; x00; x02; x00; x00;
   x11; x01; x04; x00; x01; x00; x00; x00; x38; x00; x00; x00;
   x00; x00; x00; x00] ++ repeat x07 10.

(** C8. The second directory of [bits_then_frame_file] holds the width
    512, the first page [bits_only_page] has the width 0.  Materializing
    the second directory as a frame with the first page as keyframe does
    not fail with 'incompatible keyframe': the constructor asks the
    keyframe for [is_contiguous] before it reads a tag, and that query
    raises IndexError on the page without data offsets.  With a keyframe
    of another width whose query can be computed ([keyframe_256]) the
    same directory is rejected as incompatible. *)
Theorem frame_of_keyframe_without_offsets :
  let w := World_of_bytes bits_then_frame_file in
  fst (TiffFrame._gettags example_env TIFF.CLASSIC_LE 26 [256; 273; 324] w)
  = Ok [(256, TiffTag.mk 256 1 (mkDtype 1 c_H) (PNum (NInt 512)) 36);
        (273, TiffTag.mk 273 1 (mkDtype 1 c_I) (PTuple [NInt 56]) 48)]
  /\ TiffPage.imagewidth bits_only_page = 0
  /\ py_ne_int (TiffPage.imagewidth bits_only_page) (PNum (NInt 512)) = true
  /\ TiffPage.is_contiguous bits_only_page = Raise (IndexError "index out of range")
  /\ fst (TiffFrame.init example_env TIFF.CLASSIC_LE 1 (Some 26) (Some bits_only_page) None w)
     = Raise (IndexError "index out of range")
  /\ fh_events (fh (snd (TiffFrame.init example_env TIFF.CLASSIC_LE 1 (Some 26)
                           (Some bits_only_page) None w)))
     = [EvSeek 26]
  /\ fst (TiffFrame.init example_env TIFF.CLASSIC_LE 1 (Some 26) (Some keyframe_256) None w)
     = Raise incompatible.
Proof. vm_compute. repeat split; reflexivity. Qed.

(** ** The directory walker *)

(** The bytes that [fh.read(size)] returns at position [pos]. *)
Definition peek (data : list byte) (pos size : Z) : list byte :=
  let avail := skipn (Z.to_nat pos) data in
  if size <? 0 then avail else firstn (Z.to_nat size) avail.

(** The outcome of the guarded read of the tag count of the directory at
    [offset]. *)
Definition tagno_at (tiff : TIFF.descriptor) (data : list byte) (offset : Z) : result Z :=
  match unpack (TIFF.byteorder_ tiff) (TIFF.tagnoformat tiff)
               (peek data offset (TIFF.tagnosize tiff)) with
  | Ok tagno => if tagno >? 4096
                then Raise (TiffFileError "suspicious number of tags: %i" [tagno])
                else Ok tagno
  | Raise e => Raise e
  end.

(** The offset stored at [pos]. *)
Definition next_at (tiff : TIFF.descriptor) (data : list byte) (pos : Z) : result Z :=
  unpack (TIFF.byteorder_ tiff) (TIFF.ifdoffsetformat tiff)
         (peek data pos (TIFF.ifdoffsetsize tiff)).

(** Where the next-directory offset of the directory at [offset] is. *)
Definition next_pos (tiff : TIFF.descriptor) (offset tagno : Z) : Z :=
  offset + TIFF.tagnosize tiff + tagno * TIFF.tagsize tiff.

(** What a walk cannot change: the descriptor, the dialect flag and the
    file behind the channel. *)
Definition file_of (s : TiffPages.t) : TIFF.descriptor * bool * list byte * Z * bool * bool :=
  (TiffPages.tiff s, TiffPages.parent_is_scanimage s,
   fh_data (fh (TiffPages.world s)), fh_size (fh (TiffPages.world s)),
   fh_closed (fh (TiffPages.world s)), fh_is_file (fh (TiffPages.world s))).

Definition data_of (s : TiffPages.t) : list byte := fh_data (fh (TiffPages.world s)).
Definition size_of (s : TiffPages.t) : Z := fh_size (fh (TiffPages.world s)).
Definition log_of (s : TiffPages.t) : list warning := log (TiffPages.world s).
Definition reads_in (s : TiffPages.t) : list (Z * Z) := reads (TiffPages.world s).
Definition pos_of (s : TiffPages.t) : Z := fh_pos (fh (TiffPages.world s)).

Lemma reads_of_app (a b : list io_event) : reads_of (a ++ b) = reads_of a ++ reads_of b.
Proof. unfold reads_of. apply flat_map_app. Qed.

(** *** The primitive steps *)

Lemma seek_spec (o : Z) (s : TiffPages.t) :
  0 <= o ->
  let s' := snd (TiffPages.io (fh_seek o) s) in
  fst (TiffPages.io (fh_seek o) s) = Ok tt
  /\ file_of s' = file_of s /\ TiffPages.pages s' = TiffPages.pages s
  /\ TiffPages._indexed s' = TiffPages._indexed s /\ log_of s' = log_of s
  /\ reads_in s' = reads_in s /\ pos_of s' = o.
Proof.
  intros Ho. unfold TiffPages.io, fh_seek.
  destruct (Z.ltb_spec o 0); [lia|]. simpl.
  unfold file_of, log_of, reads_in, reads, pos_of. simpl.
  rewrite reads_of_app. simpl. rewrite app_nil_r. repeat split; reflexivity.
Qed.

Lemma read_tagno_spec (s : TiffPages.t) :
  let s' := snd (TiffPages.read_tagno s) in
  fst (TiffPages.read_tagno s) = tagno_at (TiffPages.tiff s) (data_of s) (pos_of s)
  /\ file_of s' = file_of s /\ TiffPages.pages s' = TiffPages.pages s
  /\ TiffPages._indexed s' = TiffPages._indexed s /\ log_of s' = log_of s
  /\ reads_in s' = reads_in s ++ [(pos_of s, TIFF.tagnosize (TiffPages.tiff s))].
Proof.
  unfold TiffPages.read_tagno, tagno_at, bind, get, lift, TiffPages.io, fh_read,
    peek, data_of, pos_of, raise, ret.
  simpl.
  destruct (unpack _ _ _) as [tagno|e]; simpl;
    [destruct (tagno >? 4096); simpl|];
    unfold file_of, log_of, reads_in, reads; simpl;
    rewrite reads_of_app; simpl; repeat split; reflexivity.
Qed.

Lemma read_next_offset_spec (s : TiffPages.t) :
  let s' := snd (TiffPages.read_next_offset s) in
  fst (TiffPages.read_next_offset s) = next_at (TiffPages.tiff s) (data_of s) (pos_of s)
  /\ file_of s' = file_of s /\ TiffPages.pages s' = TiffPages.pages s
  /\ TiffPages._indexed s' = TiffPages._indexed s /\ log_of s' = log_of s
  /\ reads_in s' = reads_in s ++ [(pos_of s, TIFF.ifdoffsetsize (TiffPages.tiff s))].
Proof.
  unfold TiffPages.read_next_offset, next_at, bind, get, lift, TiffPages.io, fh_read,
    peek, data_of, pos_of.
  simpl.
  destruct (unpack _ _ _) as [next|e]; simpl;
    unfold file_of, log_of, reads_in, reads; simpl;
    rewrite reads_of_app; simpl; repeat split; reflexivity.
Qed.

(** The state after the tag count and the next-directory offset of the
    directory at [o] were read. *)
Definition visited (o nx : Z) (s s' : TiffPages.t) : Prop :=
  file_of s' = file_of s /\ TiffPages.pages s' = TiffPages.pages s
  /\ TiffPages._indexed s' = TiffPages._indexed s /\ log_of s' = log_of s
  /\ reads_in s' = reads_in s ++ [(o, TIFF.tagnosize (TiffPages.tiff s));
                                  (nx, TIFF.ifdoffsetsize (TiffPages.tiff s))].

(** The state after only the tag count at [o] was read. *)
Definition peeked (o : Z) (s s' : TiffPages.t) : Prop :=
  file_of s' = file_of s /\ TiffPages.pages s' = TiffPages.pages s
  /\ TiffPages._indexed s' = TiffPages._indexed s /\ log_of s' = log_of s
  /\ reads_in s' = reads_in s ++ [(o, TIFF.tagnosize (TiffPages.tiff s))].

Definition warn_invalid (offset : Z) (s : TiffPages.t) : TiffPages.t :=
  snd (TiffPages.io (log_warning "TiffPages: invalid page offset (%i)" [offset]) s).

Definition hit (index lenpages : Z) : bool := (0 <=? index) && (index <? lenpages).

Definition circular : exn := TiffFileError "invalid circular IFD reference" [].

Lemma file_of_tiff s s' : file_of s' = file_of s -> TiffPages.tiff s' = TiffPages.tiff s.
Proof. unfold file_of. intros H. congruence. Qed.

Lemma file_of_data s s' : file_of s' = file_of s -> data_of s' = data_of s.
Proof. unfold file_of, data_of. intros H. congruence. Qed.

Lemma file_of_size s s' : file_of s' = file_of s -> size_of s' = size_of s.
Proof. unfold file_of, size_of. intros H. congruence. Qed.

Lemma set_nextpageoffset_spec (nx : Z) (s : TiffPages.t) :
  let s' := TiffPages.set_nextpageoffset nx s in
  file_of s' = file_of s /\ TiffPages.pages s' = TiffPages.pages s
  /\ TiffPages._indexed s' = TiffPages._indexed s /\ log_of s' = log_of s
  /\ reads_in s' = reads_in s.
Proof. repeat split; reflexivity. Qed.

(** One iteration of the loop on a directory whose tag count is corrupt. *)
Lemma walk_corrupt (f : nat) (index maxpages o lenpages : Z) (s : TiffPages.t) (e : exn) :
  lenpages < maxpages -> 0 <= o ->
  tagno_at (TiffPages.tiff s) (data_of s) o = Raise e ->
  exists s1, peeked o s s1 /\
    TiffPages.walk (S f) index maxpages o lenpages s
    = (TiffPages.corrupted lenpages o ;;; ret (lenpages - 1)) s1.
Proof.
  intros Hlt Ho Htag. simpl.
  destruct (Z.ltb_spec lenpages maxpages); [|lia]. simpl.
  unfold bind at 1.
  destruct (seek_spec o s Ho) as (E1 & F1 & P1 & I1 & L1 & R1 & Pos1).
  destruct (TiffPages.io (fh_seek o) s) as [r1 sa]. simpl in *. subst r1.
  destruct (read_tagno_spec sa) as (E2 & F2 & P2 & I2 & L2 & R2).
  destruct (TiffPages.read_tagno sa) as [r2 sb]. simpl in *.
  rewrite (file_of_tiff _ _ F1), (file_of_data _ _ F1), Pos1, Htag in E2. subst r2.
  exists sb. split; [|reflexivity].
  unfold peeked. rewrite F2, P2, I2, L2, R2, R1, Pos1, (file_of_tiff _ _ F1).
  repeat split; assumption.
Qed.

(** One iteration of the loop on a directory that can be read. *)
Lemma walk_step (f : nat) (index maxpages o lenpages : Z) (s : TiffPages.t)
      (tagno next : Z) :
  lenpages < maxpages -> 0 <= o ->
  tagno_at (TiffPages.tiff s) (data_of s) o = Ok tagno ->
  0 <= next_pos (TiffPages.tiff s) o tagno ->
  next_at (TiffPages.tiff s) (data_of s) (next_pos (TiffPages.tiff s) o tagno) = Ok next ->
  exists s1, visited o (next_pos (TiffPages.tiff s) o tagno) s s1 /\
    TiffPages.walk (S f) index maxpages o lenpages s
    = if next =? 0 then (Ok lenpages, TiffPages.set_indexed true s1)
      else if next >=? size_of s
      then (Ok lenpages, TiffPages.set_indexed true (warn_invalid next s1))
      else
        let s2 := TiffPages.set_pages (TiffPages.pages s1 ++ [TiffPages.SlotOffset next]) s1 in
        if hit index (lenpages + 1) then (Ok (lenpages + 1), s2)
        else if (lenpages + 1 =? 100) && TiffPages.seen_before next (TiffPages.pages s2)
        then (Raise circular, s2)
        else TiffPages.walk f index maxpages next (lenpages + 1) s2.
Proof.
  intros Hlt Ho Htag Hnx Hnext. simpl.
  destruct (Z.ltb_spec lenpages maxpages); [|lia]. simpl.
  unfold bind at 1.
  destruct (seek_spec o s Ho) as (E1 & F1 & P1 & I1 & L1 & R1 & Pos1).
  destruct (TiffPages.io (fh_seek o) s) as [r1 sa]. simpl in *. subst r1.
  destruct (read_tagno_spec sa) as (E2 & F2 & P2 & I2 & L2 & R2).
  destruct (TiffPages.read_tagno sa) as [r2 sb]. simpl in *.
  rewrite (file_of_tiff _ _ F1), (file_of_data _ _ F1), Pos1, Htag in E2. subst r2.
  unfold bind at 1, get at 1.
  unfold bind at 1, modify at 1.
  unfold bind at 1.
  assert (Ftb : TiffPages.tiff sb = TiffPages.tiff s)
    by (rewrite (file_of_tiff _ _ F2); apply (file_of_tiff _ _ F1)).
  rewrite Ftb. fold (next_pos (TiffPages.tiff s) o tagno).
  set (nx := next_pos (TiffPages.tiff s) o tagno) in *.
  set (sc := TiffPages.set_nextpageoffset nx sb).
  destruct (seek_spec nx sc Hnx) as (E3 & F3 & P3 & I3 & L3 & R3 & Pos3).
  destruct (TiffPages.io (fh_seek nx) sc) as [r3 sd]. simpl in *. subst r3.
  unfold bind at 1.
  destruct (read_next_offset_spec sd) as (E4 & F4 & P4 & I4 & L4 & R4).
  destruct (TiffPages.read_next_offset sd) as [r4 se]. simpl in *.
  destruct (set_nextpageoffset_spec nx sb) as (Fc & Pc & Ic & Lc & Rc).
  fold sc in Fc, Pc, Ic, Lc, Rc.
  assert (Fsc : file_of sc = file_of s) by (rewrite Fc, F2; exact F1).
  assert (Fsd : file_of sd = file_of s) by (rewrite F3; exact Fsc).
  rewrite (file_of_tiff _ _ Fsd), (file_of_data _ _ Fsd), Pos3, Hnext in E4. subst r4.
  assert (Fse : file_of se = file_of s) by (rewrite F4; exact Fsd).
  exists se. split.
  - unfold visited. split; [exact Fse|].
    rewrite P4, P3, I4, I3, L4, L3, R4, R3, ?Pc, ?Ic, ?Lc, ?Rc.
    rewrite P2, P1, I2, I1, L2, L1, R2, R1, Pos1, Pos3.
    rewrite (file_of_tiff _ _ Fsd), (file_of_tiff _ _ F1).
    rewrite <- app_assoc. repeat split; reflexivity.
  - destruct (next =? 0) eqn:E0; [reflexivity|].
    unfold bind at 1, get at 1.
    fold (size_of se). rewrite (file_of_size _ _ Fse).
    destruct (next >=? size_of s) eqn:Esz; [reflexivity|].
    unfold bind at 1, modify at 1.
    fold (hit index (lenpages + 1)).
    destruct (hit index (lenpages + 1)); [reflexivity|].
    unfold bind at 1, get at 1. unfold circular.
    destruct ((lenpages + 1 =? 100) && _); reflexivity.
Qed.

(** *** Chains of directories in the file *)

(** The descriptor has non-negative field sizes, as the five descriptors
    of the module have. *)
Definition sane (tiff : TIFF.descriptor) : Prop :=
  0 <= TIFF.tagnosize tiff /\ 0 <= TIFF.tagsize tiff.

Lemma sane_descriptors :
  sane TIFF.CLASSIC_LE /\ sane TIFF.CLASSIC_BE /\ sane TIFF.BIG_LE
  /\ sane TIFF.BIG_BE /\ sane TIFF.NDPI_LE.
Proof. unfold sane; simpl; repeat split; lia. Qed.

(** The directory at [o] can be read and its next-directory offset is
    [next]. *)
Definition hop (tiff : TIFF.descriptor) (data : list byte) (o next : Z) : Prop :=
  exists tagno, tagno_at tiff data o = Ok tagno
                /\ next_at tiff data (next_pos tiff o tagno) = Ok next.

(** From the directory at [o], the next-directory offsets lead through
    [rest], each of them a valid offset into the file. *)
Fixpoint hops (tiff : TIFF.descriptor) (data : list byte) (size : Z)
         (o : Z) (rest : list Z) : Prop :=
  match rest with
  | [] => True
  | o' :: rest' => hop tiff data o o' /\ o' <> 0 /\ o' < size
                   /\ hops tiff data size o' rest'
  end.

(** The tag count at [o] (0 when it cannot be read). *)
Definition tagno_of (tiff : TIFF.descriptor) (data : list byte) (o : Z) : Z :=
  match tagno_at tiff data o with Ok t => t | Raise _ => 0 end.

(** The two reads that visiting the directory at [o] costs. *)
Definition visit_reads (tiff : TIFF.descriptor) (data : list byte) (o : Z) : list (Z * Z) :=
  [(o, TIFF.tagnosize tiff);
   (next_pos tiff o (tagno_of tiff data o), TIFF.ifdoffsetsize tiff)].

(** The reads of a walk that visits [o] and then all of [rest] but its
    last element. *)
Fixpoint trace (tiff : TIFF.descriptor) (data : list byte) (o : Z) (rest : list Z)
  : list (Z * Z) :=
  match rest with
  | [] => []
  | o' :: rest' => visit_reads tiff data o ++ trace tiff data o' rest'
  end.

(** [offset] is the offset of one of the slots. *)
Definition seen (offset : Z) (ps : list TiffPages.slot) : bool :=
  existsb (fun p => match TiffPages.slot_offset p with
                    | Some o => offset =? o
                    | None => false
                    end) ps.

Lemma seen_before_snoc (offset : Z) (ps : list TiffPages.slot) (p : TiffPages.slot) :
  TiffPages.seen_before offset (ps ++ [p]) = seen offset ps.
Proof. unfold TiffPages.seen_before, seen. rewrite removelast_last. reflexivity. Qed.

Lemma unpack_nonneg (bo : byteorder) (c : intcode) (bs : list byte) (z : Z) :
  unpack bo c bs = Ok z -> 0 <= z.
Proof.
  unfold unpack. destruct (_ =? _); [|discriminate].
  intros H. inversion H. apply bytes_to_Z_nonneg.
Qed.

Lemma tagno_at_nonneg tiff data o t : tagno_at tiff data o = Ok t -> 0 <= t.
Proof.
  unfold tagno_at. destruct (unpack _ _ _) as [z|e] eqn:E; [|discriminate].
  destruct (z >? 4096); [discriminate|]. intros H; inversion H; subst.
  eapply unpack_nonneg; eauto.
Qed.

Lemma next_at_nonneg tiff data p z : next_at tiff data p = Ok z -> 0 <= z.
Proof. unfold next_at. apply unpack_nonneg. Qed.

Lemma next_pos_nonneg tiff o t : sane tiff -> 0 <= o -> 0 <= t -> 0 <= next_pos tiff o t.
Proof. intros (H1 & H2) Ho Ht. unfold next_pos. nia. Qed.

Lemma hit_mono (index a b : Z) : a <= b -> hit index b = false -> hit index a = false.
Proof.
  unfold hit. intros Hab H.
  destruct (Z.leb_spec 0 index); simpl in *; [|reflexivity].
  apply Z.ltb_ge in H. apply Z.ltb_ge. lia.
Qed.

Lemma last_cons {A} (l : list A) (a d : A) : last (a :: l) d = last l a.
Proof.
  revert a d. induction l as [|b l IH]; intros a d; [reflexivity|].
  change (last (a :: b :: l) d) with (last (b :: l) d).
  rewrite IH. symmetry. apply IH.
Qed.

(** The walk follows a run of valid hops without leaving the loop when the
    requested index lies beyond it and the one-time cycle test, if its
    turn comes, finds nothing. *)
Lemma walk_segment (rest : list Z) :
  forall (f : nat) (index maxpages o lenpages : Z) (s : TiffPages.t),
    sane (TiffPages.tiff s) -> 0 <= o ->
    hops (TiffPages.tiff s) (data_of s) (size_of s) o rest ->
    lenpages + Z.of_nat (length rest) <= maxpages ->
    hit index (lenpages + Z.of_nat (length rest)) = false ->
    (forall i, (i < length rest)%nat -> lenpages + Z.of_nat i + 1 = 100 ->
               seen (nth i rest 0)
                    (TiffPages.pages s ++ map TiffPages.SlotOffset (firstn i rest)) = false) ->
    exists s',
      TiffPages.walk (length rest + f) index maxpages o lenpages s
      = TiffPages.walk f index maxpages (last rest o)
                       (lenpages + Z.of_nat (length rest)) s'
      /\ file_of s' = file_of s
      /\ TiffPages.pages s' = TiffPages.pages s ++ map TiffPages.SlotOffset rest
      /\ TiffPages._indexed s' = TiffPages._indexed s
      /\ log_of s' = log_of s
      /\ reads_in s' = reads_in s ++ trace (TiffPages.tiff s) (data_of s) o rest.
Proof.
  induction rest as [|o' rest IH]; intros f index maxpages o lenpages s Hsane Ho Hhops Hmax Hhit H100.
  - exists s. simpl. rewrite Z.add_0_r, !app_nil_r. repeat split; reflexivity.
  - destruct Hhops as ((tagno & Htag & Hnext) & Hnz & Hsz & Hrest).
    assert (Ho' : 0 <= o') by (eapply next_at_nonneg; eauto).
    assert (Hnx : 0 <= next_pos (TiffPages.tiff s) o tagno).
    { apply next_pos_nonneg; auto. eapply tagno_at_nonneg; eauto. }
    simpl length in *. rewrite Nat2Z.inj_succ in *.
    destruct (walk_step (length rest + f) index maxpages o lenpages s tagno o'
                ltac:(lia) Ho Htag Hnx Hnext) as (s1 & Hv & Hw).
    destruct Hv as (F1 & P1 & I1 & L1 & R1).
    change (S (length rest) + f)%nat with (S (length rest + f)).
    rewrite Hw. clear Hw.
    destruct (Z.eqb_spec o' 0); [contradiction|].
    destruct (Z.geb_spec o' (size_of s)); [lia|].
    cbv zeta. cbn [TiffPages.pages TiffPages.set_pages].
    rewrite (hit_mono index (lenpages + 1) (lenpages + Z.succ (Z.of_nat (length rest)))
               ltac:(lia) Hhit).
    rewrite seen_before_snoc, P1.
    assert (Hcheck : (lenpages + 1 =? 100) && seen o' (TiffPages.pages s) = false).
    { destruct (Z.eqb_spec (lenpages + 1) 100) as [E|E]; [|reflexivity]. simpl.
      specialize (H100 0%nat ltac:(lia) ltac:(simpl; lia)). simpl in H100.
      rewrite app_nil_r in H100. exact H100. }
    rewrite Hcheck.
    set (s2 := TiffPages.set_pages (TiffPages.pages s ++ [TiffPages.SlotOffset o']) s1).
    assert (F2 : file_of s2 = file_of s) by (unfold s2; exact F1).
    destruct (IH f index maxpages o' (lenpages + 1) s2) as (s' & Ew & F' & P' & I' & L' & R').
    + rewrite (file_of_tiff _ _ F2). exact Hsane.
    + exact Ho'.
    + rewrite (file_of_tiff _ _ F2), (file_of_data _ _ F2), (file_of_size _ _ F2). exact Hrest.
    + lia.
    + replace (lenpages + 1 + Z.of_nat (length rest))
        with (lenpages + Z.succ (Z.of_nat (length rest))) by lia. exact Hhit.
    + intros i Hi E100.
      specialize (H100 (S i) ltac:(lia) ltac:(rewrite Nat2Z.inj_succ; lia)).
      simpl in H100. unfold s2. simpl. rewrite <- app_assoc. exact H100.
    + exists s'. split; [|split; [|split; [|split; [|split]]]].
      * rewrite Ew.
        replace (lenpages + 1 + Z.of_nat (length rest))
          with (lenpages + Z.succ (Z.of_nat (length rest))) by lia.
        rewrite last_cons. reflexivity.
      * rewrite F'. exact F2.
      * rewrite P'. unfold s2. simpl. rewrite <- app_assoc. reflexivity.
      * rewrite I'. unfold s2. simpl. exact I1.
      * rewrite L'. unfold s2. exact L1.
      * rewrite R', (file_of_tiff _ _ F2), (file_of_data _ _ F2). unfold s2.
        change (reads_in (TiffPages.set_pages _ s1)) with (reads_in s1).
        rewrite R1.
        simpl trace. unfold visit_reads, tagno_of. rewrite Htag.
        rewrite <- app_assoc. reflexivity.
Qed.

(** *** [_seek] and [__len__] over the general walk *)

Lemma py_index_last (ps : list TiffPages.slot) (p : TiffPages.slot) :
  py_index (ps ++ [p]) (-1) = Ok p.
Proof.
  unfold py_index. rewrite length_app. change (length [p]) with 1%nat.
  replace (-1 <? 0) with true by reflexivity.
  destruct (Z.ltb_spec (-1 + Z.of_nat (length ps + 1)) 0); [lia|].
  destruct (Z.leb_spec (Z.of_nat (length ps + 1)) (-1 + Z.of_nat (length ps + 1)));
    [lia|].
  cbn [orb].
  replace (Z.to_nat (-1 + Z.of_nat (length ps + 1))) with (length ps) by lia.
  rewrite nth_error_app2 by lia. rewrite Nat.sub_diag. reflexivity.
Qed.

(** A chain that is still to be walked: open channel, general dialect,
    offsets not all read, last slot at [o]. *)
Definition walkable (s : TiffPages.t) (ps : list TiffPages.slot) (p : TiffPages.slot)
           (o : Z) : Prop :=
  TiffPages.pages s = ps ++ [p] /\ TiffPages.slot_offset p = Some o
  /\ TiffPages._indexed s = false /\ TiffPages.parent_is_scanimage s = false
  /\ fh_closed (fh (TiffPages.world s)) = false.

Definition maxpages_of (mp : option Z) : Z :=
  match mp with None => 2 ^ 22 | Some m => m end.

Lemma seek_walks (index : Z) (mp : option Z) (s : TiffPages.t)
      (ps : list TiffPages.slot) (p : TiffPages.slot) (o : Z) :
  walkable s ps p o ->
  hit index (Z.of_nat (length (TiffPages.pages s))) = false ->
  TiffPages._seek index mp s
  = (lenpages <- TiffPages.walk
                   (Z.to_nat (maxpages_of mp - Z.of_nat (length (TiffPages.pages s))))
                   index (maxpages_of mp) o (Z.of_nat (length (TiffPages.pages s))) ;;
     TiffPages.land index lenpages) s.
Proof.
  intros (Hp & Ho & Hi & Hs & Hc) Hhit.
  unfold TiffPages._seek. unfold bind at 1, get at 1.
  destruct (Z.eqb_spec (Z.of_nat (length (TiffPages.pages s))) 0) as [E|E].
  { rewrite Hp, length_app in E. change (length [p]) with 1%nat in E. lia. }
  unfold hit in Hhit. rewrite Hc, Hi, Hhit. cbn [orb].
  assert (Hl : py_index (TiffPages.pages s) (-1) = Ok p)
    by (rewrite Hp; apply py_index_last).
  unfold bind at 1, lift at 1. rewrite Hl, Ho, Hs. reflexivity.
Qed.

Lemma seek_cached (index : Z) (mp : option Z) (s : TiffPages.t) :
  TiffPages.pages s <> [] -> fh_closed (fh (TiffPages.world s)) = false ->
  TiffPages._indexed s = true
  \/ hit index (Z.of_nat (length (TiffPages.pages s))) = true ->
  TiffPages._seek index mp s
  = (page <- lift (py_index (TiffPages.pages s) index) ;;
     TiffPages.seek_slot (TiffPages.slot_offset page)) s.
Proof.
  intros Hne Hc Hcase.
  unfold TiffPages._seek. unfold bind at 1, get at 1.
  destruct (Z.eqb_spec (Z.of_nat (length (TiffPages.pages s))) 0) as [E|E].
  { destruct (TiffPages.pages s); [contradiction|simpl in E; lia]. }
  rewrite Hc.
  assert (Hb : TiffPages._indexed s
               || ((0 <=? index) && (index <? Z.of_nat (length (TiffPages.pages s)))) = true).
  { destruct Hcase as [H|H]; [rewrite H; reflexivity|].
    unfold hit in H. rewrite H. apply orb_true_r. }
  rewrite Hb. reflexivity.
Qed.

(** *** How a walk ends *)

Definition warn_corrupt (lenpages offset : Z) (s : TiffPages.t) : TiffPages.t :=
  snd (TiffPages.io (log_warning "TiffPages: corrupted tag list of page %i @ %i"
                       [lenpages; offset]) s).

(** The offsets of the slots that have one. *)
Definition offsets_of (ps : list TiffPages.slot) : list Z :=
  flat_map (fun p => match TiffPages.slot_offset p with
                     | Some o => [o]
                     | None => []
                     end) ps.

Lemma offsets_of_app (a b : list TiffPages.slot) :
  offsets_of (a ++ b) = offsets_of a ++ offsets_of b.
Proof. unfold offsets_of. apply flat_map_app. Qed.

Lemma offsets_of_SlotOffset (l : list Z) : offsets_of (map TiffPages.SlotOffset l) = l.
Proof. induction l as [|x l IH]; simpl; [reflexivity|]. f_equal. exact IH. Qed.

Lemma seen_In (x : Z) (ps : list TiffPages.slot) :
  seen x ps = true -> In x (offsets_of ps).
Proof.
  induction ps as [|p ps IH]; simpl; [discriminate|].
  intros H. apply orb_true_iff in H. apply in_or_app.
  destruct H as [H|H]; [left|right; auto].
  destruct (TiffPages.slot_offset p); [|discriminate].
  apply Z.eqb_eq in H. subst. left. reflexivity.
Qed.

(** Distinct offsets never trip the cycle test. *)
Lemma nodup_no_cycle (ps : list TiffPages.slot) (rest : list Z) :
  NoDup (offsets_of ps ++ rest) ->
  forall i, (i < length rest)%nat ->
            seen (nth i rest 0) (ps ++ map TiffPages.SlotOffset (firstn i rest)) = false.
Proof.
  intros Hnd i Hi.
  destruct (seen _ _) eqn:E; [|reflexivity].
  apply seen_In in E. rewrite offsets_of_app, offsets_of_SlotOffset in E.
  exfalso.
  rewrite <- (firstn_skipn i rest) in Hnd.
  rewrite app_assoc in Hnd.
  assert (Hs : skipn i rest = nth i rest 0 :: skipn (S i) rest).
  { clear -Hi. revert i Hi. induction rest as [|a r IH]; intros i Hi; simpl in Hi; [lia|].
    destruct i; [reflexivity|]. simpl. apply IH. lia. }
  rewrite Hs in Hnd.
  apply NoDup_remove_2 in Hnd. apply Hnd. apply in_or_app. left. exact E.
Qed.


Lemma hops_last_nonneg tiff data size (rest : list Z) (o : Z) :
  0 <= o -> hops tiff data size o rest -> 0 <= last rest o.
Proof.
  revert o. induction rest as [|a r IH]; intros o Ho H; [exact Ho|].
  rewrite last_cons. destruct H as ((t & _ & Hn) & _ & _ & Hr).
  apply IH; [eapply next_at_nonneg; eauto | exact Hr].
Qed.

Section walk_ends.

Variables (index maxpages o lenpages : Z) (s : TiffPages.t) (rest : list Z).

Hypothesis Hsane : sane (TiffPages.tiff s).
Hypothesis Ho : 0 <= o.
Hypothesis Hhops : hops (TiffPages.tiff s) (data_of s) (size_of s) o rest.
Hypothesis Hlen : lenpages = Z.of_nat (length (TiffPages.pages s)).
Hypothesis Hdistinct : NoDup (offsets_of (TiffPages.pages s) ++ rest).

Let total : Z := lenpages + Z.of_nat (length rest).
Let final : Z := last rest o.

Lemma segment_then (f : nat) :
  total <= maxpages -> hit index total = false ->
  exists s',
    TiffPages.walk (length rest + f) index maxpages o lenpages s
    = TiffPages.walk f index maxpages final total s'
    /\ file_of s' = file_of s
    /\ TiffPages.pages s' = TiffPages.pages s ++ map TiffPages.SlotOffset rest
    /\ TiffPages._indexed s' = TiffPages._indexed s
    /\ log_of s' = log_of s
    /\ reads_in s' = reads_in s ++ trace (TiffPages.tiff s) (data_of s) o rest.
Proof.
  intros Hmax Hhit.
  apply walk_segment; auto.
  intros i Hi _. apply nodup_no_cycle; assumption.
Qed.



(** The loop stops because [maxpages] slots are known. *)
Lemma walk_ends_maxpages (f : nat) :
  total = maxpages -> hit index total = false ->
  exists s',
    TiffPages.walk (length rest + f) index maxpages o lenpages s = (Ok total, s')
    /\ file_of s' = file_of s
    /\ TiffPages.pages s' = TiffPages.pages s ++ map TiffPages.SlotOffset rest
    /\ TiffPages._indexed s' = TiffPages._indexed s
    /\ log_of s' = log_of s
    /\ reads_in s' = reads_in s ++ trace (TiffPages.tiff s) (data_of s) o rest.
Proof.
  intros Hmax Hhit.
  destruct (segment_then f ltac:(lia) Hhit) as (s1 & Ew & F1 & P1 & I1 & L1 & R1).
  exists s1. split; [|auto].
  rewrite Ew. destruct f; simpl; [reflexivity|].
  destruct (Z.ltb_spec total maxpages); [lia|]. reflexivity.
Qed.


End walk_ends.

(** *** Seeking to a slot *)

(** [index] is a valid index into a list of [n] items. *)
Definition in_range (index n : Z) : bool := (- n <=? index) && (index <? n).

(** Every slot has a non-negative offset. *)
Definition located (ps : list TiffPages.slot) : Prop :=
  Forall (fun p => exists z, TiffPages.slot_offset p = Some z /\ 0 <= z) ps.

(** [s'] differs from [s] at most in the position of the channel. *)
Definition repositioned (s s' : TiffPages.t) : Prop :=
  file_of s' = file_of s /\ TiffPages.pages s' = TiffPages.pages s
  /\ TiffPages._indexed s' = TiffPages._indexed s /\ log_of s' = log_of s
  /\ reads_in s' = reads_in s.

Lemma py_index_spec {A} (xs : list A) (i : Z) :
  (in_range i (Z.of_nat (length xs)) = true /\ exists a, py_index xs i = Ok a /\ In a xs)
  \/ (in_range i (Z.of_nat (length xs)) = false
      /\ py_index xs i = Raise (IndexError "index out of range")).
Proof.
  unfold py_index, in_range.
  set (n := Z.of_nat (length xs)).
  destruct (Z.ltb_spec i 0) as [Hi|Hi].
  - destruct (Z.ltb_spec (i + n) 0) as [H1|H1]; cbn [orb].
    + right. split; [|reflexivity].
      destruct (Z.leb_spec (- n) i); [lia|reflexivity].
    + destruct (Z.leb_spec n (i + n)) as [H2|H2]; [lia|].
      destruct (nth_error xs (Z.to_nat (i + n))) as [a|] eqn:E.
      * left. split.
        { destruct (Z.leb_spec (- n) i); [|lia].
          destruct (Z.ltb_spec i n); [reflexivity|lia]. }
        exists a. split; [reflexivity|]. eapply nth_error_In; eauto.
      * apply nth_error_None in E. lia.
  - destruct (Z.ltb_spec i 0) as [H1|H1]; [lia|]. cbn [orb].
    destruct (Z.leb_spec n i) as [H2|H2].
    + right. split; [|reflexivity].
      destruct (Z.ltb_spec i n); [lia|]. apply andb_false_r.
    + destruct (nth_error xs (Z.to_nat i)) as [a|] eqn:E.
      * left. split.
        { destruct (Z.leb_spec (- n) i); [|lia].
          destruct (Z.ltb_spec i n); [reflexivity|lia]. }
        exists a. split; [reflexivity|]. eapply nth_error_In; eauto.
      * apply nth_error_None in E. lia.
Qed.

Lemma repositioned_refl (s : TiffPages.t) : repositioned s s.
Proof. unfold repositioned. repeat split; reflexivity. Qed.

(** [page = pages[index]; fh.seek(offset of page)]. *)
Lemma seek_index_spec (index : Z) (s : TiffPages.t) :
  located (TiffPages.pages s) ->
  let m := (page <- lift (py_index (TiffPages.pages s) index) ;;
            TiffPages.seek_slot (TiffPages.slot_offset page)) in
  repositioned s (snd (m s))
  /\ fst (m s) = if in_range index (Z.of_nat (length (TiffPages.pages s)))
                 then Ok tt else Raise (IndexError "index out of range").
Proof.
  intros Hloc m. subst m. unfold bind, lift.
  destruct (py_index_spec (TiffPages.pages s) index) as [(Hr & a & Ha & Hin)|(Hr & Ha)];
    rewrite Hr, Ha.
  - unfold located in Hloc. rewrite Forall_forall in Hloc.
    destruct (Hloc a Hin) as (z & Hz & Hz0). rewrite Hz.
    cbn [TiffPages.seek_slot].
    destruct (seek_spec z s Hz0) as (E & F & P & I & L & R & _).
    split; [|exact E]. unfold repositioned. auto.
  - split; [apply repositioned_refl | reflexivity].
Qed.

Lemma land_spec (index lenpages : Z) (s : TiffPages.t) :
  located (TiffPages.pages s) ->
  repositioned s (snd (TiffPages.land index lenpages s))
  /\ fst (TiffPages.land index lenpages s)
     = if (index <? lenpages) && in_range index (Z.of_nat (length (TiffPages.pages s)))
       then Ok tt else Raise (IndexError "index out of range").
Proof.
  intros Hloc. unfold TiffPages.land.
  destruct (Z.geb_spec index lenpages) as [H|H].
  - destruct (Z.ltb_spec index lenpages); [lia|].
    split; [apply repositioned_refl | reflexivity].
  - destruct (Z.ltb_spec index lenpages); [|lia]. cbn [andb].
    unfold bind at 1, get at 1.
    apply (seek_index_spec index s Hloc).
Qed.

Lemma hops_nonneg tiff data size (rest : list Z) (o : Z) :
  hops tiff data size o rest -> Forall (fun z => 0 <= z) rest.
Proof.
  revert o. induction rest as [|a r IH]; intros o H; constructor.
  - destruct H as ((t & _ & Hn) & _). eapply next_at_nonneg; eauto.
  - destruct H as (_ & _ & _ & Hr). eapply IH; eauto.
Qed.

Lemma located_app (a b : list TiffPages.slot) :
  located a -> located b -> located (a ++ b).
Proof. unfold located. intros. apply Forall_app. auto. Qed.

Lemma located_offsets (l : list Z) :
  Forall (fun z => 0 <= z) l -> located (map TiffPages.SlotOffset l).
Proof.
  unfold located. intros H. rewrite Forall_map.
  eapply Forall_impl; [|exact H]. intros z Hz. exists z. split; [reflexivity|exact Hz].
Qed.

Lemma located_removelast (ps : list TiffPages.slot) :
  located ps -> located (removelast ps).
Proof.
  unfold located. induction ps as [|p ps IH]; intros H; [constructor|].
  inversion H; subst. destruct ps as [|q ps]; [constructor|].
  change (removelast (p :: q :: ps)) with (p :: removelast (q :: ps)).
  constructor; auto.
Qed.

(** A seek in an indexed list of slots touches nothing but the position. *)
Lemma seek_indexed (index : Z) (mp : option Z) (s : TiffPages.t) :
  TiffPages.pages s <> [] -> fh_closed (fh (TiffPages.world s)) = false ->
  located (TiffPages.pages s) ->
  TiffPages._indexed s = true
  \/ hit index (Z.of_nat (length (TiffPages.pages s))) = true ->
  repositioned s (snd (TiffPages._seek index mp s))
  /\ fst (TiffPages._seek index mp s)
     = if in_range index (Z.of_nat (length (TiffPages.pages s)))
       then Ok tt else Raise (IndexError "index out of range").
Proof.
  intros Hne Hc Hloc Hk. rewrite (seek_cached index mp s Hne Hc Hk).
  apply (seek_index_spec index s Hloc).
Qed.


Lemma walkable_offset (s : TiffPages.t) ps p o :
  walkable s ps p o -> located (TiffPages.pages s) -> 0 <= o.
Proof.
  intros (Hp & Ho & _) Hloc. unfold located in Hloc. rewrite Forall_forall in Hloc.
  destruct (Hloc p) as (z & Hz & Hz0).
  - rewrite Hp. apply in_or_app. right. left. reflexivity.
  - congruence.
Qed.

Lemma fuel_split (maxpages lenpages : Z) (n : nat) :
  lenpages + Z.of_nat n < maxpages ->
  exists f, Z.to_nat (maxpages - lenpages) = (n + S f)%nat.
Proof.
  intros H. exists (Z.to_nat (maxpages - lenpages) - n - 1)%nat. lia.
Qed.

(** *** A corrupt tag count *)

Section corrupt_tag_count.

Variables (s : TiffPages.t) (ps : list TiffPages.slot) (p : TiffPages.slot).
Variables (o : Z) (rest : list Z) (tagno : Z).

Hypothesis Hsane : sane (TiffPages.tiff s).
Hypothesis Hwalkable : walkable s ps p o.
Hypothesis Hlocated : located (TiffPages.pages s).
Hypothesis Hhops : hops (TiffPages.tiff s) (data_of s) (size_of s) o rest.
Hypothesis Hdistinct : NoDup (offsets_of (TiffPages.pages s) ++ rest).
Hypothesis Hcount :
  unpack (TIFF.byteorder_ (TiffPages.tiff s)) (TIFF.tagnoformat (TiffPages.tiff s))
         (peek (data_of s) (last rest o) (TIFF.tagnosize (TiffPages.tiff s))) = Ok tagno.
Hypothesis Hceiling : 4096 < tagno.

Let total : Z := Z.of_nat (length (TiffPages.pages s)) + Z.of_nat (length rest).


End corrupt_tag_count.

Lemma length_removelast {A} (l : list A) :
  length (removelast l) = pred (length l).
Proof.
  rewrite removelast_firstn_len, length_firstn. lia.
Qed.



(** *** Files made of empty directories *)

(** The [n] little-endian bytes of [z]. *)
Fixpoint le_bytes (n : nat) (z : Z) : list byte :=
  match n with
  | O => []
  | S n' => match Byte.of_N (Z.to_N (z mod 256)) with
            | Some b => b
            | None => x00
            end :: le_bytes n' (z / 256)
  end.

(** The header of a little-endian classic file whose first directory is
    at offset 8. *)
Definition classic_header : list byte := [x49; x49; x2a; x00; x08; x00; x00; x00].

(** A classic directory of [tagno] tags (no tags follow when [tagno] is
    0) and, after a tag count of 0, the offset of the next directory. *)
Definition empty_dir (next : Z) : list byte := le_bytes 2 0 ++ le_bytes 4 next.

(** The state that [TiffPages.__init__] leaves for a classic file whose
    first directory, at offset 8, was parsed into a page: one slot, the
    offsets of the other directories not read yet.  [scanimage] is the
    value of [parent.is_scanimage], which the first page derives from its
    Software and ImageDescription tags; the walk reads tag counts and
    next-directory offsets only, so the directories of the files below
    are kept empty. *)
Definition first_page (scanimage : bool) (data : list byte) : TiffPages.t :=
  TiffPages.mk (World_of_bytes data) TIFF.CLASSIC_LE scanimage
               [TiffPages.SlotPage default_page] false (Some 4) [].

(** A decidable form of [hop] and [hops]. *)
Definition hopb (tiff : TIFF.descriptor) (data : list byte) (o next : Z) : bool :=
  match tagno_at tiff data o with
  | Ok tagno => match next_at tiff data (next_pos tiff o tagno) with
                | Ok n => n =? next
                | Raise _ => false
                end
  | Raise _ => false
  end.

Fixpoint hopsb (tiff : TIFF.descriptor) (data : list byte) (size : Z)
         (o : Z) (rest : list Z) : bool :=
  match rest with
  | [] => true
  | o' :: rest' => hopb tiff data o o' && negb (o' =? 0) && (o' <? size)
                   && hopsb tiff data size o' rest'
  end.

Lemma hopb_sound tiff data (o next : Z) : hopb tiff data o next = true -> hop tiff data o next.
Proof.
  unfold hopb, hop. destruct (tagno_at tiff data o) as [t|]; [|discriminate].
  destruct (next_at tiff data (next_pos tiff o t)) as [n|] eqn:E; [|discriminate].
  intros H. apply Z.eqb_eq in H. subst. exists t. auto.
Qed.

Lemma hopsb_sound tiff data size (rest : list Z) (o : Z) :
  hopsb tiff data size o rest = true -> hops tiff data size o rest.
Proof.
  revert o. induction rest as [|a r IH]; intros o H; [exact I|].
  cbn [hopsb] in H. apply andb_true_iff in H. destruct H as (H & Hr).
  apply andb_true_iff in H. destruct H as (H & Hs).
  apply andb_true_iff in H. destruct H as (Hh & H0).
  cbn [hops]. split; [apply hopb_sound; exact Hh|].
  split; [apply negb_true_iff, Z.eqb_neq in H0; exact H0|].
  split; [apply Z.ltb_lt; exact Hs|]. apply IH, Hr.
Qed.

(** Three directories at 8, 14 and 20; the tag count of the third is
    5000. *)
Definition corrupt_third : list byte :=
  classic_header ++ empty_dir 14 ++ empty_dir 20 ++ le_bytes 2 5000 ++ le_bytes 4 0.

(** A state in which a seek takes the ScanImage branch. *)
Definition scannable (s : TiffPages.t) (ps : list TiffPages.slot) (p : TiffPages.slot)
           (o : Z) : Prop :=
  TiffPages.pages s = ps ++ [p] /\ TiffPages.slot_offset p = Some o
  /\ TiffPages._indexed s = false /\ TiffPages.parent_is_scanimage s = true
  /\ fh_closed (fh (TiffPages.world s)) = false.

Lemma seek_scans (index : Z) (mp : option Z) (s : TiffPages.t)
      (ps : list TiffPages.slot) (p : TiffPages.slot) (o : Z) :
  scannable s ps p o ->
  hit index (Z.of_nat (length (TiffPages.pages s))) = false ->
  TiffPages._seek index mp s
  = (lenpages <- (TiffPages.seek_scanimage p o (Z.of_nat (length (TiffPages.pages s))) ;;;
                  ret (Z.of_nat (length (TiffPages.pages s)))) ;;
     TiffPages.land index lenpages) s.
Proof.
  intros (Hp & Ho & Hi & Hs & Hc) Hhit.
  unfold TiffPages._seek. unfold bind at 1, get at 1.
  destruct (Z.eqb_spec (Z.of_nat (length (TiffPages.pages s))) 0) as [E|E].
  { rewrite Hp, length_app in E. change (length [p]) with 1%nat in E. lia. }
  unfold hit in Hhit. rewrite Hc, Hi, Hhit. cbn [orb].
  assert (Hl : py_index (TiffPages.pages s) (-1) = Ok p)
    by (rewrite Hp; apply py_index_last).
  unfold bind at 1, lift at 1. rewrite Hl, Ho, Hs. reflexivity.
Qed.


Example corrupt_third_len :
  fst (TiffPages.__len__ (first_page false corrupt_third)) = Ok 2.
Proof. vm_compute. reflexivity. Qed.

(** *** The test for circular references *)

Lemma In_seen (x : Z) (ps : list TiffPages.slot) :
  In x (offsets_of ps) -> seen x ps = true.
Proof.
  induction ps as [|p ps IH]; simpl; [contradiction|].
  intros H. apply in_app_or in H. apply orb_true_iff.
  destruct H as [H|H]; [left|right; auto].
  destruct (TiffPages.slot_offset p); [|contradiction].
  destruct H as [H|[]]. subst. apply Z.eqb_refl.
Qed.

(** The one comparison of the walk: when the slot it appends is the
    100th and the requested index is still ahead, an offset that one of
    the earlier slots holds raises TiffFileError 'invalid circular IFD
    reference'. *)
Lemma repeat_at_slot_100
        (s : TiffPages.t) (ps : list TiffPages.slot) (p : TiffPages.slot)
        (o : Z) (rest : list Z) (x index : Z) (mp : option Z) :
  sane (TiffPages.tiff s) ->
  walkable s ps p o -> 0 <= o ->
  hops (TiffPages.tiff s) (data_of s) (size_of s) o rest ->
  Z.of_nat (length (TiffPages.pages s)) + Z.of_nat (length rest) = 99 ->
  hop (TiffPages.tiff s) (data_of s) (last rest o) x -> x <> 0 -> x < size_of s ->
  In x (offsets_of (TiffPages.pages s) ++ rest) ->
  99 < maxpages_of mp -> hit index 100 = false ->
  let s' := snd (TiffPages._seek index mp s) in
  fst (TiffPages._seek index mp s)
  = Raise (TiffFileError "invalid circular IFD reference" [])
  /\ TiffPages.pages s' = TiffPages.pages s ++ map TiffPages.SlotOffset (rest ++ [x])
  /\ TiffPages._indexed s' = false.
Proof.
  intros Hsane Hw Ho Hhops Hlen (tagno & Htag & Hnext) Hx0 Hxs Hin Hmax Hhit.
  cbv zeta.
  set (L := Z.of_nat (length (TiffPages.pages s))) in *.
  assert (Hh99 : hit index (L + Z.of_nat (length rest)) = false).
  { rewrite Hlen. unfold hit in *. destruct (0 <=? index); [|reflexivity].
    cbn [andb] in *. apply Z.ltb_ge in Hhit. apply Z.ltb_ge. lia. }
  assert (Hh0 : hit index L = false).
  { unfold hit in *. destruct (0 <=? index); [|reflexivity].
    cbn [andb] in *. apply Z.ltb_ge in Hhit. apply Z.ltb_ge. lia. }
  rewrite (seek_walks index mp s ps p o Hw Hh0). fold L.
  destruct (fuel_split (maxpages_of mp) L (length rest) ltac:(lia)) as (f & Hf).
  rewrite Hf.
  destruct (walk_segment rest (S f) index (maxpages_of mp) o L s Hsane Ho Hhops
              ltac:(lia) Hh99 ltac:(intros; lia))
    as (s1 & Ew & F1 & P1 & I1 & L1 & R1).
  assert (Hf0 : 0 <= last rest o) by (eapply hops_last_nonneg; eauto).
  rewrite <- (file_of_tiff _ _ F1), <- (file_of_data _ _ F1) in Htag, Hnext.
  destruct (walk_step f index (maxpages_of mp) (last rest o) (L + Z.of_nat (length rest))
              s1 tagno x ltac:(lia) Hf0 Htag
              ltac:(apply next_pos_nonneg;
                    [rewrite (file_of_tiff _ _ F1); exact Hsane | exact Hf0
                    | eapply tagno_at_nonneg; eauto]) Hnext)
    as (s2 & (F2 & P2 & I2 & L2 & R2) & Ew2).
  unfold bind. rewrite Ew, Ew2.
  destruct (Z.eqb_spec x 0); [contradiction|].
  rewrite (file_of_size _ _ F1).
  destruct (Z.geb_spec x (size_of s)); [lia|].
  cbv zeta. rewrite Hlen. change (99 + 1) with 100. rewrite Hhit.
  cbn [TiffPages.pages TiffPages.set_pages].
  rewrite seen_before_snoc, P2, P1.
  rewrite In_seen by (rewrite offsets_of_app, offsets_of_SlotOffset; exact Hin).
  simpl. split; [reflexivity|].
  split; [rewrite map_app, app_assoc; reflexivity|].
  rewrite I2, I1. destruct Hw as (_ & _ & Hi & _). exact Hi.
Qed.

(** [n] empty directories at 8, 14, 20, ...; the last one names the first
    as its successor. *)
Definition ring_file (n : nat) : list byte :=
  classic_header
  ++ flat_map (fun i => empty_dir (8 + 6 * (Z.of_nat (S i) mod Z.of_nat n))) (seq 0 n).

(** The offsets that a walk of [ring_file n] finds in its first [count]
    hops. *)
Definition ring_offsets (n count : nat) : list Z :=
  map (fun i => 8 + 6 * (Z.of_nat i mod Z.of_nat n)) (seq 1 count).

(** A ring of 120 directories: directory 119 points back to directory 0,
    and a seek to index 250 walks through the ring twice without an
    error, the offset 8 of directory 0 being appended again as slot 120.
    A ring of 2 directories: a seek to index 99 stops at the 100th slot
    before the comparison, and the seek to index 150 that follows walks
    on without one. *)
Lemma late_cycle_goes_unnoticed :
  (let s := first_page false (ring_file 120) in
   let s' := snd (TiffPages._seek 250 None s) in
   hopb (TiffPages.tiff s) (data_of s) (8 + 6 * 119) 8 = true
   /\ fst (TiffPages._seek 250 None s) = Ok tt
   /\ map TiffPages.slot_offset (TiffPages.pages s')
      = map Some (8 :: ring_offsets 120 250)
   /\ nth_error (TiffPages.pages s') 120 = Some (TiffPages.SlotOffset 8))
  /\ (let s := first_page false (ring_file 2) in
      let s1 := snd (TiffPages._seek 99 None s) in
      let s2 := snd (TiffPages._seek 150 None s1) in
      hopb (TiffPages.tiff s) (data_of s) 14 8 = true
      /\ fst (TiffPages._seek 99 None s) = Ok tt
      /\ fst (TiffPages._seek 150 None s1) = Ok tt
      /\ map TiffPages.slot_offset (TiffPages.pages s2)
         = map Some (8 :: ring_offsets 2 150)).
Proof. vm_compute. repeat split; reflexivity. Qed.

(** *** The ScanImage branch *)

(** The offsets that the ScanImage branch appends: one for every multiple
    of [stride] from [first] that the division of the rest of the file by
    the stride counts. *)
Definition synthesized (first stride size : Z) : list Z :=
  map (fun i => first + stride * Z.of_nat i)
      (seq 1 (Z.to_nat ((size - first) / stride - 1))).

Lemma synthesized_slots (first stride size : Z) :
  map (fun i => TiffPages.SlotOffset (first + stride * Z.of_nat i))
      (seq 1 (Z.to_nat ((size - first) / stride - 1)))
  = map TiffPages.SlotOffset (synthesized first stride size).
Proof. unfold synthesized. rewrite map_map. reflexivity. Qed.

Lemma synthesized_nonneg (first stride size : Z) :
  0 <= first -> 0 < stride -> Forall (fun z => 0 <= z) (synthesized first stride size).
Proof.
  intros Hf Hs. unfold synthesized. rewrite Forall_map, Forall_forall.
  intros i _. nia.
Qed.

Lemma attr_offset_slot (p : TiffPages.slot) (o : Z) (po : option Z) :
  TiffPages.slot_offset p = Some o -> TiffPages.attr_offset p = Ok po -> po = Some o.
Proof. destruct p; simpl; congruence. Qed.

(** The ScanImage branch on a first directory that can be read. *)
Lemma seek_scanimage_spec (p : TiffPages.slot) (o lenpages : Z) (s : TiffPages.t)
      (tagno next : Z) :
  0 <= o ->
  tagno_at (TiffPages.tiff s) (data_of s) o = Ok tagno ->
  0 <= next_pos (TiffPages.tiff s) o tagno ->
  next_at (TiffPages.tiff s) (data_of s) (next_pos (TiffPages.tiff s) o tagno) = Ok next ->
  TiffPages.attr_offset p = Ok (Some o) ->
  next - o <> 0 ->
  exists s1,
    TiffPages.seek_scanimage p o lenpages s = (Ok tt, s1)
    /\ file_of s1 = file_of s
    /\ TiffPages.pages s1
       = TiffPages.pages s ++ map TiffPages.SlotOffset (synthesized o (next - o) (size_of s))
    /\ TiffPages._indexed s1 = true
    /\ log_of s1 = log_of s
    /\ reads_in s1 = reads_in s
                     ++ [(o, TIFF.tagnosize (TiffPages.tiff s));
                         (next_pos (TiffPages.tiff s) o tagno,
                          TIFF.ifdoffsetsize (TiffPages.tiff s))].
Proof.
  intros Ho Htag Hnx Hnext Hattr Hstride.
  unfold TiffPages.seek_scanimage. unfold bind at 1.
  destruct (seek_spec o s Ho) as (E1 & F1 & P1 & I1 & L1 & R1 & Pos1).
  destruct (TiffPages.io (fh_seek o) s) as [r1 sa].
  simpl in E1, F1, P1, I1, L1, R1, Pos1. subst r1.
  unfold bind at 1.
  destruct (read_tagno_spec sa) as (E2 & F2 & P2 & I2 & L2 & R2).
  destruct (TiffPages.read_tagno sa) as [r2 sb]. simpl in E2, F2, P2, I2, L2, R2.
  rewrite (file_of_tiff _ _ F1), (file_of_data _ _ F1), Pos1, Htag in E2. subst r2.
  unfold bind at 1, get at 1.
  unfold bind at 1, modify at 1. unfold bind at 1, modify at 1.
  unfold bind at 1, modify at 1.
  assert (Fsb : file_of sb = file_of s) by (rewrite F2; exact F1).
  rewrite (file_of_tiff _ _ Fsb). fold (next_pos (TiffPages.tiff s) o tagno).
  set (nx := next_pos (TiffPages.tiff s) o tagno) in *.
  set (sc := TiffPages.set_nextpageoffset nx
               (TiffPages.print o
                  (TiffPages.print (TIFF.tagnosize (TiffPages.tiff s)
                                    + tagno * TIFF.tagsize (TiffPages.tiff s)) sb))).
  assert (Fsc : file_of sc = file_of s) by exact Fsb.
  unfold bind at 1.
  destruct (seek_spec nx sc Hnx) as (E3 & F3 & P3 & I3 & L3 & R3 & Pos3).
  destruct (TiffPages.io (fh_seek nx) sc) as [r3 sd].
  simpl in E3, F3, P3, I3, L3, R3, Pos3. subst r3.
  unfold bind at 1.
  destruct (read_next_offset_spec sd) as (E4 & F4 & P4 & I4 & L4 & R4).
  destruct (TiffPages.read_next_offset sd) as [r4 se]. simpl in E4, F4, P4, I4, L4, R4.
  assert (Fsd : file_of sd = file_of s) by (rewrite F3; exact Fsc).
  rewrite (file_of_tiff _ _ Fsd), (file_of_data _ _ Fsd), Pos3, Hnext in E4. subst r4.
  assert (Fse : file_of se = file_of s) by (rewrite F4; exact Fsd).
  unfold bind at 1, lift at 1. rewrite Hattr.
  unfold bind at 1, get at 1. unfold bind at 1, lift at 1.
  unfold floordiv. destruct (Z.eqb_spec (next - o) 0) as [E0|_]; [contradiction|].
  fold (size_of se). rewrite (file_of_size _ _ Fse).
  unfold bind, modify. rewrite synthesized_slots.
  eexists. split; [reflexivity|]. simpl.
  split; [exact Fse|].
  split; [rewrite P4, P3; change (TiffPages.pages sc) with (TiffPages.pages sb);
          rewrite P2, P1; reflexivity|].
  split; [reflexivity|].
  split; [unfold log_of in *; simpl; rewrite L4, L3;
          change (log (TiffPages.world sc)) with (log (TiffPages.world sb));
          rewrite L2; exact L1|].
  unfold reads_in in *. simpl. rewrite R4, R3.
  change (reads (TiffPages.world sc)) with (reads (TiffPages.world sb)).
  rewrite R2, R1, Pos1, Pos3, (file_of_tiff _ _ Fsd), (file_of_tiff _ _ F1), <- app_assoc.
  reflexivity.
Qed.

(** A seek that takes the ScanImage branch. *)
Lemma scan_seek (s : TiffPages.t) (ps : list TiffPages.slot) (p : TiffPages.slot)
      (o tagno next index : Z) (mp : option Z) :
  sane (TiffPages.tiff s) ->
  scannable s ps p o ->
  TiffPages.attr_offset p = Ok (Some o) ->
  located (TiffPages.pages s) ->
  tagno_at (TiffPages.tiff s) (data_of s) o = Ok tagno ->
  next_at (TiffPages.tiff s) (data_of s) (next_pos (TiffPages.tiff s) o tagno) = Ok next ->
  o < next ->
  hit index (Z.of_nat (length (TiffPages.pages s))) = false ->
  let added := synthesized o (next - o) (size_of s) in
  let s' := snd (TiffPages._seek index mp s) in
  file_of s' = file_of s
  /\ TiffPages.pages s' = TiffPages.pages s ++ map TiffPages.SlotOffset added
  /\ TiffPages._indexed s' = true
  /\ log_of s' = log_of s
  /\ reads_in s' = reads_in s
                   ++ [(o, TIFF.tagnosize (TiffPages.tiff s));
                       (next_pos (TiffPages.tiff s) o tagno,
                        TIFF.ifdoffsetsize (TiffPages.tiff s))]
  /\ fst (TiffPages._seek index mp s)
     = (if (index <? 0)
           && (- (Z.of_nat (length (TiffPages.pages s)) + Z.of_nat (length added)) <=? index)
        then Ok tt else Raise (IndexError "index out of range")).
Proof.
  intros Hsane Hscan Hattr Hloc Htag Hnext Hstride Hi added. cbv zeta.
  assert (Ho : 0 <= o).
  { destruct Hscan as (Hp & Hso & _). unfold located in Hloc.
    rewrite Forall_forall in Hloc. destruct (Hloc p) as (z & Hz & Hz0).
    - rewrite Hp. apply in_or_app. right. left. reflexivity.
    - congruence. }
  assert (Hnx : 0 <= next_pos (TiffPages.tiff s) o tagno)
    by (apply next_pos_nonneg; [exact Hsane | exact Ho | eapply tagno_at_nonneg; eauto]).
  set (L := Z.of_nat (length (TiffPages.pages s))) in *.
  assert (HL : 1 <= L).
  { destruct Hscan as (Hp & _). unfold L. rewrite Hp, length_app. simpl. lia. }
  rewrite (seek_scans index mp s ps p o Hscan Hi). fold L.
  destruct (seek_scanimage_spec p o L s tagno next Ho Htag Hnx Hnext Hattr
              ltac:(lia)) as (s1 & E & F1 & P1 & I1 & L1 & R1).
  fold added in P1.
  assert (Es : (lenpages <- (TiffPages.seek_scanimage p o L ;;; ret L) ;;
                TiffPages.land index lenpages) s = TiffPages.land index L s1).
  { unfold bind. rewrite E. reflexivity. }
  rewrite Es.
  assert (Hloc1 : located (TiffPages.pages s1)).
  { rewrite P1. apply located_app; [exact Hloc|]. apply located_offsets.
    apply synthesized_nonneg; lia. }
  destruct (land_spec index L s1 Hloc1) as ((F2 & P2 & I2 & L2 & R2) & E2).
  split; [exact (eq_trans F2 F1)|].
  split; [rewrite P2; exact P1|]. split; [rewrite I2; exact I1|].
  split; [rewrite L2; exact L1|]. split; [rewrite R2; exact R1|].
  rewrite E2, P1. rewrite !length_app, length_map, Nat2Z.inj_add. fold L.
  unfold hit in Hi. unfold in_range.
  destruct (Z.ltb_spec index 0) as [Hneg|Hpos].
  - destruct (Z.ltb_spec index L); [|lia]. cbn [andb].
    destruct (Z.ltb_spec index (L + Z.of_nat (length added))); [|lia].
    rewrite andb_true_r. reflexivity.
  - destruct (Z.leb_spec 0 index); [|lia]. cbn [andb] in Hi.
    rewrite Hi. reflexivity.
Qed.

Lemma synthesized_first (first stride size : Z) :
  synthesized first stride size <> [] ->
  exists rest, synthesized first stride size = (first + stride) :: rest.
Proof.
  unfold synthesized.
  destruct (Z.to_nat ((size - first) / stride - 1)) as [|n]; [intros H; contradiction H; reflexivity|].
  intros _. cbn [seq map]. eexists. f_equal. lia.
Qed.

Lemma py_index_second {A} (a b : A) (l : list A) : py_index (a :: b :: l) 1 = Ok b.
Proof.
  unfold py_index. change (1 <? 0) with false. cbv iota. cbn [orb].
  destruct (Z.leb_spec (Z.of_nat (length (a :: b :: l))) 1) as [H|_];
    [cbn [length] in H; lia|].
  reflexivity.
Qed.

(** [_load_virtual_frames] on a ScanImage file whose first page has one
    bytecount: its [_seek(4)] ends in IndexError, the handler logs it,
    and the slots are those that the seek appended. *)
Lemma load_virtual_frames_scanimage
      (getitem : TiffPage.t -> M TiffPages.t TiffPage.t)
      (s : TiffPages.t) (p0 : TiffPage.t) (offs : list Z) (bc tagno next : Z) :
  sane (TiffPages.tiff s) ->
  scannable s [] (TiffPages.SlotPage p0) (TiffPage.offset p0) ->
  0 <= TiffPage.offset p0 ->
  TiffPage._offsetscounts p0 = Ok (offs, [bc]) ->
  tagno_at (TiffPages.tiff s) (data_of s) (TiffPage.offset p0) = Ok tagno ->
  next_at (TiffPages.tiff s) (data_of s)
          (next_pos (TiffPages.tiff s) (TiffPage.offset p0) tagno) = Ok next ->
  TiffPage.offset p0 < next ->
  let added := synthesized (TiffPage.offset p0) (next - TiffPage.offset p0) (size_of s) in
  added <> [] ->
  let s' := snd (TiffPages._load_virtual_frames getitem s) in
  fst (TiffPages._load_virtual_frames getitem s) = Ok tt
  /\ TiffPages.pages s' = TiffPages.pages s ++ map TiffPages.SlotOffset added
  /\ TiffPages._indexed s' = true
  /\ log_of s'
     = log_of s ++ [("TiffPages: failed to load virtual frames: index out of range", [])]
  /\ reads_in s' = reads_in s
                   ++ [(TiffPage.offset p0, TIFF.tagnosize (TiffPages.tiff s));
                       (next_pos (TiffPages.tiff s) (TiffPage.offset p0) tagno,
                        TIFF.ifdoffsetsize (TiffPages.tiff s))].
Proof.
  intros Hsane Hscan Ho Hoc Htag Hnext Hstride added Hadded. cbv zeta.
  assert (Hp : TiffPages.pages s = [TiffPages.SlotPage p0]) by (destruct Hscan; assumption).
  assert (Hloc : located (TiffPages.pages s)).
  { rewrite Hp. repeat constructor. exists (TiffPage.offset p0). auto. }
  destruct (scan_seek s [] (TiffPages.SlotPage p0) (TiffPage.offset p0) tagno next 4 None
              Hsane Hscan eq_refl Hloc Htag Hnext Hstride
              ltac:(rewrite Hp; reflexivity))
    as (F & P & I & L & R & E).
  fold added in P.
  change (4 <? 0) with false in E. cbn [andb] in E.
  assert (Ebody : TiffPages.virtual_frames_body getitem s
                  = (Raise (IndexError "index out of range"),
                     snd (TiffPages._seek 4 None s))).
  { unfold TiffPages.virtual_frames_body. unfold bind at 1, get at 1.
    rewrite Hp. cbn [length]. change (Z.of_nat 1 >? 1) with false. cbv iota.
    unfold bind at 1, lift at 1. change (py_index [TiffPages.SlotPage p0] 0)
      with (Ok (TiffPages.SlotPage p0)). cbv iota.
    unfold bind at 1, lift at 1. unfold TiffPages.slot_bytecounts. rewrite Hoc.
    cbn [rbind snd map]. unfold bind at 1, lift at 1. cbn [py_len length].
    change (negb (Z.of_nat 1 =? 1)) with false. cbv iota.
    unfold bind at 1.
    destruct (TiffPages._seek 4 None s) as [r s1]. cbn [fst snd] in *. subst r.
    reflexivity. }
  unfold TiffPages._load_virtual_frames. rewrite Ebody.
  set (s1 := snd (TiffPages._seek 4 None s)) in *.
  destruct (synthesized_first _ _ _ Hadded) as (rest & Hfirst). fold added in Hfirst.
  assert (Hidx : py_index (TiffPages.pages s1) 1
                 = Ok (TiffPages.SlotOffset (TiffPage.offset p0 + (next - TiffPage.offset p0)))).
  { rewrite P, Hp, Hfirst. apply py_index_second. }
  unfold bind, lift, modify, TiffPages.io, log_warning. cbn [TiffPages.exn_str].
  cbn [fst snd]. cbn [TiffPages.pages TiffPages.set_world]. rewrite Hidx.
  cbn [TiffPages.slot_true].
  destruct (Z.eqb_spec (TiffPage.offset p0 + (next - TiffPage.offset p0)) 0); [lia|].
  cbn [negb fst snd]. 
  split; [reflexivity|]. cbn [TiffPages.pages TiffPages.set_indexed TiffPages.set_pages
                                TiffPages._indexed].
  split; [exact P|]. split; [reflexivity|].
  unfold log_of, reads_in in *. cbn. rewrite L. split; [reflexivity | exact R].
Qed.






(** In a ScanImage file the first seek beyond the known slots reads one
    directory only, the one of the last known slot: its tag count and its
    next-directory offset.  The offsets first + stride * i are appended
    without being parsed from the file, the index is marked complete and
    the seek logs nothing.  The seek itself ends with IndexError unless
    the index is negative, since the range test uses the slot count from
    before the branch.  [_load_virtual_frames] therefore never reaches
    its comparison of the spacings: its [_seek(4)] raises and the handler
    logs the warning 'failed to load virtual frames: index out of range'
    whatever the spacing is. *)
Lemma scanimage_seek_synthesizes
        (s : TiffPages.t) (ps : list TiffPages.slot) (p : TiffPages.slot)
        (o tagno next index : Z) (mp : option Z) :
  sane (TiffPages.tiff s) ->
  scannable s ps p o ->
  TiffPages.attr_offset p = Ok (Some o) ->
  located (TiffPages.pages s) ->
  tagno_at (TiffPages.tiff s) (data_of s) o = Ok tagno ->
  next_at (TiffPages.tiff s) (data_of s) (next_pos (TiffPages.tiff s) o tagno) = Ok next ->
  o < next ->
  hit index (Z.of_nat (length (TiffPages.pages s))) = false ->
  let added := synthesized o (next - o) (size_of s) in
  let visit := [(o, TIFF.tagnosize (TiffPages.tiff s));
                (next_pos (TiffPages.tiff s) o tagno,
                 TIFF.ifdoffsetsize (TiffPages.tiff s))] in
  let s' := snd (TiffPages._seek index mp s) in
  TiffPages.pages s' = TiffPages.pages s ++ map TiffPages.SlotOffset added
  /\ TiffPages._indexed s' = true
  /\ log_of s' = log_of s
  /\ reads_in s' = reads_in s ++ visit
  /\ fst (TiffPages._seek index mp s)
     = (if (index <? 0)
           && (- (Z.of_nat (length (TiffPages.pages s)) + Z.of_nat (length added)) <=? index)
        then Ok tt else Raise (IndexError "index out of range"))
  /\ fst (TiffPages.__len__ s)
     = Ok (Z.of_nat (length (TiffPages.pages s)) + Z.of_nat (length added))
  /\ (forall (getitem : TiffPage.t -> M TiffPages.t TiffPage.t)
             (p0 : TiffPage.t) (offs : list Z) (bc : Z),
         ps = [] -> p = TiffPages.SlotPage p0 ->
         TiffPage._offsetscounts p0 = Ok (offs, [bc]) ->
         added <> [] ->
         let t := snd (TiffPages._load_virtual_frames getitem s) in
         fst (TiffPages._load_virtual_frames getitem s) = Ok tt
         /\ TiffPages.pages t = TiffPages.pages s ++ map TiffPages.SlotOffset added
         /\ TiffPages._indexed t = true
         /\ log_of t
            = log_of s
              ++ [("TiffPages: failed to load virtual frames: index out of range", [])]
         /\ reads_in t = reads_in s ++ visit).
Proof.
  intros Hsane Hscan Hattr Hloc Htag Hnext Hstride Hhit added visit s'.
  destruct (scan_seek s ps p o tagno next index mp Hsane Hscan Hattr Hloc Htag Hnext
              Hstride Hhit) as (_ & P & I & Lg & R & E).
  fold added in P, E. fold s' in P, I, Lg, R.
  split; [exact P|]. split; [exact I|]. split; [exact Lg|]. split; [exact R|].
  split; [exact E|].
  split.
  - assert (Hi : TiffPages._indexed s = false) by (destruct Hscan as (_ & _ & Hi & _); exact Hi).
    assert (HL : 1 <= Z.of_nat (length (TiffPages.pages s))).
    { destruct Hscan as (Hp & _). rewrite Hp, length_app. simpl. lia. }
    destruct (scan_seek s ps p o tagno next (-1) None Hsane Hscan Hattr Hloc Htag Hnext
                Hstride eq_refl) as (_ & P1 & _ & _ & _ & E1).
    fold added in P1, E1.
    assert (E' : TiffPages.__len__ s
                 = (Ok (Z.of_nat (length (TiffPages.pages
                                            (snd (TiffPages._seek (-1) None s))))),
                    snd (TiffPages._seek (-1) None s))).
    { unfold TiffPages.__len__, bind, get, ret. rewrite Hi. cbn [negb].
      destruct (TiffPages._seek (-1) None s) as [r t]. cbn [fst snd] in *.
      change (-1 <? 0) with true in E1. cbn [andb] in E1.
      destruct (Z.leb_spec (- (Z.of_nat (length (TiffPages.pages s))
                               + Z.of_nat (length added))) (-1)); [|lia].
      subst r. reflexivity. }
    rewrite E'. cbn [fst]. rewrite P1, length_app, length_map, Nat2Z.inj_add.
    reflexivity.
  - intros getitem p0 offs bc -> -> Hoc Hadded.
    assert (Ho : o = TiffPage.offset p0).
    { destruct Hscan as (_ & Hso & _). simpl in Hso. congruence. }
    subst o.
    assert (H0 : 0 <= TiffPage.offset p0).
    { unfold located in Hloc. rewrite Forall_forall in Hloc.
      destruct (Hloc (TiffPages.SlotPage p0)) as (z & Hz & Hz0).
      - destruct Hscan as (Hp & _). rewrite Hp. left. reflexivity.
      - simpl in Hz. congruence. }
    exact (load_virtual_frames_scanimage getitem s p0 offs bc tagno next Hsane Hscan H0
             Hoc Htag Hnext Hstride Hadded).
Qed.

(** [data] followed by zero bytes up to the length [n]. *)
Definition pad_to (n : nat) (data : list byte) : list byte :=
  data ++ repeat x00 (n - length data).

(** Four empty directories at 8, 108, 208 and 308 in a file of 408
    bytes. *)
Definition even_file : list byte :=
  pad_to 408 (pad_to 308 (pad_to 208 (pad_to 108 (classic_header ++ empty_dir 108)
                                        ++ empty_dir 208)
                            ++ empty_dir 308)
                ++ empty_dir 0).

(** Three empty directories at 8, 108 and 300 in a file of 500 bytes. *)
Definition uneven_file : list byte :=
  pad_to 500 (pad_to 300 (pad_to 108 (classic_header ++ empty_dir 108) ++ empty_dir 300)
                ++ empty_dir 0).

(** A page of one strip of four 8-bit samples at offset 20, parsed from
    the directory at offset 8. *)
Definition one_strip_page : TiffPage.t := strip_page 8 c_B 4 1 [20] [4].

Example scanimage_seek_on_even_file :
  let s := TiffPages.mk (World_of_bytes even_file) TIFF.CLASSIC_LE true
                        [TiffPages.SlotPage one_strip_page] false (Some 4) [] in
  let s' := snd (TiffPages._seek (-1) None s) in
  let t := snd (TiffPages._load_virtual_frames
                  (fun _ => raise (RuntimeError "no second page")) s) in
  (TiffPages.pages s'
   = TiffPages.pages s ++ map TiffPages.SlotOffset [108; 208; 308]
   /\ TiffPages._indexed s' = true
   /\ log_of s' = []
   /\ reads_in s' = [(8, 2); (10, 4)]
   /\ fst (TiffPages._seek (-1) None s) = Ok tt
   /\ fst (TiffPages.__len__ s) = Ok 4)
  /\ (fst (TiffPages._load_virtual_frames
             (fun _ => raise (RuntimeError "no second page")) s) = Ok tt
      /\ TiffPages.pages t
         = TiffPages.pages s ++ map TiffPages.SlotOffset [108; 208; 308]
      /\ TiffPages._indexed t = true
      /\ log_of t = [("TiffPages: failed to load virtual frames: index out of range", [])]
      /\ reads_in t = [(8, 2); (10, 4)]).
Proof.
  intros s s' t.
  assert (H : sane (TiffPages.tiff s)
              /\ scannable s [] (TiffPages.SlotPage one_strip_page) 8
              /\ located (TiffPages.pages s)).
  { split; [unfold sane; simpl; lia|].
    split; [unfold scannable; repeat split; reflexivity|].
    repeat constructor. exists 8. split; [reflexivity|lia]. }
  destruct H as (Hsane & Hscan & Hloc).
  destruct (scanimage_seek_synthesizes s [] (TiffPages.SlotPage one_strip_page) 8 0 108
              (-1) None Hsane Hscan eq_refl Hloc eq_refl eq_refl ltac:(lia) eq_refl)
    as (P & I & L & R & E & N & V).
  split.
  - split; [exact P|]. split; [exact I|]. split; [exact L|]. split; [exact R|].
    split; [exact E | exact N].
  - apply (V (fun _ => raise (RuntimeError "no second page")) one_strip_page [20] 4
             eq_refl eq_refl eq_refl).
    discriminate.
Defined.

(** The directories of [uneven_file] are 100 and then 192 bytes apart.
    The page count of the file as a ScanImage file is 4, from the offsets
    8, 108, 208 and 308, of which the last two are no directories; the
    directory at 108 is never read and nothing is logged. *)
Lemma uneven_spacing_goes_unnoticed :
  let s := first_page true uneven_file in
  let s' := snd (TiffPages.__len__ s) in
  hopb (TiffPages.tiff s) (data_of s) 8 108 = true
  /\ hopb (TiffPages.tiff s) (data_of s) 108 300 = true
  /\ hopb (TiffPages.tiff s) (data_of s) 300 0 = true
  /\ fst (TiffPages.__len__ s) = Ok 4
  /\ map TiffPages.slot_offset (TiffPages.pages s') = map Some [8; 108; 208; 308]
  /\ log_of s' = []
  /\ reads_in s' = [(8, 2); (10, 4)].
Proof. vm_compute. repeat split; reflexivity. Qed.

(** The same file without the ScanImage mark: three pages, found by
    reading the three directories. *)
Example uneven_file_walked :
  let s := first_page false uneven_file in
  let s' := snd (TiffPages.__len__ s) in
  fst (TiffPages.__len__ s) = Ok 3
  /\ map TiffPages.slot_offset (TiffPages.pages s') = map Some [8; 108; 300]
  /\ reads_in s' = [(8, 2); (10, 4); (108, 2); (110, 4); (300, 2); (302, 4)].
Proof. vm_compute. repeat split; reflexivity. Qed.



(** *** Chains that end with the offset 0 *)

Lemma last_app {A} (a b : list A) (d : A) : last (a ++ b) d = last b (last a d).
Proof.
  revert d. induction a as [|x a IH]; intros d; [reflexivity|].
  change ((x :: a) ++ b) with (x :: (a ++ b)). rewrite !last_cons. apply IH.
Qed.

Lemma hops_app tiff data size (a b : list Z) (o : Z) :
  hops tiff data size o (a ++ b)
  <-> hops tiff data size o a /\ hops tiff data size (last a o) b.
Proof.
  revert o. induction a as [|x a IH]; intros o.
  - simpl. tauto.
  - change ((x :: a) ++ b) with (x :: (a ++ b)). rewrite last_cons.
    cbn [hops]. rewrite IH. tauto.
Qed.



Lemma offsets_of_map (ps : list TiffPages.slot) (l : list Z) :
  map TiffPages.slot_offset ps = map Some l -> offsets_of ps = l.
Proof.
  revert l. induction ps as [|p ps IH]; intros [|z l] H; try discriminate; [reflexivity|].
  simpl in H. injection H as Hp Hr. simpl. rewrite Hp. simpl. f_equal. apply IH, Hr.
Qed.


Lemma last_slot_offset (ps : list TiffPages.slot) (p : TiffPages.slot) (o0 : Z)
      (kn : list Z) :
  map TiffPages.slot_offset (ps ++ [p]) = map Some (o0 :: kn) ->
  TiffPages.slot_offset p = Some (last kn o0).
Proof.
  intros H.
  assert (Hne : o0 :: kn <> []) by discriminate.
  rewrite (app_removelast_last 0 Hne) in H.
  rewrite !map_app in H. cbn [map] in H.
  apply app_inj_tail in H. destruct H as (_ & H).
  rewrite H, last_cons. reflexivity.
Qed.


(** *** Chains that return to a directory *)

Lemma hop_deterministic tiff data (o a b : Z) :
  hop tiff data o a -> hop tiff data o b -> a = b.
Proof.
  intros (t1 & Ht1 & Hn1) (t2 & Ht2 & Hn2).
  rewrite Ht1 in Ht2. injection Ht2 as <-. rewrite Hn1 in Hn2. injection Hn2 as <-.
  reflexivity.
Qed.

Lemma hops_hop_nth tiff data size (rest : list Z) :
  forall (o : Z) (i : nat),
    hops tiff data size o rest -> (i < length rest)%nat ->
    hop tiff data (nth i (o :: rest) 0) (nth i rest 0).
Proof.
  induction rest as [|a r IH]; intros o i H Hi; [simpl in Hi; lia|].
  destruct H as (Hh & _ & _ & Hr).
  destruct i as [|i]; [exact Hh|].
  change (nth (S i) (o :: a :: r) 0) with (nth i (a :: r) 0).
  change (nth (S i) (a :: r) 0) with (nth i r 0).
  apply (IH a i Hr). simpl in Hi. lia.
Qed.

(** Once an offset comes again, the chain repeats from there. *)
Lemma chain_periodic tiff data size (o : Z) (rest : list Z) (j k : nat) :
  hops tiff data size o rest ->
  nth k (o :: rest) 0 = nth j (o :: rest) 0 ->
  forall d : nat,
    (k + d <= length rest)%nat -> (j + d <= length rest)%nat ->
    nth (k + d) (o :: rest) 0 = nth (j + d) (o :: rest) 0.
Proof.
  intros Hhops Heq. induction d as [|d IH]; intros Hk Hj.
  - rewrite !Nat.add_0_r. exact Heq.
  - replace (k + S d)%nat with (S (k + d)) by lia.
    replace (j + S d)%nat with (S (j + d)) by lia.
    change (nth (S (k + d)) (o :: rest) 0) with (nth (k + d) rest 0).
    change (nth (S (j + d)) (o :: rest) 0) with (nth (j + d) rest 0).
    pose proof (hops_hop_nth tiff data size rest o (k + d) Hhops ltac:(lia)) as H1.
    pose proof (hops_hop_nth tiff data size rest o (j + d) Hhops ltac:(lia)) as H2.
    rewrite (IH ltac:(lia) ltac:(lia)) in H1.
    exact (hop_deterministic _ _ _ _ _ H1 H2).
Qed.

Lemma nth_last {A} (l : list A) (a d : A) : nth (length l) (a :: l) d = last l a.
Proof.
  revert a. induction l as [|b l IH]; intros a; [reflexivity|].
  rewrite last_cons. cbn [length]. change (nth (S (length l)) (a :: b :: l) d)
    with (nth (length l) (b :: l) d). apply IH.
Qed.

Lemma nth_In_removelast {A} (l : list A) (i : nat) (d : A) :
  (S i < length l)%nat -> In (nth i l d) (removelast l).
Proof.
  revert i. induction l as [|a l IH]; intros i Hi; [simpl in Hi; lia|].
  destruct l as [|b l]; [simpl in Hi; lia|].
  change (removelast (a :: b :: l)) with (a :: removelast (b :: l)).
  destruct i as [|i]; [left; reflexivity|]. right.
  change (nth (S i) (a :: b :: l) d) with (nth i (b :: l) d).
  apply IH. simpl in *. lia.
Qed.

(** A chain in which some offset comes again ends on an offset that one
    of its earlier directories has. *)
Lemma cycle_returns tiff data size (o : Z) (rest : list Z) (j k : nat) :
  hops tiff data size o rest ->
  (j < k <= length rest)%nat ->
  nth k (o :: rest) 0 = nth j (o :: rest) 0 ->
  In (last rest o) (removelast (o :: rest)).
Proof.
  intros Hhops Hjk Heq.
  pose proof (chain_periodic tiff data size o rest j k Hhops Heq (length rest - k)
                ltac:(lia) ltac:(lia)) as Hp.
  replace (k + (length rest - k))%nat with (length rest) in Hp by lia.
  rewrite nth_last in Hp. rewrite Hp.
  apply nth_In_removelast. simpl. lia.
Qed.

(** C4 (amended). The walk of a file that is not ScanImage compares
    offsets once: when the slot it appends is the 100th and the
    requested index is still ahead, the offset of that slot is compared
    with the offsets of all earlier slots, and a repeat raises
    TiffFileError 'invalid circular IFD reference'.  So take a chain
    whose first 100 slots hold some offset twice, the next-directory
    offset of a directory pointing back to a directory before it: a seek
    that starts with fewer than 100 of these slots known and asks for an
    index beyond them, or for the page count, fails with that error, the
    100 slots known. *)
Theorem cycle_detected_at_slot_100
        (s : TiffPages.t) (o0 : Z) (chain : list Z) (index : Z) (mp : option Z) :
  sane (TiffPages.tiff s) ->
  TiffPages.parent_is_scanimage s = false ->
  TiffPages._indexed s = false ->
  fh_closed (fh (TiffPages.world s)) = false ->
  0 <= o0 ->
  hops (TiffPages.tiff s) (data_of s) (size_of s) o0 chain ->
  length chain = 99%nat ->
  let slots := o0 :: chain in
  let n := length (TiffPages.pages s) in
  (1 <= n < 100)%nat ->
  map TiffPages.slot_offset (TiffPages.pages s) = map Some (firstn n slots) ->
  (exists j k : nat, (j < k < 100)%nat /\ nth k slots 0 = nth j slots 0) ->
  99 < maxpages_of mp -> hit index 100 = false ->
  let s' := snd (TiffPages._seek index mp s) in
  fst (TiffPages._seek index mp s)
  = Raise (TiffFileError "invalid circular IFD reference" [])
  /\ map TiffPages.slot_offset (TiffPages.pages s') = map Some slots
  /\ TiffPages._indexed s' = false.
Proof.
  intros Hsane Hgen Hidx Hopen Ho0 Hhops Hlen slots n Hn Hmap (j & k & Hjk & Heq)
         Hmax Hhit s'.
  assert (Hne : TiffPages.pages s <> []).
  { intros E. unfold n in Hn. rewrite E in Hn. simpl in Hn. lia. }
  destruct (exists_last Hne) as (ps & p & Ep).
  assert (Hps : length ps = (n - 1)%nat).
  { unfold n. rewrite Ep, length_app. simpl. lia. }
  set (known := firstn (n - 1) chain).
  assert (Hfirst : firstn n slots = o0 :: known).
  { unfold slots, known. destruct n as [|m]; [lia|].
    cbn [firstn]. replace (S m - 1)%nat with m by lia. reflexivity. }
  rewrite Hfirst in Hmap.
  assert (Hp : TiffPages.slot_offset p = Some (last known o0)).
  { apply (last_slot_offset ps p o0 known). rewrite <- Ep. exact Hmap. }
  assert (Hsplit : chain = known ++ skipn (n - 1) chain)
    by (symmetry; apply firstn_skipn).
  assert (Htail : skipn (n - 1) chain <> []).
  { intros E. apply (f_equal (@length _)) in E. rewrite length_skipn in E.
    simpl in E. lia. }
  destruct (exists_last Htail) as (rest & x & Erest).
  rewrite Erest in Hsplit.
  assert (Hkn : length known = (n - 1)%nat).
  { unfold known. rewrite length_firstn. lia. }
  assert (Hrest : length rest = (99 - n)%nat).
  { apply (f_equal (@length _)) in Hsplit.
    rewrite !length_app in Hsplit. simpl in Hsplit. lia. }
  pose proof Hhops as Hh. rewrite Hsplit in Hh.
  apply hops_app in Hh. destruct Hh as (Hh1 & Hh2).
  apply hops_app in Hh2. destruct Hh2 as (Hh2 & Hh3).
  destruct Hh3 as (Hhop & Hx0 & Hxs & _).
  assert (Hw : walkable s ps p (last known o0)).
  { unfold walkable. repeat split; assumption. }
  assert (Ho : 0 <= last known o0) by (eapply hops_last_nonneg; eauto).
  assert (Hoffs : offsets_of (TiffPages.pages s) = o0 :: known)
    by (apply offsets_of_map; exact Hmap).
  assert (Hslots : slots = (offsets_of (TiffPages.pages s) ++ rest) ++ [x]).
  { unfold slots. rewrite Hoffs, Hsplit. cbn [app]. rewrite <- app_assoc. reflexivity. }
  assert (Hin : In x (offsets_of (TiffPages.pages s) ++ rest)).
  { pose proof (cycle_returns _ _ _ o0 chain j k Hhops ltac:(lia) Heq) as Hc.
    fold slots in Hc. rewrite Hslots, removelast_last in Hc.
    replace (last chain o0) with x in Hc; [exact Hc|].
    rewrite Hsplit, app_assoc, last_app. reflexivity. }
  destruct (repeat_at_slot_100 s ps p (last known o0) rest x index mp Hsane Hw Ho Hh2
              ltac:(fold n; lia) Hhop Hx0 Hxs Hin Hmax Hhit) as (E & P & I).
  fold s' in P, I.
  split; [exact E|]. split; [|exact I].
  rewrite P, map_app, Hmap, map_map. cbn [TiffPages.slot_offset].
  rewrite Hslots, Hoffs, <- map_app, <- app_assoc. reflexivity.
Qed.

Lemma cycle_detected_at_slot_100_witness :
  let s := first_page false (ring_file 2) in
  let s' := snd (TiffPages._seek (-1) None s) in
  fst (TiffPages._seek (-1) None s)
  = Raise (TiffFileError "invalid circular IFD reference" [])
  /\ map TiffPages.slot_offset (TiffPages.pages s') = map Some (8 :: ring_offsets 2 99)
  /\ TiffPages._indexed s' = false.
Proof.
  intros s s'.
  apply (cycle_detected_at_slot_100 s 8 (ring_offsets 2 99) (-1) None).
  - unfold sane. simpl. lia.
  - reflexivity.
  - reflexivity.
  - reflexivity.
  - lia.
  - apply hopsb_sound. vm_compute. reflexivity.
  - reflexivity.
  - simpl. lia.
  - reflexivity.
  - exists 0%nat, 2%nat. split; [lia | reflexivity].
  - simpl. lia.
  - reflexivity.
Defined.

Section forward_walk.

(** [s0] is the state in which the walk starts, [o0] the offset of the
    first directory and [chain] the offsets of the directories after it. *)
Variables (s0 : TiffPages.t) (o0 : Z) (chain : list Z).

Hypothesis Hsane : sane (TiffPages.tiff s0).
Hypothesis Hgeneral : TiffPages.parent_is_scanimage s0 = false.
Hypothesis Hopen : fh_closed (fh (TiffPages.world s0)) = false.
Hypothesis Ho0 : 0 <= o0.
Hypothesis Hhops : hops (TiffPages.tiff s0) (data_of s0) (size_of s0) o0 chain.
Hypothesis Hend : hop (TiffPages.tiff s0) (data_of s0) (last chain o0) 0.
Hypothesis Hdistinct : NoDup (o0 :: chain).
Hypothesis Hmax : Z.of_nat (length (o0 :: chain)) < 2 ^ 22.


















End forward_walk.


(** Two empty directories at 8 and 108, the second one the last of the
    chain, in a file of 408 bytes. *)
Definition two_dirs_file : list byte :=
  pad_to 408 (pad_to 108 (classic_header ++ empty_dir 108) ++ empty_dir 0).


Example two_dirs_file_walked :
  fst (TiffPages.__len__ (first_page false two_dirs_file)) = Ok 2.
Proof. vm_compute. reflexivity. Qed.

(** ** Segments that are skipped *)

(** [buffered_read] reads a segment only when its offset and its
    bytecount are positive. *)
Definition skipped (o bc : Z) : bool := negb ((o >? 0) && (bc >? 0)).

(** What [buffered_read] yields for the segment at [o] of [bc] bytes. *)
Definition segment_of (data : list byte) (o bc : Z) : option (list byte) :=
  if skipped o bc then None else Some (peek data o bc).

Definition segments_of (data : list byte) (offsets bytecounts : list Z)
  : list (option (list byte)) :=
  map (fun ob => segment_of data (fst ob) (snd ob)) (combine offsets bytecounts).

(** The reads that the segments cost: none for a skipped segment. *)
Definition segment_reads (offsets bytecounts : list Z) : list (Z * Z) :=
  flat_map (fun ob => if skipped (fst ob) (snd ob) then [] else [ob])
           (combine offsets bytecounts).

Fixpoint enumerate_from {A} (i : Z) (xs : list A) : list (Z * A) :=
  match xs with
  | [] => []
  | x :: r => (i, x) :: enumerate_from (i + 1) r
  end.

(** A skipped segment leaves the channel as it is. *)
Lemma read_segment_skipped (o bc : Z) (rest : list Z) (w : World) :
  skipped o bc = true ->
  Asarray.read_segment o (bc :: rest) w = (Ok (None, 0), w).
Proof.
  unfold skipped, Asarray.read_segment. intros H.
  destruct (o >? 0); [|reflexivity]. destruct (bc >? 0); [discriminate|reflexivity].
Qed.

Lemma read_segment_skipped_offset (o : Z) (bcs : list Z) (w : World) :
  o <= 0 -> Asarray.read_segment o bcs w = (Ok (None, 0), w).
Proof.
  unfold Asarray.read_segment. intros H.
  destruct (Z.gtb_spec o 0); [lia|reflexivity].
Qed.

Lemma read_segment_spec (o bc : Z) (rest : list Z) (w : World) :
  let r := Asarray.read_segment o (bc :: rest) w in
  fst r = Ok (segment_of (fh_data (fh w)) o bc, if skipped o bc then 0 else bc)
  /\ fh_data (fh (snd r)) = fh_data (fh w)
  /\ log (snd r) = log w
  /\ reads (snd r) = reads w ++ (if skipped o bc then [] else [(o, bc)]).
Proof.
  cbv zeta. unfold segment_of.
  destruct (skipped o bc) eqn:Hs.
  - rewrite (read_segment_skipped o bc rest w Hs). simpl. rewrite app_nil_r. auto.
  - unfold skipped in Hs. apply negb_false_iff, andb_true_iff in Hs.
    destruct Hs as (Ho & Hb).
    unfold Asarray.read_segment. rewrite Ho, Hb.
    unfold bind, fh_seek, fh_read, ret.
    assert (Ho' : (o <? 0) = false) by (apply Z.gtb_lt in Ho; apply Z.ltb_ge; lia).
    assert (Hb' : (bc <? 0) = false) by (apply Z.gtb_lt in Hb; apply Z.ltb_ge; lia).
    rewrite Ho'. simpl. rewrite Hb'.
    unfold peek. rewrite Hb'. unfold reads. simpl.
    rewrite !reads_of_app. simpl. rewrite app_nil_r. auto.
Qed.

(** *** Consumers that act on the array only *)

(** The effect of a consumer on the result array and the running index. *)
Definition consumer : Type :=
  Z -> option (list byte) -> list num * Z -> result (list num * Z).

Definition pure_body (g : consumer) (i : Z) (seg : option (list byte))
  : M Asarray.dstate unit :=
  fun s => match g i seg (Asarray.result_ s, Asarray.index_ s) with
           | Ok (r, ix) => (Ok tt, Asarray.mkD (Asarray.dworld s) r ix)
           | Raise e => (Raise e, s)
           end.

Fixpoint fold_segments (g : consumer) (segs : list (Z * option (list byte)))
         (st : list num * Z) : result (list num * Z) :=
  match segs with
  | [] => Ok st
  | (i, seg) :: r => match g i seg st with
                     | Ok st' => fold_segments g r st'
                     | Raise e => Raise e
                     end
  end.

Lemma fold_segments_app (g : consumer) (a b : list (Z * option (list byte)))
      (st fin : list num * Z) :
  fold_segments g (a ++ b) st = Ok fin ->
  exists mid, fold_segments g a st = Ok mid /\ fold_segments g b mid = Ok fin.
Proof.
  revert st. induction a as [|[i seg] a IH]; intros st H.
  - exists st. auto.
  - simpl in *. destruct (g i seg st) as [st'|]; [|discriminate]. apply IH, H.
Qed.

Lemma run_pending_pure (g : consumer) (pending : list (Z * option (list byte)))
      (s : Asarray.dstate) (r : list num) (ix : Z) :
  fold_segments g pending (Asarray.result_ s, Asarray.index_ s) = Ok (r, ix) ->
  Asarray.run_pending (pure_body g) pending s
  = (Ok tt, Asarray.mkD (Asarray.dworld s) r ix).
Proof.
  revert s. induction pending as [|[i seg] p IH]; intros s H.
  - simpl in *. injection H as <- <-. destruct s; reflexivity.
  - simpl in *. unfold bind, pure_body at 1.
    destruct (g i seg (Asarray.result_ s, Asarray.index_ s)) as [[r1 ix1]|];
      [|discriminate].
    apply (IH (Asarray.mkD (Asarray.dworld s) r1 ix1)), H.
Qed.

(** The segment loop with a consumer that acts on the array only: the
    channel is read for the segments that are not skipped, in their
    order, and the consumer sees the segments one after the other,
    whatever the batches are. *)
Lemma for_segments_pure (g : consumer) (offs : list Z) :
  forall (bcs : list Z) (i size : Z) (pending : list (Z * option (list byte)))
         (s : Asarray.dstate) (r : list num) (ix : Z),
    (length offs <= length bcs)%nat ->
    fold_segments g
      (pending ++ enumerate_from i (segments_of (fh_data (fh (Asarray.dworld s))) offs bcs))
      (Asarray.result_ s, Asarray.index_ s) = Ok (r, ix) ->
    exists w',
      Asarray.for_segments (pure_body g) offs bcs i size pending s
      = (Ok tt, Asarray.mkD w' r ix)
      /\ fh_data (fh w') = fh_data (fh (Asarray.dworld s))
      /\ log w' = log (Asarray.dworld s)
      /\ reads w' = reads (Asarray.dworld s) ++ segment_reads offs bcs.
Proof.
  induction offs as [|o offs IH]; intros bcs i size pending s r ix Hlen Hfold.
  - simpl in *. rewrite app_nil_r in Hfold.
    exists (Asarray.dworld s). rewrite (run_pending_pure g pending s r ix Hfold).
    rewrite app_nil_r. auto.
  - destruct bcs as [|bc bcs]; [simpl in Hlen; lia|].
    cbn [Asarray.for_segments]. unfold bind at 1, Asarray.dio at 1.
    destruct (read_segment_spec o bc bcs (Asarray.dworld s)) as (E & D & L & R).
    destruct (Asarray.read_segment o (bc :: bcs) (Asarray.dworld s)) as [res w1].
    cbn [fst snd] in E, D, L, R. subst res.
    set (n := if skipped o bc then 0 else bc).
    set (seg := segment_of (fh_data (fh (Asarray.dworld s))) o bc).
    set (s1 := Asarray.mkD w1 (Asarray.result_ s) (Asarray.index_ s)).
    assert (Hsegs : pending ++ enumerate_from i
                      (segments_of (fh_data (fh (Asarray.dworld s))) (o :: offs) (bc :: bcs))
                    = (pending ++ [(i, seg)])
                        ++ enumerate_from (i + 1)
                             (segments_of (fh_data (fh (Asarray.dworld s1))) offs bcs)).
    { unfold s1. cbn [Asarray.dworld]. rewrite D, <- app_assoc. reflexivity. }
    rewrite Hsegs in Hfold.
    assert (Hreads : forall w', reads w' = reads w1 ++ segment_reads offs bcs ->
                                reads w' = reads (Asarray.dworld s)
                                           ++ segment_reads (o :: offs) (bc :: bcs)).
    { intros w' H. rewrite H, R, <- app_assoc. reflexivity. }
    cbn [tl].
    destruct (size + n <? Asarray.buffersize).
    + destruct (IH bcs (i + 1) (size + n) (pending ++ [(i, seg)]) s1 r ix
                  ltac:(simpl in Hlen; lia) Hfold) as (w' & Ew & D' & L' & R').
      exists w'. split; [exact Ew|]. cbn [Asarray.dworld s1] in D', L', R'.
      split; [rewrite D'; exact D|]. split; [rewrite L'; exact L|]. auto.
    + apply fold_segments_app in Hfold. destruct Hfold as ([r1 ix1] & H1 & H2).
      unfold bind at 1.
      rewrite (run_pending_pure g (pending ++ [(i, seg)]) s1 r1 ix1 H1).
      set (s2 := Asarray.mkD (Asarray.dworld s1) r1 ix1).
      destruct (IH bcs (i + 1) 0 [] s2 r ix ltac:(simpl in Hlen; lia) H2)
        as (w' & Ew & D' & L' & R').
      exists w'. split; [exact Ew|]. cbn [Asarray.dworld s1 s2] in D', L', R'.
      split; [rewrite D'; exact D|]. split; [rewrite L'; exact L|]. auto.
Qed.

Lemma run_pending_ext (body body' : Z -> option (list byte) -> M Asarray.dstate unit)
      (pending : list (Z * option (list byte))) (s : Asarray.dstate) :
  (forall i seg s, body i seg s = body' i seg s) ->
  Asarray.run_pending body pending s = Asarray.run_pending body' pending s.
Proof.
  intros H. revert s. induction pending as [|[i seg] p IH]; intros s; [reflexivity|].
  simpl. unfold bind. rewrite H. destruct (body' i seg s) as [[|e] s1]; [apply IH|reflexivity].
Qed.

Lemma for_segments_ext (body body' : Z -> option (list byte) -> M Asarray.dstate unit)
      (offs : list Z) :
  (forall i seg s, body i seg s = body' i seg s) ->
  forall bcs i size pending s,
    Asarray.for_segments body offs bcs i size pending s
    = Asarray.for_segments body' offs bcs i size pending s.
Proof.
  intros H. induction offs as [|o offs IH]; intros bcs i size pending s.
  - apply run_pending_ext, H.
  - cbn [Asarray.for_segments]. unfold bind at 1 3.
    destruct (Asarray.dio (Asarray.read_segment o bcs) s) as [[[seg n]|e] s1];
      [|reflexivity].
    destruct (size + n <? Asarray.buffersize); [apply IH|].
    unfold bind. rewrite (run_pending_ext body body' _ s1 H).
    destruct (Asarray.run_pending body' (pending ++ [(i, seg)]) s1) as [[|e] s2];
      [apply IH|reflexivity].
Qed.

(** *** Slices of the flat result *)

Lemma set_range_pre {A} (pre rest : list A) (i a b : Z) (g : Z -> option A) :
  i + Z.of_nat (length pre) <= a ->
  Np.set_range (pre ++ rest) i a b g
  = pre ++ Np.set_range rest (i + Z.of_nat (length pre)) a b g.
Proof.
  revert i. induction pre as [|x pre IH]; intros i H.
  - simpl. rewrite Z.add_0_r. reflexivity.
  - cbn [app Np.set_range]. cbn [length] in H.
    destruct (Z.leb_spec a i); [lia|]. cbn [andb]. f_equal.
    rewrite IH by lia. f_equal. f_equal. cbn [length]. lia.
Qed.

Lemma set_range_post {A} (xs : list A) (i a b : Z) (g : Z -> option A) :
  b <= i -> Np.set_range xs i a b g = xs.
Proof.
  revert i. induction xs as [|x xs IH]; intros i H; [reflexivity|].
  cbn [Np.set_range]. destruct (Z.ltb_spec i b); [lia|]. rewrite andb_false_r.
  f_equal. apply IH. lia.
Qed.

Lemma set_range_fill {A} (mid post : list A) (i a b : Z) (v : A) :
  a <= i -> b = i + Z.of_nat (length mid) ->
  Np.set_range (mid ++ post) i a b (fun _ => Some v) = repeat v (length mid) ++ post.
Proof.
  revert i. induction mid as [|x mid IH]; intros i Ha Hb.
  - simpl in *. apply set_range_post. lia.
  - cbn [app Np.set_range length repeat]. cbn [length] in Hb.
    destruct (Z.leb_spec a i); [|lia]. destruct (Z.ltb_spec i b); [|lia].
    cbn [andb]. f_equal. apply IH; lia.
Qed.

Lemma set_range_copy {A} (mid post src done : list A) (i a b : Z) :
  a <= i -> b = i + Z.of_nat (length mid) ->
  length src = length mid -> Z.of_nat (length done) = i - a ->
  Np.set_range (mid ++ post) i a b (fun k => nth_error (done ++ src) (Z.to_nat k))
  = src ++ post.
Proof.
  revert i src done. induction mid as [|x mid IH]; intros i src done Ha Hb Hl Hd.
  - destruct src; [|discriminate]. simpl in *. apply set_range_post. lia.
  - destruct src as [|y src]; [discriminate|].
    cbn [app Np.set_range]. cbn [length] in Hb, Hl.
    destruct (Z.leb_spec a i); [|lia]. destruct (Z.ltb_spec i b); [|lia].
    cbn [andb].
    replace (Z.to_nat (i - a)) with (length done) by lia.
    rewrite nth_error_app2 by lia. rewrite Nat.sub_diag. cbn [nth_error]. f_equal.
    replace (done ++ y :: src) with ((done ++ [y]) ++ src)
      by (rewrite <- app_assoc; reflexivity).
    apply IH; try lia. rewrite length_app. simpl. lia.
Qed.

Lemma norm_inside (len x : Z) : 0 <= x <= len -> Np.norm len x = x.
Proof. unfold Np.norm. intros H. destruct (Z.ltb_spec x 0); lia. Qed.

(** [result[index:index+n] = v] on the part of the array at [index]. *)
Lemma fill_slice_at {A} (done mid post : list A) (v : A) :
  Np.fill_slice (done ++ mid ++ post) (Z.of_nat (length done))
                (Z.of_nat (length done) + Z.of_nat (length mid)) v
  = done ++ repeat v (length mid) ++ post.
Proof.
  unfold Np.fill_slice. rewrite !length_app, !Nat2Z.inj_add.
  rewrite !norm_inside by lia.
  rewrite set_range_pre by lia. f_equal.
  apply set_range_fill; lia.
Qed.

(** [result[index:index+n] = src] for [src] of [n] elements. *)
Lemma assign_slice_at {A} (done mid post src : list A) :
  length src = length mid ->
  Np.assign_slice (done ++ mid ++ post) (Z.of_nat (length done))
                  (Z.of_nat (length done) + Z.of_nat (length mid)) src
  = Ok (done ++ src ++ post).
Proof.
  intros Hl. unfold Np.assign_slice. rewrite !length_app, !Nat2Z.inj_add.
  rewrite !norm_inside by lia.
  assert (Hcopy : Np.set_range (done ++ mid ++ post) 0 (Z.of_nat (length done))
                    (Z.of_nat (length done) + Z.of_nat (length mid))
                    (fun k => nth_error src (Z.to_nat k))
                  = done ++ src ++ post).
  { rewrite set_range_pre by lia. f_equal.
    apply (set_range_copy mid post src []); simpl; lia. }
  destruct src as [|v [|v' src]].
  - destruct (Z.eqb_spec (Z.of_nat (length (@nil A)))
                (Z.max 0 (Z.of_nat (length done) + Z.of_nat (length mid)
                          - Z.of_nat (length done)))); [|simpl in *; lia].
    rewrite Hcopy. reflexivity.
  - f_equal. rewrite set_range_pre by lia. f_equal.
    destruct mid as [|x [|x' mid]]; try discriminate.
    rewrite (set_range_fill [x] post); try (simpl; lia). reflexivity.
  - destruct (Z.eqb_spec (Z.of_nat (length (v :: v' :: src)))
                (Z.max 0 (Z.of_nat (length done) + Z.of_nat (length mid)
                          - Z.of_nat (length done)))); [|lia].
    rewrite Hcopy. reflexivity.
Qed.

(** *** Consumers that agree with a body on the segments of a page *)

Lemma run_pending_agree (body : Z -> option (list byte) -> M Asarray.dstate unit)
      (g : consumer) (pending : list (Z * option (list byte)))
      (s : Asarray.dstate) (r : list num) (ix : Z) :
  (forall i seg s', In (i, seg) pending -> body i seg s' = pure_body g i seg s') ->
  fold_segments g pending (Asarray.result_ s, Asarray.index_ s) = Ok (r, ix) ->
  Asarray.run_pending body pending s = (Ok tt, Asarray.mkD (Asarray.dworld s) r ix).
Proof.
  revert s. induction pending as [|[i seg] p IH]; intros s Hag H.
  - simpl in *. injection H as <- <-. destruct s; reflexivity.
  - simpl in H. cbn [Asarray.run_pending]. unfold bind.
    rewrite Hag by (left; reflexivity). unfold pure_body at 1.
    destruct (g i seg (Asarray.result_ s, Asarray.index_ s)) as [[r1 ix1]|];
      [|discriminate].
    apply (IH (Asarray.mkD (Asarray.dworld s) r1 ix1)); [|exact H].
    intros j seg' s' Hin. apply Hag. right. exact Hin.
Qed.

(** The segment loop with a body that acts as a consumer on the
    segments of the page: the channel is read for the segments that are
    not skipped, in their order, and the consumer sees the segments one
    after the other, whatever the batches are. *)
Lemma for_segments_agree (body : Z -> option (list byte) -> M Asarray.dstate unit)
      (g : consumer) (offs : list Z) :
  forall (bcs : list Z) (i size : Z) (pending : list (Z * option (list byte)))
         (s : Asarray.dstate) (r : list num) (ix : Z),
    (length offs <= length bcs)%nat ->
    (forall j seg s',
        In (j, seg)
           (pending ++ enumerate_from i
                         (segments_of (fh_data (fh (Asarray.dworld s))) offs bcs)) ->
        body j seg s' = pure_body g j seg s') ->
    fold_segments g
      (pending ++ enumerate_from i (segments_of (fh_data (fh (Asarray.dworld s))) offs bcs))
      (Asarray.result_ s, Asarray.index_ s) = Ok (r, ix) ->
    exists w',
      Asarray.for_segments body offs bcs i size pending s
      = (Ok tt, Asarray.mkD w' r ix)
      /\ fh_data (fh w') = fh_data (fh (Asarray.dworld s))
      /\ log w' = log (Asarray.dworld s)
      /\ reads w' = reads (Asarray.dworld s) ++ segment_reads offs bcs.
Proof.
  induction offs as [|o offs IH]; intros bcs i size pending s r ix Hlen Hag Hfold.
  - simpl in *. rewrite app_nil_r in Hfold, Hag.
    exists (Asarray.dworld s). rewrite (run_pending_agree body g pending s r ix Hag Hfold).
    rewrite app_nil_r. auto.
  - destruct bcs as [|bc bcs]; [simpl in Hlen; lia|].
    cbn [Asarray.for_segments]. unfold bind at 1, Asarray.dio at 1.
    destruct (read_segment_spec o bc bcs (Asarray.dworld s)) as (E & D & L & R).
    destruct (Asarray.read_segment o (bc :: bcs) (Asarray.dworld s)) as [res w1].
    cbn [fst snd] in E, D, L, R. subst res.
    set (n := if skipped o bc then 0 else bc).
    set (seg := segment_of (fh_data (fh (Asarray.dworld s))) o bc).
    set (s1 := Asarray.mkD w1 (Asarray.result_ s) (Asarray.index_ s)).
    assert (Hsegs : pending ++ enumerate_from i
                      (segments_of (fh_data (fh (Asarray.dworld s))) (o :: offs) (bc :: bcs))
                    = (pending ++ [(i, seg)])
                        ++ enumerate_from (i + 1)
                             (segments_of (fh_data (fh (Asarray.dworld s1))) offs bcs)).
    { unfold s1. cbn [Asarray.dworld]. rewrite D, <- app_assoc. reflexivity. }
    rewrite Hsegs in Hfold, Hag.
    assert (Hreads : forall w', reads w' = reads w1 ++ segment_reads offs bcs ->
                                reads w' = reads (Asarray.dworld s)
                                           ++ segment_reads (o :: offs) (bc :: bcs)).
    { intros w' H. rewrite H, R, <- app_assoc. reflexivity. }
    cbn [tl].
    destruct (size + n <? Asarray.buffersize).
    + destruct (IH bcs (i + 1) (size + n) (pending ++ [(i, seg)]) s1 r ix
                  ltac:(simpl in Hlen; lia) Hag Hfold) as (w' & Ew & D' & L' & R').
      exists w'. split; [exact Ew|]. cbn [Asarray.dworld s1] in D', L', R'.
      split; [rewrite D'; exact D|]. split; [rewrite L'; exact L|]. auto.
    + apply fold_segments_app in Hfold. destruct Hfold as ([r1 ix1] & H1 & H2).
      unfold bind at 1.
      rewrite (run_pending_agree body g (pending ++ [(i, seg)]) s1 r1 ix1
                 ltac:(intros j sg s' Hin; apply Hag, in_or_app; left; exact Hin) H1).
      set (s2 := Asarray.mkD (Asarray.dworld s1) r1 ix1).
      destruct (IH bcs (i + 1) 0 [] s2 r ix ltac:(simpl in Hlen; lia)
                  ltac:(intros j sg s' Hin; apply Hag, in_or_app; right; exact Hin) H2)
        as (w' & Ew & D' & L' & R').
      exists w'. split; [exact Ew|]. cbn [Asarray.dworld s1 s2] in D', L', R'.
      split; [rewrite D'; exact D|]. split; [rewrite L'; exact L|]. auto.
Qed.

Lemma In_enumerate_from {A} (xs : list A) :
  forall (i j : Z) (x : A),
    In (j, x) (enumerate_from i xs) ->
    exists k : nat, j = i + Z.of_nat k /\ nth_error xs k = Some x.
Proof.
  induction xs as [|y xs IH]; intros i j x H; [contradiction|].
  destruct H as [H|H].
  - injection H as <- <-. exists 0%nat. split; [lia | reflexivity].
  - destruct (IH _ _ _ H) as (k & -> & Hk). exists (S k). split; [lia | exact Hk].
Qed.

Lemma length_segments_of (data : list byte) (offsets bytecounts : list Z) :
  length offsets = length bytecounts ->
  length (segments_of data offsets bytecounts) = length offsets.
Proof. intros H. unfold segments_of. rewrite length_map, length_combine. lia. Qed.

(** *** The strip loop *)

Lemma firstn_min_length {A} (n : nat) (l : list A) :
  firstn n l = firstn (Nat.min n (length l)) l.
Proof.
  destruct (Nat.le_gt_cases n (length l)) as [H|H].
  - rewrite Nat.min_l by exact H. reflexivity.
  - rewrite Nat.min_r by lia. rewrite firstn_all. apply firstn_all2. lia.
Qed.

Lemma firstn_repeat_min {A} (v : A) (n k : nat) :
  firstn n (repeat v k) = repeat v (Nat.min n k).
Proof.
  revert k. induction n as [|n IH]; intros k; [reflexivity|].
  destruct k as [|k]; [reflexivity|]. simpl. f_equal. apply IH.
Qed.

(** [result[index:stop] = v] on the part of the array at [index], for a
    stop at the end of the part or, when nothing follows it, beyond. *)
Lemma fill_slice_clamped {A} (done mid post : list A) (stop : Z) (v : A) :
  Z.of_nat (length done) + Z.of_nat (length mid) <= stop ->
  post = [] \/ stop = Z.of_nat (length done) + Z.of_nat (length mid) ->
  Np.fill_slice (done ++ mid ++ post) (Z.of_nat (length done)) stop v
  = done ++ repeat v (length mid) ++ post.
Proof.
  intros Hstop Hpost. unfold Np.fill_slice. rewrite !length_app, !Nat2Z.inj_add.
  rewrite (norm_inside _ (Z.of_nat (length done))) by lia.
  assert (Hn : Np.norm (Z.of_nat (length done)
                        + (Z.of_nat (length mid) + Z.of_nat (length post))) stop
               = Z.of_nat (length done) + Z.of_nat (length mid)).
  { unfold Np.norm. destruct (Z.ltb_spec stop 0); [lia|].
    destruct Hpost as [-> | ->]; simpl; lia. }
  rewrite Hn. rewrite set_range_pre by lia. f_equal.
  apply set_range_fill; lia.
Qed.

Section strip_consumer.

Variables (env : Asarray.Env) (c : fmtchar) (lsb2msb : bool).
Variables (decompress : Asarray.decompressor) (unpack : Asarray.unpacker).
Variables (stripsize outsize : Z).

(** The samples of a strip that was read. *)
Definition strip_decoded (strip : list byte) : result (list num) :=
  rbind (decompress (Some outsize)
                    (if lsb2msb then Asarray.bitorder_decode env strip else strip))
        unpack.

(** What one pass of the strip loop does to the array and the index. *)
Definition strip_step : consumer := fun _ seg st =>
  let res := fst st in
  let index := snd st in
  match seg with
  | None =>
      Ok (Np.fill_slice res index (index + stripsize) (Asarray.zero_elem c),
          index + stripsize)
  | Some strip =>
      match strip_decoded strip with
      | Raise e => Raise e
      | Ok d =>
          let rsize := Z.of_nat (length res) in
          let size := Z.min (Z.min rsize (Z.of_nat (length d)))
                            (Z.min stripsize (rsize - index)) in
          match Np.assign_slice res index (index + size) (Np.take d size) with
          | Ok r => Ok (r, index + size)
          | Raise e => Raise e
          end
      end
  end.

Lemma strip_body_pure (i : Z) (seg : option (list byte)) (s : Asarray.dstate) :
  Asarray.strip_body env c lsb2msb decompress unpack stripsize outsize i seg s
  = pure_body strip_step i seg s.
Proof.
  unfold Asarray.strip_body, pure_body, strip_step, strip_decoded.
  unfold bind at 1, get at 1. cbn [fst snd].
  destruct seg as [strip|].
  - unfold bind at 1, lift at 1. unfold rbind.
    destruct (decompress _ _) as [d1|e]; [|reflexivity].
    unfold bind at 1, lift at 1.
    destruct (unpack d1) as [d|e]; [|reflexivity].
    cbv zeta. unfold bind at 1, lift at 1.
    destruct (Np.assign_slice _ _ _ _) as [r|e]; [|reflexivity].
    reflexivity.
  - reflexivity.
Qed.

(** The samples that a segment holds for the array, [stripsize] at
    most: the sentinel for a skipped strip, the decoded strip otherwise. *)
Definition strip_samples (seg : option (list byte)) : list num :=
  match seg with
  | None => repeat (Asarray.zero_elem c) (Z.to_nat stripsize)
  | Some strip => match strip_decoded strip with
                  | Ok d => firstn (Z.to_nat stripsize) d
                  | Raise _ => []
                  end
  end.

(** Where the region of strip [j] starts: behind the samples of the
    strips before it. *)
Fixpoint strip_start (segs : list (option (list byte))) (j : nat) : nat :=
  match j, segs with
  | S j', seg :: r => (length (strip_samples seg) + strip_start r j')%nat
  | _, _ => 0%nat
  end.

(** The array after the strips [segs], the first of which starts where
    [rest] starts: every strip puts its samples behind those of the strip
    before it, as far as the array goes. *)
Fixpoint strips_filled (segs : list (option (list byte))) (rest : list num) : list num :=
  match segs with
  | [] => rest
  | seg :: r =>
      firstn (length rest) (strip_samples seg)
      ++ strips_filled r (skipn (length (strip_samples seg)) rest)
  end.

(** Every strip that is read can be decoded, and every strip but the
    last has its samples inside the array. *)
Fixpoint strips_fit (segs : list (option (list byte))) (rest : list num) : Prop :=
  match segs with
  | [] => True
  | seg :: r =>
      (forall strip, seg = Some strip -> exists d, strip_decoded strip = Ok d)
      /\ (r <> [] -> (length (strip_samples seg) <= length rest)%nat)
      /\ strips_fit r (skipn (length (strip_samples seg)) rest)
  end.

Lemma strip_step_region (i : Z) (seg : option (list byte)) (done rest : list num) :
  0 <= stripsize ->
  (forall strip, seg = Some strip -> exists d, strip_decoded strip = Ok d) ->
  exists ix,
    strip_step i seg (done ++ rest, Z.of_nat (length done))
    = Ok (done ++ firstn (length rest) (strip_samples seg)
               ++ skipn (length (strip_samples seg)) rest, ix)
    /\ ((length (strip_samples seg) <= length rest)%nat ->
        ix = Z.of_nat (length done) + Z.of_nat (length (strip_samples seg))).
Proof.
  intros Hs Hseg.
  set (m := Z.to_nat stripsize).
  assert (Hm : Z.of_nat m = stripsize) by (unfold m; lia).
  set (adv := length (strip_samples seg)).
  set (mid := firstn adv rest). set (post := skipn adv rest).
  assert (Hrest : rest = mid ++ post) by (symmetry; apply firstn_skipn).
  assert (Hmid : length mid = Nat.min adv (length rest)) by apply length_firstn.
  unfold strip_step. cbn [fst snd]. destruct seg as [strip|].
  - destruct (Hseg strip eq_refl) as (d & Hd).
    assert (Hadv : adv = Nat.min m (length d)).
    { unfold adv, strip_samples. rewrite Hd. apply length_firstn. }
    assert (Hreg : firstn (length rest) (strip_samples (Some strip))
                   = firstn (length mid) d).
    { unfold strip_samples. rewrite Hd. fold m. rewrite firstn_firstn.
      rewrite (firstn_min_length (Nat.min (length rest) m) d),
              (firstn_min_length (length mid) d).
      f_equal. lia. }
    rewrite Hreg, Hd.
    set (size := Z.min _ _).
    assert (Hsize : size = Z.of_nat (length mid)).
    { unfold size. rewrite length_app. lia. }
    rewrite Hsize.
    assert (Htake : Np.take d (Z.of_nat (length mid)) = firstn (length mid) d).
    { unfold Np.take. rewrite norm_inside by lia. rewrite Nat2Z.id. reflexivity. }
    rewrite Htake.
    assert (Hassign : Np.assign_slice (done ++ rest) (Z.of_nat (length done))
                        (Z.of_nat (length done) + Z.of_nat (length mid))
                        (firstn (length mid) d)
                      = Ok (done ++ firstn (length mid) d ++ post)).
    { rewrite Hrest at 1. apply assign_slice_at. rewrite length_firstn. lia. }
    rewrite Hassign.
    eexists. split; [reflexivity|]. intros H. lia.
  - assert (Hadv : adv = m) by (unfold adv, strip_samples; apply repeat_length).
    assert (Hreg : firstn (length rest) (strip_samples None)
                   = repeat (Asarray.zero_elem c) (length mid)).
    { unfold strip_samples. fold m. rewrite firstn_repeat_min. f_equal. lia. }
    rewrite Hreg.
    assert (Hfill : Np.fill_slice (done ++ rest) (Z.of_nat (length done))
                      (Z.of_nat (length done) + stripsize) (Asarray.zero_elem c)
                    = done ++ repeat (Asarray.zero_elem c) (length mid) ++ post).
    { rewrite Hrest at 1. apply fill_slice_clamped; [lia|].
      destruct (Nat.le_gt_cases adv (length rest)) as [H|H].
      - right. lia.
      - left. apply length_zero_iff_nil. unfold post. rewrite length_skipn. lia. }
    rewrite Hfill.
    eexists. split; [reflexivity|]. intros H. lia.
Qed.

Lemma fold_strips (segs : list (option (list byte))) :
  0 <= stripsize ->
  forall (i : Z) (done rest : list num),
    strips_fit segs rest ->
    exists ix,
      fold_segments strip_step (enumerate_from i segs)
                    (done ++ rest, Z.of_nat (length done))
      = Ok (done ++ strips_filled segs rest, ix).
Proof.
  intros Hs. induction segs as [|seg segs IH]; intros i done rest Hfit.
  - eexists. reflexivity.
  - destruct Hfit as (Hseg & Hroom & Hfit).
    cbn [enumerate_from fold_segments strips_filled].
    destruct (strip_step_region i seg done rest Hs Hseg) as (ix1 & Hstep & Hix).
    rewrite Hstep.
    destruct segs as [|seg2 segs].
    + eexists. reflexivity.
    + specialize (Hroom ltac:(discriminate)).
      specialize (Hix Hroom). subst ix1.
      set (region := firstn (length rest) (strip_samples seg)) in *.
      assert (Hlen : Z.of_nat (length (done ++ region))
                     = Z.of_nat (length done) + Z.of_nat (length (strip_samples seg))).
      { rewrite length_app, Nat2Z.inj_add. f_equal. unfold region.
        rewrite length_firstn. lia. }
      rewrite <- Hlen, app_assoc.
      destruct (IH (i + 1) (done ++ region) _ Hfit) as (ix & E).
      exists ix. rewrite E, <- app_assoc. reflexivity.
Qed.

(** [strips_fit] by position. *)
Lemma strips_fit_by_index (segs : list (option (list byte))) :
  forall rest : list num,
    (forall (j : nat) (strip : list byte),
        nth_error segs j = Some (Some strip) -> exists d, strip_decoded strip = Ok d) ->
    (forall j : nat, (S j < length segs)%nat ->
                     (strip_start segs (S j) <= length rest)%nat) ->
    strips_fit segs rest.
Proof.
  induction segs as [|seg segs IH]; intros rest Hdec Hroom; [exact I|].
  cbn [strips_fit]. split; [|split].
  - intros strip ->. exact (Hdec 0%nat strip eq_refl).
  - intros Hne. destruct segs; [contradiction|].
    specialize (Hroom 0%nat ltac:(simpl; lia)). cbn [strip_start] in Hroom. lia.
  - apply IH.
    + intros j strip Hj. exact (Hdec (S j) strip Hj).
    + intros j Hj. specialize (Hroom (S j) ltac:(simpl; lia)).
      cbn [strip_start] in Hroom. cbn [strip_start]. rewrite length_skipn. lia.
Qed.

Lemma length_strips_filled (segs : list (option (list byte))) :
  forall rest : list num, length (strips_filled segs rest) = length rest.
Proof.
  induction segs as [|seg segs IH]; intros rest; [reflexivity|].
  cbn [strips_filled]. rewrite length_app, IH, length_skipn, length_firstn. lia.
Qed.

(** Sample [t] of strip [j] in the array. *)
Lemma nth_error_strips_filled (segs : list (option (list byte))) :
  forall (rest : list num) (j t : nat) (seg : option (list byte)),
    strips_fit segs rest ->
    nth_error segs j = Some seg ->
    (t < length (strip_samples seg))%nat ->
    (strip_start segs j + t < length rest)%nat ->
    nth_error (strips_filled segs rest) (strip_start segs j + t)
    = nth_error (strip_samples seg) t.
Proof.
  induction segs as [|seg0 segs IH]; intros rest j t seg Hfit Hj Ht Hk.
  - destruct j; discriminate.
  - destruct Hfit as (_ & _ & Hfit). cbn [strips_filled].
    destruct j as [|j].
    + injection Hj as <-. cbn [strip_start Nat.add] in *.
      rewrite nth_error_app1 by (rewrite length_firstn; lia).
      rewrite nth_error_firstn.
      destruct (Nat.ltb_spec t (length rest)); [reflexivity | lia].
    + cbn [nth_error] in Hj. cbn [strip_start] in *.
      rewrite nth_error_app2 by (rewrite length_firstn; lia).
      rewrite length_firstn.
      replace (length (strip_samples seg0) + strip_start segs j + t
               - Nat.min (length rest) (length (strip_samples seg0)))%nat
        with (strip_start segs j + t)%nat by lia.
      apply IH; try assumption. rewrite length_skipn. lia.
Qed.

(** The elements behind the last strip. *)
Lemma nth_error_strips_filled_behind (segs : list (option (list byte))) :
  forall (rest : list num) (k : nat),
    (strip_start segs (length segs) <= k)%nat ->
    nth_error (strips_filled segs rest) k = nth_error rest k.
Proof.
  induction segs as [|seg0 segs IH]; intros rest k Hk; [reflexivity|].
  cbn [strips_filled]. cbn [length strip_start] in Hk.
  rewrite nth_error_app2 by (rewrite length_firstn; lia).
  rewrite length_firstn.
  destruct (Nat.le_gt_cases (length (strip_samples seg0)) (length rest)) as [H|H].
  - rewrite IH by lia. rewrite nth_error_skipn. f_equal. lia.
  - assert (Hn1 : nth_error rest k = None) by (apply nth_error_None; lia).
    rewrite Hn1. apply nth_error_None.
    rewrite length_strips_filled, length_skipn. lia.
Qed.

End strip_consumer.

(** *** The tile loop *)

Lemma nth_error_mapi_from {A} (g : Z -> A -> A) (xs : list A) (i : Z) (k : nat) :
  nth_error (Np.mapi_from g i xs) k
  = option_map (g (i + Z.of_nat k)) (nth_error xs k).
Proof.
  revert i k. induction xs as [|x xs IH]; intros i k.
  - destruct k; reflexivity.
  - destruct k as [|k].
    + simpl. rewrite Z.add_0_r. reflexivity.
    + cbn [Np.mapi_from nth_error]. rewrite IH. f_equal. f_equal. lia.
Qed.

Lemma length_mapi_from {A} (g : Z -> A -> A) (xs : list A) (i : Z) :
  length (Np.mapi_from g i xs) = length xs.
Proof. revert i. induction xs as [|x xs IH]; intros i; simpl; [|rewrite IH]; reflexivity. Qed.

(** The block of the tile [tileindex] in the result: plane [pl] and the
    ranges of depth, length and width, cut at the image. *)
Definition in_tile (shape tiledshape tileshape : list Z) (tileindex : Z)
           (coords : list Z) : bool :=
  match shape, tiledshape, tileshape, coords with
  | [_; _; nD; nL; nW; _], [tileddepth; tiledlength; tiledwidth],
    [tiledepth; tilelength; tilewidth; _], [n; p; d; l; w; _] =>
      let pl := tileindex / (tiledwidth * tiledlength * tileddepth) in
      let td := (tileindex / (tiledwidth * tiledlength)) mod tileddepth * tiledepth in
      let tl := (tileindex / tiledwidth) mod tiledlength * tilelength in
      let tw := tileindex mod tiledwidth * tilewidth in
      (n =? 0) && (p =? pl)
      && (Np.norm nD td <=? d) && (d <? Np.norm nD (td + tiledepth))
      && (Np.norm nL tl <=? l) && (l <? Np.norm nL (tl + tilelength))
      && (Np.norm nW tw <=? w) && (w <? Np.norm nW (tw + tilewidth))
  | _, _, _, _ => false
  end.

Lemma mapi_from_ext {A} (g h : Z -> A -> A) (xs : list A) :
  (forall k x, g k x = h k x) ->
  forall i : Z, Np.mapi_from g i xs = Np.mapi_from h i xs.
Proof.
  intros H. induction xs as [|x xs IH]; intros i; [reflexivity|].
  cbn [Np.mapi_from]. rewrite H, IH. reflexivity.
Qed.

Section tile_consumer.

Variables (env : Asarray.Env) (c : fmtchar) (lsb2msb : bool).
Variables (decompress : Asarray.decompressor) (unpack : Asarray.unpacker).
Variable unpredict : Asarray.unpredictor.
Variables (n0 nP nD nL nW nS : Z).
Variables (tileddepth tiledlength tiledwidth : Z).
Variables (tiledepth tilelength tilewidth : Z).

Local Abbreviation shape := [n0; nP; nD; nL; nW; nS].
Local Abbreviation tiledshape := [tileddepth; tiledlength; tiledwidth].
Local Abbreviation tileshape := [tiledepth; tilelength; tilewidth; nS].
Local Abbreviation tilesize := (tiledepth * tilelength * tilewidth * nS).

(** The samples of a tile that was read: decompressed, unpacked, cut to
    the size of a tile, the predictor undone. *)
Definition tile_decoded (tile : list byte) : result (list num) :=
  d <~ decompress None (if lsb2msb then Asarray.bitorder_decode env tile else tile) ;;
  t <~ unpack d ;;
  unpredict tileshape (Np.take t tilesize).

(** The tile decodes to the samples of one tile, or more before the cut. *)
Definition complete_tile (tile : list byte) : Prop :=
  exists d t u,
    decompress None (if lsb2msb then Asarray.bitorder_decode env tile else tile) = Ok d
    /\ unpack d = Ok t
    /\ tilesize <= Z.of_nat (length t)
    /\ unpredict tileshape (Np.take t tilesize) = Ok u
    /\ Z.of_nat (length u) = tilesize.

(** Where the block of the tile [i] starts. *)
Definition tile_plane (i : Z) : Z := i / (tiledwidth * tiledlength * tileddepth).
Definition tile_depth0 (i : Z) : Z :=
  (i / (tiledwidth * tiledlength)) mod tileddepth * tiledepth.
Definition tile_length0 (i : Z) : Z := (i / tiledwidth) mod tiledlength * tilelength.
Definition tile_width0 (i : Z) : Z := i mod tiledwidth * tilewidth.

(** The sample of the tile [i] for the element at [coords]. *)
Definition tile_elem (i : Z) (u : list num) (coords : list Z) : option num :=
  match coords with
  | [_; _; d; l; w; s] =>
      nth_error u (Z.to_nat (Np.ravel tileshape
                               [d - tile_depth0 i; l - tile_length0 i;
                                w - tile_width0 i; s]))
  | _ => None
  end.

(** What the segment of the tile [i] holds for the element at [coords]:
    the sentinel when the segment is skipped. *)
Definition tile_value (i : Z) (seg : option (list byte)) (coords : list Z) : option num :=
  match seg with
  | None => Some (Asarray.zero_elem c)
  | Some tile => match tile_decoded tile with
                 | Ok u => tile_elem i u coords
                 | Raise _ => None
                 end
  end.

(** The array after the tile [i]: the elements of its block are
    replaced. *)
Definition tile_written (i : Z) (seg : option (list byte)) (res : list num) : list num :=
  Np.mapi_from
    (fun k x => if in_tile shape tiledshape tileshape i (Np.unravel shape k)
                then match tile_value i seg (Np.unravel shape k) with
                     | Some v => v
                     | None => x
                     end
                else x) 0 res.

Definition tile_step : consumer := fun i seg st =>
  Ok (tile_written i seg (fst st), snd st).

Hypothesis tiled_positive : 0 < tileddepth /\ 0 < tiledlength /\ 0 < tiledwidth.
Hypothesis tile_positive : 0 < tiledepth /\ 0 < tilelength /\ 0 < tilewidth /\ 0 < nS.

Lemma tile_starts (i : Z) :
  0 <= i ->
  0 <= tile_depth0 i <= (tileddepth - 1) * tiledepth
  /\ 0 <= tile_length0 i <= (tiledlength - 1) * tilelength
  /\ 0 <= tile_width0 i <= (tiledwidth - 1) * tilewidth.
Proof.
  intros Hi. destruct tiled_positive as (Hd & Hl & Hw).
  destruct tile_positive as (Hd' & Hl' & Hw' & _).
  unfold tile_depth0, tile_length0, tile_width0.
  pose proof (Z.mod_pos_bound (i / (tiledwidth * tiledlength)) tileddepth Hd).
  pose proof (Z.mod_pos_bound (i / tiledwidth) tiledlength Hl).
  pose proof (Z.mod_pos_bound i tiledwidth Hw).
  repeat split; nia.
Qed.

(** A skipped tile. *)
Lemma tile_decode_skipped (i : Z) (s : Asarray.dstate) :
  0 <= tile_plane i < nP ->
  Asarray.tile_decode env c shape tileshape tiledshape lsb2msb decompress unpack
                      unpredict i None s
  = pure_body tile_step i None s.
Proof.
  intros Hpl. destruct tiled_positive as (Hd & Hl & Hw).
  unfold Asarray.tile_decode.
  unfold floordiv, pymod, bind, lift, get.
  destruct (Z.eqb_spec (tiledwidth * tiledlength * tileddepth) 0) as [E|_]; [nia|].
  destruct (Z.eqb_spec (tiledwidth * tiledlength) 0) as [E|_]; [nia|].
  destruct (Z.eqb_spec tileddepth 0) as [E|_]; [lia|].
  destruct (Z.eqb_spec tiledwidth 0) as [E|_]; [lia|].
  destruct (Z.eqb_spec tiledlength 0) as [E|_]; [lia|].
  unfold Asarray.set_block. unfold tile_plane in Hpl.
  set (pl := i / (tiledwidth * tiledlength * tileddepth)) in *.
  assert (Hlt : (pl <? 0) = false) by (apply Z.ltb_ge; lia).
  assert (Hge : (nP <=? pl) = false) by (apply Z.leb_gt; lia).
  cbv zeta. rewrite Hlt. cbv iota. rewrite Hlt, Hge. cbn [orb].
  unfold Asarray.bcast. rewrite !Z.eqb_refl, !orb_true_r. cbn [andb].
  unfold pure_body, tile_step, tile_written, modify, Asarray.set_result.
  cbn [fst snd]. reflexivity.
Qed.

(** The block of a tile lies inside the tile. *)
Lemma in_tile_bounds (i n p d l w s : Z) :
  0 <= i ->
  in_tile shape tiledshape tileshape i [n; p; d; l; w; s] = true ->
  n = 0 /\ p = tile_plane i
  /\ tile_depth0 i <= d < tile_depth0 i + tiledepth
  /\ tile_length0 i <= l < tile_length0 i + tilelength
  /\ tile_width0 i <= w < tile_width0 i + tilewidth.
Proof.
  intros Hi Hc. destruct (tile_starts i Hi) as (Hsd & Hsl & Hsw).
  destruct tile_positive as (Hd1 & Hl1 & Hw1 & _).
  unfold in_tile in Hc. cbv zeta in Hc.
  fold (tile_plane i) (tile_depth0 i) (tile_length0 i) (tile_width0 i) in Hc.
  repeat (apply andb_true_iff in Hc; destruct Hc as (Hc & ?)).
  repeat match goal with
         | H : (_ <=? _) = true |- _ => apply Z.leb_le in H
         | H : (_ <? _) = true |- _ => apply Z.ltb_lt in H
         | H : (_ =? _) = true |- _ => apply Z.eqb_eq in H
         end.
  unfold Np.norm in *.
  repeat match goal with
         | H : context [?a <? 0] |- _ => destruct (Z.ltb_spec a 0); [lia|]
         end.
  repeat split; lia.
Qed.

Lemma digit_unique (a b size x : Z) :
  0 < size -> a * size <= x < a * size + size -> b * size <= x < b * size + size ->
  a = b.
Proof. intros. nia. Qed.

Lemma tile_index_digits (i : Z) :
  i = ((tile_plane i * tileddepth + (i / (tiledwidth * tiledlength)) mod tileddepth)
       * tiledlength + (i / tiledwidth) mod tiledlength) * tiledwidth
      + i mod tiledwidth.
Proof.
  destruct tiled_positive as (Hd & Hl & Hw). unfold tile_plane.
  rewrite <- (Z.div_div i (tiledwidth * tiledlength) tileddepth) by lia.
  rewrite <- (Z.div_div i tiledwidth tiledlength) by lia.
  set (q := i / tiledwidth).
  pose proof (Z.div_mod i tiledwidth ltac:(lia)) as H1. fold q in H1.
  pose proof (Z.div_mod q tiledlength ltac:(lia)) as H2.
  set (r := q / tiledlength) in *.
  pose proof (Z.div_mod r tileddepth ltac:(lia)) as H3.
  nia.
Qed.

(** No element lies in the blocks of two tiles. *)
Lemma in_tile_unique (i j : Z) (coords : list Z) :
  0 <= i -> 0 <= j ->
  in_tile shape tiledshape tileshape i coords = true ->
  in_tile shape tiledshape tileshape j coords = true ->
  i = j.
Proof.
  intros Hi Hj Hci Hcj.
  destruct coords as [|n [|p [|d [|l [|w [|s [|]]]]]]]; try discriminate.
  destruct (in_tile_bounds i n p d l w s Hi Hci) as (_ & Hp & Hd & Hl & Hw).
  destruct (in_tile_bounds j n p d l w s Hj Hcj) as (_ & Hp' & Hd' & Hl' & Hw').
  destruct tile_positive as (Hd1 & Hl1 & Hw1 & _).
  unfold tile_depth0, tile_length0, tile_width0 in *.
  pose proof (digit_unique _ _ _ _ Hd1 Hd Hd') as Ed.
  pose proof (digit_unique _ _ _ _ Hl1 Hl Hl') as El.
  pose proof (digit_unique _ _ _ _ Hw1 Hw Hw') as Ew.
  rewrite (tile_index_digits i), (tile_index_digits j).
  rewrite <- Hp, <- Hp', Ed, El, Ew. reflexivity.
Qed.

(** Inside the block of a tile, the tile has a sample for the element. *)
Lemma tile_elem_inside (i k : Z) (u : list num) :
  0 <= i ->
  Z.of_nat (length u) = tilesize ->
  in_tile shape tiledshape tileshape i (Np.unravel shape k) = true ->
  exists v, tile_elem i u (Np.unravel shape k) = Some v.
Proof.
  intros Hi Hu Hc.
  destruct tile_positive as (Hd1 & Hl1 & Hw1 & Hs1).
  cbn [Np.unravel Np.unravel_rev rev app] in *.
  destruct (in_tile_bounds i _ _ _ _ _ _ Hi Hc) as (_ & _ & Hd & Hl & Hw).
  pose proof (Z.mod_pos_bound k nS Hs1) as Hs.
  unfold tile_elem.
  set (a := _ - tile_depth0 i). set (b := _ - tile_length0 i).
  set (cc := _ - tile_width0 i). set (e := k mod nS) in *.
  assert (Ha : 0 <= a < tiledepth) by (unfold a; lia).
  assert (Hb : 0 <= b < tilelength) by (unfold b; lia).
  assert (Hcc : 0 <= cc < tilewidth) by (unfold cc; lia).
  clearbody a b cc e.
  unfold Np.ravel. cbn [Np.ravel_acc].
  assert (Hrange : 0 <= (((0 * tiledepth + a) * tilelength + b) * tilewidth + cc) * nS + e
                   < tilesize).
  { assert (0 <= a * tilelength + b < tiledepth * tilelength) by nia.
    assert (0 <= (a * tilelength + b) * tilewidth + cc
            < tiledepth * tilelength * tilewidth) by nia.
    nia. }
  destruct (nth_error u (Z.to_nat ((((0 * tiledepth + a) * tilelength + b) * tilewidth + cc)
                                   * nS + e))) as [v|] eqn:E.
  - exists v. reflexivity.
  - apply nth_error_None in E. lia.
Qed.

Lemma length_tile_written (i : Z) (seg : option (list byte)) (res : list num) :
  length (tile_written i seg res) = length res.
Proof. apply length_mapi_from. Qed.

Lemma nth_error_tile_written (i : Z) (seg : option (list byte)) (res : list num)
      (k : nat) (x : num) :
  nth_error res k = Some x ->
  nth_error (tile_written i seg res) k
  = Some (if in_tile shape tiledshape tileshape i (Np.unravel shape (Z.of_nat k))
          then match tile_value i seg (Np.unravel shape (Z.of_nat k)) with
               | Some v => v
               | None => x
               end
          else x).
Proof.
  intros Hx. unfold tile_written. rewrite nth_error_mapi_from, Hx. reflexivity.
Qed.

(** The array after the tiles [segs], the first of which is the tile [i]. *)
Fixpoint tiles_written (i : Z) (segs : list (option (list byte))) (res : list num)
  : list num :=
  match segs with
  | [] => res
  | seg :: r => tiles_written (i + 1) r (tile_written i seg res)
  end.

Lemma fold_tiles (segs : list (option (list byte))) :
  forall (i ix : Z) (res : list num),
    fold_segments tile_step (enumerate_from i segs) (res, ix)
    = Ok (tiles_written i segs res, ix).
Proof.
  induction segs as [|seg segs IH]; intros i ix res; [reflexivity|].
  cbn [enumerate_from fold_segments tiles_written]. unfold tile_step at 1.
  cbn [fst snd]. apply IH.
Qed.

Lemma length_tiles_written (segs : list (option (list byte))) :
  forall (i : Z) (res : list num), length (tiles_written i segs res) = length res.
Proof.
  induction segs as [|seg segs IH]; intros i res; [reflexivity|].
  cbn [tiles_written]. rewrite IH. apply length_tile_written.
Qed.

(** An element outside the blocks of the tiles stays. *)
Lemma nth_error_tiles_outside (segs : list (option (list byte))) :
  forall (i : Z) (res : list num) (k : nat) (x : num),
    nth_error res k = Some x ->
    (forall j : nat, (j < length segs)%nat ->
       in_tile shape tiledshape tileshape (i + Z.of_nat j)
               (Np.unravel shape (Z.of_nat k)) = false) ->
    nth_error (tiles_written i segs res) k = Some x.
Proof.
  induction segs as [|seg segs IH]; intros i res k x Hx Hout; [exact Hx|].
  cbn [tiles_written]. apply IH.
  - rewrite (nth_error_tile_written i seg res k x Hx).
    pose proof (Hout 0%nat ltac:(simpl; lia)) as H0.
    rewrite Z.add_0_r in H0. rewrite H0. reflexivity.
  - intros j Hj. specialize (Hout (S j) ltac:(simpl; lia)).
    rewrite <- Hout. f_equal. lia.
Qed.

(** An element in the block of a tile holds what the segment of that
    tile has for it. *)
Lemma nth_error_tiles_inside (segs : list (option (list byte))) :
  forall (i : Z) (res : list num) (k j : nat) (x v : num) (seg : option (list byte)),
    0 <= i ->
    nth_error res k = Some x ->
    nth_error segs j = Some seg ->
    in_tile shape tiledshape tileshape (i + Z.of_nat j)
            (Np.unravel shape (Z.of_nat k)) = true ->
    tile_value (i + Z.of_nat j) seg (Np.unravel shape (Z.of_nat k)) = Some v ->
    nth_error (tiles_written i segs res) k = Some v.
Proof.
  induction segs as [|seg0 segs IH]; intros i res k j x v seg Hi Hx Hj Hc Hv.
  - destruct j; discriminate.
  - cbn [tiles_written]. destruct j as [|j].
    + injection Hj as <-. rewrite Z.add_0_r in Hc, Hv.
      apply nth_error_tiles_outside.
      * rewrite (nth_error_tile_written i seg0 res k x Hx), Hc, Hv. reflexivity.
      * intros j Hj.
        destruct (in_tile shape tiledshape tileshape (i + 1 + Z.of_nat j)
                          (Np.unravel shape (Z.of_nat k))) eqn:E; [|reflexivity].
        pose proof (in_tile_unique i (i + 1 + Z.of_nat j) _ Hi ltac:(lia) Hc E). lia.
    + cbn [nth_error] in Hj.
      replace (i + Z.of_nat (S j)) with (i + 1 + Z.of_nat j) in Hc, Hv by lia.
      destruct (in_tile shape tiledshape tileshape i (Np.unravel shape (Z.of_nat k)))
        eqn:E.
      * pose proof (in_tile_unique i (i + 1 + Z.of_nat j) _ Hi ltac:(lia) E Hc). lia.
      * apply (IH (i + 1) _ k j x v seg ltac:(lia)); try assumption.
        rewrite (nth_error_tile_written i seg0 res k x Hx), E. reflexivity.
Qed.

Hypothesis tiles_inside :
  (tileddepth - 1) * tiledepth < nD
  /\ (tiledlength - 1) * tilelength < nL
  /\ (tiledwidth - 1) * tilewidth < nW.

Lemma length_take_tile (t : list num) :
  tilesize <= Z.of_nat (length t) ->
  Z.of_nat (length (Np.take t tilesize)) = tilesize.
Proof.
  intros H. destruct tile_positive as (Hd & Hl & Hw & Hs).
  assert (0 < tilesize) by nia.
  unfold Np.take. rewrite norm_inside by lia. rewrite length_firstn. lia.
Qed.

Lemma tile_decode_read (i : Z) (tile : list byte) (s : Asarray.dstate) :
  0 <= i -> tile_plane i < nP -> complete_tile tile ->
  Asarray.tile_decode env c shape tileshape tiledshape lsb2msb decompress unpack
                      unpredict i (Some tile) s
  = pure_body tile_step i (Some tile) s.
Proof.
  intros Hi Hpl (d & t & u & Hd & Ht & Hlen & Hu & Hul).
  destruct tiled_positive as (Hd0 & Hl0 & Hw0).
  destruct tile_positive as (Hd1 & Hl1 & Hw1 & Hs1).
  destruct tiles_inside as (HdI & HlI & HwI).
  destruct (tile_starts i Hi) as (Hsd & Hsl & Hsw).
  assert (Hpl0 : 0 <= tile_plane i).
  { unfold tile_plane. apply Z.div_pos; nia. }
  unfold Asarray.tile_decode.
  unfold floordiv, pymod, bind, lift, get.
  destruct (Z.eqb_spec (tiledwidth * tiledlength * tileddepth) 0) as [E|_]; [nia|].
  destruct (Z.eqb_spec (tiledwidth * tiledlength) 0) as [E|_]; [nia|].
  destruct (Z.eqb_spec tileddepth 0) as [E|_]; [lia|].
  destruct (Z.eqb_spec tiledwidth 0) as [E|_]; [lia|].
  destruct (Z.eqb_spec tiledlength 0) as [E|_]; [lia|].
  rewrite Hd, Ht. cbv zeta.
  rewrite (length_take_tile t Hlen).
  assert (Hok : Asarray.shape_ok tileshape tilesize = true).
  { unfold Asarray.shape_ok, product. cbn [forallb fold_left].
    apply andb_true_iff. split.
    - repeat (apply andb_true_iff; split); try reflexivity; apply Z.leb_le; lia.
    - apply Z.eqb_eq. ring. }
  rewrite Hok. unfold ret. rewrite Hu.
  change (i / (tiledwidth * tiledlength * tileddepth)) with (tile_plane i).
  change ((i / (tiledwidth * tiledlength)) mod tileddepth * tiledepth)
    with (tile_depth0 i).
  change ((i / tiledwidth) mod tiledlength * tilelength) with (tile_length0 i).
  change (i mod tiledwidth * tilewidth) with (tile_width0 i).
  assert (Hdec : tile_decoded tile = Ok u).
  { unfold tile_decoded, rbind. rewrite Hd, Ht. exact Hu. }
  assert (Hin : forall coords,
             in_tile shape tiledshape tileshape i coords
             = match coords with
               | [n; p; d; l; w; _] =>
                   (n =? 0) && (p =? tile_plane i)
                   && (Np.norm nD (tile_depth0 i) <=? d)
                   && (d <? Np.norm nD (tile_depth0 i + tiledepth))
                   && (Np.norm nL (tile_length0 i) <=? l)
                   && (l <? Np.norm nL (tile_length0 i + tilelength))
                   && (Np.norm nW (tile_width0 i) <=? w)
                   && (w <? Np.norm nW (tile_width0 i + tilewidth))
               | _ => false
               end) by reflexivity.
  unfold pure_body, tile_step, tile_written. cbn [fst snd].
  set (pl := tile_plane i) in *. set (td := tile_depth0 i) in *.
  set (tl := tile_length0 i) in *. set (tw := tile_width0 i) in *.
  unfold Asarray.set_block.
  assert (Hlt : (pl <? 0) = false) by (apply Z.ltb_ge; lia).
  assert (Hge : (nP <=? pl) = false) by (apply Z.leb_gt; lia).
  cbv zeta. rewrite Hlt. cbv iota. rewrite Hlt, Hge. cbn [orb].
  assert (Hnorm : forall len t0 size,
             0 <= t0 < len -> 0 < size ->
             Np.norm len t0 = t0
             /\ Np.norm len (t0 + size) = t0 + Z.min size (len - t0)
             /\ Np.norm size (len - t0) = Z.min size (len - t0)).
  { intros len t0 size H1 H2. unfold Np.norm.
    destruct (Z.ltb_spec t0 0); [lia|].
    destruct (Z.ltb_spec (t0 + size) 0); [lia|].
    destruct (Z.ltb_spec (len - t0) 0); lia. }
  destruct (Hnorm nD td tiledepth ltac:(lia) Hd1) as (Had & Hbd & Hrd).
  destruct (Hnorm nL tl tilelength ltac:(lia) Hl1) as (Hal & Hbl & Hrl).
  destruct (Hnorm nW tw tilewidth ltac:(lia) Hw1) as (Haw & Hbw & Hrw).
  assert (Hbc : Asarray.bcast (Np.norm tiledepth (nD - td))
                  (Z.max 0 (Np.norm nD (td + tiledepth) - Np.norm nD td))
                && Asarray.bcast (Np.norm tilelength (nL - tl))
                     (Z.max 0 (Np.norm nL (tl + tilelength) - Np.norm nL tl))
                && Asarray.bcast (Np.norm tilewidth (nW - tw))
                     (Z.max 0 (Np.norm nW (tw + tilewidth) - Np.norm nW tw))
                && Asarray.bcast nS nS = true).
  { unfold Asarray.bcast. rewrite Had, Hbd, Hrd, Hal, Hbl, Hrl, Haw, Hbw, Hrw.
    repeat (apply andb_true_iff; split); apply orb_true_iff; left;
      apply Z.eqb_eq; lia. }
  rewrite Hbc. unfold modify, Asarray.set_result. f_equal. f_equal.
  apply mapi_from_ext. intros k x.
  rewrite Hin. unfold tile_value. rewrite Hdec.
  cbn [Np.unravel Np.unravel_rev rev app].
  match goal with
  | |- (if ?b then _ else _) = _ => destruct b eqn:Hc; [|reflexivity]
  end.
  unfold tile_elem. fold td tl tw.
  repeat (apply andb_true_iff in Hc; destruct Hc as (Hc & ?)).
  repeat match goal with
         | H : (_ <=? _) = true |- _ => apply Z.leb_le in H
         | H : (_ <? _) = true |- _ => apply Z.ltb_lt in H
         end.
  rewrite Had, Hbd, Hal, Hbl, Haw, Hbw in *.
  rewrite Hrd, Hrl, Hrw.
  assert (Hpick : forall r x0, 0 <= x0 < r -> Asarray.pick r x0 = x0).
  { intros r x0 Hx. unfold Asarray.pick. destruct (Z.eqb_spec r 1); lia. }
  rewrite !Hpick; [reflexivity| | | |]; try lia.
  apply Z.mod_pos_bound. exact Hs1.
Qed.

(** The tile loop, for every number of workers: the body acts as
    [tile_step] on every tile of the page. *)
Lemma decode_tiles_loop (maxworkers : Z) (offsets bytecounts : list Z)
      (w : World) (res0 : list num) (ix0 : Z) :
  length offsets = length bytecounts ->
  Z.of_nat (length offsets) <= nP * (tiledwidth * tiledlength * tileddepth) ->
  maxworkers < 2 \/ offsets <> [] ->
  (forall (j : nat) (tile : list byte),
      nth_error (segments_of (fh_data (fh w)) offsets bytecounts) j = Some (Some tile) ->
      complete_tile tile) ->
  exists w',
    Asarray.decode_tiles env c shape tileshape tiledshape lsb2msb decompress unpack
                         unpredict maxworkers offsets bytecounts
                         (Asarray.mkD w res0 ix0)
    = (Ok tt,
       Asarray.mkD w'
         (tiles_written 0 (segments_of (fh_data (fh w)) offsets bytecounts) res0) ix0)
    /\ fh_data (fh w') = fh_data (fh w)
    /\ log w' = log w
    /\ reads w' = reads w ++ segment_reads offsets bytecounts.
Proof.
  intros Hlen Hcount Hworkers Hcomplete.
  destruct tiled_positive as (Hd0 & Hl0 & Hw0).
  set (segs := segments_of (fh_data (fh w)) offsets bytecounts) in *.
  assert (Hsegs : length segs = length offsets) by (apply length_segments_of, Hlen).
  assert (Hstep : forall j seg s',
             In (j, seg) (enumerate_from 0 segs) ->
             0 <= j < Z.of_nat (length offsets)
             /\ Asarray.tile_decode env c shape tileshape tiledshape lsb2msb decompress
                                    unpack unpredict j seg s'
                = pure_body tile_step j seg s').
  { intros j seg s' Hin.
    destruct (In_enumerate_from segs 0 j seg Hin) as (k & -> & Hk).
    assert (Hlt : (k < length segs)%nat) by (apply nth_error_Some; congruence).
    split; [lia|].
    assert (Hpl : 0 <= tile_plane (0 + Z.of_nat k) < nP).
    { unfold tile_plane. split; [apply Z.div_pos; nia|].
      apply Z.div_lt_upper_bound; nia. }
    destruct seg as [tile|].
    - apply tile_decode_read; [lia | lia | exact (Hcomplete k tile Hk)].
    - apply tile_decode_skipped. exact Hpl. }
  pose proof (fold_tiles segs 0 ix0 res0) as Hfold.
  unfold Asarray.decode_tiles, Asarray.buffered_read_for.
  destruct (maxworkers <? 2) eqn:Hmw.
  - apply (for_segments_agree _ tile_step offsets bytecounts 0 0 []
             (Asarray.mkD w res0 ix0)); [lia| |exact Hfold].
    intros j seg s' Hin. apply Hstep, Hin.
  - destruct offsets as [|o offsets'].
    { destruct Hworkers as [H|H]; [apply Z.ltb_ge in Hmw; lia | contradiction]. }
    apply (for_segments_agree _ tile_step (o :: offsets') bytecounts 0 0 []
             (Asarray.mkD w res0 ix0)); [lia| |exact Hfold].
    intros j seg s' Hin. destruct (Hstep j seg s' Hin) as (Hj & E).
    destruct (j =? 0); [exact E|].
    destruct (Z.ltb_spec j (Z.of_nat (length (o :: offsets')))) as [_|H]; [|lia].
    unfold Asarray.submitted. rewrite E. unfold pure_body, tile_step. reflexivity.
Qed.

End tile_consumer.

(** *** Pages with a strip that holds no data *)

(** The codecs of an uncompressed page: compression 1 and predictor 1 are
    the identity; nothing else is registered. *)
Definition plain_env : Asarray.Env :=
  Asarray.mkEnv
    (fun compression => if compression =? 1 then Some (fun _ data => Ok data) else None)
    (fun predictor => if predictor =? 1 then Some (fun _ data => Ok data) else None)
    (fun compression => compression =? 1)
    (fun data => data)
    (fun _ _ _ => raise (ValueError "no JPEG codec"))
    (fun _ _ _ _ => Raise (ValueError "no codec"))
    (fun _ _ _ _ _ => Raise (ValueError "no codec"))
    (fun _ _ => Raise (ValueError "no such output"))
    2 LittleEndian.

Definition default_args : Asarray.args :=
  Asarray.mkArgs Asarray.OutNone true false None None (Some true).

(** A file of 16 bytes: the header, the bytes 1 2 3 4 at offset 8 and the
    bytes 9 9 9 9 at offset 12. *)
Definition two_rows_file : list byte :=
  classic_header ++ [x01; x02; x03; x04; x09; x09; x09; x09].

(** Two strips of one row of four 8-bit samples; the second strip has the
    bytecount 0 and the offset that follows the first strip. *)
Definition second_strip_empty : TiffPage.t := strip_page 8 c_B 4 2 [8; 12] [4; 0].

(** The same page with the offset 0 for the second strip. *)
Definition second_strip_absent : TiffPage.t := strip_page 8 c_B 4 2 [8; 0] [4; 4].

(** The page whose second strip has the bytecount 0 counts as contiguous
    and is read as one block of 8 bytes from offset 8: the second row
    holds the bytes that follow the first strip in the file, not the
    sentinel 0, and the channel was read for it. *)
Lemma empty_strip_read_with_block :
  skipped 12 0 = true
  /\ TiffPage.is_contiguous second_strip_empty = Ok (Some (8, 4))
  /\ fst (Asarray.asarray plain_env TIFF.CLASSIC_LE second_strip_empty default_args
            (World_of_bytes two_rows_file))
     = Ok (Some (Asarray.mkarr [2; 4]
                   [NInt 1; NInt 2; NInt 3; NInt 4; NInt 9; NInt 9; NInt 9; NInt 9]
                   false))
  /\ reads (snd (Asarray.asarray plain_env TIFF.CLASSIC_LE second_strip_empty
                   default_args (World_of_bytes two_rows_file)))
     = [(8, 8)].
Proof. vm_compute. repeat split; reflexivity. Qed.

(** The page whose second strip has the offset 0 is decoded strip by
    strip: the second row is the sentinel and only the first strip is
    read. *)
Example absent_strip_filled :
  TiffPage.is_contiguous second_strip_absent = Ok None
  /\ fst (Asarray.asarray plain_env TIFF.CLASSIC_LE second_strip_absent default_args
            (World_of_bytes two_rows_file))
     = Ok (Some (Asarray.mkarr [2; 4]
                   [NInt 1; NInt 2; NInt 3; NInt 4; NInt 0; NInt 0; NInt 0; NInt 0]
                   false))
  /\ reads (snd (Asarray.asarray plain_env TIFF.CLASSIC_LE second_strip_absent
                   default_args (World_of_bytes two_rows_file)))
     = [(8, 4)].
Proof. vm_compute. repeat split; reflexivity. Qed.

(** C9 (amended). When a page is decoded segment by segment, which is
    the route of every page that is neither contiguous nor memory-mapped:
    [buffered_read] does not touch the channel for a segment whose offset
    or bytecount is not positive and yields None for it, and the channel
    is read for exactly the other segments, in their order.

    The strip loop, when every strip that is read can be decoded and
    every strip but the last has its region inside the array: the region
    of a strip starts behind the regions of the strips before it and
    holds [stripsize] elements for a skipped strip, the decoded samples,
    [stripsize] at most, for a strip that is read.  Every element of the
    region of a skipped strip, as far as the array goes, is the sentinel
    0; element [t] of the region of a strip that is read is sample [t] of
    the decoded strip; the elements behind the last region stay.

    The tile loop, for every number of workers, tiles that start inside
    the image and read tiles that decode to complete tiles: an element in
    the block of a tile is the sentinel 0 when the tile is skipped and
    the sample of the decoded tile at its place in the tile otherwise; an
    element in no block stays.

    Neither loop raises an error or logs a warning. *)
Theorem skipped_segments_filled :
  (forall (o bc : Z) (rest : list Z) (w : World),
      o <= 0 \/ bc <= 0 ->
      segment_of (fh_data (fh w)) o bc = None
      /\ Asarray.read_segment o (bc :: rest) w = (Ok (None, 0), w))
  /\ (forall (env : Asarray.Env) (c : fmtchar) (lsb2msb : bool)
             (decompress : Asarray.decompressor) (unpack : Asarray.unpacker)
             (stripsize outsize : Z) (offsets bytecounts : list Z)
             (w : World) (res0 : list num),
         let segs := segments_of (fh_data (fh w)) offsets bytecounts in
         let start :=
           strip_start env c lsb2msb decompress unpack stripsize outsize segs in
         0 <= stripsize ->
         length offsets = length bytecounts ->
         (forall (j : nat) (strip : list byte),
             nth_error segs j = Some (Some strip) ->
             exists d, strip_decoded env lsb2msb decompress unpack outsize strip = Ok d) ->
         (forall j : nat,
             (S j < length offsets)%nat -> (start (S j) <= length res0)%nat) ->
         exists w' r ix,
           Asarray.decode_strips env c lsb2msb decompress unpack stripsize outsize
                                 offsets bytecounts (Asarray.mkD w res0 0)
           = (Ok tt, Asarray.mkD w' r ix)
           /\ length r = length res0
           /\ fh_data (fh w') = fh_data (fh w)
           /\ log w' = log w
           /\ reads w' = reads w ++ segment_reads offsets bytecounts
           /\ (forall j t : nat,
                  nth_error segs j = Some None ->
                  Z.of_nat t < stripsize -> (start j + t < length res0)%nat ->
                  nth_error r (start j + t) = Some (Asarray.zero_elem c))
           /\ (forall (j t : nat) (strip : list byte) (d : list num),
                  nth_error segs j = Some (Some strip) ->
                  strip_decoded env lsb2msb decompress unpack outsize strip = Ok d ->
                  Z.of_nat t < stripsize -> (t < length d)%nat ->
                  (start j + t < length res0)%nat ->
                  nth_error r (start j + t) = nth_error d t)
           /\ (forall k : nat,
                  (start (length offsets) <= k)%nat -> nth_error r k = nth_error res0 k))
  /\ (forall (env : Asarray.Env) (c : fmtchar) (lsb2msb : bool)
             (decompress : Asarray.decompressor) (unpack : Asarray.unpacker)
             (unpredict : Asarray.unpredictor)
             (n0 nP nD nL nW nS tileddepth tiledlength tiledwidth : Z)
             (tiledepth tilelength tilewidth maxworkers : Z)
             (offsets bytecounts : list Z) (w : World) (res0 : list num),
         let shape := [n0; nP; nD; nL; nW; nS] in
         let tiledshape := [tileddepth; tiledlength; tiledwidth] in
         let tileshape := [tiledepth; tilelength; tilewidth; nS] in
         let segs := segments_of (fh_data (fh w)) offsets bytecounts in
         0 < tileddepth /\ 0 < tiledlength /\ 0 < tiledwidth ->
         0 < tiledepth /\ 0 < tilelength /\ 0 < tilewidth /\ 0 < nS ->
         (tileddepth - 1) * tiledepth < nD
         /\ (tiledlength - 1) * tilelength < nL
         /\ (tiledwidth - 1) * tilewidth < nW ->
         length offsets = length bytecounts ->
         Z.of_nat (length offsets) <= nP * (tiledwidth * tiledlength * tileddepth) ->
         maxworkers < 2 \/ offsets <> [] ->
         (forall (j : nat) (tile : list byte),
             nth_error segs j = Some (Some tile) ->
             complete_tile env lsb2msb decompress unpack unpredict nS
                           tiledepth tilelength tilewidth tile) ->
         exists w' r,
           Asarray.decode_tiles env c shape tileshape tiledshape lsb2msb decompress
                                unpack unpredict maxworkers offsets bytecounts
                                (Asarray.mkD w res0 0)
           = (Ok tt, Asarray.mkD w' r 0)
           /\ length r = length res0
           /\ fh_data (fh w') = fh_data (fh w)
           /\ log w' = log w
           /\ reads w' = reads w ++ segment_reads offsets bytecounts
           /\ forall (k : nat) (x : num),
                nth_error res0 k = Some x ->
                let coords := Np.unravel shape (Z.of_nat k) in
                (forall (j : nat) (seg : option (list byte)),
                    nth_error segs j = Some seg ->
                    in_tile shape tiledshape tileshape (Z.of_nat j) coords = true ->
                    exists v,
                      tile_value env c lsb2msb decompress unpack unpredict nS
                                 tileddepth tiledlength tiledwidth
                                 tiledepth tilelength tilewidth
                                 (Z.of_nat j) seg coords = Some v
                      /\ nth_error r k = Some v)
                /\ ((forall j : nat,
                        (j < length offsets)%nat ->
                        in_tile shape tiledshape tileshape (Z.of_nat j) coords = false) ->
                    nth_error r k = Some x)).
Proof.
  split; [|split].
  - intros o bc rest w H.
    assert (Hs : skipped o bc = true).
    { unfold skipped. apply negb_true_iff, andb_false_iff.
      destruct H; [left|right]; rewrite Z.gtb_ltb; apply Z.ltb_ge; lia. }
    split; [unfold segment_of; rewrite Hs; reflexivity|].
    apply read_segment_skipped, Hs.
  - intros env c lsb2msb decompress unpack stripsize outsize offsets bytecounts w res0
           segs start Hs Hlen Hdec Hroom. subst start.
    assert (Hsegs : length segs = length offsets) by (apply length_segments_of, Hlen).
    assert (Hfit : strips_fit env c lsb2msb decompress unpack stripsize outsize segs res0).
    { apply strips_fit_by_index; [exact Hdec | rewrite Hsegs; exact Hroom]. }
    destruct (fold_strips env c lsb2msb decompress unpack stripsize outsize segs Hs
                0 [] res0 Hfit) as (ix & Hfold).
    cbn [app length] in Hfold.
    unfold Asarray.decode_strips, Asarray.buffered_read_for.
    rewrite (for_segments_ext _ _ offsets
               (strip_body_pure env c lsb2msb decompress unpack stripsize outsize)).
    destruct (for_segments_pure
                (strip_step env c lsb2msb decompress unpack stripsize outsize)
                offsets bytecounts 0 0 [] (Asarray.mkD w res0 0) _ _
                ltac:(lia) Hfold) as (w' & E & D & L & R).
    exists w', (strips_filled env c lsb2msb decompress unpack stripsize outsize segs res0), ix.
    split; [exact E|]. split; [apply length_strips_filled|].
    split; [exact D|]. split; [exact L|]. split; [exact R|].
    split; [|split].
    + intros j t Hj Ht Hk.
      rewrite (nth_error_strips_filled env c lsb2msb decompress unpack stripsize outsize
                 segs res0 j t None Hfit Hj);
        [|cbn [strip_samples]; rewrite repeat_length; lia | exact Hk].
      cbn [strip_samples]. apply nth_error_repeat. lia.
    + intros j t strip d Hj Hd Ht Htd Hk.
      rewrite (nth_error_strips_filled env c lsb2msb decompress unpack stripsize outsize
                 segs res0 j t (Some strip) Hfit Hj);
        [|cbn [strip_samples]; rewrite Hd, length_firstn; lia | exact Hk].
      cbn [strip_samples]. rewrite Hd, nth_error_firstn.
      destruct (Nat.ltb_spec t (Z.to_nat stripsize)); [reflexivity | lia].
    + intros k Hk. apply nth_error_strips_filled_behind. rewrite Hsegs. exact Hk.
  - intros env c lsb2msb decompress unpack unpredict n0 nP nD nL nW nS
           tileddepth tiledlength tiledwidth tiledepth tilelength tilewidth maxworkers
           offsets bytecounts w res0 shape tiledshape tileshape segs
           Htiled Htile Hinside Hlen Hcount Hworkers Hcomplete.
    assert (Hsegs : length segs = length offsets) by (apply length_segments_of, Hlen).
    destruct (decode_tiles_loop env c lsb2msb decompress unpack unpredict
                n0 nP nD nL nW nS tileddepth tiledlength tiledwidth
                tiledepth tilelength tilewidth Htiled Htile Hinside
                maxworkers offsets bytecounts w res0 0 Hlen Hcount Hworkers Hcomplete)
      as (w' & E & D & L & R).
    exists w'. eexists. split; [exact E|].
    split; [apply length_tiles_written|].
    split; [exact D|]. split; [exact L|]. split; [exact R|].
    intros k x Hx coords. split.
    + intros j seg Hj Hc.
      assert (Hv : exists v,
                 tile_value env c lsb2msb decompress unpack unpredict nS
                            tileddepth tiledlength tiledwidth
                            tiledepth tilelength tilewidth
                            (Z.of_nat j) seg coords = Some v).
      { destruct seg as [tile|]; [|eexists; reflexivity].
        destruct (Hcomplete j tile Hj) as (d & t & u & Hd & Ht & _ & Hu & Hul).
        unfold tile_value, tile_decoded, rbind. rewrite Hd, Ht, Hu.
        apply (tile_elem_inside n0 nP nD nL nW nS tileddepth tiledlength tiledwidth
                 tiledepth tilelength tilewidth Htiled Htile (Z.of_nat j) (Z.of_nat k) u
                 ltac:(lia) Hul Hc). }
      destruct Hv as (v & Hv). exists v. split; [exact Hv|].
      apply (nth_error_tiles_inside env c lsb2msb decompress unpack unpredict
               n0 nP nD nL nW nS tileddepth tiledlength tiledwidth
               tiledepth tilelength tilewidth Htiled Htile
               segs 0 res0 k j x v seg); try assumption; lia.
    + intros Hout.
      apply (nth_error_tiles_outside env c lsb2msb decompress unpack unpredict
               n0 nP nD nL nW nS tileddepth tiledlength tiledwidth
               tiledepth tilelength tilewidth segs 0 res0 k x Hx).
      intros j Hj. apply Hout. rewrite <- Hsegs. exact Hj.
Qed.

(** Three strips for an array of ten elements, four samples to a strip:
    the first strip decodes to two samples, the second is skipped and
    the third holds two samples again; the last two elements are behind
    the strips.  Four tiles of two samples for two rows of four: the
    second tile is skipped. *)
Lemma skipped_segments_filled_witness :
  (segment_of two_rows_file 0 4 = None
   /\ Asarray.read_segment 0 [4] (World_of_bytes two_rows_file)
      = (Ok (None, 0), World_of_bytes two_rows_file))
  /\ (exists w' r ix,
         Asarray.decode_strips plain_env c_B false (fun _ data => Ok data)
           (Asarray.unpack_aligned LittleEndian c_B 8) 4 4 [8; 0; 12] [2; 4; 2]
           (Asarray.mkD (World_of_bytes two_rows_file) (repeat (NInt 7) 10) 0)
         = (Ok tt, Asarray.mkD w' r ix)
         /\ reads w' = [(8, 2); (12, 2)]
         /\ r = [NInt 1; NInt 2; NInt 0; NInt 0; NInt 0; NInt 0; NInt 9; NInt 9;
                 NInt 7; NInt 7])
  /\ (exists w' r,
         Asarray.decode_tiles plain_env c_B [1; 1; 1; 2; 4; 1] [1; 1; 2; 1] [1; 2; 2]
           false (fun _ data => Ok data) (Asarray.unpack_aligned LittleEndian c_B 8)
           (fun _ data => Ok data) 2 [8; 0; 10; 12] [2; 2; 2; 2]
           (Asarray.mkD (World_of_bytes two_rows_file) (repeat (NInt 7) 8) 0)
         = (Ok tt, Asarray.mkD w' r 0)
         /\ reads w' = [(8, 2); (10, 2); (12, 2)]
         /\ r = [NInt 1; NInt 2; NInt 0; NInt 0; NInt 3; NInt 4; NInt 9; NInt 9]).
Proof.
  destruct skipped_segments_filled as (Hread & Hstrips & Htiles).
  split; [|split].
  - apply (Hread 0 4 [] (World_of_bytes two_rows_file)). left. lia.
  - destruct (Hstrips plain_env c_B false (fun _ data => Ok data)
                (Asarray.unpack_aligned LittleEndian c_B 8) 4 4 [8; 0; 12] [2; 4; 2]
                (World_of_bytes two_rows_file) (repeat (NInt 7) 10))
      as (w' & r & ix & E & Hl & _ & _ & R & Hskip & Hread' & Hbehind).
    + lia.
    + reflexivity.
    + intros j strip Hj.
      destruct j as [|[|[|j]]]; [| |
                                 |destruct j; discriminate];
        vm_compute in Hj; try discriminate;
        injection Hj as <-; eexists; vm_compute; reflexivity.
    + intros j Hj. destruct j as [|[|j]]; [vm_compute; lia | vm_compute; lia|].
      simpl in Hj. lia.
    + exists w', r, ix. split; [exact E|]. split; [exact R|].
      simpl in Hl.
      do 10 (destruct r as [|? r]; [discriminate|]).
      destruct r; [|discriminate].
      pose proof (Hread' 0%nat 0%nat [x01; x02] [NInt 1; NInt 2] eq_refl eq_refl eq_refl
                    ltac:(simpl; lia) ltac:(vm_compute; lia)) as H0.
      pose proof (Hread' 0%nat 1%nat [x01; x02] [NInt 1; NInt 2] eq_refl eq_refl eq_refl
                    ltac:(simpl; lia) ltac:(vm_compute; lia)) as H1.
      pose proof (Hskip 1%nat 0%nat eq_refl eq_refl ltac:(vm_compute; lia)) as H2.
      pose proof (Hskip 1%nat 1%nat eq_refl eq_refl ltac:(vm_compute; lia)) as H3.
      pose proof (Hskip 1%nat 2%nat eq_refl eq_refl ltac:(vm_compute; lia)) as H4.
      pose proof (Hskip 1%nat 3%nat eq_refl eq_refl ltac:(vm_compute; lia)) as H5.
      pose proof (Hread' 2%nat 0%nat [x09; x09] [NInt 9; NInt 9] eq_refl eq_refl eq_refl
                    ltac:(simpl; lia) ltac:(vm_compute; lia)) as H6.
      pose proof (Hread' 2%nat 1%nat [x09; x09] [NInt 9; NInt 9] eq_refl eq_refl eq_refl
                    ltac:(simpl; lia) ltac:(vm_compute; lia)) as H7.
      pose proof (Hbehind 8%nat ltac:(vm_compute; lia)) as H8.
      pose proof (Hbehind 9%nat ltac:(vm_compute; lia)) as H9.
      vm_compute in H0, H1, H2, H3, H4, H5, H6, H7, H8, H9. congruence.
  - destruct (Htiles plain_env c_B false (fun _ data => Ok data)
                (Asarray.unpack_aligned LittleEndian c_B 8) (fun _ data => Ok data)
                1 1 1 2 4 1 1 2 2 1 1 2 2 [8; 0; 10; 12] [2; 2; 2; 2]
                (World_of_bytes two_rows_file) (repeat (NInt 7) 8))
      as (w' & r & E & Hl & _ & _ & R & Hin).
    + lia.
    + lia.
    + lia.
    + reflexivity.
    + simpl. lia.
    + right. discriminate.
    + intros j tile Hj.
      destruct j as [|[|[|[|j]]]]; [| | |
                                    |destruct j; discriminate];
        vm_compute in Hj; try discriminate;
        injection Hj as <-; do 3 eexists;
        (split; [reflexivity|]); (split; [vm_compute; reflexivity|]);
        (split; [vm_compute; discriminate|]); split; reflexivity.
    + exists w', r. split; [exact E|]. split; [exact R|].
      simpl in Hl.
      do 8 (destruct r as [|? r]; [discriminate|]).
      destruct r; [|discriminate].
      destruct (proj1 (Hin 0%nat _ eq_refl) 0%nat _ eq_refl eq_refl) as (v0 & V0 & H0).
      destruct (proj1 (Hin 1%nat _ eq_refl) 0%nat _ eq_refl eq_refl) as (v1 & V1 & H1).
      destruct (proj1 (Hin 2%nat _ eq_refl) 1%nat _ eq_refl eq_refl) as (v2 & V2 & H2).
      destruct (proj1 (Hin 3%nat _ eq_refl) 1%nat _ eq_refl eq_refl) as (v3 & V3 & H3).
      destruct (proj1 (Hin 4%nat _ eq_refl) 2%nat _ eq_refl eq_refl) as (v4 & V4 & H4).
      destruct (proj1 (Hin 5%nat _ eq_refl) 2%nat _ eq_refl eq_refl) as (v5 & V5 & H5).
      destruct (proj1 (Hin 6%nat _ eq_refl) 3%nat _ eq_refl eq_refl) as (v6 & V6 & H6).
      destruct (proj1 (Hin 7%nat _ eq_refl) 3%nat _ eq_refl eq_refl) as (v7 & V7 & H7).
      vm_compute in V0, V1, V2, V3, V4, V5, V6, V7.
      vm_compute in H0, H1, H2, H3, H4, H5, H6, H7. congruence.
Defined.

(* ================================================================== *)
(** * Further properties *)

(** ** Strings *)

(** The part of [s] before the first occurrence of [sub]. *)
Fixpoint before_first (s sub : list byte) : list byte :=
  if Util.startswith s sub then []
  else match s with
       | [] => []
       | b :: r => b :: before_first r sub
       end.

Lemma before_first_cons (b : byte) (s sub : list byte) :
  before_first (b :: s) sub
  = if Util.startswith (b :: s) sub then [] else b :: before_first s sub.
Proof. reflexivity. Qed.

Lemma find_from_cons (b : byte) (s sub : list byte) (i : Z) :
  Util.find_from (b :: s) sub i
  = if Util.startswith (b :: s) sub then i else Util.find_from s sub (i + 1).
Proof. reflexivity. Qed.

Lemma startswith_app (p rest sub : list byte) :
  Util.startswith p sub = true -> Util.startswith (p ++ rest) sub = true.
Proof.
  revert sub. induction p as [|b p IH]; intros [|a sub] H; try reflexivity.
  - destruct rest; reflexivity.
  - simpl in H. discriminate.
  - simpl in *. apply andb_true_iff in H. destruct H as (Hab & H).
    rewrite Hab. apply IH, H.
Qed.

Lemma startswith_split (s sub : list byte) :
  Util.startswith s sub = true -> exists rest, s = sub ++ rest.
Proof.
  revert sub. induction s as [|b s IH]; intros [|a sub] H.
  - exists []. reflexivity.
  - simpl in H. discriminate.
  - exists (b :: s). reflexivity.
  - simpl in H. apply andb_true_iff in H. destruct H as (Hab & H).
    apply Byte.byte_dec_bl in Hab. subst.
    destruct (IH sub H) as (rest & ->). exists rest. reflexivity.
Qed.

Lemma before_first_prefix (s sub : list byte) :
  exists rest, s = before_first s sub ++ rest.
Proof.
  induction s as [|b s IH].
  - exists []. destruct sub; reflexivity.
  - rewrite before_first_cons.
    destruct (Util.startswith (b :: s) sub); [exists (b :: s); reflexivity|].
    destruct IH as (rest & E). exists rest. simpl. f_equal. exact E.
Qed.

Lemma find_from_spec (s sub : list byte) (i : Z) :
  0 <= i ->
  (Util.find_from s sub i = -1 /\ before_first s sub = s)
  \/ (exists k, Util.find_from s sub i = i + Z.of_nat k
                /\ before_first s sub = firstn k s
                /\ Util.startswith (skipn k s) sub = true).
Proof.
  revert i. induction s as [|b s IH]; intros i Hi.
  - destruct sub as [|a sub]; simpl.
    + right. exists 0%nat. rewrite Z.add_0_r. auto.
    + left. auto.
  - rewrite before_first_cons, find_from_cons.
    destruct (Util.startswith (b :: s) sub) eqn:E.
    + right. exists 0%nat. rewrite Z.add_0_r. auto.
    + destruct (IH (i + 1) ltac:(lia)) as [(Hf & Hb)|(k & Hf & Hb & Hs)].
      * left. rewrite Hb. auto.
      * right. exists (S k). rewrite Hf, Hb. split; [lia|]. auto.
Qed.

Lemma before_first_clean (s sub : list byte) (i : Z) :
  sub <> [] -> Util.find_from (before_first s sub) sub i = -1.
Proof.
  intros Hsub. revert i. induction s as [|b s IH]; intros i.
  - destruct sub; [contradiction Hsub; reflexivity|]. reflexivity.
  - rewrite before_first_cons.
    destruct (Util.startswith (b :: s) sub) eqn:E.
    + destruct sub; [contradiction Hsub; reflexivity|]. reflexivity.
    + rewrite find_from_cons.
      destruct (Util.startswith (b :: before_first s sub) sub) eqn:E2.
      * destruct (before_first_prefix s sub) as (rest & Hrest).
        pose proof (startswith_app (b :: before_first s sub) rest sub E2) as H.
        change ((b :: before_first s sub) ++ rest)
          with (b :: (before_first s sub ++ rest)) in H.
        rewrite <- Hrest in H. congruence.
      * apply IH.
Qed.

Lemma stripnull_before_first (s null : list byte) :
  Util.stripnull s null = before_first s null.
Proof.
  unfold Util.stripnull, Util.find.
  destruct (find_from_spec s null 0 ltac:(lia)) as [(Hf & Hb)|(k & Hf & Hb & Hs)].
  - rewrite Hf, Hb. reflexivity.
  - rewrite Hf, Hb. destruct (Z.ltb_spec (0 + Z.of_nat k) 0); [lia|].
    unfold py_slice. simpl skipn. f_equal. lia.
Qed.

(** X1. [stripnull] returns the part of the string before the first
    occurrence of the (non-empty) terminator: the string is the result,
    or the result followed by the terminator and a rest; the result holds
    no terminator, so stripping it again changes nothing, and a string
    without terminator is returned whole. *)
Theorem stripnull_truncates (s null : list byte) :
  null <> [] ->
  let r := Util.stripnull s null in
  (r = s \/ exists rest, s = r ++ null ++ rest)
  /\ Util.find r null = -1
  /\ Util.stripnull r null = r
  /\ (Util.find s null = -1 -> r = s).
Proof.
  intros Hnull r. unfold r. rewrite (stripnull_before_first s null).
  assert (Hclean : Util.find (before_first s null) null = -1)
    by (apply before_first_clean, Hnull).
  split; [|split; [exact Hclean|split]].
  - destruct (find_from_spec s null 0 ltac:(lia)) as [(Hf & Hb)|(k & Hf & Hb & Hs)].
    + left. exact Hb.
    + right. destruct (startswith_split _ _ Hs) as (rest & Hrest).
      exists rest. rewrite Hb, <- Hrest. symmetry. apply firstn_skipn.
  - unfold Util.stripnull. rewrite Hclean. reflexivity.
  - intros Hf. unfold Util.find in Hf.
    destruct (find_from_spec s null 0 ltac:(lia)) as [(_ & Hb)|(k & Hf' & _)];
      [exact Hb | lia].
Qed.

Lemma stripnull_truncates_witness :
  Util.stripnull [x73; x74; x00; x72; x00] [x00] = [x73; x74]
  /\ Util.find [x73; x74] [x00] = -1.
Proof.
  destruct (stripnull_truncates [x73; x74; x00; x72; x00] [x00] ltac:(discriminate))
    as (_ & Hf & _).
  split; [reflexivity | exact Hf].
Defined.

(** A byte [c] with [8 < c < 127]. *)
Definition printable (b : byte) : bool :=
  (8 <? Util.byte2int b) && (Util.byte2int b <? 127).

Lemma stripascii_loop_app (s t : list byte) (i : nat) :
  (i <= length s)%nat ->
  Util.stripascii_loop (s ++ t) i = Util.stripascii_loop s i.
Proof.
  induction i as [|i IH]; intros Hi; [reflexivity|].
  cbn [Util.stripascii_loop]. rewrite app_nth1 by lia.
  rewrite IH by lia. reflexivity.
Qed.

Lemma stripascii_loop_bound (s : list byte) (i : nat) :
  -1 <= Util.stripascii_loop s i < Z.of_nat i.
Proof.
  induction i as [|i IH]; cbn [Util.stripascii_loop]; [lia|].
  destruct (_ && _); lia.
Qed.

Lemma stripascii_snoc (s : list byte) (b : byte) :
  Util.stripascii (s ++ [b])
  = if printable b then s ++ [b] else Util.stripascii s.
Proof.
  unfold Util.stripascii. rewrite length_app. simpl length.
  replace (length s + 1)%nat with (S (length s)) by lia.
  cbn [Util.stripascii_loop].
  rewrite app_nth2 by lia. rewrite Nat.sub_diag. cbn [nth].
  fold (printable b). destruct (printable b).
  - unfold py_slice. cbn [skipn Z.to_nat].
    replace (Z.to_nat (Z.of_nat (length s) + 1 - 0)) with (length (s ++ [b]))
      by (rewrite length_app; simpl; lia).
    apply firstn_all.
  - rewrite stripascii_loop_app by lia.
    pose proof (stripascii_loop_bound s (length s)) as Hb.
    unfold py_slice. cbn [skipn Z.to_nat].
    rewrite firstn_app.
    replace (Z.to_nat (Util.stripascii_loop s (length s) + 1 - 0) - length s)%nat
      with 0%nat by lia.
    cbn [firstn]. apply app_nil_r.
Qed.

Lemma tag_stripascii_snoc (s : list byte) (b : byte) :
  TiffTag.stripascii (s ++ [b])
  = if printable b then s ++ [b] else TiffTag.stripascii s.
Proof.
  induction s as [|a s IH].
  - cbn [app TiffTag.stripascii]. unfold printable, Util.byte2int.
    destruct (_ && _); reflexivity.
  - change ((a :: s) ++ [b]) with (a :: (s ++ [b])).
    cbn [TiffTag.stripascii]. rewrite IH.
    destruct (printable b); [|reflexivity].
    destruct s; reflexivity.
Qed.

(** X2. [stripascii] returns the string up to and including its last byte
    [c] with [8 < c < 127]: the bytes it drops are all outside that range,
    a result that is not empty ends with a byte inside it, and a second
    call changes nothing.  The value that [TiffTag.__init__] computes for
    an ASCII field is the same string. *)
Theorem stripascii_truncates (s : list byte) :
  let r := Util.stripascii s in
  (exists rest, s = r ++ rest /\ forallb (fun b => negb (printable b)) rest = true)
  /\ (r <> [] -> printable (last r x00) = true)
  /\ Util.stripascii r = r
  /\ TiffTag.stripascii s = r.
Proof.
  induction s as [|b s IH] using rev_ind.
  - cbv zeta. split; [exists []; split; reflexivity|].
    split; [intros H; contradiction H; reflexivity|]. split; reflexivity.
  - cbv zeta in *. rewrite stripascii_snoc, tag_stripascii_snoc.
    destruct (printable b) eqn:Eb.
    + split; [exists []; rewrite app_nil_r; split; reflexivity|].
      split; [intros _; rewrite last_last; exact Eb|].
      split; [rewrite stripascii_snoc, Eb; reflexivity | reflexivity].
    + destruct IH as ((rest & Hs & Hrest) & Hlast & Hidem & Htag).
      split.
      { exists (rest ++ [b]). split.
        - rewrite app_assoc, <- Hs. reflexivity.
        - rewrite forallb_app, Hrest. simpl. rewrite Eb. reflexivity. }
      split; [exact Hlast|]. split; [exact Hidem | exact Htag].
Qed.

(** ** Shapes *)

Lemma fold_left_mul (xs : list Z) (a : Z) : fold_left Z.mul xs a = a * product xs.
Proof.
  unfold product. revert a. induction xs as [|x xs IH]; intros a; cbn [fold_left]; [lia|].
  rewrite (IH (a * x)), (IH (1 * x)), Z.mul_1_l. symmetry. apply Z.mul_assoc.
Qed.

Lemma product_cons (x : Z) (xs : list Z) : product (x :: xs) = x * product xs.
Proof.
  unfold product at 1. cbn [fold_left]. rewrite fold_left_mul, Z.mul_1_l. reflexivity.
Qed.

Lemma product_app (a b : list Z) : product (a ++ b) = product a * product b.
Proof.
  induction a as [|x a IH].
  - change (product []) with 1. rewrite Z.mul_1_l. reflexivity.
  - change ((x :: a) ++ b) with (x :: (a ++ b)).
    rewrite !product_cons, IH. apply Z.mul_assoc.
Qed.

Lemma product_ones (k : nat) : product (repeat 1 k) = 1.
Proof.
  induction k as [|k IH]; [reflexivity|].
  change (repeat 1 (S k)) with (1 :: repeat 1 k). rewrite product_cons, IH. reflexivity.
Qed.

(** X3. [reshape_nd] on a shape prepends ones until the shape has [ndim]
    dimensions: the result has [max(len(shape), ndim)] dimensions and as
    many elements as the shape, and it is left alone by a second call. *)
Theorem reshape_nd_pads (shape : list Z) (ndim : Z) :
  let r := Util.reshape_nd shape ndim in
  Z.of_nat (length r) = Z.max (Z.of_nat (length shape)) ndim
  /\ (exists k, r = repeat 1 k ++ shape)
  /\ product r = product shape
  /\ Util.reshape_nd r ndim = r.
Proof.
  cbv zeta. unfold Util.reshape_nd.
  destruct (Z.geb_spec (Z.of_nat (length shape)) ndim) as [H|H].
  - split; [lia|]. split; [exists 0%nat; reflexivity|]. split; [reflexivity|].
    destruct (Z.geb_spec (Z.of_nat (length shape)) ndim); [reflexivity|lia].
  - split; [rewrite length_app, repeat_length; lia|].
    split; [eexists; reflexivity|].
    split; [rewrite product_app, product_ones; lia|].
    rewrite length_app, repeat_length.
    destruct (Z.geb_spec (Z.of_nat (Z.to_nat (ndim - Z.of_nat (length shape))
                                    + length shape)) ndim); [reflexivity|lia].
Qed.

(** The pairs that [squeeze_axes] keeps. *)
Definition kept_pair (skip : list ascii) (i : Z * ascii) : bool :=
  (fst i >? 1) || Util.char_in (snd i) skip.

Lemma squeeze_axes_eq (shape : list Z) (axes skip : list ascii) :
  length shape = length axes ->
  Util.squeeze_axes shape axes skip
  = match filter (kept_pair skip) (combine shape axes) with
    | [] => Raise (ValueError "not enough values to unpack (expected 2, got 0)")
    | kept => Ok (map fst kept, map snd kept)
    end.
Proof.
  intros H. unfold Util.squeeze_axes. rewrite H, Z.eqb_refl. reflexivity.
Qed.

Lemma product_kept (skip : list ascii) (l : list (Z * ascii)) :
  Forall (fun d => 1 <= d) (map fst l) ->
  product (map fst (filter (kept_pair skip) l)) = product (map fst l).
Proof.
  induction l as [|[d a] l IH]; intros H; [reflexivity|].
  inversion H as [|? ? Hd Hl]; subst. simpl in Hd.
  cbn [filter map fst]. rewrite product_cons.
  destruct (kept_pair skip (d, a)) eqn:E.
  - cbn [map fst]. rewrite product_cons, IH by exact Hl. reflexivity.
  - rewrite IH by exact Hl.
    unfold kept_pair in E. apply orb_false_iff in E. destruct E as (E & _).
    simpl in E. apply Z.gtb_ltb in E || idtac.
    assert (d = 1) by (destruct (Z.gtb_spec d 1); [discriminate|lia]).
    subst. lia.
Qed.

Lemma map_fst_combine {A B} (a : list A) (b : list B) :
  length a = length b -> map fst (combine a b) = a.
Proof.
  revert b. induction a as [|x a IH]; intros [|y b] H; try discriminate; [reflexivity|].
  simpl. f_equal. apply IH. simpl in H. lia.
Qed.

(** X4. What [squeeze_axes] returns has one axis label per dimension and
    at least one dimension; every pair it keeps is a pair of the input, in
    the same order, whose dimension is larger than 1 or whose label is in
    [skip]; and when no dimension of the input is smaller than 1, the
    result has as many elements as the input. *)
Theorem squeeze_axes_keeps_size (shape : list Z) (axes skip : list ascii)
        (shape' : list Z) (axes' : list ascii) :
  Util.squeeze_axes shape axes skip = Ok (shape', axes') ->
  length shape' = length axes'
  /\ shape' <> []
  /\ combine shape' axes' = filter (kept_pair skip) (combine shape axes)
  /\ (forall d a, In (d, a) (combine shape' axes') ->
        In (d, a) (combine shape axes) /\ (1 < d \/ In a skip))
  /\ (Forall (fun d => 1 <= d) shape -> product shape' = product shape).
Proof.
  intros H. unfold Util.squeeze_axes in H.
  destruct (Z.eqb_spec (Z.of_nat (length shape)) (Z.of_nat (length axes))) as [E|E];
    [|discriminate].
  apply Nat2Z.inj in E. cbn [negb] in H.
  fold (kept_pair skip) in H.
  assert (Hc : forall l : list (Z * ascii), combine (map fst l) (map snd l) = l).
  { induction l as [|[d a] l IH]; [reflexivity|]. simpl. f_equal. exact IH. }
  destruct (filter (kept_pair skip) (combine shape axes)) as [|p kept] eqn:Ek;
    [discriminate|].
  remember (p :: kept) as k eqn:Hk0.
  injection H as <- <-.
  split; [rewrite !length_map; reflexivity|].
  split; [rewrite Hk0; discriminate|].
  split; [apply Hc|].
  split.
  - intros d a Hin. rewrite Hc, <- Ek in Hin.
    apply filter_In in Hin. destruct Hin as (Hin & Hk).
    split; [exact Hin|].
    unfold kept_pair in Hk. apply orb_true_iff in Hk. simpl in Hk.
    destruct Hk as [Hk|Hk].
    + left. destruct (Z.gtb_spec d 1); [lia|discriminate].
    + right. unfold Util.char_in in Hk. apply existsb_exists in Hk.
      destruct Hk as (x & Hx & Hax). apply Ascii.eqb_eq in Hax. subst. exact Hx.
  - intros Hpos. rewrite <- Ek, product_kept.
    + rewrite map_fst_combine by exact E. reflexivity.
    + rewrite map_fst_combine by exact E. exact Hpos.
Qed.

Lemma squeeze_axes_keeps_size_witness :
  Util.squeeze_axes [5; 1; 2; 1; 1] ["T"; "Z"; "Y"; "X"; "C"]%char ["X"; "Y"]%char
  = Ok ([5; 2; 1], ["T"; "Y"; "X"]%char)
  /\ product [5; 2; 1] = product [5; 1; 2; 1; 1].
Proof.
  split; [reflexivity|].
  apply (squeeze_axes_keeps_size [5; 1; 2; 1; 1] ["T"; "Z"; "Y"; "X"; "C"]%char
           ["X"; "Y"]%char [5; 2; 1] ["T"; "Y"; "X"]%char eq_refl).
  repeat constructor; lia.
Defined.

(** X5. [squeeze_axes] returns a result exactly when the shape and the
    axes have the same length and some dimension is larger than 1 or has
    its label in [skip]; otherwise it raises ValueError, also for a shape
    that is empty or made of ones with labels outside [skip]. *)
Theorem squeeze_axes_raises (shape : list Z) (axes skip : list ascii) :
  (is_Ok (Util.squeeze_axes shape axes skip) = true
   <-> length shape = length axes
       /\ exists d a, In (d, a) (combine shape axes) /\ (1 < d \/ In a skip))
  /\ (is_Ok (Util.squeeze_axes shape axes skip) = false
      -> exists msg, Util.squeeze_axes shape axes skip = Raise (ValueError msg)).
Proof.
  assert (Hk : forall d a, kept_pair skip (d, a) = true <-> (1 < d \/ In a skip)).
  { intros d a. unfold kept_pair. rewrite orb_true_iff. simpl.
    unfold Util.char_in. rewrite existsb_exists. split.
    - intros [H|(x & Hx & Hax)].
      + left. destruct (Z.gtb_spec d 1); [lia|discriminate].
      + right. apply Ascii.eqb_eq in Hax. subst. exact Hx.
    - intros [H|H].
      + left. destruct (Z.gtb_spec d 1); [reflexivity|lia].
      + right. exists a. split; [exact H|apply Ascii.eqb_refl]. }
  split.
  - split.
    + intros H. unfold Util.squeeze_axes in H.
      destruct (Z.eqb_spec (Z.of_nat (length shape)) (Z.of_nat (length axes))) as [E|E];
        [|discriminate].
      apply Nat2Z.inj in E. split; [exact E|]. cbn [negb] in H.
      fold (kept_pair skip) in H.
      destruct (filter (kept_pair skip) (combine shape axes)) as [|[d a] kept] eqn:Ek;
        [discriminate|].
      exists d, a.
      assert (Hin : In (d, a) (filter (kept_pair skip) (combine shape axes)))
        by (rewrite Ek; left; reflexivity).
      apply filter_In in Hin. destruct Hin as (Hin & Hkp).
      split; [exact Hin | apply Hk, Hkp].
    + intros (E & d & a & Hin & Hc). rewrite squeeze_axes_eq by exact E.
      assert (Hin' : In (d, a) (filter (kept_pair skip) (combine shape axes)))
        by (apply filter_In; split; [exact Hin | apply Hk, Hc]).
      destruct (filter (kept_pair skip) (combine shape axes)); [destruct Hin'|reflexivity].
  - unfold Util.squeeze_axes.
    destruct (negb _); [intros _; eexists; reflexivity|].
    destruct (filter _ _); [intros _; eexists; reflexivity|discriminate].
Qed.

Lemma py_index_nth {A} (xs : list A) (k : nat) (a : A) :
  nth_error xs k = Some a -> py_index xs (Z.of_nat k) = Ok a.
Proof.
  intros H. unfold py_index.
  assert (Hk : (k < length xs)%nat) by (apply nth_error_Some; congruence).
  destruct (Z.ltb_spec (Z.of_nat k) 0); [lia|].
  destruct (Z.ltb_spec (Z.of_nat k) 0); [lia|].
  destruct (Z.leb_spec (Z.of_nat (length xs)) (Z.of_nat k)); [lia|].
  cbn [orb]. rewrite Nat2Z.id, H. reflexivity.
Qed.

Lemma skip_ones_same (fuel : nat) (shape : list Z) (i : Z) :
  Util.skip_ones fuel shape (nth (Z.to_nat i) shape 0) i = i.
Proof.
  destruct fuel as [|fuel]; [reflexivity|].
  cbn [Util.skip_ones].
  destruct (nth (Z.to_nat i) shape 0 =? 1); cbn [negb andb];
    rewrite ?andb_false_r; reflexivity.
Qed.

(** The loop of [reshape_axes] over the dimensions of the shape itself. *)
Lemma reshape_axes_loop_same (axes : list ascii) (shape : list Z) (unknown : list ascii)
      (pre : list Z) :
  forall (post : list Z) (apre apost : list ascii) (res : list (list ascii)),
    shape = pre ++ post -> axes = apre ++ apost -> length pre = length apre ->
    Util.reshape_axes_loop axes shape (rev pre) (Z.of_nat (length pre) - 1)
                           (product post) (product post) res unknown
    = Ok (res ++ map (fun a => [a]) (rev apre)).
Proof.
  induction pre as [|x pre IH] using rev_ind; intros post apre apost res Hs Ha Hl.
  - destruct apre; [|discriminate]. simpl. rewrite app_nil_r. reflexivity.
  - destruct (exists_last (l := apre)) as (apre' & a & Eap).
    { intros ->. rewrite length_app in Hl. simpl in Hl. lia. }
    subst apre. rewrite !length_app in Hl. simpl in Hl.
    assert (Hl' : length pre = length apre') by lia.
    rewrite rev_app_distr. cbn [rev app Util.reshape_axes_loop].
    rewrite length_app. simpl length.
    replace (Z.of_nat (length pre + 1) - 1) with (Z.of_nat (length pre)) by lia.
    assert (Hx : nth_error shape (length pre) = Some x).
    { rewrite Hs, <- app_assoc, nth_error_app2, Nat.sub_diag by lia. reflexivity. }
    assert (Hnth : nth (Z.to_nat (Z.of_nat (length pre))) shape 0 = x).
    { rewrite Nat2Z.id. apply nth_error_nth, Hx. }
    pose proof (skip_ones_same (Z.to_nat (Z.of_nat (length pre))) shape
                  (Z.of_nat (length pre))) as Hsk.
    rewrite Hnth in Hsk. rewrite Hsk. clear Hsk.
    rewrite (py_index_nth _ _ _ Hx).
    rewrite Z.eqb_refl, (Z.mul_comm (product post) x), Z.eqb_refl. cbn [andb].
    assert (Hax : nth_error axes (length pre) = Some a).
    { rewrite Ha, <- app_assoc, nth_error_app2, Hl', Nat.sub_diag by lia. reflexivity. }
    rewrite (py_index_nth _ _ _ Hax).
    rewrite <- product_cons.
    rewrite (IH (x :: post) apre' (a :: apost) (res ++ [[a]])).
    + rewrite rev_app_distr. cbn [rev app map]. rewrite <- app_assoc. reflexivity.
    + rewrite Hs, <- app_assoc. reflexivity.
    + rewrite Ha, <- app_assoc. reflexivity.
    + exact Hl'.
Qed.

Lemma concat_singletons {A} (l : list A) : concat (map (fun a => [a]) l) = l.
Proof. induction l as [|a l IH]; [reflexivity|]. simpl. f_equal. exact IH. Qed.

(** X6. Reshaping to the shape that the axes already have returns the
    axes unchanged, whatever the dimensions are and whatever label is given
    for unknown dimensions. *)
Theorem reshape_axes_same_shape (axes : list ascii) (shape : list Z)
        (unknown : list ascii) :
  length axes = length shape ->
  Util.reshape_axes axes shape shape unknown = Ok axes.
Proof.
  intros Hl. unfold Util.reshape_axes.
  rewrite Hl, !Z.eqb_refl. cbn [negb].
  destruct axes as [|a axes]; [reflexivity|].
  destruct shape as [|d shape]; [discriminate|].
  cbv beta iota zeta. rewrite Z.sub_diag.
  change (Z.max 0 0 =? 0) with true. cbv iota.
  assert (Hloop := reshape_axes_loop_same (a :: axes) (d :: shape) unknown (d :: shape) []
                     (a :: axes) [] [] (eq_sym (app_nil_r _)) (eq_sym (app_nil_r _))
                     (eq_sym Hl)).
  change (product []) with 1 in Hloop. rewrite Hloop.
  change (Z.to_nat (Z.max 0 0)) with 0%nat. cbn [skipn app].
  rewrite <- map_rev, rev_involutive, concat_singletons. reflexivity.
Qed.

Lemma reshape_axes_same_shape_witness :
  Util.reshape_axes ["Y"; "X"; "S"]%char [219; 1; 0] [219; 1; 0] [] = Ok ["Y"; "X"; "S"]%char.
Proof. apply (reshape_axes_same_shape ["Y"; "X"; "S"]%char [219; 1; 0] [] eq_refl). Defined.

Lemma reshape_axes_loop_length (axes : list ascii) (shape : list Z) (todo : list Z) :
  forall (i prodns prods : Z) (res : list (list ascii)) (unknown : list ascii)
         (out : list (list ascii)),
    (length unknown <= 1)%nat ->
    Forall (fun l => length l = 1%nat) res ->
    Util.reshape_axes_loop axes shape todo i prodns prods res unknown = Ok out ->
    Forall (fun l => length l = 1%nat) out
    /\ length out = (length res + length todo)%nat
    /\ firstn (length res) out = res.
Proof.
  induction todo as [|ns todo IH]; intros i prodns prods res unknown out Hu Hres H.
  - simpl in H. injection H as <-. split; [exact Hres|].
    split; [simpl; lia | apply firstn_all].
  - cbn [Util.reshape_axes_loop] in H.
    destruct (py_index shape _) as [si|e]; [|discriminate].
    assert (Hsnoc : forall x : list ascii, length x = 1%nat ->
              Forall (fun l => length l = 1%nat) (res ++ [x])).
    { intros x Hx. apply Forall_app. split; [exact Hres|]. repeat constructor. exact Hx. }
    assert (Hfin : forall (x : list ascii) i' p' q' u',
              (length u' <= 1)%nat -> length x = 1%nat ->
              Util.reshape_axes_loop axes shape todo i' p' q' (res ++ [x]) u' = Ok out ->
              Forall (fun l => length l = 1%nat) out
              /\ length out = (length res + length (ns :: todo))%nat
              /\ firstn (length res) out = res).
    { intros x i' p' q' u' Hu' Hx Hrun.
      destruct (IH _ _ _ _ _ _ Hu' (Hsnoc x Hx) Hrun) as (Ha & Hb & Hc).
      rewrite length_app in Hb, Hc. simpl in Hb, Hc.
      split; [exact Ha|]. split; [simpl; lia|].
      apply (f_equal (firstn (length res))) in Hc.
      rewrite firstn_firstn, firstn_app, Nat.sub_diag, firstn_all in Hc.
      replace (Nat.min (length res) (length res + 1)) with (length res) in Hc by lia.
      simpl in Hc. rewrite app_nil_r in Hc. exact Hc. }
    destruct ((ns =? si) && _).
    + destruct (py_index axes _) as [a|e]; [|discriminate].
      exact (Hfin [a] _ _ _ _ Hu eq_refl H).
    + destruct unknown as [|u unknown].
      * refine (Hfin ["Q"%char] _ _ _ _ _ eq_refl H). simpl. lia.
      * refine (Hfin (u :: unknown) _ _ _ _ Hu _ H).
        simpl in Hu. destruct unknown; [reflexivity | simpl in Hu; lia].
Qed.

Lemma length_concat_singletons {A} (l : list (list A)) :
  Forall (fun x => length x = 1%nat) l -> length (concat l) = length l.
Proof.
  induction 1 as [|x l Hx _ IH]; [reflexivity|].
  simpl. rewrite length_app, IH, Hx. reflexivity.
Qed.

(** X7. [reshape_axes] raises ValueError when the axes do not match the
    shape or when the two shapes differ in size, and what it returns
    otherwise has one label per dimension of the new shape (no label when
    there are no axes), given that the label for unknown dimensions is a
    single character or left to the default. *)
Theorem reshape_axes_labels (axes : list ascii) (shape newshape : list Z)
        (unknown : list ascii) :
  (length axes <> length shape ->
   Util.reshape_axes axes shape newshape unknown
   = Raise (ValueError "axes do not match shape"))
  /\ (length axes = length shape -> product shape <> product newshape ->
      Util.reshape_axes axes shape newshape unknown
      = Raise (ValueError "cannot reshape %s to %s"))
  /\ (forall out, (length unknown <= 1)%nat ->
        Util.reshape_axes axes shape newshape unknown = Ok out ->
        length out = if length axes =? 0 then 0 else length newshape)%nat.
Proof.
  unfold Util.reshape_axes. split; [|split].
  - intros H. destruct (Z.eqb_spec (Z.of_nat (length axes)) (Z.of_nat (length shape)));
      [lia | reflexivity].
  - intros H Hp. rewrite H, Z.eqb_refl. cbn [negb].
    destruct (Z.eqb_spec (product shape) (product newshape)); [contradiction|reflexivity].
  - intros out Hu H.
    destruct (negb (_ =? _)); [discriminate|].
    destruct (negb (_ =? _)); [discriminate|].
    destruct axes as [|a axes]; [injection H as <-; reflexivity|].
    destruct newshape as [|n newshape]; [injection H as <-; reflexivity|].
    cbv zeta in H.
    set (lendiff := Z.max 0 (Z.of_nat (length shape) - Z.of_nat (length (n :: newshape)))) in *.
    set (ns := if lendiff =? 0 then n :: newshape
               else (n :: newshape) ++ repeat 1 (Z.to_nat lendiff)) in *.
    destruct (Util.reshape_axes_loop _ _ _ _ _ _ _ _) as [res|e] eqn:Eloop; [|discriminate].
    injection H as <-.
    destruct (reshape_axes_loop_length _ _ _ _ _ _ _ _ _ Hu (Forall_nil _) Eloop)
      as (Hall & Hlen & _).
    rewrite length_rev in Hlen. simpl in Hlen.
    assert (Hns : length ns = (length (n :: newshape) + Z.to_nat lendiff)%nat).
    { unfold ns. destruct (Z.eqb_spec lendiff 0) as [E|E].
      - rewrite E. simpl. lia.
      - rewrite length_app, repeat_length. reflexivity. }
    rewrite length_concat_singletons.
    + rewrite length_rev, length_skipn, Hlen, Hns. cbn [length Nat.eqb]. lia.
    + apply Forall_rev.
      rewrite <- (firstn_skipn (Z.to_nat lendiff) res) in Hall.
      apply Forall_app in Hall. tauto.
Qed.

Lemma reshape_axes_labels_witness :
  Util.reshape_axes ["I"; "Y"; "X"]%char [12; 219; 301] [3; 4; 219; 1; 301; 1] []
  = Ok ["Q"; "Q"; "Y"; "Q"; "X"; "Q"]%char
  /\ Util.reshape_axes ["Y"; "X"]%char [2; 3; 4] [6; 4] []
     = Raise (ValueError "axes do not match shape")
  /\ Util.reshape_axes ["Y"; "X"]%char [2; 3] [5] []
     = Raise (ValueError "cannot reshape %s to %s").
Proof.
  destruct (reshape_axes_labels ["Y"; "X"]%char [2; 3; 4] [6; 4] []) as (H1 & _ & _).
  destruct (reshape_axes_labels ["Y"; "X"]%char [2; 3] [5] []) as (_ & H2 & _).
  split; [reflexivity|]. split.
  - apply H1. discriminate.
  - apply H2; [reflexivity | discriminate].
Defined.

(** ** Codecs on byte strings *)

Lemma byte2int_range (b : byte) : 0 <= Util.byte2int b < 256.
Proof.
  unfold Util.byte2int. pose proof (Byte.to_N_bounded b) as H.
  lia.
Qed.

Lemma int2byte_byte2int (b : byte) : Util.int2byte (Util.byte2int b) = b.
Proof.
  unfold Util.int2byte. rewrite Z.mod_small by apply byte2int_range.
  unfold Util.byte2int. rewrite N2Z.id, Byte.of_to_N. reflexivity.
Qed.

Lemma byte2int_int2byte (z : Z) : Util.byte2int (Util.int2byte z) = z mod 256.
Proof.
  unfold Util.int2byte, Util.byte2int.
  pose proof (Z.mod_pos_bound z 256 ltac:(lia)) as Hm.
  destruct (Byte.of_N (Z.to_N (z mod 256))) as [b|] eqn:E.
  - apply Byte.to_of_N in E. rewrite E. lia.
  - apply Byte.of_N_None_iff in E. lia.
Qed.

(** Every element is the value of a byte. *)
Definition u1 (l : list Z) : Prop := Forall (fun z => 0 <= z < 256) l.

Lemma u1_bytes (data : list byte) : u1 (map Util.byte2int data).
Proof.
  unfold u1. rewrite Forall_map. apply Forall_forall. intros b _. apply byte2int_range.
Qed.

Lemma bytes_of_u1 (l : list Z) : u1 l -> map Util.byte2int (map Util.int2byte l) = l.
Proof.
  induction 1 as [|z l Hz _ IH]; [reflexivity|].
  simpl. rewrite byte2int_int2byte, IH, Z.mod_small by exact Hz. reflexivity.
Qed.

Lemma u1_of_bytes (data : list byte) : map Util.int2byte (map Util.byte2int data) = data.
Proof.
  induction data as [|b data IH]; [reflexivity|].
  simpl. rewrite int2byte_byte2int, IH. reflexivity.
Qed.

Lemma diff_cons (a b : Z) (r : list Z) :
  Util.diff (a :: b :: r) = (b - a) mod 256 :: Util.diff (b :: r).
Proof. reflexivity. Qed.

Lemma u1_diff (l : list Z) : u1 (Util.diff l).
Proof.
  unfold u1. induction l as [|a [|b r] IH]; try constructor.
  - apply Z.mod_pos_bound. lia.
  - exact IH.
Qed.

Lemma u1_cumsum (l : list Z) (acc : Z) : u1 (Util.cumsum acc l).
Proof.
  unfold u1. revert acc. induction l as [|a r IH]; intros acc; constructor.
  - apply Z.mod_pos_bound. lia.
  - apply IH.
Qed.

Lemma cumsum_diff (r : list Z) (a : Z) :
  u1 r -> Util.cumsum a (Util.diff (a :: r)) = r.
Proof.
  revert a. induction r as [|b r IH]; intros a H; [reflexivity|].
  inversion H as [|? ? Hb Hr]; subst.
  rewrite diff_cons. cbn [Util.cumsum].
  rewrite Zplus_mod_idemp_r.
  replace (a + (b - a)) with b by lia.
  rewrite Z.mod_small by exact Hb. rewrite IH by exact Hr. reflexivity.
Qed.

Lemma diff_cumsum (r : list Z) (a : Z) :
  0 <= a < 256 -> u1 r -> Util.diff (a :: Util.cumsum a r) = r.
Proof.
  revert a. induction r as [|b r IH]; intros a Ha H; [reflexivity|].
  inversion H as [|? ? Hb Hr]; subst.
  cbn [Util.cumsum]. rewrite diff_cons.
  rewrite Zminus_mod_idemp_l.
  replace (a + b - a) with b by lia.
  rewrite Z.mod_small by exact Hb.
  rewrite IH; [reflexivity | apply Z.mod_pos_bound; lia | exact Hr].
Qed.

(** X8. On byte strings, [delta_decode] undoes [delta_encode] and
    [delta_encode] undoes [delta_decode]; the encoded string has the
    length of the data.  The empty string cannot be encoded: [data[0]]
    raises IndexError, while decoding it gives the empty string. *)
Theorem delta_round_trip (data : list byte) :
  data <> [] ->
  (exists enc, Util.delta_encode data = Ok enc
               /\ length enc = length data
               /\ Util.delta_decode enc = data)
  /\ Util.delta_encode (Util.delta_decode data) = Ok data
  /\ (exists msg, Util.delta_encode [] = Raise (IndexError msg))
  /\ Util.delta_decode [] = [].
Proof.
  intros Hne. destruct data as [|b data]; [contradiction Hne; reflexivity|].
  split; [|split; [|split; [eexists; reflexivity | reflexivity]]].
  - exists (map Util.int2byte
                 (Util.byte2int b
                  :: Util.diff (Util.byte2int b :: map Util.byte2int data))).
    split; [reflexivity|]. split.
    + rewrite length_map. cbn [length]. f_equal.
      assert (Hd : forall (l : list Z) (a : Z), length (Util.diff (a :: l)) = length l).
      { induction l as [|x l IH]; intros a; [reflexivity|].
        rewrite diff_cons. cbn [length]. f_equal. apply IH. }
      rewrite Hd, length_map. reflexivity.
    + unfold Util.delta_decode.
      rewrite bytes_of_u1
        by (constructor; [apply byte2int_range | apply u1_diff]).
      cbn [Util.cumsum]. rewrite Z.add_0_l, Z.mod_small by apply byte2int_range.
      rewrite cumsum_diff by apply u1_bytes.
      change (Util.byte2int b :: map Util.byte2int data)
        with (map Util.byte2int (b :: data)).
      apply u1_of_bytes.
  - unfold Util.delta_decode, Util.delta_encode.
    rewrite bytes_of_u1 by apply u1_cumsum.
    change (map Util.byte2int (b :: data))
      with (Util.byte2int b :: map Util.byte2int data).
    cbn [Util.cumsum]. rewrite Z.add_0_l, Z.mod_small by apply byte2int_range.
    rewrite diff_cumsum by (apply byte2int_range || apply u1_bytes).
    change (Util.byte2int b :: map Util.byte2int data)
      with (map Util.byte2int (b :: data)).
    rewrite u1_of_bytes. reflexivity.
Qed.

Lemma delta_round_trip_witness :
  Util.delta_encode [x0a; x0c; x09; xff; x01] = Ok [x0a; x02; xfd; xf6; x02]
  /\ Util.delta_decode [x0a; x02; xfd; xf6; x02] = [x0a; x0c; x09; xff; x01]
  /\ Util.delta_encode (Util.delta_decode [x0a; x0c; x09; xff; x01])
     = Ok [x0a; x0c; x09; xff; x01].
Proof.
  destruct (delta_round_trip [x0a; x0c; x09; xff; x01] ltac:(discriminate))
    as (_ & H & _).
  split; [reflexivity|]. split; [reflexivity | exact H].
Defined.

Lemma bitorder_byte (b : byte) :
  let b' := nth (Z.to_nat (Util.byte2int b)) Util._bitorder x00 in
  nth (Z.to_nat (Util.byte2int b')) Util._bitorder x00 = b
  /\ forallb (fun k => Bool.eqb (Z.testbit (Util.byte2int b') k)
                                (Z.testbit (Util.byte2int b) (7 - k)))
             [0; 1; 2; 3; 4; 5; 6; 7] = true.
Proof. destruct b; vm_compute; split; reflexivity. Qed.

(** X9. [bitorder_decode] on a byte string reverses the bits of every
    byte: bit [k] of a byte of the result is bit [7 - k] of the byte at
    the same place of the data.  The length is kept and decoding twice
    gives the data back. *)
Theorem bitorder_decode_reverses_bits (data : list byte) :
  length (Util.bitorder_decode data) = length data
  /\ Util.bitorder_decode (Util.bitorder_decode data) = data
  /\ forall (i : nat) (k : Z),
       (i < length data)%nat -> 0 <= k < 8 ->
       Z.testbit (Util.byte2int (nth i (Util.bitorder_decode data) x00)) k
       = Z.testbit (Util.byte2int (nth i data x00)) (7 - k).
Proof.
  unfold Util.bitorder_decode. split; [apply length_map|]. split.
  - rewrite map_map. rewrite <- (map_id data) at 2. apply map_ext.
    intros b. apply (bitorder_byte b).
  - intros i k Hi Hk.
    set (f := fun b : byte => nth (Z.to_nat (Util.byte2int b)) Util._bitorder x00).
    assert (E : nth i (map f data) x00 = f (nth i data x00)).
    { rewrite (nth_indep _ x00 (f x00)) by (rewrite length_map; exact Hi).
      apply map_nth. }
    rewrite E. unfold f.
    destruct (bitorder_byte (nth i data x00)) as (_ & Hb).
    cbv zeta in Hb. rewrite forallb_forall in Hb.
    apply eqb_prop, Hb.
    assert (Hc : k = 0 \/ k = 1 \/ k = 2 \/ k = 3 \/ k = 4 \/ k = 5 \/ k = 6 \/ k = 7)
      by lia.
    simpl. intuition.
Qed.

(** ** The walker on arbitrary files *)

(** One iteration of the loop on a directory whose tag count can be read
    while the field of the next-directory offset cannot. *)
Lemma walk_truncated (f : nat) (index maxpages o lenpages : Z) (s : TiffPages.t)
      (tagno : Z) (e : exn) :
  lenpages < maxpages -> 0 <= o ->
  tagno_at (TiffPages.tiff s) (data_of s) o = Ok tagno ->
  0 <= next_pos (TiffPages.tiff s) o tagno ->
  next_at (TiffPages.tiff s) (data_of s) (next_pos (TiffPages.tiff s) o tagno) = Raise e ->
  exists s1, visited o (next_pos (TiffPages.tiff s) o tagno) s s1 /\
    TiffPages.walk (S f) index maxpages o lenpages s = (Raise e, s1).
Proof.
  intros Hlt Ho Htag Hnx Hnext. simpl.
  destruct (Z.ltb_spec lenpages maxpages); [|lia]. simpl.
  unfold bind at 1.
  destruct (seek_spec o s Ho) as (E1 & F1 & P1 & I1 & L1 & R1 & Pos1).
  destruct (TiffPages.io (fh_seek o) s) as [r1 sa]. simpl in *. subst r1.
  destruct (read_tagno_spec sa) as (E2 & F2 & P2 & I2 & L2 & R2).
  destruct (TiffPages.read_tagno sa) as [r2 sb]. simpl in *.
  rewrite (file_of_tiff _ _ F1), (file_of_data _ _ F1), Pos1, Htag in E2. subst r2.
  unfold bind at 1, get at 1.
  unfold bind at 1, modify at 1.
  unfold bind at 1.
  assert (Ftb : TiffPages.tiff sb = TiffPages.tiff s)
    by (rewrite (file_of_tiff _ _ F2); apply (file_of_tiff _ _ F1)).
  rewrite Ftb. fold (next_pos (TiffPages.tiff s) o tagno).
  set (nx := next_pos (TiffPages.tiff s) o tagno) in *.
  set (sc := TiffPages.set_nextpageoffset nx sb).
  destruct (seek_spec nx sc Hnx) as (E3 & F3 & P3 & I3 & L3 & R3 & Pos3).
  destruct (TiffPages.io (fh_seek nx) sc) as [r3 sd]. simpl in *. subst r3.
  unfold bind at 1.
  destruct (read_next_offset_spec sd) as (E4 & F4 & P4 & I4 & L4 & R4).
  destruct (TiffPages.read_next_offset sd) as [r4 se]. simpl in *.
  destruct (set_nextpageoffset_spec nx sb) as (Fc & Pc & Ic & Lc & Rc).
  fold sc in Fc, Pc, Ic, Lc, Rc.
  assert (Fsc : file_of sc = file_of s) by (rewrite Fc, F2; exact F1).
  assert (Fsd : file_of sd = file_of s) by (rewrite F3; exact Fsc).
  rewrite (file_of_tiff _ _ Fsd), (file_of_data _ _ Fsd), Pos3, Hnext in E4. subst r4.
  assert (Fse : file_of se = file_of s) by (rewrite F4; exact Fsd).
  exists se. split; [|reflexivity].
  unfold visited. split; [exact Fse|].
  rewrite P4, P3, I4, I3, L4, L3, R4, R3, ?Pc, ?Ic, ?Lc, ?Rc.
  rewrite P2, P1, I2, I1, L2, L1, R2, R1, Pos1, Pos3.
  rewrite (file_of_tiff _ _ Fsd), (file_of_tiff _ _ F1).
  rewrite <- app_assoc. repeat split; reflexivity.
Qed.

Lemma next_at_raises tiff data pos e : next_at tiff data pos = Raise e -> e = struct_error.
Proof.
  unfold next_at, unpack. destruct (_ =? _); [discriminate|]. congruence.
Qed.

(** The slots of [s'] are those of [s] followed by the offsets [new],
    every one of them inside the file; when the walk ended on a corrupt
    tag count, the last slot was removed and the index is complete.  The
    file is the same and the log has only grown. *)
Definition grown (new : list Z) (s s' : TiffPages.t) : Prop :=
  file_of s' = file_of s
  /\ Forall (fun o => 0 < o < size_of s) new
  /\ (TiffPages.pages s' = TiffPages.pages s ++ map TiffPages.SlotOffset new
      \/ (TiffPages.pages s'
          = removelast (TiffPages.pages s ++ map TiffPages.SlotOffset new)
          /\ TiffPages._indexed s' = true))
  /\ (exists l, log_of s' = log_of s ++ l).

(** The exceptions that leave the loop: the cycle test, and
    [struct.error] from a next-directory offset that the file does not
    hold in full. *)
Definition walk_exn (e : exn) : Prop := e = circular \/ e = struct_error.

Lemma walk_grows (f : nat) :
  forall (index maxpages o lenpages : Z) (s : TiffPages.t),
    sane (TiffPages.tiff s) -> 0 <= o ->
    lenpages = Z.of_nat (length (TiffPages.pages s)) ->
    TiffPages.pages s <> [] ->
    exists new,
      grown new s (snd (TiffPages.walk f index maxpages o lenpages s))
      /\ Z.of_nat (length (TiffPages.pages (snd (TiffPages.walk f index maxpages o lenpages s))))
         <= Z.max lenpages maxpages
      /\ match fst (TiffPages.walk f index maxpages o lenpages s) with
         | Ok n => n = Z.of_nat (length (TiffPages.pages
                                           (snd (TiffPages.walk f index maxpages o lenpages s))))
         | Raise e => walk_exn e
         end.
Proof.
  induction f as [|f IH]; intros index maxpages o lenpages s Hsane Ho Hlen Hne.
  - exists []. simpl. split; [|split; [lia | exact Hlen]].
    unfold grown. split; [reflexivity|]. split; [constructor|].
    split; [left; rewrite app_nil_r; reflexivity | exists []; rewrite app_nil_r; reflexivity].
  - destruct (Z.ltb_spec lenpages maxpages) as [Hlt|Hge].
    2:{ exists []. simpl. destruct (Z.ltb_spec lenpages maxpages); [lia|]. simpl.
        split; [|split; [lia | exact Hlen]].
        unfold grown. split; [reflexivity|]. split; [constructor|].
        split; [left; rewrite app_nil_r; reflexivity
               | exists []; rewrite app_nil_r; reflexivity]. }
    destruct (tagno_at (TiffPages.tiff s) (data_of s) o) as [tagno|e] eqn:Htag.
    + assert (Hnx : 0 <= next_pos (TiffPages.tiff s) o tagno).
      { apply next_pos_nonneg; auto. eapply tagno_at_nonneg; eauto. }
      destruct (next_at (TiffPages.tiff s) (data_of s)
                        (next_pos (TiffPages.tiff s) o tagno)) as [next|e] eqn:Hnext.
      * destruct (walk_step f index maxpages o lenpages s tagno next Hlt Ho Htag Hnx Hnext)
          as (s1 & (F1 & P1 & I1 & L1 & R1) & Ew).
        rewrite Ew. clear Ew.
        destruct (Z.eqb_spec next 0) as [E0|E0].
        { exists []. cbn [fst snd]. split; [|split].
          - unfold grown. split; [exact F1|]. split; [constructor|].
            split; [left; cbn; rewrite P1, app_nil_r; reflexivity|].
            exists []. rewrite app_nil_r. exact L1.
          - cbn. rewrite P1. lia.
          - cbn. rewrite P1. exact Hlen. }
        destruct (Z.geb_spec next (size_of s)) as [Esz|Esz].
        { exists []. cbn [fst snd]. split; [|split].
          - unfold grown. split; [exact F1|]. split; [constructor|].
            split; [left; cbn; rewrite P1, app_nil_r; reflexivity|].
            eexists. unfold warn_invalid, log_of, TiffPages.io, log_warning, modify in *.
            cbn. rewrite L1. reflexivity.
          - cbn. rewrite P1. lia.
          - cbn. rewrite P1. exact Hlen. }
        cbv zeta.
        set (s2 := TiffPages.set_pages (TiffPages.pages s1 ++ [TiffPages.SlotOffset next]) s1).
        assert (Hnext0 : 0 <= next) by (eapply next_at_nonneg; eauto).
        assert (G2 : grown [next] s s2).
        { unfold grown. split; [exact F1|].
          split; [constructor; [lia | constructor]|].
          split; [left; unfold s2; cbn; rewrite P1; reflexivity|].
          exists []. rewrite app_nil_r. exact L1. }
        assert (Hlen2 : lenpages + 1 = Z.of_nat (length (TiffPages.pages s2))).
        { unfold s2. cbn. rewrite P1, length_app. simpl. lia. }
        destruct (hit index (lenpages + 1)).
        { exists [next]. cbn [fst snd]. split; [exact G2|]. split; [lia | exact Hlen2]. }
        destruct ((lenpages + 1 =? 100) && _).
        { exists [next]. cbn [fst snd]. split; [exact G2|]. split; [lia|].
          left. reflexivity. }
        destruct (IH index maxpages next (lenpages + 1) s2) as (new & G & Hb & Hr).
        { unfold s2. cbn. rewrite (file_of_tiff _ _ F1). exact Hsane. }
        { exact Hnext0. }
        { exact Hlen2. }
        { unfold s2. cbn. intros Hnil. apply app_eq_nil in Hnil. destruct Hnil; discriminate. }
        exists (next :: new). split; [|split; [lia | exact Hr]].
        destruct G as (F' & Hall & Hp & (l & Hl)).
        destruct G2 as (F2 & _ & _ & _).
        assert (Hp2 : TiffPages.pages s2 = TiffPages.pages s ++ [TiffPages.SlotOffset next])
          by (unfold s2; cbn; rewrite P1; reflexivity).
        unfold grown. split; [rewrite F'; exact F2|].
        split.
        { constructor; [lia|]. rewrite (file_of_size _ _ F2) in Hall. exact Hall. }
        split.
        { rewrite Hp2, <- app_assoc in Hp. exact Hp. }
        exists l. rewrite Hl. unfold s2. change (log_of (TiffPages.set_pages _ s1)) with (log_of s1).
        rewrite L1. reflexivity.
      * destruct (walk_truncated f index maxpages o lenpages s tagno e Hlt Ho Htag Hnx Hnext)
          as (s1 & (F1 & P1 & I1 & L1 & R1) & Ew).
        rewrite Ew. exists []. cbn [fst snd]. split; [|split].
        -- unfold grown. split; [exact F1|]. split; [constructor|].
           split; [left; rewrite P1, app_nil_r; reflexivity|].
           exists []. rewrite app_nil_r. exact L1.
        -- rewrite P1. lia.
        -- right. eapply next_at_raises; eauto.
    + destruct (walk_corrupt f index maxpages o lenpages s e Hlt Ho Htag)
        as (s1 & (F1 & P1 & I1 & L1 & R1) & Ew).
      rewrite Ew. exists [].
      unfold TiffPages.corrupted, bind, modify, ret, TiffPages.io, log_warning. cbn.
      split; [|split].
      * unfold grown. cbn. split; [exact F1|]. split; [constructor|].
        split; [right; rewrite P1, app_nil_r; split; reflexivity|].
        eexists. unfold log_of in *. cbn. rewrite L1. reflexivity.
      * rewrite P1, length_removelast. lia.
      * rewrite P1, length_removelast.
        destruct (TiffPages.pages s); [contradiction Hne; reflexivity|]. simpl in *. lia.
Qed.

Lemma located_last (ps : list TiffPages.slot) :
  ps <> [] -> located ps ->
  exists qs p o, ps = qs ++ [p] /\ TiffPages.slot_offset p = Some o /\ 0 <= o.
Proof.
  intros Hne Hloc. destruct (exists_last Hne) as (qs & p & E).
  unfold located in Hloc. rewrite Forall_forall in Hloc.
  destruct (Hloc p) as (o & Ho & Ho0).
  { rewrite E. apply in_or_app. right. left. reflexivity. }
  exists qs, p, o. auto.
Qed.

Lemma grown_located (new : list Z) (s s' : TiffPages.t) :
  grown new s s' -> located (TiffPages.pages s) -> located (TiffPages.pages s').
Proof.
  intros (_ & Hall & Hp & _) Hloc.
  assert (H : located (TiffPages.pages s ++ map TiffPages.SlotOffset new)).
  { apply located_app; [exact Hloc|]. apply located_offsets.
    eapply Forall_impl; [|exact Hall]. simpl. intros. lia. }
  destruct Hp as [Hp|(Hp & _)]; rewrite Hp; [exact H | apply located_removelast, H].
Qed.

(** The outcomes of a seek in a file that is not ScanImage. *)
Definition seek_outcome (r : result unit) : Prop :=
  r = Ok tt
  \/ r = Raise (IndexError "index out of range")
  \/ r = Raise (ValueError "seek of closed file")
  \/ r = Raise (TiffFileError "invalid circular IFD reference" [])
  \/ r = Raise struct_error.

(** X10. In a file that is not ScanImage, whatever bytes it holds, a seek
    ends normally or with IndexError, with the ValueError of a closed
    file, with the TiffFileError of the cycle test or with struct.error;
    it never changes the file behind the channel; every slot it adds is
    an offset larger than 0 and smaller than the size of the file, added
    behind the slots that were there; it removes at most the last slot,
    and then marks the index complete; and it leaves no more than
    [maxpages] slots unless there were more before.  The slots keep having
    offsets, so that the same holds for the next seek. *)
Theorem seek_keeps_index_sound (index : Z) (mp : option Z) (s : TiffPages.t) :
  sane (TiffPages.tiff s) ->
  TiffPages.parent_is_scanimage s = false ->
  located (TiffPages.pages s) ->
  let r := fst (TiffPages._seek index mp s) in
  let s' := snd (TiffPages._seek index mp s) in
  seek_outcome r
  /\ file_of s' = file_of s
  /\ (exists new,
         Forall (fun o => 0 < o < size_of s) new
         /\ (TiffPages.pages s' = TiffPages.pages s ++ map TiffPages.SlotOffset new
             \/ (TiffPages.pages s'
                 = removelast (TiffPages.pages s ++ map TiffPages.SlotOffset new)
                 /\ TiffPages._indexed s' = true)))
  /\ Z.of_nat (length (TiffPages.pages s'))
     <= Z.max (Z.of_nat (length (TiffPages.pages s))) (maxpages_of mp)
  /\ located (TiffPages.pages s').
Proof.
  intros Hsane Hgen Hloc. cbv zeta.
  assert (Hsame : forall s1 (r : result unit),
            repositioned s s1 -> seek_outcome r ->
            seek_outcome r /\ file_of s1 = file_of s
            /\ (exists new,
                   Forall (fun o => 0 < o < size_of s) new
                   /\ (TiffPages.pages s1 = TiffPages.pages s ++ map TiffPages.SlotOffset new
                       \/ (TiffPages.pages s1
                           = removelast (TiffPages.pages s ++ map TiffPages.SlotOffset new)
                           /\ TiffPages._indexed s1 = true)))
            /\ Z.of_nat (length (TiffPages.pages s1))
               <= Z.max (Z.of_nat (length (TiffPages.pages s))) (maxpages_of mp)
            /\ located (TiffPages.pages s1)).
  { intros s1 r (F & P & _) Hr. split; [exact Hr|]. split; [exact F|].
    split; [exists []; split; [constructor | left; rewrite P, app_nil_r; reflexivity]|].
    rewrite P. split; [lia | exact Hloc]. }
  destruct (Z.eqb_spec (Z.of_nat (length (TiffPages.pages s))) 0) as [E0|E0].
  { assert (Es : TiffPages._seek index mp s
                 = (Raise (IndexError "index out of range"), s)).
    { unfold TiffPages._seek, bind, get, raise.
      destruct (Z.eqb_spec (Z.of_nat (length (TiffPages.pages s))) 0); [reflexivity|lia]. }
    rewrite Es. apply Hsame; [apply repositioned_refl|].
    right. left. reflexivity. }
  assert (Hne : TiffPages.pages s <> []).
  { intros Hnil. rewrite Hnil in E0. apply E0. reflexivity. }
  destruct (fh_closed (fh (TiffPages.world s))) eqn:Hc.
  { assert (Es : TiffPages._seek index mp s
                 = (Raise (ValueError "seek of closed file"), s)).
    { unfold TiffPages._seek, bind, get, raise.
      destruct (Z.eqb_spec (Z.of_nat (length (TiffPages.pages s))) 0); [lia|].
      rewrite Hc. reflexivity. }
    rewrite Es. apply Hsame; [apply repositioned_refl|].
    right. right. left. reflexivity. }
  destruct (TiffPages._indexed s
            || hit index (Z.of_nat (length (TiffPages.pages s)))) eqn:Hk.
  { apply orb_true_iff in Hk.
    destruct (seek_indexed index mp s Hne Hc Hloc Hk) as (Hrep & E).
    apply Hsame; [exact Hrep|]. rewrite E.
    destruct (in_range _ _); [left; reflexivity | right; left; reflexivity]. }
  apply orb_false_iff in Hk. destruct Hk as (Hi & Hh).
  destruct (located_last _ Hne Hloc) as (qs & p & o & Ep & Hso & Ho).
  assert (Hw : walkable s qs p o) by (unfold walkable; auto).
  rewrite (seek_walks index mp s qs p o Hw Hh).
  destruct (walk_grows (Z.to_nat (maxpages_of mp - Z.of_nat (length (TiffPages.pages s))))
              index (maxpages_of mp) o (Z.of_nat (length (TiffPages.pages s))) s
              Hsane Ho eq_refl Hne) as (new & G & Hb & Hr).
  unfold bind.
  destruct (TiffPages.walk _ index (maxpages_of mp) o _ s) as [[n|e] s1]; cbn [fst snd] in *.
  - assert (Hloc1 : located (TiffPages.pages s1)) by (eapply grown_located; eauto).
    destruct (land_spec index n s1 Hloc1) as ((F2 & P2 & I2 & _) & E2).
    destruct G as (F1 & Hall & Hp & _).
    split.
    { rewrite E2. destruct (_ && _); [left; reflexivity | right; left; reflexivity]. }
    split; [rewrite F2; exact F1|].
    split; [exists new; split; [exact Hall|]; rewrite P2, I2; exact Hp|].
    rewrite P2. split; [exact Hb | exact Hloc1].
  - destruct G as (F1 & Hall & Hp & Hl).
    split.
    { destruct Hr as [-> | ->]; [right; right; right; left; reflexivity
                                | right; right; right; right; reflexivity]. }
    split; [exact F1|].
    split; [exists new; split; [exact Hall | exact Hp]|].
    split; [exact Hb|].
    eapply grown_located; [|exact Hloc].
    unfold grown. split; [exact F1|]. split; [exact Hall|]. split; [exact Hp | exact Hl].
Qed.

Lemma seek_keeps_index_sound_witness :
  let s := first_page false corrupt_third in
  let s' := snd (TiffPages._seek 5 None s) in
  seek_outcome (fst (TiffPages._seek 5 None s))
  /\ file_of s' = file_of s
  /\ Z.of_nat (length (TiffPages.pages s')) <= Z.max 1 (2 ^ 22)
  /\ located (TiffPages.pages s').
Proof.
  intros s s'.
  destruct (seek_keeps_index_sound 5 None s) as (H1 & H2 & _ & H4 & H5).
  - unfold sane. simpl. lia.
  - reflexivity.
  - repeat constructor. exists 8. split; [reflexivity|lia].
  - split; [exact H1|]. split; [exact H2|]. split; [exact H4 | exact H5].
Defined.

(** ** How a chain ends: an offset outside the file, a truncated file *)

Section chain_ends.

Variables (s : TiffPages.t) (ps : list TiffPages.slot) (p : TiffPages.slot).
Variables (o : Z) (rest : list Z) (tagno : Z).

Hypothesis Hsane : sane (TiffPages.tiff s).
Hypothesis Hwalkable : walkable s ps p o.
Hypothesis Hlocated : located (TiffPages.pages s).
Hypothesis Hhops : hops (TiffPages.tiff s) (data_of s) (size_of s) o rest.
Hypothesis Hdistinct : NoDup (offsets_of (TiffPages.pages s) ++ rest).
Hypothesis Hcount : tagno_at (TiffPages.tiff s) (data_of s) (last rest o) = Ok tagno.

Let total : Z := Z.of_nat (length (TiffPages.pages s)) + Z.of_nat (length rest).
Let final : Z := last rest o.

Lemma chain_walk (index : Z) (mp : option Z) :
  total < maxpages_of mp -> hit index total = false ->
  exists f s1,
    TiffPages._seek index mp s
    = (lenpages <- TiffPages.walk (S f) index (maxpages_of mp) final total ;;
       TiffPages.land index lenpages) s1
    /\ 0 <= final
    /\ 0 <= next_pos (TiffPages.tiff s) final tagno
    /\ file_of s1 = file_of s
    /\ TiffPages.pages s1 = TiffPages.pages s ++ map TiffPages.SlotOffset rest
    /\ TiffPages._indexed s1 = false
    /\ log_of s1 = log_of s
    /\ located (TiffPages.pages s1).
Proof.
  intros Hmax Hhit.
  assert (Ho : 0 <= o) by (eapply walkable_offset; eauto).
  assert (Hh0 : hit index (Z.of_nat (length (TiffPages.pages s))) = false).
  { unfold hit in *. destruct (0 <=? index); [|reflexivity]. cbn [andb] in *.
    apply Z.ltb_ge in Hhit. apply Z.ltb_ge. unfold total in Hhit. lia. }
  rewrite (seek_walks index mp s ps p o Hwalkable Hh0).
  destruct (fuel_split (maxpages_of mp) _ (length rest) Hmax) as (f & Hf).
  rewrite Hf.
  assert (Hle : total <= maxpages_of mp) by lia.
  destruct (segment_then index (maxpages_of mp) o
              (Z.of_nat (length (TiffPages.pages s))) s rest Hsane Ho Hhops Hdistinct
              (S f) Hle Hhit)
    as (s1 & Ew & F1 & P1 & I1 & L1 & R1).
  exists f, s1. fold total in Ew. fold final in Ew.
  split; [unfold bind; rewrite Ew; reflexivity|].
  assert (Hf0 : 0 <= final) by (eapply hops_last_nonneg; eauto).
  split; [exact Hf0|].
  split; [apply next_pos_nonneg; [exact Hsane | exact Hf0 | eapply tagno_at_nonneg; eauto]|].
  split; [exact F1|]. split; [exact P1|].
  split; [rewrite I1; destruct Hwalkable as (_ & _ & Hi & _); exact Hi|].
  split; [exact L1|].
  rewrite P1. apply located_app; [exact Hlocated|].
  apply located_offsets. eapply hops_nonneg; eauto.
Qed.

Lemma seek_past_invalid (bad index : Z) (mp : option Z) :
  next_at (TiffPages.tiff s) (data_of s) (next_pos (TiffPages.tiff s) final tagno) = Ok bad ->
  bad <> 0 -> size_of s <= bad ->
  total < maxpages_of mp -> hit index total = false ->
  let s' := snd (TiffPages._seek index mp s) in
  file_of s' = file_of s
  /\ TiffPages.pages s' = TiffPages.pages s ++ map TiffPages.SlotOffset rest
  /\ TiffPages._indexed s' = true
  /\ log_of s' = log_of s ++ [("TiffPages: invalid page offset (%i)", [bad])]
  /\ fst (TiffPages._seek index mp s)
     = if (index <? total) && in_range index total
       then Ok tt else Raise (IndexError "index out of range").
Proof.
  intros Hnext Hbad Hsize Hmax Hhit. cbv zeta.
  destruct (chain_walk index mp Hmax Hhit)
    as (f & s1 & Es & Hf0 & Hnx & F1 & P1 & I1 & L1 & Hloc1).
  rewrite Es. clear Es.
  pose proof Hcount as Hc1.
  rewrite <- (file_of_tiff _ _ F1) in Hc1, Hnext, Hnx.
  rewrite <- (file_of_data _ _ F1) in Hc1, Hnext.
  destruct (walk_step f index (maxpages_of mp) final total s1 tagno bad Hmax Hf0
              Hc1 Hnx Hnext) as (s2 & (F2 & P2 & I2 & L2 & R2) & Ew).
  unfold bind. rewrite Ew. clear Ew.
  destruct (Z.eqb_spec bad 0); [contradiction|].
  rewrite (file_of_size _ _ F1).
  destruct (Z.geb_spec bad (size_of s)); [|lia].
  set (s3 := TiffPages.set_indexed true (warn_invalid bad s2)).
  assert (P3 : TiffPages.pages s3 = TiffPages.pages s ++ map TiffPages.SlotOffset rest).
  { unfold s3, warn_invalid, TiffPages.io, log_warning, modify. cbn. rewrite P2. exact P1. }
  assert (Hloc3 : located (TiffPages.pages s3)) by (rewrite P3, <- P1; exact Hloc1).
  destruct (land_spec index total s3 Hloc3) as ((F4 & P4 & I4 & L4 & R4) & E4).
  split; [rewrite F4; unfold s3, warn_invalid, TiffPages.io, log_warning, modify; cbn;
          unfold file_of in *; cbn; rewrite <- F1, <- F2; reflexivity|].
  split; [rewrite P4; exact P3|].
  split; [rewrite I4; reflexivity|].
  split.
  { rewrite L4. unfold s3, warn_invalid, TiffPages.io, log_warning, modify, log_of in *.
    cbn. rewrite L2, L1. reflexivity. }
  rewrite E4, P3, length_app, length_map, Nat2Z.inj_add. reflexivity.
Qed.

Lemma seek_past_truncated (e : exn) (index : Z) (mp : option Z) :
  next_at (TiffPages.tiff s) (data_of s) (next_pos (TiffPages.tiff s) final tagno) = Raise e ->
  total < maxpages_of mp -> hit index total = false ->
  let s' := snd (TiffPages._seek index mp s) in
  file_of s' = file_of s
  /\ TiffPages.pages s' = TiffPages.pages s ++ map TiffPages.SlotOffset rest
  /\ TiffPages._indexed s' = false
  /\ log_of s' = log_of s
  /\ fst (TiffPages._seek index mp s) = Raise struct_error.
Proof.
  intros Hnext Hmax Hhit. cbv zeta.
  destruct (chain_walk index mp Hmax Hhit)
    as (f & s1 & Es & Hf0 & Hnx & F1 & P1 & I1 & L1 & Hloc1).
  rewrite Es. clear Es.
  assert (He : e = struct_error) by (eapply next_at_raises; eauto).
  pose proof Hcount as Hc1.
  rewrite <- (file_of_tiff _ _ F1) in Hc1, Hnext, Hnx.
  rewrite <- (file_of_data _ _ F1) in Hc1, Hnext.
  destruct (walk_truncated f index (maxpages_of mp) final total s1 tagno e Hmax Hf0
              Hc1 Hnx Hnext) as (s2 & (F2 & P2 & I2 & L2 & R2) & Ew).
  unfold bind. rewrite Ew. cbn [fst snd].
  split; [rewrite F2; exact F1|]. split; [rewrite P2; exact P1|].
  split; [rewrite I2; exact I1|]. split; [rewrite L2; exact L1|].
  rewrite He. reflexivity.
Qed.

End chain_ends.

(** X11. In a file that is not ScanImage, a next-directory offset that is
    not 0 and not smaller than the size of the file ends the chain: the
    walk logs one warning with that offset, keeps the slots of the
    directories it has found and marks the index complete.  The seek ends
    normally or with the IndexError of an index that does not exist, every
    slot can be sought afterwards without a further read, and [__len__] is
    the number of directories found. *)
Theorem invalid_offset_ends_walk
        (s : TiffPages.t) (ps : list TiffPages.slot) (p : TiffPages.slot)
        (o : Z) (rest : list Z) (bad index : Z) (mp : option Z) :
  sane (TiffPages.tiff s) ->
  walkable s ps p o ->
  located (TiffPages.pages s) ->
  hops (TiffPages.tiff s) (data_of s) (size_of s) o rest ->
  NoDup (offsets_of (TiffPages.pages s) ++ rest) ->
  hop (TiffPages.tiff s) (data_of s) (last rest o) bad ->
  bad <> 0 -> size_of s <= bad ->
  let total := Z.of_nat (length (TiffPages.pages s)) + Z.of_nat (length rest) in
  total < maxpages_of mp -> hit index total = false ->
  let s' := snd (TiffPages._seek index mp s) in
  fst (TiffPages._seek index mp s)
  = (if (index <? total) && in_range index total
     then Ok tt else Raise (IndexError "index out of range"))
  /\ TiffPages.pages s' = TiffPages.pages s ++ map TiffPages.SlotOffset rest
  /\ TiffPages._indexed s' = true
  /\ log_of s' = log_of s ++ [("TiffPages: invalid page offset (%i)", [bad])]
  /\ (forall (i : Z) (mp' : option Z),
         0 <= i < total ->
         fst (TiffPages._seek i mp' s') = Ok tt
         /\ TiffPages.pages (snd (TiffPages._seek i mp' s')) = TiffPages.pages s'
         /\ reads_in (snd (TiffPages._seek i mp' s')) = reads_in s')
  /\ (total < 2 ^ 22 -> fst (TiffPages.__len__ s) = Ok total).
Proof.
  intros Hsane Hw Hloc Hhops Hnd (tagno & Htag & Hnext) Hbad Hsize total Hmax Hhit s'.
  destruct (seek_past_invalid s ps p o rest tagno Hsane Hw Hloc Hhops Hnd Htag
              bad index mp Hnext Hbad Hsize Hmax Hhit) as (F & P & I & L & E).
  fold total in E. fold s' in F, P, I, L.
  assert (Hlen : Z.of_nat (length (TiffPages.pages s')) = total)
    by (rewrite P, length_app, length_map; unfold total; lia).
  assert (Hloc' : located (TiffPages.pages s')).
  { rewrite P. apply located_app; [exact Hloc|].
    apply located_offsets. eapply hops_nonneg; eauto. }
  assert (Hne : TiffPages.pages s' <> []).
  { destruct Hw as (Hp & _). rewrite P, Hp. destruct ps; discriminate. }
  assert (Hc' : fh_closed (fh (TiffPages.world s')) = false).
  { destruct Hw as (_ & _ & _ & _ & Hc). unfold file_of in F. congruence. }
  split; [exact E|]. split; [exact P|]. split; [exact I|]. split; [exact L|].
  split.
  - intros i mp' Hi.
    destruct (seek_indexed i mp' s' Hne Hc' Hloc' (or_introl I))
      as ((_ & P2 & _ & _ & R2) & E2).
    split; [|split; [exact P2 | exact R2]]. rewrite E2, Hlen. unfold in_range.
    destruct (Z.leb_spec (- total) i); [|lia].
    destruct (Z.ltb_spec i total); [reflexivity|lia].
  - intros H22. unfold TiffPages.__len__. unfold bind at 1, get at 1.
    assert (Hi : TiffPages._indexed s = false)
      by (destruct Hw as (_ & _ & Hi & _); exact Hi).
    rewrite Hi. cbn [negb].
    assert (Hpos : 1 <= total).
    { destruct Hw as (Hp & _). unfold total. rewrite Hp, length_app. simpl. lia. }
    destruct (seek_past_invalid s ps p o rest tagno Hsane Hw Hloc Hhops Hnd Htag
                bad (-1) None Hnext Hbad Hsize H22 eq_refl) as (F1 & P1 & I1 & L1 & E1).
    fold total in E1.
    unfold bind, get, ret.
    destruct (TiffPages._seek (-1) None s) as [r s1]. simpl in *. subst r.
    unfold in_range.
    destruct (Z.ltb_spec (-1) total); [|lia].
    destruct (Z.leb_spec (- total) (-1)); [|lia].
    simpl. rewrite P1, length_app, length_map. f_equal. unfold total. lia.
Qed.

(** Two directories at 8 and 14; the next-directory offset of the second
    is 4096, far behind the end of the file. *)
Definition dangling_file : list byte :=
  classic_header ++ empty_dir 14 ++ empty_dir 4096.

Lemma invalid_offset_ends_walk_witness :
  let s := first_page false dangling_file in
  let s' := snd (TiffPages._seek (-1) None s) in
  fst (TiffPages._seek (-1) None s) = Ok tt
  /\ TiffPages.pages s' = [TiffPages.SlotPage default_page; TiffPages.SlotOffset 14]
  /\ TiffPages._indexed s' = true
  /\ log_of s' = [("TiffPages: invalid page offset (%i)", [4096])]
  /\ fst (TiffPages.__len__ s) = Ok 2.
Proof.
  intros s s'.
  destruct (invalid_offset_ends_walk s [] (TiffPages.SlotPage default_page) 8 [14]
              4096 (-1) None) as (H1 & H2 & H3 & H4 & _ & H6).
  - unfold sane. simpl. lia.
  - unfold walkable. repeat split; reflexivity.
  - repeat constructor. exists 8. split; [reflexivity|lia].
  - apply hopsb_sound. vm_compute. reflexivity.
  - vm_compute. repeat constructor; simpl; intuition lia.
  - apply hopb_sound. vm_compute. reflexivity.
  - lia.
  - vm_compute. discriminate.
  - simpl. lia.
  - reflexivity.
  - split; [exact H1|]. split; [exact H2|]. split; [exact H3|]. split; [exact H4|].
    apply H6. simpl. lia.
Defined.

(** The five descriptors of the module. *)
Definition module_descriptor (tiff : TIFF.descriptor) : Prop :=
  In tiff [TIFF.CLASSIC_LE; TIFF.CLASSIC_BE; TIFF.BIG_LE; TIFF.BIG_BE; TIFF.NDPI_LE].

Lemma module_descriptor_sane tiff : module_descriptor tiff -> sane tiff.
Proof.
  unfold module_descriptor. simpl.
  intros [<-|[<-|[<-|[<-|[<-|[]]]]]]; unfold sane; simpl; lia.
Qed.

Lemma length_peek (data : list byte) (pos size : Z) :
  0 <= pos -> 0 <= size ->
  Z.of_nat (length (peek data pos size))
  = Z.max 0 (Z.min size (Z.of_nat (length data) - pos)).
Proof.
  intros Hp Hs. unfold peek. destruct (Z.ltb_spec size 0); [lia|].
  rewrite length_firstn, length_skipn. lia.
Qed.

Lemma next_at_truncated tiff (data : list byte) (pos : Z) :
  module_descriptor tiff -> 0 <= pos ->
  Z.of_nat (length data) < pos + TIFF.ifdoffsetsize tiff ->
  next_at tiff data pos = Raise struct_error.
Proof.
  intros Hm Hp Hlen. unfold next_at, unpack.
  assert (Hc : calcsize (TIFF.ifdoffsetformat tiff) = TIFF.ifdoffsetsize tiff
               /\ 0 < TIFF.ifdoffsetsize tiff).
  { unfold module_descriptor in Hm. simpl in Hm.
    destruct Hm as [<-|[<-|[<-|[<-|[<-|[]]]]]]; simpl; lia. }
  destruct Hc as (Hc & Hpos).
  rewrite length_peek by lia. rewrite Hc.
  destruct (Z.eqb_spec (Z.max 0 (Z.min (TIFF.ifdoffsetsize tiff)
                                       (Z.of_nat (length data) - pos)))
                       (TIFF.ifdoffsetsize tiff)); [lia|reflexivity].
Qed.

(** X12. In a file that is not ScanImage and that ends inside the field
    of a next-directory offset, the walk raises struct.error: the
    exception handler of the loop covers the tag count only.  The slots of
    the directories found so far are kept, no warning is logged and the
    index is not marked complete, so that [__len__] raises the same
    exception, also when it is called again. *)
Theorem truncated_offset_raises
        (s : TiffPages.t) (ps : list TiffPages.slot) (p : TiffPages.slot)
        (o : Z) (rest : list Z) (tagno index : Z) (mp : option Z) :
  module_descriptor (TiffPages.tiff s) ->
  walkable s ps p o ->
  located (TiffPages.pages s) ->
  hops (TiffPages.tiff s) (data_of s) (size_of s) o rest ->
  NoDup (offsets_of (TiffPages.pages s) ++ rest) ->
  tagno_at (TiffPages.tiff s) (data_of s) (last rest o) = Ok tagno ->
  Z.of_nat (length (data_of s))
  < next_pos (TiffPages.tiff s) (last rest o) tagno + TIFF.ifdoffsetsize (TiffPages.tiff s) ->
  let total := Z.of_nat (length (TiffPages.pages s)) + Z.of_nat (length rest) in
  total < maxpages_of mp -> hit index total = false ->
  let s' := snd (TiffPages._seek index mp s) in
  fst (TiffPages._seek index mp s) = Raise struct_error
  /\ TiffPages.pages s' = TiffPages.pages s ++ map TiffPages.SlotOffset rest
  /\ TiffPages._indexed s' = false
  /\ log_of s' = log_of s
  /\ (total < 2 ^ 22 ->
      fst (TiffPages.__len__ s) = Raise struct_error
      /\ fst (TiffPages.__len__ (snd (TiffPages.__len__ s))) = Raise struct_error).
Proof.
  intros Hm Hw Hloc Hhops Hnd Htag Hshort total Hmax Hhit s'.
  assert (Hsane : sane (TiffPages.tiff s)) by (apply module_descriptor_sane, Hm).
  assert (Ho : 0 <= o) by (eapply walkable_offset; eauto).
  assert (Hf0 : 0 <= last rest o) by (eapply hops_last_nonneg; eauto).
  assert (Hnx : 0 <= next_pos (TiffPages.tiff s) (last rest o) tagno).
  { apply next_pos_nonneg; [exact Hsane | exact Hf0 | eapply tagno_at_nonneg; eauto]. }
  assert (Hnext := next_at_truncated _ _ _ Hm Hnx Hshort).
  destruct (seek_past_truncated s ps p o rest tagno Hsane Hw Hloc Hhops Hnd Htag
              struct_error index mp Hnext Hmax Hhit) as (F & P & I & L & E).
  split; [exact E|]. split; [exact P|]. split; [exact I|]. split; [exact L|].
  intros H22.
  assert (Hi : TiffPages._indexed s = false)
    by (destruct Hw as (_ & _ & Hi & _); exact Hi).
  destruct (seek_past_truncated s ps p o rest tagno Hsane Hw Hloc Hhops Hnd Htag
              struct_error (-1) None Hnext H22 eq_refl) as (F1 & P1 & I1 & L1 & E1).
  assert (Hlen1 : TiffPages.__len__ s
                  = (Raise struct_error, snd (TiffPages._seek (-1) None s))).
  { unfold TiffPages.__len__. unfold bind at 1, get at 1. rewrite Hi. cbn [negb].
    unfold bind. destruct (TiffPages._seek (-1) None s) as [r s1].
    cbn [fst snd] in *. subst r. reflexivity. }
  rewrite Hlen1. cbn [fst snd]. split; [reflexivity|].
  set (s1 := snd (TiffPages._seek (-1) None s)) in *.
  (* the second call starts from the last slot that was found *)
  destruct Hw as (Hp & Hso & _ & Hg & Hc).
  assert (Hne1 : TiffPages.pages s ++ map TiffPages.SlotOffset rest <> [])
    by (rewrite Hp; destruct ps; discriminate).
  destruct (exists_last Hne1) as (qs & q & Eq).
  assert (Hq : TiffPages.slot_offset q = Some (last rest o)).
  { destruct rest as [|r0 rest0] using rev_ind.
    - simpl in Eq. rewrite app_nil_r, Hp in Eq.
      apply app_inj_tail in Eq. destruct Eq as (_ & ->). exact Hso.
    - rewrite map_app, app_assoc in Eq. cbn [map] in Eq.
      apply app_inj_tail in Eq. destruct Eq as (_ & <-).
      rewrite last_last. reflexivity. }
  assert (Hw1 : walkable s1 qs q (last rest o)).
  { unfold walkable. rewrite P1, I1. split; [exact Eq|]. split; [exact Hq|].
    split; [reflexivity|]. unfold file_of in F1. split; congruence. }
  assert (Hloc1 : located (TiffPages.pages s1)).
  { rewrite P1. apply located_app; [exact Hloc|].
    apply located_offsets. eapply hops_nonneg; eauto. }
  assert (Hlen : Z.of_nat (length (TiffPages.pages s1)) = total)
    by (rewrite P1, length_app, length_map; unfold total; lia).
  destruct (seek_past_truncated s1 qs q (last rest o) [] tagno) with
    (e := struct_error) (index := -1) (mp := @None Z) as (_ & _ & _ & _ & E2).
  - rewrite (file_of_tiff _ _ F1). exact Hsane.
  - exact Hw1.
  - exact Hloc1.
  - exact Logic.I.
  - rewrite app_nil_r, P1, offsets_of_app, offsets_of_SlotOffset. exact Hnd.
  - cbn [last]. rewrite (file_of_tiff _ _ F1), (file_of_data _ _ F1). exact Htag.
  - cbn [last]. rewrite (file_of_tiff _ _ F1), (file_of_data _ _ F1). exact Hnext.
  - cbn [length]. rewrite Hlen. simpl. lia.
  - reflexivity.
  - unfold TiffPages.__len__. unfold bind at 1, get at 1. rewrite I1. cbn [negb].
    unfold bind. destruct (TiffPages._seek (-1) None s1) as [r s2].
    cbn [fst snd] in *. subst r. reflexivity.
Qed.

(** Two directories at 8 and 14; the file ends two bytes into the
    next-directory offset of the second. *)
Definition truncated_file : list byte :=
  classic_header ++ empty_dir 14 ++ le_bytes 2 0 ++ le_bytes 2 0.

Lemma truncated_offset_raises_witness :
  let s := first_page false truncated_file in
  let s' := snd (TiffPages._seek (-1) None s) in
  fst (TiffPages._seek (-1) None s) = Raise struct_error
  /\ TiffPages.pages s' = [TiffPages.SlotPage default_page; TiffPages.SlotOffset 14]
  /\ TiffPages._indexed s' = false
  /\ log_of s' = []
  /\ fst (TiffPages.__len__ s) = Raise struct_error.
Proof.
  intros s s'.
  destruct (truncated_offset_raises s [] (TiffPages.SlotPage default_page) 8 [14]
              0 (-1) None) as (H1 & H2 & H3 & H4 & H5).
  - left. reflexivity.
  - unfold walkable. repeat split; reflexivity.
  - repeat constructor. exists 8. split; [reflexivity|lia].
  - apply hopsb_sound. vm_compute. reflexivity.
  - vm_compute. repeat constructor; simpl; intuition lia.
  - vm_compute. reflexivity.
  - vm_compute. reflexivity.
  - simpl. lia.
  - reflexivity.
  - split; [exact H1|]. split; [exact H2|]. split; [exact H3|]. split; [exact H4|].
    apply H5. simpl. lia.
Defined.


(** ** Contiguous data *)

Lemma all_adjacent_true (offsets bytecounts : list Z) (k : nat) :
  forall i,
    TiffPage.all_adjacent offsets bytecounts k i = Ok true ->
    forall j, i <= j < i + Z.of_nat k ->
      exists oj bj on,
        py_index offsets j = Ok oj /\ py_index bytecounts j = Ok bj
        /\ py_index offsets (j + 1) = Ok on
        /\ (oj + bj = on \/ py_index bytecounts (j + 1) = Ok 0).
Proof.
  induction k as [|k IH]; intros i H j Hj; [lia|].
  cbn [TiffPage.all_adjacent] in H.
  apply rbind_Ok in H. destruct H as (oi & Hoi & H).
  apply rbind_Ok in H. destruct H as (bi & Hbi & H).
  apply rbind_Ok in H. destruct H as (on & Hon & H).
  apply rbind_Ok in H. destruct H as (ok & Hok & H).
  destruct ok; [|discriminate].
  destruct (Z.eq_dec j i) as [->|Hne].
  - exists oi, bi, on. repeat (split; [assumption|]).
    destruct (Z.eqb_spec (oi + bi) on) as [E|E]; [left; exact E|].
    right. apply rbind_Ok in Hok. destruct Hok as (bn & Hbn & Hz).
    injection Hz as Hz. apply Z.eqb_eq in Hz. subst. exact Hbn.
  - apply (IH (i + 1) H). lia.
Qed.

Lemma is_contiguous_tiled (self : TiffPage.t) (o n : Z) :
  TiffPage.is_contiguous self = Ok (Some (o, n)) ->
  TiffPage.is_tiled self = true ->
  TiffPage.imagewidth self = TiffPage.tilewidth self
  /\ TiffPage.tilelength self <> 0
  /\ TiffPage.imagelength self mod TiffPage.tilelength self = 0
  /\ TiffPage.tilewidth self mod 16 = 0
  /\ TiffPage.tilelength self mod 16 = 0.
Proof.
  intros H. destruct (is_contiguous_Some self (o, n) H) as (Hc & Hb).
  unfold TiffPage.is_contiguous in H. apply lazyattr_Ok in H.
  rewrite Hc, Hb in H. cbn [Z.eqb Pos.eqb negb orb] in H.
  apply rbind_Ok in H. destruct H as (tiled_ok & Ht & H).
  destruct tiled_ok; cbn [negb] in H; [|discriminate]. clear H.
  unfold TiffPage.is_tiled. intros Htw. rewrite Htw in Ht.
  apply rbind_Ok in Ht. destruct Ht as (c1 & Hc1 & Ht).
  destruct c1; [discriminate|]. clear Ht.
  destruct (Z.eqb_spec (TiffPage.imagewidth self) (TiffPage.tilewidth self)) as [Ew|Ew];
    cbn [negb] in Hc1; [|discriminate].
  apply rbind_Ok in Hc1. destruct Hc1 as (m1 & Hm1 & Hc1).
  unfold pymod in Hm1.
  destruct (Z.eqb_spec (TiffPage.tilelength self) 0) as [E0|E0]; [discriminate|].
  injection Hm1 as <-.
  destruct (Z.eqb_spec (TiffPage.imagelength self mod TiffPage.tilelength self) 0)
    as [Em|Em]; cbn [negb] in Hc1; [|discriminate].
  destruct (Z.eqb_spec (TiffPage.tilewidth self mod 16) 0) as [E16|E16];
    cbn [negb] in Hc1; [|discriminate].
  destruct (Z.eqb_spec (TiffPage.tilelength self mod 16) 0) as [El|El];
    cbn [negb] in Hc1; [|discriminate].
  auto.
Qed.

(** X13. When [is_contiguous] returns an offset and a size, the data are
    not compressed, the samples have 8, 16, 32 or 64 bits and the offset is
    the first data offset.  With one data offset the size is the first
    bytecount; otherwise it is the sum of the bytecounts, and unless the
    page is an STK page every segment ends where the next one starts or is
    followed by a segment of bytecount 0.  A tiled page has tiles as wide
    as the image, of a length that divides the image length, both
    multiples of 16. *)
Theorem contiguous_means_adjacent (self : TiffPage.t) (o n : Z) :
  TiffPage.is_contiguous self = Ok (Some (o, n)) ->
  TiffPage.compression self = 1
  /\ TiffPage.bits_in (TiffPage.bitspersample self) [8; 16; 32; 64] = true
  /\ py_index (TiffPage.dataoffsets self) 0 = Ok o
  /\ (length (TiffPage.dataoffsets self) = 1%nat ->
      py_index (TiffPage.databytecounts self) 0 = Ok n)
  /\ (length (TiffPage.dataoffsets self) <> 1%nat ->
      n = TiffPage.sum (TiffPage.databytecounts self)
      /\ (TiffPage.is_stk self = false ->
          forall j, 0 <= j < Z.of_nat (length (TiffPage.dataoffsets self)) - 1 ->
            exists oj bj on,
              py_index (TiffPage.dataoffsets self) j = Ok oj
              /\ py_index (TiffPage.databytecounts self) j = Ok bj
              /\ py_index (TiffPage.dataoffsets self) (j + 1) = Ok on
              /\ (oj + bj = on
                  \/ py_index (TiffPage.databytecounts self) (j + 1) = Ok 0)))
  /\ (TiffPage.is_tiled self = true ->
      TiffPage.imagewidth self = TiffPage.tilewidth self
      /\ TiffPage.tilelength self <> 0
      /\ TiffPage.imagelength self mod TiffPage.tilelength self = 0
      /\ TiffPage.tilewidth self mod 16 = 0
      /\ TiffPage.tilelength self mod 16 = 0).
Proof.
  intros H. pose proof H as H0.
  destruct (is_contiguous_Some self (o, n) H) as (Hc & Hb).
  split; [exact Hc|]. split; [exact Hb|].
  unfold TiffPage.is_contiguous in H. apply lazyattr_Ok in H.
  rewrite Hc, Hb in H. cbn [Z.eqb Pos.eqb negb orb] in H.
  apply rbind_Ok in H. destruct H as (tiled_ok & Ht & H).
  destruct tiled_ok; cbn [negb] in H; [|discriminate].
  cbv zeta in H.
  pose proof (is_contiguous_tiled self o n H0) as Htile.
  destruct (Z.eqb_spec (Z.of_nat (length (TiffPage.dataoffsets self))) 1) as [E1|E1].
  - apply rbind_Ok in H. destruct H as (o' & Ho & H).
    apply rbind_Ok in H. destruct H as (b' & Hb' & H).
    injection H as <- <-.
    split; [exact Ho|]. split; [intros _; exact Hb'|].
    split; [intros Hne; lia | exact Htile].
  - apply rbind_Ok in H. destruct H as (adj & Hadj & H).
    destruct adj; [|discriminate].
    apply rbind_Ok in H. destruct H as (o' & Ho & H).
    injection H as <- <-.
    split; [exact Ho|]. split; [intros Hl; lia|].
    split; [|exact Htile].
    intros _. split; [reflexivity|].
    intros Hstk j Hj. rewrite Hstk in Hadj.
    apply (all_adjacent_true _ _ _ 0 Hadj). lia.
Qed.

Lemma contiguous_means_adjacent_witness :
  TiffPage.is_contiguous (strip_page 8 c_B 4 3 [8; 12; 40] [4; 4; 0]) = Ok (Some (8, 8))
  /\ TiffPage.compression (strip_page 8 c_B 4 3 [8; 12; 40] [4; 4; 0]) = 1.
Proof.
  split; [reflexivity|].
  apply (contiguous_means_adjacent (strip_page 8 c_B 4 3 [8; 12; 40] [4; 4; 0]) 8 8 eq_refl).
Defined.

(** ** The keyframe of a frame *)

(** X14. The keyframe of a frame is set once: after an assignment that
    succeeded, the frame holds that keyframe and its index and offset are
    what they were; assigning the same keyframe again changes nothing, and
    assigning another page raises RuntimeError.  A frame that had no
    keyframe and gets a contiguous one keeps its first offset only, with
    the size that the keyframe has. *)
Theorem keyframe_set_once (self self' : TiffFrame.t) (kf : TiffPage.t) :
  TiffFrame.set_keyframe self kf = Ok self' ->
  (exists k, TiffFrame._keyframe self' = Some k /\ TiffPage.oid k = TiffPage.oid kf)
  /\ TiffFrame.index self' = TiffFrame.index self
  /\ TiffFrame.offset self' = TiffFrame.offset self
  /\ TiffFrame.set_keyframe self' kf = Ok self'
  /\ (forall other, TiffPage.oid other <> TiffPage.oid kf ->
        TiffFrame.set_keyframe self' other = Raise (RuntimeError "cannot reset keyframe"))
  /\ (TiffFrame._keyframe self = None ->
      forall o n, TiffPage.is_contiguous kf = Ok (Some (o, n)) ->
        exists x, TiffFrame.first_item (fst (TiffFrame._offsetscounts self)) = Ok x
                  /\ TiffFrame._offsetscounts self' = (PTuple [x], PTuple [NInt n])).
Proof.
  intros H.
  assert (Hk : exists k, TiffFrame._keyframe self' = Some k
                         /\ TiffPage.oid k = TiffPage.oid kf).
  { unfold TiffFrame.set_keyframe in H.
    destruct (TiffFrame._keyframe self) as [k|] eqn:Ek.
    - destruct (Z.eqb_spec (TiffPage.oid k) (TiffPage.oid kf)) as [E|E]; [|discriminate].
      injection H as <-. exists k. auto.
    - apply rbind_Ok in H. destruct H as (len & _ & H).
      destruct (negb _); [discriminate|].
      apply rbind_Ok in H. destruct H as (c & _ & H).
      destruct c as [[o n]|].
      + apply rbind_Ok in H. destruct H as (x & _ & H). injection H as <-.
        exists kf. auto.
      + injection H as <-. exists kf. auto. }
  split; [exact Hk|].
  assert (Hagain : forall other,
            TiffFrame.set_keyframe self' other
            = if TiffPage.oid other =? TiffPage.oid kf then Ok self'
              else Raise (RuntimeError "cannot reset keyframe")).
  { intros other. destruct Hk as (k & Hk & Hoid).
    unfold TiffFrame.set_keyframe. rewrite Hk, Hoid, Z.eqb_sym. reflexivity. }
  assert (Hrest : TiffFrame.index self' = TiffFrame.index self
                  /\ TiffFrame.offset self' = TiffFrame.offset self
                  /\ (TiffFrame._keyframe self = None ->
                      forall o n, TiffPage.is_contiguous kf = Ok (Some (o, n)) ->
                        exists x,
                          TiffFrame.first_item (fst (TiffFrame._offsetscounts self)) = Ok x
                          /\ TiffFrame._offsetscounts self' = (PTuple [x], PTuple [NInt n]))).
  { unfold TiffFrame.set_keyframe in H.
    destruct (TiffFrame._keyframe self) as [k|] eqn:Ek.
    - destruct (TiffPage.oid k =? TiffPage.oid kf); [|discriminate].
      injection H as <-. split; [reflexivity|]. split; [reflexivity|]. discriminate.
    - apply rbind_Ok in H. destruct H as (len & _ & H).
      destruct (negb _); [discriminate|].
      apply rbind_Ok in H. destruct H as (c & Hc & H).
      destruct c as [[o n]|].
      + apply rbind_Ok in H. destruct H as (x & Hx & H). injection H as <-.
        split; [reflexivity|]. split; [reflexivity|].
        intros _ o' n' Hc'. rewrite Hc in Hc'. injection Hc' as <- <-.
        exists x. split; [exact Hx | reflexivity].
      + injection H as <-. split; [reflexivity|]. split; [reflexivity|].
        intros _ o' n' Hc'. rewrite Hc in Hc'. discriminate. }
  destruct Hrest as (Hi & Ho & Hc).
  split; [exact Hi|]. split; [exact Ho|].
  split; [rewrite Hagain, Z.eqb_refl; reflexivity|].
  split; [|exact Hc].
  intros other Hne. rewrite Hagain.
  destruct (Z.eqb_spec (TiffPage.oid other) (TiffPage.oid kf)); [contradiction|reflexivity].
Qed.

Lemma keyframe_set_once_witness :
  let frame := TiffFrame.mk 1 (Some 108) (PTuple [NInt 120; NInt 124], PTuple [NInt 4; NInt 4])
                            None in
  let kf := strip_page 8 c_B 4 2 [20; 24] [4; 4] in
  TiffFrame.set_keyframe frame kf
  = Ok (TiffFrame.mk 1 (Some 108) (PTuple [NInt 120], PTuple [NInt 8]) (Some kf))
  /\ forall other, TiffPage.oid other <> TiffPage.oid kf ->
       TiffFrame.set_keyframe
         (TiffFrame.mk 1 (Some 108) (PTuple [NInt 120], PTuple [NInt 8]) (Some kf)) other
       = Raise (RuntimeError "cannot reset keyframe").
Proof.
  intros frame kf. split; [reflexivity|].
  apply (keyframe_set_once frame
           (TiffFrame.mk 1 (Some 108) (PTuple [NInt 120], PTuple [NInt 8]) (Some kf))
           kf eq_refl).
Defined.


(** ** asarray: what happens before the first read, and the contiguous path *)

Lemma validation_go env (self : TiffPage.t) (a : Asarray.args) :
  Asarray.validation env self a = Ok true -> Asarray.validate a <> None.
Proof.
  unfold Asarray.validation. intros H Hv. rewrite Hv in H.
  destruct (negb _ && _); [discriminate|].
  destruct (TiffPage.dtype self); [|destruct (TiffPage.bitspersample self); discriminate].
  destruct (Asarray.DECOMPESSORS env _);
    [|destruct (Asarray.COMPRESSION_member env _); discriminate].
  destruct (match TiffPage.lookup self "SampleFormat" with
            | Some tag => Asarray.sample_formats_differ tag
            | None => Ok false
            end) as [dif|]; [|discriminate].
  simpl in H. destruct dif; [discriminate|].
  destruct (_ && _); discriminate.
Qed.

Lemma validation_only env (self : TiffPage.t) (a : Asarray.args) :
  Asarray.validate a = None -> Asarray.validation env self a <> Ok true.
Proof. intros Hv H. exact (validation_go env self a H Hv). Qed.

(** X15. [asarray] decides before it touches the channel.  With
    [validate=None] it only validates: it returns None or raises, and the
    channel and the log are as they were.  On a closed file handle with
    [reopen=False] it does the same, and for a page with data that passes
    the validation the exception is IOError. *)
Theorem asarray_decides_before_reading env tiff (self : TiffPage.t)
        (a : Asarray.args) (w : World) :
  (Asarray.validate a = None ->
   snd (Asarray.asarray env tiff self a w) = w
   /\ forall arr, fst (Asarray.asarray env tiff self a w) <> Ok (Some arr))
  /\ (fh_closed (fh w) = true -> Asarray.reopen a = false ->
      snd (Asarray.asarray env tiff self a w) = w
      /\ (forall arr, fst (Asarray.asarray env tiff self a w) <> Ok (Some arr))
      /\ (forall oc, TiffPage._offsetscounts self = Ok oc ->
            TiffPage._shape self <> [] -> product (TiffPage._shape self) <> 0 ->
            Asarray.validation env self a = Ok true ->
            fst (Asarray.asarray env tiff self a w)
            = Raise (IOError "file handle is closed"))).
Proof.
  assert (Hbody : forall oc,
            Asarray.body env tiff self oc a w
            = if Nat.eqb (length (TiffPage._shape self)) 0
                 || (product (TiffPage._shape self) =? 0)
              then (Ok None, w)
              else match Asarray.validation env self a with
                   | Raise e => (Raise e, w)
                   | Ok false => (Ok None, w)
                   | Ok true =>
                       if fh_closed (fh w) && negb (Asarray.reopen a)
                       then (Raise (IOError "file handle is closed"), w)
                       else Asarray.body env tiff self oc a w
                   end).
  { intros oc. unfold Asarray.body at 1.
    destruct (Nat.eqb _ 0 || _) eqn:E0; [reflexivity|].
    unfold bind at 1, lift at 1.
    destruct (Asarray.validation env self a) as [[|]|e] eqn:Ev; try reflexivity.
    destruct (fh_closed (fh w) && negb (Asarray.reopen a)) eqn:Ec.
    - apply andb_true_iff in Ec. destruct Ec as (Ec & Er).
      apply negb_true_iff in Er. cbn [negb].
      unfold bind at 1, get at 1. rewrite Ec, Er. reflexivity.
    - unfold Asarray.body. rewrite E0. unfold bind at 1, lift at 1. rewrite Ev.
      reflexivity. }
  assert (Hasarray : Asarray.asarray env tiff self a w
                     = match TiffPage._offsetscounts self with
                       | Ok oc => Asarray.body env tiff self (Ok oc) a w
                       | Raise e => (Raise e, w)
                       end).
  { unfold Asarray.asarray, bind, lift. destruct (TiffPage._offsetscounts self); reflexivity. }
  split.
  - intros Hv. rewrite Hasarray.
    destruct (TiffPage._offsetscounts self) as [oc|e]; [|split; [reflexivity|discriminate]].
    rewrite Hbody. destruct (_ || _); [split; [reflexivity|discriminate]|].
    pose proof (validation_only env self a Hv) as Hno.
    destruct (Asarray.validation env self a) as [[|]|e];
      [contradiction Hno; reflexivity | |]; split; try reflexivity; discriminate.
  - intros Hc Hr. rewrite Hasarray.
    destruct (TiffPage._offsetscounts self) as [oc|e].
    2:{ split; [reflexivity|]. split; [discriminate|]. discriminate. }
    rewrite Hbody, Hc, Hr. cbn [negb andb].
    split; [|split].
    + destruct (_ || _); [reflexivity|].
      destruct (Asarray.validation env self a) as [[|]|e]; reflexivity.
    + intros arr. destruct (_ || _); [discriminate|].
      destruct (Asarray.validation env self a) as [[|]|e]; discriminate.
    + intros oc' _ Hs Hp Hv.
      assert (E0 : Nat.eqb (length (TiffPage._shape self)) 0
                   || (product (TiffPage._shape self) =? 0) = false).
      { apply orb_false_iff. split.
        - destruct (TiffPage._shape self); [contradiction Hs; reflexivity|reflexivity].
        - apply Z.eqb_neq, Hp. }
      rewrite E0, Hv. reflexivity.
Qed.

Lemma product_positive (dims : list Z) :
  Forall (fun d => 0 < d) dims -> 0 < product dims.
Proof.
  induction 1 as [|d dims Hd _ IH]; [reflexivity|].
  rewrite product_cons. nia.
Qed.

Lemma length_chunks (k width : nat) (bs : list byte) : length (chunks k width bs) = k.
Proof.
  revert bs. induction k as [|k IH]; intros bs; [reflexivity|].
  simpl. f_equal. apply IH.
Qed.

Lemma length_decode_items bo (n : Z) c (bs : list byte) :
  0 <= n -> Z.of_nat (length (decode_items bo n c bs)) = n.
Proof.
  intros Hn. unfold decode_items. rewrite length_map, length_chunks. lia.
Qed.

Lemma contiguous_offsetscounts (self : TiffPage.t) (o n : Z) :
  TiffPage.is_contiguous self = Ok (Some (o, n)) ->
  TiffPage._offsetscounts self = Ok ([o], [n]).
Proof. intros H. unfold TiffPage._offsetscounts. rewrite H. reflexivity. Qed.



(** X16. A page with contiguous data is read with one seek and one read:
    with an open file handle, no [out] argument, predictor 1, a shape of
    positive dimensions and a file that holds the bytes, asarray reads
    [product(shape) * itemsize] bytes at the first data offset, whatever
    the bytecounts are, decodes them in the byte order of the file (after
    the bit reversal when the fill order is 2) and returns them with the
    squeezed shape, or with the normalized shape when the squeezed one
    does not fit or [squeeze] is off.  The file and the handle are left as
    they were. *)
Theorem asarray_contiguous_single_read env tiff (self : TiffPage.t) (a : Asarray.args)
        (w : World) (o n : Z) (c : fmtchar) :
  TiffPage.is_contiguous self = Ok (Some (o, n)) ->
  TiffPage.dtype self = Some c ->
  Asarray.validation env self a = Ok true ->
  Asarray.out a = Asarray.OutNone ->
  fh_closed (fh w) = false ->
  TiffPage._shape self <> [] ->
  Forall (fun d => 0 < d) (TiffPage._shape self) ->
  TiffPage.predictor self = 1 ->
  (TiffPage.is_tiled self = true ->
   TiffPage.tilewidth self <> 0 /\ TiffPage.tiledepth self <> 0) ->
  0 <= o ->
  let count := product (TiffPage._shape self) in
  let size := count * itemsize c in
  o + size <= Z.of_nat (length (fh_data (fh w))) ->
  let bytes := peek (fh_data (fh w)) o size in
  let data := decode_items (TIFF.byteorder_ tiff) count c
                (if TiffPage.fillorder self =? 2
                 then Asarray.bitorder_decode env bytes else bytes) in
  let fits := Asarray.squeeze a && Asarray.shape_ok (TiffPage.shape self) count in
  let w' := snd (Asarray.asarray env tiff self a w) in
  fst (Asarray.asarray env tiff self a w)
  = Ok (Some (Asarray.mkarr (if fits then TiffPage.shape self else TiffPage._shape self)
                            data false))
  /\ reads w' = reads w ++ [(o, size)]
  /\ fh_data (fh w') = fh_data (fh w)
  /\ fh_closed (fh w') = false
  /\ log w' = log w ++ (if Asarray.squeeze a && negb fits
                        then [("TiffPage.asarray: failed to reshape %s to %s", [])]
                        else []).
Proof.
  intros Hcont Hdt Hval Hout Hopen Hne Hpos Hpred Htiled Ho count size Hfile bytes data fits w'.
  assert (Hcount : 0 < count) by (apply product_positive, Hpos).
  assert (Hitem : 0 < itemsize c) by (destruct c; simpl; lia).
  assert (Hsize : 0 <= size) by (unfold size; nia).
  assert (E0 : Nat.eqb (length (TiffPage._shape self)) 0
               || (product (TiffPage._shape self) =? 0) = false).
  { apply orb_false_iff. split.
    - destruct (TiffPage._shape self); [contradiction Hne; reflexivity|reflexivity].
    - apply Z.eqb_neq. fold count. lia. }
  assert (Hnn : forallb (fun d => 0 <=? d) (TiffPage._shape self) = true).
  { apply forallb_forall. intros d Hd. rewrite Forall_forall in Hpos.
    specialize (Hpos d Hd). apply Z.leb_le. lia. }
  assert (Hlen : Z.of_nat (length bytes) = size).
  { unfold bytes. rewrite length_peek by lia. lia. }
  set (W1 := mkWorld (mkFileHandle (fh_data (fh w)) (o + size) (fh_size (fh w))
                        (fh_is_file (fh w)) false
                        (fh_events (fh w) ++ [EvSeek o] ++ [EvRead o size]))
                     (log w)).
  assert (Hread : (fh_seek o ;;;
                   d <- Asarray.read_array env (TIFF.byteorder_ tiff) c
                          (product (TiffPage._shape self)) None
                          (TiffPage.fillorder self =? 2) ;;
                   ret (d, false)) w = (Ok (data, false), W1)).
  { unfold bind at 1. unfold fh_seek.
    destruct (Z.ltb_spec o 0); [lia|].
    unfold bind at 1. unfold Asarray.read_array. unfold bind at 1, get at 1.
    fold count. fold size.
    destruct (Z.ltb_spec count 0); [lia|].
    rewrite Z.eqb_refl. cbn [negb].
    unfold bind at 1. unfold fh_read. cbn [fh fh_data fh_pos fh_size fh_is_file
                                            fh_closed fh_events log].
    destruct (Z.ltb_spec size 0); [lia|].
    assert (Hb : firstn (Z.to_nat size) (skipn (Z.to_nat o) (fh_data (fh w))) = bytes).
    { unfold bytes, peek. destruct (Z.ltb_spec size 0); [lia|reflexivity]. }
    rewrite Hb, Hlen, Z.eqb_refl. cbn [negb].
    unfold ret, W1. rewrite Hopen, <- app_assoc. reflexivity. }
  assert (Hdata : Z.of_nat (length data) = count).
  { unfold data. apply length_decode_items. lia. }
  assert (Hok : Asarray.shape_ok (TiffPage._shape self) (Z.of_nat (length data)) = true).
  { unfold Asarray.shape_ok. rewrite Hnn, Hdata. apply Z.eqb_refl. }
  assert (Hrun : Asarray.asarray env tiff self a w
                 = (Ok (Some (Asarray.mkarr
                                (if fits then TiffPage.shape self else TiffPage._shape self)
                                data false)),
                    mkWorld (fh W1)
                            (log w ++ (if Asarray.squeeze a && negb fits
                                       then [("TiffPage.asarray: failed to reshape %s to %s",
                                              [])]
                                       else [])))).
  { unfold Asarray.asarray. unfold bind at 1, lift at 1.
    rewrite (contiguous_offsetscounts self o n Hcont).
    unfold Asarray.body. rewrite E0.
    unfold bind at 1, lift at 1. rewrite Hval. cbn [negb].
    unfold bind at 1, get at 1. rewrite Hopen.
    unfold bind at 1, ret at 1. rewrite Hdt, Hout, Hcont, Hpred.
    assert (Hg : exists g,
              (if TiffPage.is_tiled self
               then
                 tw <- lift (floordiv (TiffPage.imagewidth self + TiffPage.tilewidth self - 1)
                                      (TiffPage.tilewidth self)) ;;
                 tl <- lift (floordiv (TiffPage.imagelength self + TiffPage.tilelength self - 1)
                                      (TiffPage.tilelength self)) ;;
                 td <- lift (floordiv (TiffPage.imagedepth self + TiffPage.tiledepth self - 1)
                                      (TiffPage.tiledepth self)) ;;
                 ret ([td; tl; tw],
                      [TiffPage.tiledepth self; TiffPage.tilelength self;
                       TiffPage.tilewidth self; last (TiffPage._shape self) 0],
                      TiffPage.tilewidth self)
               else ret ([], [], TiffPage.imagewidth self)) w = (Ok g, w)).
    { destruct (TiffPage.is_tiled self) eqn:Et; [|eexists; reflexivity].
      destruct (is_contiguous_tiled self o n Hcont Et) as (_ & Hl0 & _).
      destruct (Htiled eq_refl) as (Hw0 & Hd0).
      unfold bind, lift, ret, floordiv.
      destruct (Z.eqb_spec (TiffPage.tilewidth self) 0); [contradiction|].
      destruct (Z.eqb_spec (TiffPage.tilelength self) 0); [contradiction|].
      destruct (Z.eqb_spec (TiffPage.tiledepth self) 0); [contradiction|].
      eexists. reflexivity. }
    destruct Hg as ([[tiledshape tileshape] runlen] & Hg).
    unfold bind at 1. rewrite Hg. cbv beta iota.
    unfold bind at 1, ret at 1.
    unfold bind at 1, lift at 1.
    cbv beta iota.
    unfold bind at 1.
    unfold bind at 1, ret at 1.
    unfold bind at 1, lift at 1.
    unfold bind at 1, lift at 1.
    change (py_index (fst ([o], [n])) 0) with (Ok o).
    cbv beta iota.
    rewrite Hread. cbv beta iota. rewrite Hok. cbn [negb].
    change (negb (1 =? 1)) with false. cbn [andb].
    unfold bind at 1, ret at 1.
    unfold fits. rewrite Hdata.
    destruct (Asarray.squeeze a); cbn [andb].
    - destruct (Asarray.shape_ok (TiffPage.shape self) count); cbn [negb].
      + unfold bind, ret. rewrite app_nil_r. unfold W1. reflexivity.
      + unfold bind, ret, log_warning, modify. reflexivity.
    - unfold bind, ret. rewrite app_nil_r. unfold W1. reflexivity. }
  unfold w'. rewrite Hrun. cbn [fst snd fh log].
  split; [reflexivity|].
  split.
  { unfold reads, W1. cbn [fh fh_events]. rewrite !reads_of_app. reflexivity. }
  split; [reflexivity|]. split; reflexivity.
Qed.

Lemma asarray_contiguous_single_read_witness :
  let page := strip_page 8 c_B 4 2 [8; 12] [4; 0] in
  let w := World_of_bytes two_rows_file in
  fst (Asarray.asarray plain_env TIFF.CLASSIC_LE page default_args w)
  = Ok (Some (Asarray.mkarr [2; 4]
                (map NInt [1; 2; 3; 4; 9; 9; 9; 9]) false))
  /\ reads (snd (Asarray.asarray plain_env TIFF.CLASSIC_LE page default_args w)) = [(8, 8)].
Proof.
  intros page w.
  destruct (asarray_contiguous_single_read plain_env TIFF.CLASSIC_LE page default_args w
              8 4 c_B) as (H1 & H2 & _).
  - reflexivity.
  - reflexivity.
  - reflexivity.
  - reflexivity.
  - reflexivity.
  - discriminate.
  - repeat constructor.
  - reflexivity.
  - discriminate.
  - lia.
  - vm_compute. discriminate.
  - split; [exact H1 | exact H2].
Defined.


(** X17. With [out='memmap'] and a memory-mappable page, asarray maps the
    data and reads nothing: for an open file handle, a shape of positive
    dimensions and a file that holds the bytes, it returns a memory map of
    the [product(shape) * itemsize] bytes at the first data offset,
    decoded in the byte order of the file.  The one thing that happens on
    the channel is the seek to the end of the file with which
    [numpy.memmap] measures it: afterwards the position is the length of
    the file, whatever it was before. *)
Theorem asarray_memmap_reads_nothing env tiff (self : TiffPage.t) (a : Asarray.args)
        (w : World) (o n : Z) (c : fmtchar) :
  Asarray.out a = Asarray.OutMemmap ->
  TiffPage.is_memmappable (TiffPage.mkParent tiff (fh w)) self = Ok true ->
  TiffPage.is_contiguous self = Ok (Some (o, n)) ->
  TiffPage.dtype self = Some c ->
  Asarray.validation env self a = Ok true ->
  fh_closed (fh w) = false ->
  TiffPage._shape self <> [] ->
  Forall (fun d => 0 < d) (TiffPage._shape self) ->
  (TiffPage.is_tiled self = true ->
   TiffPage.tilewidth self <> 0 /\ TiffPage.tiledepth self <> 0) ->
  0 <= o ->
  let count := product (TiffPage._shape self) in
  let size := count * itemsize c in
  let flen := Z.of_nat (length (fh_data (fh w))) in
  o + size <= flen ->
  let data := decode_items (TIFF.byteorder_ tiff) count c (peek (fh_data (fh w)) o size) in
  let fits := Asarray.squeeze a && Asarray.shape_ok (TiffPage.shape self) count in
  let w' := snd (Asarray.asarray env tiff self a w) in
  fst (Asarray.asarray env tiff self a w)
  = Ok (Some (Asarray.mkarr (if fits then TiffPage.shape self else TiffPage._shape self)
                            data true))
  /\ fh w' = mkFileHandle (fh_data (fh w)) flen (fh_size (fh w)) (fh_is_file (fh w))
                          (fh_closed (fh w)) (fh_events (fh w) ++ [EvSeek flen])
  /\ reads w' = reads w
  /\ o mod itemsize c = 0
  /\ log w' = log w ++ (if Asarray.squeeze a && negb fits
                        then [("TiffPage.asarray: failed to reshape %s to %s", [])]
                        else []).
Proof.
  intros Hout Hmm Hcont Hdt Hval Hopen Hne Hpos Htiled Ho count size flen Hfile data fits w'.
  destruct (is_memmappable_true _ _ Hmm) as (Hfile' & Hfinal & (o' & n' & c' & Hc' & Hd' & Hal)).
  cbn [TiffPage.filehandle] in Hfile'.
  rewrite Hcont in Hc'. injection Hc' as <- <-.
  rewrite Hdt in Hd'. injection Hd' as <-.
  destruct (is_final_true self Hfinal) as (_ & _ & Hpred & _).
  assert (Hcount : 0 < count) by (apply product_positive, Hpos).
  assert (Hitem : 0 < itemsize c) by (destruct c; simpl; lia).
  assert (Hsize : 0 <= size) by (unfold size; nia).
  assert (E0 : Nat.eqb (length (TiffPage._shape self)) 0
               || (product (TiffPage._shape self) =? 0) = false).
  { apply orb_false_iff. split.
    - destruct (TiffPage._shape self); [contradiction Hne; reflexivity|reflexivity].
    - apply Z.eqb_neq. fold count. lia. }
  assert (Hnn : forallb (fun d => 0 <=? d) (TiffPage._shape self) = true).
  { apply forallb_forall. intros d Hd. rewrite Forall_forall in Hpos.
    specialize (Hpos d Hd). apply Z.leb_le. lia. }
  set (F1 := mkFileHandle (fh_data (fh w)) flen (fh_size (fh w)) (fh_is_file (fh w))
                          (fh_closed (fh w)) (fh_events (fh w) ++ [EvSeek flen])).
  assert (Hmap : Asarray.memmap_array (TIFF.byteorder_ tiff) c (TiffPage._shape self) o w
                 = (Ok data, mkWorld F1 (log w))).
  { unfold Asarray.memmap_array. unfold bind at 1, get at 1.
    rewrite Hfile'. cbn [negb].
    unfold bind at 1, fh_seek at 1. fold flen.
    destruct (Z.ltb_spec flen 0); [unfold flen in *; lia|].
    destruct (Z.ltb_spec o 0); [lia|]. rewrite Hnn. cbn [negb orb].
    fold count. fold size.
    assert (Hb : py_slice (fh_data (fh w)) o (o + size) = peek (fh_data (fh w)) o size).
    { unfold py_slice, peek. destruct (Z.ltb_spec size 0); [lia|].
      replace (o + size - o) with size by lia. reflexivity. }
    rewrite Hb, length_peek by lia. fold flen.
    replace (Z.max 0 (Z.min size (flen - o))) with size by lia.
    rewrite Z.eqb_refl. reflexivity. }
  assert (Hdata : Z.of_nat (length data) = count).
  { unfold data. apply length_decode_items. lia. }
  assert (Hok : Asarray.shape_ok (TiffPage._shape self) (Z.of_nat (length data)) = true).
  { unfold Asarray.shape_ok. rewrite Hnn, Hdata. apply Z.eqb_refl. }
  assert (Hrun : Asarray.asarray env tiff self a w
                 = (Ok (Some (Asarray.mkarr
                                (if fits then TiffPage.shape self else TiffPage._shape self)
                                data true)),
                    mkWorld F1
                            (log w ++ (if Asarray.squeeze a && negb fits
                                       then [("TiffPage.asarray: failed to reshape %s to %s",
                                              [])]
                                       else [])))).
  { unfold Asarray.asarray. unfold bind at 1, lift at 1.
    rewrite (contiguous_offsetscounts self o n Hcont).
    unfold Asarray.body. rewrite E0.
    unfold bind at 1, lift at 1. rewrite Hval. cbn [negb].
    unfold bind at 1, get at 1. rewrite Hopen.
    unfold bind at 1, ret at 1. rewrite Hdt, Hout, Hmm, Hcont, Hpred.
    assert (Hg : exists g,
              (if TiffPage.is_tiled self
               then
                 tw <- lift (floordiv (TiffPage.imagewidth self + TiffPage.tilewidth self - 1)
                                      (TiffPage.tilewidth self)) ;;
                 tl <- lift (floordiv (TiffPage.imagelength self + TiffPage.tilelength self - 1)
                                      (TiffPage.tilelength self)) ;;
                 td <- lift (floordiv (TiffPage.imagedepth self + TiffPage.tiledepth self - 1)
                                      (TiffPage.tiledepth self)) ;;
                 ret ([td; tl; tw],
                      [TiffPage.tiledepth self; TiffPage.tilelength self;
                       TiffPage.tilewidth self; last (TiffPage._shape self) 0],
                      TiffPage.tilewidth self)
               else ret ([], [], TiffPage.imagewidth self)) w = (Ok g, w)).
    { destruct (TiffPage.is_tiled self) eqn:Et; [|eexists; reflexivity].
      destruct (is_contiguous_tiled self o n Hcont Et) as (_ & Hl0 & _).
      destruct (Htiled eq_refl) as (Hw0 & Hd0).
      unfold bind, lift, ret, floordiv.
      destruct (Z.eqb_spec (TiffPage.tilewidth self) 0); [contradiction|].
      destruct (Z.eqb_spec (TiffPage.tilelength self) 0); [contradiction|].
      destruct (Z.eqb_spec (TiffPage.tiledepth self) 0); [contradiction|].
      eexists. reflexivity. }
    destruct Hg as ([[tiledshape tileshape] runlen] & Hg).
    unfold bind at 1. rewrite Hg. cbv beta iota.
    unfold bind at 1, lift at 1.
    unfold bind at 1, lift at 1.
    cbv beta iota.
    unfold bind at 1.
    unfold bind at 1, lift at 1.
    unfold bind at 1, lift at 1.
    change (py_index (fst ([o], [n])) 0) with (Ok o).
    cbv beta iota.
    unfold bind at 1. rewrite Hmap. unfold ret at 1.
    cbv beta iota. rewrite Hok. cbn [negb].
    change (negb (1 =? 1)) with false. cbn [andb].
    unfold bind at 1, ret at 1.
    unfold fits. rewrite Hdata.
    destruct (Asarray.squeeze a); cbn [andb].
    - destruct (Asarray.shape_ok (TiffPage.shape self) count); cbn [negb].
      + unfold bind, ret. rewrite app_nil_r. reflexivity.
      + unfold bind, ret, log_warning, modify. reflexivity.
    - unfold bind, ret. rewrite app_nil_r. reflexivity. }
  unfold w'. rewrite Hrun. cbn [fst snd fh log].
  split; [reflexivity|]. split; [reflexivity|].
  split.
  { unfold reads, F1. cbn [fh fh_events]. rewrite reads_of_app. cbn [reads_of flat_map].
    apply app_nil_r. }
  split; [exact Hal | reflexivity].
Qed.

Lemma asarray_memmap_reads_nothing_witness :
  let page := strip_page 8 c_B 4 2 [8; 12] [4; 4] in
  let w := World_of_bytes two_rows_file in
  let a := Asarray.mkArgs Asarray.OutMemmap true false None None (Some true) in
  fst (Asarray.asarray plain_env TIFF.CLASSIC_LE page a w)
  = Ok (Some (Asarray.mkarr [2; 4] (map NInt [1; 2; 3; 4; 9; 9; 9; 9]) true))
  /\ fh_pos (fh (snd (Asarray.asarray plain_env TIFF.CLASSIC_LE page a w))) = 16
  /\ reads (snd (Asarray.asarray plain_env TIFF.CLASSIC_LE page a w)) = [].
Proof.
  intros page w a.
  destruct (asarray_memmap_reads_nothing plain_env TIFF.CLASSIC_LE page a w 8 8 c_B)
    as (H1 & H2 & H3 & _).
  - reflexivity.
  - reflexivity.
  - reflexivity.
  - reflexivity.
  - reflexivity.
  - reflexivity.
  - discriminate.
  - repeat constructor.
  - discriminate.
  - lia.
  - vm_compute. discriminate.
  - split; [exact H1|]. split; [rewrite H2; reflexivity | exact H3].
Defined.

(** ** The offset to the first page *)

Section first_offset.

Variable new_page : Z -> M World TiffPage.t.

Lemma header_position (is_ndpi : bool) (data : list byte) tiff (w1 : World) :
  TiffFile.read_header is_ndpi (World_of_bytes data) = (Ok tiff, w1) ->
  module_descriptor tiff
  /\ fh_pos (fh w1) = (if TIFF.version tiff =? 43 then 8 else 4)
  /\ fh_data (fh w1) = data
  /\ fh_size (fh w1) = Z.of_nat (length data)
  /\ fh_closed (fh w1) = false
  /\ log w1 = []
  /\ reads w1 = (0, 4) :: (if TIFF.version tiff =? 43 then [(4, 4)] else []).
Proof.
  unfold TiffFile.read_header, bind, fh_seek, fh_read, py_slice.
  destruct data as [|m0 [|m1 [|v0 [|v1 rest]]]].
  - simpl. discriminate.
  - simpl. destruct m0; simpl; discriminate.
  - simpl. destruct (TiffFile.order_mark [m0; m1]); simpl; discriminate.
  - simpl. destruct (TiffFile.order_mark [m0; m1]); simpl; discriminate.
  - simpl. destruct (TiffFile.order_mark [m0; m1]) as [bo|]; [|simpl; discriminate].
    simpl. destruct (bytes_to_Z bo [v0; v1] =? 43).
    + destruct rest as [|o0 [|o1 [|z0 [|z1 rest']]]]; simpl; try discriminate.
      match goal with
      | |- context [negb (?z =? 0) || negb (?o =? 8)] =>
          destruct (negb (z =? 0) || negb (o =? 8)); [simpl; discriminate|]
      end.
      destruct bo; simpl; intros H; injection H as <- <-; simpl;
        unfold module_descriptor; simpl; repeat split; auto 10.
    + destruct (bytes_to_Z bo [v0; v1] =? 42); [|simpl; discriminate].
      destruct bo; [destruct is_ndpi|]; simpl; intros H; injection H as <- <-; simpl;
        unfold module_descriptor; simpl; repeat split; auto 10.
Qed.

Lemma init_reads_offset (tiff : TIFF.descriptor) (scanimage : bool) (w1 : World) :
  let pos := fh_pos (fh w1) in
  let size := TIFF.ifdoffsetsize tiff in
  let w2 := snd (fh_read size w1) in
  TiffPages_init.__init__ new_page tiff scanimage w1
  = match next_at tiff (fh_data (fh w1)) pos with
    | Raise e => (Raise e, w2)
    | Ok offset =>
        if offset =? 0 then
          let w := snd (log_warning "TiffPages: file contains no pages" [] w2) in
          (Ok (TiffPages.mk w tiff false [] true (Some pos) []), w)
        else if offset >=? fh_size (fh w1) then
          let w := snd (log_warning "TiffPages: invalid page offset (%i)" [offset] w2) in
          (Ok (TiffPages.mk w tiff false [] true (Some pos) []), w)
        else
          match new_page 0 (snd (fh_seek offset w2)) with
          | (Raise e, w) => (Raise e, w)
          | (Ok page, w) =>
              (Ok (TiffPages.mk w tiff scanimage [TiffPages.SlotPage page] false
                                (Some pos) []), w)
          end
    end.
Proof.
  intros pos size w2.
  unfold TiffPages_init.__init__, bind at 1. unfold fh_tell at 1.
  unfold bind at 1.
  assert (Hr : fh_read size w1 = (Ok (peek (fh_data (fh w1)) pos size), w2)).
  { unfold w2, fh_read, peek. reflexivity. }
  fold size. rewrite Hr. unfold bind at 1, lift at 1.
  assert (Hn : unpack (TIFF.byteorder_ tiff) (TIFF.ifdoffsetformat tiff)
                      (peek (fh_data (fh w1)) pos size)
               = next_at tiff (fh_data (fh w1)) pos) by reflexivity.
  rewrite Hn.
  destruct (next_at tiff (fh_data (fh w1)) pos) as [offset|e] eqn:En; [|reflexivity].
  unfold bind at 1, get at 1.
  assert (Hs2 : fh_size (fh w2) = fh_size (fh w1)) by reflexivity.
  rewrite Hs2.
  destruct (offset =? 0) eqn:E0; [reflexivity|].
  destruct (offset >=? fh_size (fh w1)) eqn:E1; [reflexivity|].
  unfold bind at 1.
  pose proof (next_at_nonneg _ _ _ _ En) as Hnn.
  unfold fh_seek at 1 2. destruct (Z.ltb_spec offset 0) as [|_]; [lia|].
  cbn [snd]. unfold bind at 1.
  destruct (new_page 0 _) as [[page|e] w]; reflexivity.
Qed.

Lemma next_at_holds tiff (data : list byte) (pos : Z) :
  module_descriptor tiff -> 0 <= pos ->
  match next_at tiff data pos with
  | Ok _ => pos + TIFF.ifdoffsetsize tiff <= Z.of_nat (length data)
  | Raise e => e = struct_error
               /\ Z.of_nat (length data) < pos + TIFF.ifdoffsetsize tiff
  end.
Proof.
  intros Hm Hp.
  assert (Hc : calcsize (TIFF.ifdoffsetformat tiff) = TIFF.ifdoffsetsize tiff
               /\ 0 < TIFF.ifdoffsetsize tiff).
  { unfold module_descriptor in Hm. simpl in Hm.
    destruct Hm as [<-|[<-|[<-|[<-|[<-|[]]]]]]; simpl; lia. }
  destruct Hc as (Hc & Hpos).
  unfold next_at, unpack. rewrite length_peek by lia. rewrite Hc.
  destruct (Z.eqb_spec (Z.max 0 (Z.min (TIFF.ifdoffsetsize tiff)
                                       (Z.of_nat (length data) - pos)))
                       (TIFF.ifdoffsetsize tiff)); [lia|split; [reflexivity|lia]].
Qed.

(** X18. Opening a file: after the header the channel is at the offset to
    the first page, position 4 in a classic file and 8 in a BigTIFF file,
    and [TiffPages] reads that field.  A file that ends inside the field
    raises struct.error.  An offset of 0, or one that is not smaller than
    the file size, gives no exception but one warning and an empty page
    list: the index is complete, [bool(pages)] is False, [len(pages)] is 0,
    every [_seek] raises IndexError, and nothing but the header and the
    field was read.  With any other offset the page constructor runs with
    the channel at that offset, and its page is the only slot. *)
Theorem first_offset_decides_pages (is_ndpi scanimage : bool) (data : list byte)
        (tiff : TIFF.descriptor) (w1 : World) :
  TiffFile.read_header is_ndpi (World_of_bytes data) = (Ok tiff, w1) ->
  let pos := if TIFF.version tiff =? 43 then 8 else 4 in
  let size := TIFF.ifdoffsetsize tiff in
  let header := (0, 4) :: (if TIFF.version tiff =? 43 then [(4, 4)] else []) in
  let r := TiffPages_init.__init__ new_page tiff scanimage w1 in
  fh_pos (fh w1) = pos
  /\ match next_at tiff data pos with
     | Raise _ => fst r = Raise struct_error
                  /\ Z.of_nat (length data) < pos + size
     | Ok offset =>
         pos + size <= Z.of_nat (length data)
         /\ if (offset =? 0) || (offset >=? Z.of_nat (length data)) then
              exists s, r = (Ok s, TiffPages.world s)
                /\ TiffPages.pages s = []
                /\ TiffPages_init.__bool__ s = false
                /\ log (TiffPages.world s)
                   = [if offset =? 0
                      then ("TiffPages: file contains no pages", [])
                      else ("TiffPages: invalid page offset (%i)", [offset])]
                /\ reads (TiffPages.world s) = header ++ [(pos, size)]
                /\ fh_data (fh (TiffPages.world s)) = data
                /\ TiffPages.__len__ s = (Ok 0, s)
                /\ forall index maxpages,
                     TiffPages._seek index maxpages s
                     = (Raise (IndexError "index out of range"), s)
            else
              exists w3, fh_pos (fh w3) = offset
                /\ fh_data (fh w3) = data
                /\ fh_closed (fh w3) = false
                /\ log w3 = []
                /\ reads w3 = header ++ [(pos, size)]
                /\ match new_page 0 w3 with
                   | (Raise e, w) => r = (Raise e, w)
                   | (Ok page, w) =>
                       r = (Ok (TiffPages.mk w tiff scanimage [TiffPages.SlotPage page]
                                             false (Some pos) []), w)
                   end
     end.
Proof.
  intros H pos size header r.
  destruct (header_position _ _ _ _ H)
    as (Hmd & Hpos & Hdata & Hsize & Hclosed & Hlog & Hreads).
  fold pos in Hpos. fold header in Hreads.
  split; [exact Hpos|].
  assert (Hp0 : 0 <= pos) by (unfold pos; destruct (_ =? 43); lia).
  pose proof (next_at_holds tiff data pos Hmd Hp0) as Hholds.
  pose proof (init_reads_offset tiff scanimage w1) as Hinit.
  cbv zeta in Hinit. rewrite Hdata, Hpos, Hsize in Hinit. fold size in Hinit. fold r in Hinit.
  assert (Hw2 : let w2 := snd (fh_read size w1) in
                fh_data (fh w2) = data /\ fh_closed (fh w2) = false
                /\ log w2 = [] /\ reads w2 = header ++ [(pos, size)]
                /\ fh_size (fh w2) = Z.of_nat (length data)).
  { unfold fh_read, reads. cbn [snd fh fh_data fh_closed log fh_events fh_size].
    rewrite reads_of_app. fold (reads w1). rewrite Hreads, Hpos. simpl. auto. }
  cbv zeta in Hw2. destruct Hw2 as (Hd2 & Hc2 & Hl2 & Hr2 & Hs2).
  set (w2 := snd (fh_read size w1)) in *.
  destruct (next_at tiff data pos) as [offset|e] eqn:En.
  - split; [exact Hholds|].
    destruct (Z.eqb_spec offset 0) as [E0|E0].
    + cbn [orb].
      eexists. split; [exact Hinit|].
      unfold log_warning, modify, TiffPages_init.__bool__.
      cbn [snd TiffPages.pages TiffPages.world fh log length].
      rewrite Hl2. repeat split; auto.
    + cbn [orb]. destruct (offset >=? Z.of_nat (length data)) eqn:E1.
      * eexists. split; [exact Hinit|].
        unfold log_warning, modify, TiffPages_init.__bool__.
        cbn [snd TiffPages.pages TiffPages.world fh log length].
        rewrite Hl2. repeat split; auto.
      * pose proof (next_at_nonneg _ _ _ _ En) as Hnn.
        exists (snd (fh_seek offset w2)).
        unfold fh_seek at 1 2 3 4 5. destruct (Z.ltb_spec offset 0) as [|_]; [lia|].
        cbn [snd fh fh_pos fh_data fh_closed log].
        repeat split; auto.
        -- unfold reads. cbn [fh fh_events]. rewrite reads_of_app. fold (reads w2).
           rewrite Hr2. change (reads_of [EvSeek offset]) with (@nil (Z * Z)).
           apply app_nil_r.
        -- destruct (new_page 0 _) as [[page|e] w]; exact Hinit.
  - destruct Hholds as (-> & Hlen). split; [|exact Hlen].
    rewrite Hinit. reflexivity.
Qed.

End first_offset.

(** A BigTIFF header followed by the offset 256 in a file of 16 bytes. *)
Definition pageless_file : list byte :=
  [x4d; x4d; x00; x2b; x00; x08; x00; x00;
   x00; x00; x00; x00; x00; x00; x01; x00].

Lemma first_offset_decides_pages_witness :
  exists w1 s,
    TiffFile.read_header false (World_of_bytes pageless_file) = (Ok TIFF.BIG_BE, w1)
    /\ TiffPages_init.__init__ (fun _ => ret default_page) TIFF.BIG_BE true w1
       = (Ok s, TiffPages.world s)
    /\ TiffPages.pages s = []
    /\ log (TiffPages.world s) = [("TiffPages: invalid page offset (%i)", [256])]
    /\ reads (TiffPages.world s) = [(0, 4); (4, 4); (8, 8)]
    /\ TiffPages.__len__ s = (Ok 0, s).
Proof.
  eexists.
  pose proof (first_offset_decides_pages (fun _ => ret default_page) false true
                pageless_file TIFF.BIG_BE _ eq_refl) as (_ & Hm).
  cbv zeta in Hm.
  change (next_at TIFF.BIG_BE pageless_file
            (if TIFF.version TIFF.BIG_BE =? 43 then 8 else 4)) with (Ok (A:=Z) 256) in Hm.
  cbv beta iota in Hm.
  change ((256 =? 0) || (256 >=? Z.of_nat (length pageless_file))) with true in Hm.
  cbv beta iota in Hm.
  destruct Hm as (_ & s & Hr & Hp & _ & Hl & Hrd & _ & Hlen & _).
  exists s. split; [reflexivity|]. split; [exact Hr|]. split; [exact Hp|].
  split; [exact Hl|]. split; [exact Hrd|]. exact Hlen.
Defined.

(** ** Integer values in the inline field of a tag *)

(** [struct.pack] of one unsigned integer in [n] bytes. *)
Definition pack (bo : byteorder) (n : nat) (z : Z) : list byte :=
  match bo with
  | LittleEndian => le_bytes n z
  | BigEndian => rev (le_bytes n z)
  end.

(** The header of a directory entry: code, data type, count, and the
    value-or-offset field. *)
Definition tag_header (tiff : TIFF.descriptor) (code type_ count : Z)
           (field : list byte) : list byte :=
  let bo := TIFF.byteorder_ tiff in
  pack bo 2 code ++ pack bo 2 type_
  ++ pack bo (Z.to_nat (TIFF.offsetsize tiff)) count ++ field.

Lemma length_le_bytes (n : nat) (z : Z) : length (le_bytes n z) = n.
Proof. revert z. induction n as [|n IH]; intros z; simpl; [reflexivity|]. now rewrite IH. Qed.

Lemma length_pack (bo : byteorder) (n : nat) (z : Z) : length (pack bo n z) = n.
Proof. destruct bo; unfold pack; [|rewrite length_rev]; apply length_le_bytes. Qed.

Lemma le_to_Z_le_bytes (n : nat) (z : Z) :
  0 <= z < 256 ^ Z.of_nat n -> le_to_Z (le_bytes n z) = z.
Proof.
  revert z. induction n as [|n IH]; intros z Hz.
  - simpl in *. lia.
  - cbn [le_bytes le_to_Z].
    assert (Hm : 0 <= z mod 256 < 256) by (apply Z.mod_pos_bound; lia).
    assert (Hb : Byte.to_N (match Byte.of_N (Z.to_N (z mod 256)) with
                            | Some b => b
                            | None => x00
                            end) = Z.to_N (z mod 256)).
    { destruct (Byte.of_N (Z.to_N (z mod 256))) as [b|] eqn:E.
      - apply Byte.to_of_N. exact E.
      - apply Byte.of_N_None_iff in E. lia. }
    rewrite Hb, Z2N.id by lia.
    rewrite IH.
    + pose proof (Z.div_mod z 256). lia.
    + rewrite Nat2Z.inj_succ, Z.pow_succ_r in Hz by lia.
      split; [apply Z.div_pos; lia|].
      apply Z.div_lt_upper_bound; lia.
Qed.

Lemma bytes_to_Z_pack (bo : byteorder) (n : nat) (z : Z) :
  0 <= z < 256 ^ Z.of_nat n -> bytes_to_Z bo (pack bo n z) = z.
Proof.
  intros Hz. destruct bo; unfold bytes_to_Z, pack.
  - apply le_to_Z_le_bytes, Hz.
  - rewrite rev_involutive. apply le_to_Z_le_bytes, Hz.
Qed.

Lemma chunks_concat (k : nat) (xss : list (list byte)) (rest : list byte) :
  Forall (fun xs => length xs = k) xss ->
  chunks (length xss) k (concat xss ++ rest) = xss.
Proof.
  induction 1 as [|xs xss Hx _ IH]; [reflexivity|].
  cbn [length chunks concat]. rewrite <- app_assoc.
  rewrite firstn_app, <- Hx, firstn_all, Nat.sub_diag, firstn_O, app_nil_r.
  rewrite skipn_app, skipn_all, Nat.sub_diag, skipn_O, app_nil_l.
  now rewrite Hx, IH.
Qed.

Lemma length_concat_fixed (k : nat) (xss : list (list byte)) :
  Forall (fun xs => length xs = k) xss ->
  length (concat xss) = (length xss * k)%nat.
Proof.
  induction 1 as [|xs xss Hx _ IH]; [reflexivity|].
  cbn [concat length]. rewrite length_app, Hx, IH. lia.
Qed.

Lemma firstn_app_exact {A} (xs ys : list A) (n : nat) :
  length xs = n -> firstn n (xs ++ ys) = xs.
Proof.
  intros <-. rewrite firstn_app, Nat.sub_diag, firstn_O, app_nil_r. apply firstn_all.
Qed.

Lemma skipn_app_exact {A} (xs ys : list A) (n : nat) :
  length xs = n -> skipn n (xs ++ ys) = ys.
Proof.
  intros <-. rewrite skipn_app, Nat.sub_diag, skipn_O, skipn_all. reflexivity.
Qed.

Lemma DATA_FORMATS_range (type_ : Z) (dt : dtype_fmt) :
  TIFF.DATA_FORMATS type_ = Some dt -> 1 <= type_ <= 18.
Proof.
  unfold TIFF.DATA_FORMATS.
  destruct type_ as [|p|p]; try discriminate.
  do 6 (try destruct p as [p|p|]; try discriminate); intros _; lia.
Qed.

Lemma decode_packed (bo : byteorder) (c : fmtchar) (vs : list Z) :
  c = c_H \/ c = c_I \/ c = c_Q ->
  Forall (fun v => 0 <= v < 256 ^ itemsize c) vs ->
  decode_items bo (Z.of_nat (length vs)) c
    (concat (map (pack bo (Z.to_nat (itemsize c))) vs))
  = map NInt vs.
Proof.
  intros Hc Hvs. unfold decode_items. rewrite Nat2Z.id.
  pose proof (chunks_concat (Z.to_nat (itemsize c))
                (map (pack bo (Z.to_nat (itemsize c))) vs) []) as Hch.
  rewrite length_map, app_nil_r in Hch. rewrite Hch.
  - rewrite map_map. apply map_ext_in. intros v Hv.
    rewrite Forall_forall in Hvs. specialize (Hvs v Hv).
    unfold decode_item.
    rewrite bytes_to_Z_pack.
    + destruct Hc as [-> | [-> | ->]]; reflexivity.
    + rewrite Z2Nat.id; [exact Hvs|]. destruct c; simpl; lia.
  - apply Forall_forall. intros xs Hxs. apply in_map_iff in Hxs.
    destruct Hxs as (v & Hv' & _). subst xs. apply length_pack.
Qed.

(** X19. An entry whose unsigned SHORT, LONG or LONG8 values fit the
    inline field decodes to the integers that were packed into it, in the
    byte order of the file, whatever follows them in the field: a single
    value is returned as an int (as a 1-tuple for a code of TAG_TUPLE),
    several values and no value as a tuple.  The tag carries the code,
    the count and the offset of the inline field, and neither the channel
    nor the log is touched. *)
Theorem inline_integers_round_trip (env : TiffTag.TagEnv) (tiff : TIFF.descriptor)
        (code type_ : Z) (c : fmtchar) (vs : list Z) (pad : list byte)
        (tagoffset : Z) (w : World) :
  module_descriptor tiff ->
  TIFF.DATA_FORMATS type_ = Some (mkDtype 1 c) ->
  c = c_H \/ c = c_I \/ c = c_Q ->
  0 <= code < 65536 ->
  TIFF.in_TAG_READERS code = false ->
  TIFF.in_TAG_ENUM code = false ->
  Forall (fun v => 0 <= v < 256 ^ itemsize c) vs ->
  Z.of_nat (length vs) * itemsize c + Z.of_nat (length pad) = TIFF.offsetsize tiff ->
  let field := concat (map (pack (TIFF.byteorder_ tiff) (Z.to_nat (itemsize c))) vs) ++ pad in
  TiffTag.init env tiff (tag_header tiff code type_ (Z.of_nat (length vs)) field) tagoffset w
  = (Ok (TiffTag.mk code (Z.of_nat (length vs)) (mkDtype 1 c)
           (match vs with
            | [v] => if TIFF.in_TAG_TUPLE code then PTuple [NInt v] else PNum (NInt v)
            | _ => PTuple (map NInt vs)
            end)
           (tagoffset + TIFF.offsetsize tiff + 4)), w).
Proof.
  intros Hmd Hdt Hc Hcode Hrd Hen Hvs Hlen field.
  set (bo := TIFF.byteorder_ tiff) in *.
  set (osz := TIFF.offsetsize tiff) in *.
  set (n := Z.of_nat (length vs)) in *.
  pose proof (DATA_FORMATS_range _ _ Hdt) as Htype.
  assert (Hosz : osz = 4 \/ osz = 8).
  { unfold osz. unfold module_descriptor in Hmd. simpl in Hmd.
    destruct Hmd as [<-|[<-|[<-|[<-|[<-|[]]]]]]; simpl; lia. }
  assert (Hk : 2 <= itemsize c) by (destruct Hc as [-> | [-> | ->]]; simpl; lia).
  assert (Hn : 0 <= n <= 4) by (unfold n; nia).
  assert (Hfield : length field = Z.to_nat osz).
  { unfold field. rewrite length_app, (length_concat_fixed (Z.to_nat (itemsize c))).
    - rewrite length_map. fold n in Hlen. nia.
    - apply Forall_forall. intros xs Hxs. apply in_map_iff in Hxs.
      destruct Hxs as (v & Hv' & _). subst xs. apply length_pack. }
  assert (L4 : length (pack bo 2 code ++ pack bo 2 type_) = 4%nat)
    by (rewrite length_app, !length_pack; reflexivity).
  assert (Hhead : unpack_HH bo (py_slice (tag_header tiff code type_ n field) 0 4)
                  = Ok (code, type_)).
  { unfold tag_header, py_slice. fold bo. cbn [skipn Z.to_nat Z.sub].
    change (Z.to_nat (4 - 0)) with 4%nat. rewrite app_assoc.
    rewrite (firstn_app_exact _ _ _ L4).
    unfold unpack_HH. rewrite L4. cbn [Z.of_nat Pos.of_succ_nat Pos.succ Z.eqb Pos.eqb].
    rewrite (firstn_app_exact _ _ _ (length_pack bo 2 code)).
    rewrite (skipn_app_exact _ _ _ (length_pack bo 2 code)).
    rewrite !bytes_to_Z_pack by (simpl; lia). reflexivity. }
  assert (Hraw : TiffTag.unpack_tagformat2 tiff (skipn 4 (tag_header tiff code type_ n field))
                 = Ok (n, field)).
  { unfold tag_header. fold bo osz. rewrite app_assoc.
    rewrite (skipn_app_exact _ _ _ L4).
    unfold TiffTag.unpack_tagformat2. fold bo osz.
    rewrite length_app, length_pack, Hfield.
    destruct (Z.eqb_spec (Z.of_nat (Z.to_nat osz + Z.to_nat osz)) (2 * osz)) as [_|E]; [|lia].
    rewrite (firstn_app_exact _ _ _ (length_pack bo (Z.to_nat osz) n)).
    rewrite (skipn_app_exact _ _ _ (length_pack bo (Z.to_nat osz) n)).
    rewrite bytes_to_Z_pack; [reflexivity|].
    rewrite Z2Nat.id by lia. destruct Hosz as [->| ->]; simpl; lia. }
  assert (Hsize : struct_calcsize (n * dt_n (mkDtype 1 c)) (dt_c (mkDtype 1 c))
                  = Ok (n * itemsize c)).
  { unfold struct_calcsize. cbn [dt_n dt_c]. rewrite Z.mul_1_r.
    destruct (Z.gtb_spec (n * itemsize c) PY_SSIZE_T_MAX) as [G|_]; [|reflexivity].
    unfold PY_SSIZE_T_MAX in G. fold n in Hlen. lia. }
  rewrite (init_unfold env tiff _ tagoffset code type_ n (n * itemsize c) field
             (mkDtype 1 c) Hhead Hraw Hdt Hsize w).
  assert (Hnot7 : (type_ =? 7) = false).
  { destruct (Z.eqb_spec type_ 7) as [->|]; [|reflexivity].
    simpl in Hdt. destruct Hc as [-> | [-> | ->]]; discriminate. }
  assert (HnotB : TiffTag.is_c_B c = false) by (destruct Hc as [-> | [-> | ->]]; reflexivity).
  assert (Hvalue : struct_unpack bo (n * 1) c (py_slice field 0 (n * itemsize c))
                   = Ok (PTuple (map NInt vs))).
  { unfold struct_unpack. rewrite Z.mul_1_r.
    unfold struct_calcsize in Hsize. cbn [dt_n dt_c] in Hsize. rewrite Z.mul_1_r in Hsize.
    unfold struct_calcsize. rewrite Hsize.
    assert (Hs : py_slice field 0 (n * itemsize c)
                 = concat (map (pack bo (Z.to_nat (itemsize c))) vs)).
    { unfold py_slice, field. cbn [Z.to_nat skipn]. rewrite Z.sub_0_r.
      assert (L : length (concat (map (pack bo (Z.to_nat (itemsize c))) vs))
                  = Z.to_nat (n * itemsize c)).
      { rewrite (length_concat_fixed (Z.to_nat (itemsize c))).
        - rewrite length_map. unfold n. nia.
        - apply Forall_forall. intros xs Hxs. apply in_map_iff in Hxs.
          destruct Hxs as (v & Hv' & _). subst xs. apply length_pack. }
      rewrite <- L. apply firstn_app_exact. reflexivity. }
    rewrite Hs.
    assert (L : Z.of_nat (length (concat (map (pack bo (Z.to_nat (itemsize c))) vs)))
                = n * itemsize c).
    { rewrite (length_concat_fixed (Z.to_nat (itemsize c))).
      - rewrite length_map. unfold n. nia.
      - apply Forall_forall. intros xs Hxs. apply in_map_iff in Hxs.
        destruct Hxs as (v & Hv' & _). subst xs. apply length_pack. }
    rewrite L, Z.eqb_refl. cbn [negb].
    unfold n. rewrite (decode_packed bo c vs Hc Hvs).
    destruct Hc as [-> | [-> | ->]]; reflexivity. }
  unfold TiffTag.read_value. fold bo osz.
  assert (Hroute : (n * itemsize c >? osz) || TIFF.in_TAG_READERS code = false).
  { rewrite Hrd, orb_false_r. rewrite Z.gtb_ltb. apply Z.ltb_ge. fold n in Hlen. lia. }
  rewrite Hroute. cbn [dt_n dt_c]. rewrite HnotB, Hnot7. cbn [orb].
  unfold bind at 1. unfold bind at 1, lift at 1. rewrite Hvalue.
  unfold ret at 1. cbn [fst snd].
  unfold TiffTag.normalise. rewrite Hrd, Hen, Hnot7. cbn [negb andb dt_c].
  rewrite andb_true_r.
  unfold bind at 1, ret at 1.
  destruct (TIFF.in_TAG_TUPLE code); cbn [negb].
  - unfold bind, ret. destruct vs as [|v [|v' vs']]; reflexivity.
  - unfold bind, lift, ret. cbn [py_len]. rewrite length_map.
    destruct vs as [|v [|v' vs']]; try reflexivity.
    cbn [length map]. 
    destruct (Z.eqb_spec (Z.of_nat (S (S (length vs')))) 1) as [E|_]; [lia|reflexivity].
Qed.

Lemma inline_integers_round_trip_witness :
  TiffTag.init example_env TIFF.CLASSIC_BE
    [x01; x00; x00; x03; x00; x00; x00; x01; x02; x80; xff; xff] 10 (World_of_bytes [])
  = (Ok (TiffTag.mk 256 1 (mkDtype 1 c_H) (PNum (NInt 640)) 18), World_of_bytes []).
Proof.
  apply (inline_integers_round_trip example_env TIFF.CLASSIC_BE 256 3 c_H [640] [xff; xff]
           10 (World_of_bytes [])).
  - unfold module_descriptor. simpl. auto.
  - reflexivity.
  - left. reflexivity.
  - lia.
  - reflexivity.
  - reflexivity.
  - repeat constructor; simpl; lia.
  - reflexivity.
Defined.

(** ** The tags that a frame reads *)

Lemma normalise_code env code type_ count dt valueoffset value :
  triple (fun _ : World => True)
         (TiffTag.normalise env code type_ count dt valueoffset value)
         (fun r _ => forall tag, r = Ok tag -> TiffTag.code tag = code).
Proof.
  unfold TiffTag.normalise.
  destruct value;
    repeat first
      [ apply triple_ret; intros ? _ ? E; inversion E; reflexivity
      | apply triple_raise; intros ? _ ? E; discriminate E
      | eapply triple_bind with (R := fun _ _ => True);
        [ apply triple_const; [intros; exact Logic.I | intros ? ? ? E; discriminate E] | intros ? ]
      | match goal with
        | |- triple _ (if ?b then _ else _) _ => destruct b
        | |- triple _ (match ?x with _ => _ end) _ => destruct x
        end ].
Qed.

Lemma init_code env tiff (header : list byte) (tagoffset : Z) (w : World) tag :
  fst (TiffTag.init env tiff header tagoffset w) = Ok tag ->
  exists type_,
    unpack_HH (TIFF.byteorder_ tiff) (py_slice header 0 4) = Ok (TiffTag.code tag, type_).
Proof.
  unfold TiffTag.init. unfold bind at 1, lift at 1.
  destruct (unpack_HH (TIFF.byteorder_ tiff) (py_slice header 0 4)) as [[code type_]|e];
    [|discriminate].
  unfold bind at 1, lift at 1.
  destruct (TiffTag.unpack_tagformat2 tiff (skipn 4 header)) as [[count value]|e];
    [|discriminate].
  destruct (TIFF.DATA_FORMATS type_) as [dt|]; [|discriminate].
  unfold bind at 1, lift at 1.
  destruct (struct_calcsize (count * dt_n dt) (dt_c dt)) as [size|e]; [|discriminate].
  unfold bind at 1.
  destruct (TiffTag.read_value env tiff tagoffset code type_ count value dt size w)
    as [[ov|e] w1]; [|discriminate].
  intros H. exists type_.
  rewrite (normalise_code env code type_ count dt (fst ov) (snd ov) w1 Logic.I tag H).
  reflexivity.
Qed.

Lemma mem_In (x : Z) (xs : list Z) : TIFF.mem x xs = true -> In x xs.
Proof.
  unfold TIFF.mem. intros H. apply existsb_exists in H.
  destruct H as (y & Hy & E). apply Z.eqb_eq in E. subst. exact Hy.
Qed.

Lemma entry_code (bo : byteorder) (tagbytes : list byte) (tagindex tagsize code : Z)
      (ct : Z * Z) :
  2 <= tagsize -> 0 <= tagindex ->
  unpack bo fmt_H (py_slice tagbytes tagindex (tagindex + 2)) = Ok code ->
  unpack_HH bo (py_slice (py_slice tagbytes tagindex (tagindex + tagsize)) 0 4) = Ok ct ->
  fst ct = code.
Proof.
  intros Hts Hti Hc Hh.
  assert (E : firstn 2 (py_slice (py_slice tagbytes tagindex (tagindex + tagsize)) 0 4)
              = py_slice tagbytes tagindex (tagindex + 2)).
  { unfold py_slice. rewrite skipn_O.
    replace (tagindex + 2 - tagindex) with 2 by lia.
    replace (tagindex + tagsize - tagindex) with tagsize by lia.
    rewrite !firstn_firstn.
    replace (Nat.min (Nat.min 2 (Z.to_nat (4 - 0))) (Z.to_nat tagsize))
      with (Z.to_nat 2) by lia.
    reflexivity. }
  unfold unpack in Hc. unfold unpack_HH in Hh.
  destruct (_ =? calcsize fmt_H); [|discriminate].
  destruct (_ =? 4); [|discriminate].
  injection Hc as <-.
  pose proof (f_equal (fun r => match r with Ok p => fst p | Raise _ => 0 end) Hh) as Hf.
  change (bytes_to_Z bo
            (firstn 2 (py_slice (py_slice tagbytes tagindex (tagindex + tagsize)) 0 4))
          = fst ct) in Hf.
  rewrite E in Hf. symmetry. exact Hf.
Qed.

Section gettags.

Variable env : TiffTag.TagEnv.
Variable tiff : TIFF.descriptor.
Variable codes : list Z.

(** What [_gettags(codes)] may return: a tag under its own code, which is
    one of the codes asked for. *)
Definition wanted_tag (ct : Z * TiffTag.t) : Prop :=
  TiffTag.code (snd ct) = fst ct /\ (codes <> [] -> In (fst ct) codes).

Lemma gettags_loop_spec (tagbytes : list byte) (tagoffset : Z) (k : nat) :
  2 <= TIFF.tagsize tiff ->
  forall (tagindex : Z) (w w' : World) (tags : list (Z * TiffTag.t)),
    0 <= tagindex + TIFF.tagsize tiff ->
    TiffFrame.gettags_loop env tiff codes tagbytes tagoffset k tagindex w = (Ok tags, w') ->
    (length tags <= k)%nat /\ Forall wanted_tag tags.
Proof.
  intros Hts. induction k as [|k IH]; intros tagindex w w' tags Hti H.
  - simpl in H. injection H as <- _. split; [simpl; lia|constructor].
  - cbn [TiffFrame.gettags_loop] in H. cbv zeta in H.
    unfold bind at 1, lift at 1 in H.
    destruct (unpack (TIFF.byteorder_ tiff) fmt_H _) as [code|e] eqn:Ecode; [|discriminate].
    destruct (negb (Nat.eqb (length codes) 0) && negb (TIFF.mem code codes)) eqn:Eskip.
    + assert (Hti' : 0 <= tagindex + TIFF.tagsize tiff + TIFF.tagsize tiff) by lia.
      destruct (IH _ _ _ _ Hti' H) as (Hl & Hf). split; [lia|exact Hf].
    + destruct (TiffTag.init env tiff _ _ w) as [[tag|e] w1] eqn:Einit.
      * unfold bind at 1 in H.
        destruct (TiffFrame.gettags_loop env tiff codes tagbytes tagoffset k _ w1)
          as [[rest|e] w2] eqn:Erest; [|discriminate].
        injection H as <- _.
        assert (Hti' : 0 <= tagindex + TIFF.tagsize tiff + TIFF.tagsize tiff) by lia.
        destruct (IH _ _ _ _ Hti' Erest) as (Hl & Hf).
        split; [simpl; lia|]. constructor; [|exact Hf].
        split; cbn [fst snd].
        -- assert (Hi : fst (TiffTag.init env tiff
                               (py_slice tagbytes (tagindex + TIFF.tagsize tiff)
                                  (tagindex + TIFF.tagsize tiff + TIFF.tagsize tiff))
                               (tagoffset + (tagindex + TIFF.tagsize tiff)) w) = Ok tag)
             by (rewrite Einit; reflexivity).
           destruct (init_code _ _ _ _ _ _ Hi) as (type_ & Hh).
           exact (entry_code _ _ _ _ _ _ Hts Hti Ecode Hh).
        -- intros Hne. apply mem_In.
           apply andb_false_iff in Eskip. destruct Eskip as [E|E].
           ++ apply negb_false_iff, Nat.eqb_eq in E.
              destruct codes; [contradiction Hne; reflexivity|discriminate].
           ++ apply negb_false_iff in E. exact E.
      * destruct e; try discriminate.
        unfold bind at 1, log_warning at 1, modify at 1 in H.
        assert (Hti' : 0 <= tagindex + TIFF.tagsize tiff + TIFF.tagsize tiff) by lia.
        destruct (IH _ _ _ _ Hti' H) as (Hl & Hf). split; [lia|exact Hf].
Qed.

(** X20. [_gettags(codes)] of a frame at a non-negative offset: when the
    tag count of the directory cannot be read or is larger than 4096, it
    raises TiffFileError 'corrupted page list' after that one read, and
    logs nothing.  Otherwise what it returns has at most as many entries
    as the directory, each one a tag under its own code, and when codes
    were given, under one of them. *)
Theorem gettags_only_wanted (offset : Z) (w : World) :
  2 <= TIFF.tagsize tiff -> 0 <= offset ->
  let r := TiffFrame._gettags env tiff offset codes w in
  match tagno_at tiff (fh_data (fh w)) offset with
  | Raise _ =>
      fst r = Raise (TiffFileError "corrupted page list at offset %i" [offset])
      /\ reads (snd r) = reads w ++ [(offset, TIFF.tagnosize tiff)]
      /\ log (snd r) = log w
  | Ok tagno =>
      forall tags, fst r = Ok tags ->
        Z.of_nat (length tags) <= tagno /\ Forall wanted_tag tags
  end.
Proof.
  intros Hts Ho r.
  set (w2 := snd (fh_read (TIFF.tagnosize tiff) (snd (fh_seek offset w)))).
  assert (Hrun : r = match tagno_at tiff (fh_data (fh w)) offset with
                     | Raise _ =>
                         (Raise (TiffFileError "corrupted page list at offset %i" [offset]), w2)
                     | Ok tagno =>
                         (tagbytes <- fh_read (TIFF.tagsize tiff * tagno) ;;
                          TiffFrame.gettags_loop env tiff codes tagbytes
                            (offset + TIFF.tagnosize tiff) (Z.to_nat tagno)
                            (- TIFF.tagsize tiff)) w2
                     end).
  { unfold r, w2, TiffFrame._gettags, tagno_at, peek.
    unfold bind at 1, fh_seek. destruct (Z.ltb_spec offset 0) as [|_]; [lia|].
    unfold bind at 1, fh_read at 1 3. cbn [fh fh_pos fh_data snd].
    destruct (unpack (TIFF.byteorder_ tiff) (TIFF.tagnoformat tiff) _) as [tagno|e];
      [|reflexivity].
    destruct (tagno >? 4096); reflexivity. }
  assert (Hw2 : reads w2 = reads w ++ [(offset, TIFF.tagnosize tiff)] /\ log w2 = log w).
  { unfold w2, fh_read, fh_seek, reads. destruct (Z.ltb_spec offset 0) as [|_]; [lia|].
    cbn [snd fh fh_events fh_pos log]. rewrite !reads_of_app. cbn. rewrite app_nil_r. auto. }
  rewrite Hrun.
  destruct (tagno_at tiff (fh_data (fh w)) offset) as [tagno|e] eqn:Et.
  - intros tags H. unfold bind at 1, fh_read at 1 in H.
    match type of H with
    | fst (TiffFrame.gettags_loop _ _ _ ?tb ?to ?k ?ti ?w0) = _ =>
        destruct (TiffFrame.gettags_loop env tiff codes tb to k ti w0)
          as [[tags'|e] w'] eqn:El; [|discriminate];
        assert (Hti : 0 <= ti + TIFF.tagsize tiff) by lia;
        destruct (gettags_loop_spec tb to k Hts ti w0 w' tags' Hti El) as (Hl & Hf)
    end.
    cbn [fst] in H. injection H as <-.
    split; [|exact Hf].
    pose proof (tagno_at_nonneg _ _ _ _ Et). lia.
  - cbn [fst snd]. split; [reflexivity|exact Hw2].
Qed.

End gettags.

(** A classic directory at offset 0 with an ImageWidth and a StripOffsets
    entry. *)
Definition two_tag_directory : list byte :=
  le_bytes 2 2
  ++ tag_header TIFF.CLASSIC_LE 256 3 1 (le_bytes 2 640 ++ [x00; x00])
  ++ tag_header TIFF.CLASSIC_LE 273 4 1 (le_bytes 4 8).

Lemma gettags_only_wanted_witness :
  exists tags,
    fst (TiffFrame._gettags example_env TIFF.CLASSIC_LE 0 [273]
           (World_of_bytes two_tag_directory)) = Ok tags
    /\ map fst tags = [273]
    /\ Z.of_nat (length tags) <= 2
    /\ Forall (wanted_tag [273]) tags.
Proof.
  eexists. split; [vm_compute; reflexivity|]. split; [reflexivity|].
  pose proof (gettags_only_wanted example_env TIFF.CLASSIC_LE [273] 0
                (World_of_bytes two_tag_directory)) as H.
  assert (Et : tagno_at TIFF.CLASSIC_LE (fh_data (fh (World_of_bytes two_tag_directory))) 0
               = Ok 2) by reflexivity.
  cbv zeta in H. rewrite Et in H.
  apply H.
  - simpl. lia.
  - lia.
  - vm_compute. reflexivity.
Defined.

(** ** asarray on a closed file handle *)

Lemma triple_assume {S A} (C : Prop) (m : M S A) (Q : result A -> S -> Prop) :
  (C -> triple (fun _ => C) m Q) -> triple (fun _ => C) m Q.
Proof. intros H s Hs. exact (H Hs s Hs). Qed.

(** A step whose outcome does not matter for the postcondition. *)
Lemma triple_skip {S A B} (P : S -> Prop) (m : M S A) (k : A -> M S B)
      (Q : result B -> S -> Prop) :
  (forall e s, Q (Raise e) s) ->
  (forall a, triple (fun _ => True) (k a) Q) ->
  triple P (bind m k) Q.
Proof.
  intros HQ Hk s _. unfold bind. destruct (m s) as [[x|e] s']; cbn [fst snd].
  - apply Hk. exact Logic.I.
  - apply HQ.
Qed.

Lemma body_closes_again env tiff (self : TiffPage.t) oc (a : Asarray.args) :
  Asarray.reopen a = true ->
  triple (fun w => fh_closed (fh w) = true)
         (Asarray.body env tiff self oc a)
         (fun r w => forall arr, r = Ok (Some arr) -> fh_closed (fh w) = true).
Proof.
  intros Hre. unfold Asarray.body.
  destruct (Nat.eqb _ 0 || _).
  { apply triple_ret. intros ? _ ? E. discriminate E. }
  eapply triple_bind with (R := fun _ w => fh_closed (fh w) = true).
  { apply triple_lift. intros s Hs. destruct (Asarray.validation env self a); [exact Hs|].
    intros ? E. discriminate E. }
  intros go. destruct (negb go).
  { apply triple_ret. intros ? _ ? E. discriminate E. }
  eapply triple_bind with (R := fun w0 _ => fh_closed (fh w0) = true).
  { apply triple_get. intros s Hs. exact Hs. }
  intros w0. apply triple_assume. intros Hc. rewrite Hc.
  assert (HQ : forall (e : exn) (s : World) (arr : Asarray.ndarray),
             Raise e = Ok (Some arr) -> fh_closed (fh s) = true)
    by (intros ? ? ? E; discriminate E).
  apply triple_skip; [exact HQ|intros _].
  destruct (TiffPage.dtype self) as [c|].
  2:{ apply triple_raise. intros ? _ ? E. discriminate E. }
  apply triple_skip; [exact HQ|intros [[? ?] ?]].
  apply triple_skip; [exact HQ|intros ?].
  apply triple_skip; [exact HQ|intros ?].
  apply triple_skip; [exact HQ|intros [data mapped]].
  destruct (negb (Asarray.shape_ok _ _)).
  { apply triple_raise. intros ? _ ? E. discriminate E. }
  apply triple_skip; [exact HQ|intros ?].
  apply triple_skip; [exact HQ|intros ?].
  eapply triple_bind with (R := fun _ w => fh_closed (fh w) = true).
  { unfold Asarray.set_closed. apply triple_modify. intros s _. reflexivity. }
  intros _. apply triple_ret. intros s Hs ? _. exact Hs.
Qed.

Lemma asarray_short_read env tiff (self : TiffPage.t) (a : Asarray.args)
      (w : World) (o n : Z) (c : fmtchar) :
  fh_closed (fh w) = true ->
  Asarray.reopen a = true ->
  TiffPage.is_contiguous self = Ok (Some (o, n)) ->
  TiffPage.dtype self = Some c ->
  Asarray.validation env self a = Ok true ->
  Asarray.out a = Asarray.OutNone ->
  TiffPage._shape self <> [] ->
  Forall (fun d => 0 < d) (TiffPage._shape self) ->
  (TiffPage.is_tiled self = true ->
   TiffPage.tilewidth self <> 0 /\ TiffPage.tiledepth self <> 0) ->
  0 <= o ->
  let size := product (TiffPage._shape self) * itemsize c in
  Z.of_nat (length (fh_data (fh w))) < o + size ->
  let w' := snd (Asarray.asarray env tiff self a w) in
  fst (Asarray.asarray env tiff self a w) = Raise (ValueError "failed to read %i bytes")
  /\ fh_closed (fh w') = false
  /\ reads w' = reads w ++ [(o, size)]
  /\ log w' = log w.
Proof.
  intros Hclosed Hre Hcont Hdt Hval Hout Hne Hpos Htiled Ho size Hfile w'.
  set (count := product (TiffPage._shape self)) in *.
  assert (Hcount : 0 < count) by (apply product_positive, Hpos).
  assert (Hitem : 0 < itemsize c) by (destruct c; simpl; lia).
  assert (Hsize : 0 <= size) by (unfold size; nia).
  assert (E0 : Nat.eqb (length (TiffPage._shape self)) 0
               || (product (TiffPage._shape self) =? 0) = false).
  { apply orb_false_iff. split.
    - destruct (TiffPage._shape self); [contradiction Hne; reflexivity|reflexivity].
    - apply Z.eqb_neq. fold count. lia. }
  set (wo := snd (Asarray.set_closed false w)).
  set (W1 := mkWorld (mkFileHandle (fh_data (fh w))
                        (o + Z.of_nat (length (peek (fh_data (fh w)) o size)))
                        (fh_size (fh w)) (fh_is_file (fh w)) false
                        (fh_events (fh w) ++ [EvSeek o] ++ [EvRead o size]))
                     (log w)).
  assert (Hread : (fh_seek o ;;;
                   d <- Asarray.read_array env (TIFF.byteorder_ tiff) c
                          (product (TiffPage._shape self)) None
                          (TiffPage.fillorder self =? 2) ;;
                   ret (d, false)) wo
                  = (Raise (ValueError "failed to read %i bytes"), W1)).
  { unfold bind at 1. unfold fh_seek.
    destruct (Z.ltb_spec o 0); [lia|].
    unfold bind at 1. unfold Asarray.read_array. unfold bind at 1, get at 1.
    fold count. fold size.
    destruct (Z.ltb_spec count 0); [lia|].
    rewrite Z.eqb_refl. cbn [negb].
    unfold bind at 1. unfold fh_read, wo, Asarray.set_closed, modify.
    cbn [snd fh fh_data fh_pos fh_size fh_is_file fh_closed fh_events log].
    destruct (Z.ltb_spec size 0); [lia|].
    assert (Hb : firstn (Z.to_nat size) (skipn (Z.to_nat o) (fh_data (fh w)))
                 = peek (fh_data (fh w)) o size).
    { unfold peek. destruct (Z.ltb_spec size 0); [lia|reflexivity]. }
    rewrite Hb.
    assert (Hlen : Z.of_nat (length (peek (fh_data (fh w)) o size)) <> size).
    { rewrite length_peek by lia. lia. }
    destruct (Z.eqb_spec (Z.of_nat (length (peek (fh_data (fh w)) o size))) size) as [E|_];
      [contradiction|].
    cbn [negb]. unfold raise, W1. rewrite <- app_assoc. reflexivity. }
  assert (Hrun : Asarray.asarray env tiff self a w
                 = (Raise (ValueError "failed to read %i bytes"), W1)).
  { unfold Asarray.asarray. unfold bind at 1, lift at 1.
    rewrite (contiguous_offsetscounts self o n Hcont).
    unfold Asarray.body. rewrite E0.
    unfold bind at 1, lift at 1. rewrite Hval. cbn [negb].
    unfold bind at 1, get at 1. rewrite Hclosed, Hre.
    unfold bind at 1. fold wo.
    assert (Hso : Asarray.set_closed false w = (Ok tt, wo)) by reflexivity.
    rewrite Hso. rewrite Hdt, Hout, Hcont.
    assert (Hg : exists g,
              (if TiffPage.is_tiled self
               then
                 tw <- lift (floordiv (TiffPage.imagewidth self + TiffPage.tilewidth self - 1)
                                      (TiffPage.tilewidth self)) ;;
                 tl <- lift (floordiv (TiffPage.imagelength self + TiffPage.tilelength self - 1)
                                      (TiffPage.tilelength self)) ;;
                 td <- lift (floordiv (TiffPage.imagedepth self + TiffPage.tiledepth self - 1)
                                      (TiffPage.tiledepth self)) ;;
                 ret ([td; tl; tw],
                      [TiffPage.tiledepth self; TiffPage.tilelength self;
                       TiffPage.tilewidth self; last (TiffPage._shape self) 0],
                      TiffPage.tilewidth self)
               else ret ([], [], TiffPage.imagewidth self)) wo = (Ok g, wo)).
    { destruct (TiffPage.is_tiled self) eqn:Et; [|eexists; reflexivity].
      destruct (is_contiguous_tiled self o n Hcont Et) as (_ & Hl0 & _).
      destruct (Htiled eq_refl) as (Hw0 & Hd0).
      unfold bind, lift, ret, floordiv.
      destruct (Z.eqb_spec (TiffPage.tilewidth self) 0); [contradiction|].
      destruct (Z.eqb_spec (TiffPage.tilelength self) 0); [contradiction|].
      destruct (Z.eqb_spec (TiffPage.tiledepth self) 0); [contradiction|].
      eexists. reflexivity. }
    destruct Hg as ([[tiledshape tileshape] runlen] & Hg).
    unfold bind at 1. rewrite Hg. cbv beta iota.
    unfold bind at 1, ret at 1.
    unfold bind at 1, lift at 1.
    cbv beta iota.
    unfold bind at 1.
    unfold bind at 1, ret at 1.
    unfold bind at 1, lift at 1.
    unfold bind at 1, lift at 1.
    change (py_index (fst ([o], [n])) 0) with (Ok o).
    cbv beta iota.
    rewrite Hread. reflexivity. }
  unfold w'. rewrite Hrun. cbn [fst snd fh log fh_closed].
  split; [reflexivity|]. split; [reflexivity|].
  split; [|reflexivity].
  unfold reads, W1. cbn [fh fh_events]. rewrite !reads_of_app. reflexivity.
Qed.

(** X21. asarray on a closed file handle with [reopen=True]: whenever a
    page or a frame returns an array, the file handle is closed again.
    An exception raised after the file was opened leaves it open: for a
    contiguous page in a file that ends before the data do, asarray
    raises ValueError after one read at the first data offset, logs
    nothing, and the file handle stays open. *)
Theorem asarray_reopen_closes_again env tiff (a : Asarray.args) (w : World) :
  fh_closed (fh w) = true ->
  Asarray.reopen a = true ->
  (forall (self : TiffPage.t) arr,
     fst (Asarray.asarray env tiff self a w) = Ok (Some arr) ->
     fh_closed (fh (snd (Asarray.asarray env tiff self a w))) = true)
  /\ (forall (frame : TiffFrame.t) arr,
        fst (Asarray.frame_asarray env tiff frame a w) = Ok (Some arr) ->
        fh_closed (fh (snd (Asarray.frame_asarray env tiff frame a w))) = true)
  /\ (forall (self : TiffPage.t) (o n : Z) (c : fmtchar),
        TiffPage.is_contiguous self = Ok (Some (o, n)) ->
        TiffPage.dtype self = Some c ->
        Asarray.validation env self a = Ok true ->
        Asarray.out a = Asarray.OutNone ->
        TiffPage._shape self <> [] ->
        Forall (fun d => 0 < d) (TiffPage._shape self) ->
        (TiffPage.is_tiled self = true ->
         TiffPage.tilewidth self <> 0 /\ TiffPage.tiledepth self <> 0) ->
        0 <= o ->
        let size := product (TiffPage._shape self) * itemsize c in
        Z.of_nat (length (fh_data (fh w))) < o + size ->
        let w' := snd (Asarray.asarray env tiff self a w) in
        fst (Asarray.asarray env tiff self a w)
        = Raise (ValueError "failed to read %i bytes")
        /\ fh_closed (fh w') = false
        /\ reads w' = reads w ++ [(o, size)]
        /\ log w' = log w).
Proof.
  intros Hclosed Hre. split; [|split].
  - intros self arr. unfold Asarray.asarray, bind at 1 2, lift at 1 2.
    destruct (TiffPage._offsetscounts self) as [oc|e]; [|discriminate].
    exact (body_closes_again env tiff self (Ok oc) a Hre w Hclosed arr).
  - intros frame arr. unfold Asarray.frame_asarray.
    destruct (TiffFrame._keyframe frame) as [kf|]; [|discriminate].
    refine (body_closes_again env tiff kf _ _ _ w Hclosed arr). exact Hre.
  - intros self o n c. apply asarray_short_read; assumption.
Qed.

Definition closed_world (data : list byte) : World :=
  snd (Asarray.set_closed true (World_of_bytes data)).

Lemma asarray_reopen_closes_again_witness :
  let page := strip_page 8 c_B 4 2 [8; 12] [4; 4] in
  let a := Asarray.mkArgs Asarray.OutNone true true None None (Some true) in
  (let r := Asarray.asarray plain_env TIFF.CLASSIC_LE page a (closed_world two_rows_file) in
   fst r = Ok (Some (Asarray.mkarr [2; 4] (map NInt [1; 2; 3; 4; 9; 9; 9; 9]) false))
   /\ fh_closed (fh (snd r)) = true)
  /\ (let r := Asarray.asarray plain_env TIFF.CLASSIC_LE page a
                 (closed_world (firstn 12 two_rows_file)) in
      fst r = Raise (ValueError "failed to read %i bytes")
      /\ fh_closed (fh (snd r)) = false).
Proof.
  intros page a.
  split.
  - destruct (asarray_reopen_closes_again plain_env TIFF.CLASSIC_LE a
                (closed_world two_rows_file) eq_refl eq_refl) as (H1 & _ & _).
    cbv zeta. split; [reflexivity|]. eapply H1. reflexivity.
  - destruct (asarray_reopen_closes_again plain_env TIFF.CLASSIC_LE a
                (closed_world (firstn 12 two_rows_file)) eq_refl eq_refl) as (_ & _ & H3).
    destruct (H3 page 8 8 c_B) as (E1 & E2 & _).
    + reflexivity.
    + reflexivity.
    + reflexivity.
    + reflexivity.
    + discriminate.
    + repeat constructor.
    + discriminate.
    + lia.
    + simpl. lia.
    + split; [exact E1|exact E2].
Defined.

(** ** Keys of _getitem *)

Lemma bind_Ok {S A B} (m : M S A) (k : A -> M S B) (s s' : S) (a : A) :
  m s = (Ok a, s') -> bind m k s = k a s'.
Proof. intros H. unfold bind. rewrite H. reflexivity. Qed.

Lemma bind_Raise {S A B} (m : M S A) (k : A -> M S B) (s s' : S) (e : exn) :
  m s = (Raise e, s') -> bind m k s = (Raise e, s').
Proof. intros H. unfold bind. rewrite H. reflexivity. Qed.

Lemma py_index_bounds {A} (xs : list A) (i : Z) (a : A) :
  0 <= i -> py_index xs i = Ok a -> i < Z.of_nat (length xs).
Proof.
  intros Hi. unfold py_index. destruct (Z.ltb_spec i 0) as [|_]; [lia|].
  destruct (Z.ltb_spec i 0) as [|_]; [lia|]. cbn [orb].
  destruct (Z.leb_spec (Z.of_nat (length xs)) i); [discriminate|]. intros _. lia.
Qed.

(** X22. [_getitem] once all page offsets are known, for [n] slots.  A
    negative key stands for [key mod n], whatever its size: no negative
    key raises IndexError, and without pages every negative key raises
    ZeroDivisionError.  A key of [n] or more raises IndexError and
    nothing is touched.  For a key whose slot holds a TiffPage the page
    is returned and nothing is touched; for a slot that holds an offset
    the page constructor runs with that key as index and the file handle
    at that offset, and with [_cache] its page replaces the offset in the
    slot. *)
Theorem getitem_negative_wraps (page_hash : TiffPage.t -> Z) (_cache useframes : bool)
        (tiffpage : Z -> M World TiffPages.slot) (s : TiffPages.t) :
  TiffPages._indexed s = true ->
  let n := Z.of_nat (length (TiffPages.pages s)) in
  let getitem := TiffPages_getitem._getitem page_hash _cache useframes tiffpage in
  (forall key validate,
     (key < 0 -> n = 0 -> getitem key validate s = (Raise ZeroDivisionError, s))
     /\ (key < 0 -> n <> 0 ->
         0 <= key mod n < n
         /\ getitem key validate s = getitem (key mod n) validate s)
     /\ (n <= key ->
         getitem key validate s = (Raise (IndexError "index out of range"), s)))
  /\ (forall key p,
        0 <= key -> py_index (TiffPages.pages s) key = Ok (TiffPages.SlotPage p) ->
        getitem key 0 s = (Ok (TiffPages.SlotPage p), s))
  /\ (forall key o,
        0 <= key -> py_index (TiffPages.pages s) key = Ok (TiffPages.SlotOffset o) ->
        0 <= o -> fh_closed (fh (TiffPages.world s)) = false ->
        getitem key 0 s
        = match tiffpage key (snd (fh_seek o (TiffPages.world s))) with
          | (Raise e, w') => (Raise e, TiffPages.set_world w' s)
          | (Ok page, w') =>
              (Ok page,
               if _cache
               then TiffPages.set_pages
                      (firstn (Z.to_nat key) (TiffPages.pages s) ++ page
                       :: skipn (S (Z.to_nat key)) (TiffPages.pages s))
                      (TiffPages.set_world w' s)
               else TiffPages.set_world w' s)
          end).
Proof.
  intros Hidx n getitem.
  assert (Hlen : TiffPages.__len__ s = (Ok n, s)).
  { unfold TiffPages.__len__, bind, get. rewrite Hidx. reflexivity. }
  assert (Hnorm : forall key, 0 <= key < n ->
            (if key <? 0
             then n0 <- TiffPages.__len__ ;; lift (pymod key n0)
             else s0 <- get ;;
                  if TiffPages._indexed s0
                     && (key >=? Z.of_nat (length (TiffPages.pages s0)))
                  then raise (IndexError "index out of range")
                  else ret key) s = (Ok key, s)).
  { intros key Hk. destruct (Z.ltb_spec key 0) as [|_]; [lia|].
    unfold bind, get. rewrite Hidx. fold n.
    destruct (Z.geb_spec key n) as [|_]; [lia|]. reflexivity. }
  unfold getitem, TiffPages_getitem._getitem.
  split; [|split].
  - intros key validate. split; [|split].
    + intros Hk Hn. destruct (Z.ltb_spec key 0) as [_|]; [|lia].
      apply bind_Raise. rewrite (bind_Ok _ _ _ _ _ Hlen).
      unfold lift, pymod. rewrite Hn. reflexivity.
    + intros Hk Hn.
      assert (Hm : 0 <= key mod n < n) by (apply Z.mod_pos_bound; lia).
      split; [exact Hm|].
      rewrite (bind_Ok _ _ _ _ _ (Hnorm (key mod n) Hm)).
      destruct (Z.ltb_spec key 0) as [_|]; [|lia].
      rewrite (bind_Ok _ _ s s (key mod n)); [reflexivity|].
      rewrite (bind_Ok _ _ _ _ _ Hlen).
      unfold lift, pymod. destruct (Z.eqb_spec n 0) as [|_]; [contradiction|]. reflexivity.
    + intros Hk. destruct (Z.ltb_spec key 0) as [|_]; [lia|].
      apply bind_Raise. unfold bind, get. rewrite Hidx. fold n.
      destruct (Z.geb_spec key n) as [_|]; [|lia]. reflexivity.
  - intros key p Hk Hp.
    pose proof (py_index_bounds _ _ _ Hk Hp) as Hb. fold n in Hb.
    rewrite (bind_Ok _ _ _ _ _ (Hnorm key (conj Hk Hb))).
    unfold TiffPages_getitem.fetch. unfold bind at 1, get at 1. fold n.
    destruct (Z.ltb_spec key n) as [_|]; [|lia].
    unfold bind at 1. unfold bind at 1, lift at 1. rewrite Hp.
    destruct _cache; reflexivity.
  - intros key o Hk Hp Ho Hopen.
    pose proof (py_index_bounds _ _ _ Hk Hp) as Hb. fold n in Hb.
    rewrite (bind_Ok _ _ _ _ _ (Hnorm key (conj Hk Hb))).
    unfold TiffPages_getitem.fetch. unfold bind at 1, get at 1. fold n.
    destruct (Z.ltb_spec key n) as [_|]; [|lia].
    assert (Hseek : TiffPages._seek key None s
                    = (Ok tt, TiffPages.set_world (snd (fh_seek o (TiffPages.world s))) s)).
    { unfold TiffPages._seek. unfold bind at 1, get at 1. fold n.
      destruct (Z.eqb_spec n 0) as [|_]; [lia|].
      rewrite Hopen, Hidx. cbn [orb].
      unfold bind, lift. rewrite Hp. cbn [TiffPages.slot_offset TiffPages.seek_slot].
      unfold TiffPages.io, fh_seek. destruct (Z.ltb_spec o 0) as [|_]; [lia|]. reflexivity. }
    assert (Hcached : (page <- lift (py_index (TiffPages.pages s) key) ;;
                       (if _cache
                        then match page with
                             | TiffPages.SlotOffset _ => ret None
                             | _ => TiffPages_getitem.check page_hash 0 page ;;;
                                    ret (Some page)
                             end
                        else if TiffPages_getitem.is_page useframes page
                             then TiffPages_getitem.check page_hash 0 page ;;;
                                  ret (Some page)
                             else ret None)) s = (Ok None, s)).
    { unfold bind, lift. rewrite Hp. destruct _cache; reflexivity. }
    rewrite (bind_Ok _ _ _ _ _ Hcached).
    rewrite (bind_Ok _ _ _ _ _ Hseek).
    set (w1 := snd (fh_seek o (TiffPages.world s))).
    unfold bind at 1. unfold TiffPages.io at 1.
    cbn [TiffPages.world TiffPages.set_world].
    destruct (tiffpage key w1) as [[page|e] w'] eqn:Ep; [|reflexivity].
    unfold TiffPages_getitem.check at 1. cbn [Z.eqb].
    unfold bind at 1, ret at 1.
    destruct _cache.
    + unfold bind at 1. unfold bind at 1, get at 1.
      unfold bind at 1, lift at 1. unfold TiffPages_getitem.set_item.
      cbn [TiffPages.pages TiffPages.set_world]. fold n.
      destruct (Z.leb_spec 0 key) as [_|]; [|lia].
      destruct (Z.ltb_spec key n) as [_|]; [|lia].
      cbn [andb]. unfold modify, bind, ret. reflexivity.
    + unfold bind, ret. reflexivity.
Qed.

Lemma getitem_negative_wraps_witness :
  let s := TiffPages.mk (World_of_bytes dangling_file) TIFF.CLASSIC_LE false
             [TiffPages.SlotPage default_page; TiffPages.SlotOffset 14] true (Some 24) [] in
  let getitem := TiffPages_getitem._getitem (fun _ => 0) false false
                   (fun _ => ret (TiffPages.SlotPage default_page)) in
  getitem (-5) 0 s = getitem 1 0 s
  /\ getitem (-4) 0 s = (Ok (TiffPages.SlotPage default_page), s)
  /\ getitem 2 0 s = (Raise (IndexError "index out of range"), s).
Proof.
  intros s getitem.
  destruct (getitem_negative_wraps (fun _ => 0) false false
              (fun _ => ret (TiffPages.SlotPage default_page)) s eq_refl)
    as (Hkeys & Hpage & _).
  destruct (Hkeys (-5) 0) as (_ & H5 & _).
  destruct (Hkeys (-4) 0) as (_ & H4 & _).
  destruct (Hkeys 2 0) as (_ & _ & H2).
  split; [|split].
  - apply H5; [lia|discriminate].
  - destruct H4 as (_ & H4); [lia|discriminate|].
    unfold getitem. rewrite H4. apply Hpage; [vm_compute; discriminate|reflexivity].
  - apply H2. simpl. lia.
Defined.

(** ** Keyword arguments *)

Section kwargs.

Variable V : Type.

Lemma lookup_setitem (d : Kwargs.dict V) (key : string) (v : V) (k : string) :
  Kwargs.lookup (Kwargs.setitem d key v) k = if String.eqb key k then Some v else Kwargs.lookup d k.
Proof.
  induction d as [|[k' v'] r IH]; cbn [Kwargs.setitem Kwargs.lookup].
  - reflexivity.
  - destruct (String.eqb_spec k' key) as [->|Hne]; cbn [Kwargs.lookup].
    + destruct (String.eqb key k); reflexivity.
    + rewrite IH. destruct (String.eqb_spec k' k) as [->|Hne'].
      * destruct (String.eqb_spec key k) as [->|_]; [contradiction Hne; reflexivity|reflexivity].
      * reflexivity.
Qed.

Lemma lookup_delitem (d : Kwargs.dict V) (key : string) (k : string) :
  Kwargs.lookup (Kwargs.delitem d key) k = if String.eqb key k then None else Kwargs.lookup d k.
Proof.
  unfold Kwargs.delitem.
  induction d as [|[k' v'] r IH]; cbn [filter Kwargs.lookup fst].
  - destruct (String.eqb key k); reflexivity.
  - destruct (String.eqb_spec k' key) as [->|Hne]; cbn [negb Kwargs.lookup].
    + rewrite IH. destruct (String.eqb key k); reflexivity.
    + rewrite IH. destruct (String.eqb_spec k' k) as [->|Hne'].
      * destruct (String.eqb_spec key k) as [->|_]; [contradiction Hne; reflexivity|reflexivity].
      * reflexivity.
Qed.

Lemma setitem_new (d : Kwargs.dict V) (key : string) (v : V) :
  Kwargs.lookup d key = None -> Kwargs.setitem d key v = d ++ [(key, v)].
Proof.
  induction d as [|[k' v'] r IH]; cbn [Kwargs.setitem Kwargs.lookup app]; [reflexivity|].
  destruct (String.eqb k' key); [discriminate|]. intros H. now rewrite IH.
Qed.

Lemma update_kwargs_cons (kwargs : Kwargs.dict V) (key : string) (value : V)
      (r : Kwargs.dict V) :
  Kwargs.update_kwargs kwargs ((key, value) :: r)
  = Kwargs.update_kwargs (match Kwargs.lookup kwargs key with
                          | Some _ => kwargs
                          | None => Kwargs.setitem kwargs key value
                          end) r.
Proof.
  unfold Kwargs.update_kwargs, Kwargs.contains. cbn [fold_left fst snd].
  destruct (Kwargs.lookup kwargs key); reflexivity.
Qed.

Lemma update_kwargs_spec (keyvalues kwargs : Kwargs.dict V) :
  (forall k, Kwargs.lookup (Kwargs.update_kwargs kwargs keyvalues) k
             = match Kwargs.lookup kwargs k with
               | Some v => Some v
               | None => Kwargs.lookup keyvalues k
               end)
  /\ exists added, Kwargs.update_kwargs kwargs keyvalues = kwargs ++ added.
Proof.
  revert kwargs. induction keyvalues as [|[key value] r IH]; intros kwargs.
  - cbn. split; [intros k; destruct (Kwargs.lookup kwargs k); reflexivity|].
    exists []. now rewrite app_nil_r.
  - rewrite update_kwargs_cons.
    destruct (Kwargs.lookup kwargs key) as [v|] eqn:E.
    + destruct (IH kwargs) as (Hl & Hp). split; [|exact Hp].
      intros k. rewrite Hl. cbn [Kwargs.lookup].
      destruct (String.eqb_spec key k) as [<-|_]; [rewrite E|]; reflexivity.
    + destruct (IH (Kwargs.setitem kwargs key value)) as (Hl & added & Hp). split.
      * intros k. rewrite Hl, lookup_setitem. cbn [Kwargs.lookup].
        destruct (String.eqb_spec key k) as [<-|_]; [rewrite E|]; reflexivity.
      * rewrite Hp, (setitem_new _ _ _ E), <- app_assoc. eexists. reflexivity.
Qed.

(** X23. [update_kwargs] fills in defaults and nothing else: afterwards a
    key holds what [kwargs] held for it, and the value of [keyvalues] if
    [kwargs] did not hold the key; the items that were in [kwargs] are
    where they were, new ones follow them.  A second call with the same
    defaults changes nothing. *)
Theorem update_kwargs_fills_defaults (kwargs keyvalues : Kwargs.dict V) :
  let after := Kwargs.update_kwargs kwargs keyvalues in
  (forall k, Kwargs.lookup after k = match Kwargs.lookup kwargs k with
                                     | Some v => Some v
                                     | None => Kwargs.lookup keyvalues k
                                     end)
  /\ (exists added, after = kwargs ++ added)
  /\ Kwargs.update_kwargs after keyvalues = after.
Proof.
  intros after. destruct (update_kwargs_spec keyvalues kwargs) as (Hl & Hp).
  split; [exact Hl|]. split; [exact Hp|].
  assert (Hno : forall (kvs d : Kwargs.dict V),
            (forall k, Kwargs.lookup d k = None -> Kwargs.lookup kvs k = None) ->
            Kwargs.update_kwargs d kvs = d).
  { induction kvs as [|[key value] r IH]; intros d Hd; [reflexivity|].
    rewrite update_kwargs_cons.
    destruct (Kwargs.lookup d key) as [v|] eqn:E.
    - apply IH. intros k Hk. specialize (Hd k Hk). cbn [Kwargs.lookup] in Hd.
      destruct (String.eqb key k); [discriminate|exact Hd].
    - specialize (Hd key E). cbn [Kwargs.lookup] in Hd.
      rewrite String.eqb_refl in Hd. discriminate. }
  apply Hno. intros k Hk. fold after in Hl. rewrite Hl in Hk.
  destruct (Kwargs.lookup kwargs k); [discriminate|exact Hk].
Qed.

End kwargs.

Section parse.

Variable V : Type.

(** [key in keys] for the positional names. *)
Definition named (keys : list string) (key : string) : bool :=
  existsb (String.eqb key) keys.

Lemma move_step (result kwargs : Kwargs.dict V) (key : string) :
  Kwargs.move (result, kwargs) key
  = match Kwargs.lookup kwargs key with
    | Some v => (Kwargs.setitem result key v, Kwargs.delitem kwargs key)
    | None => (result, kwargs)
    end.
Proof. reflexivity. Qed.

Lemma move_or_default_step (result kwargs : Kwargs.dict V) (key : string) (d : V) :
  Kwargs.move_or_default (result, kwargs) (key, d)
  = match Kwargs.lookup kwargs key with
    | Some v => (Kwargs.setitem result key v, Kwargs.delitem kwargs key)
    | None => (Kwargs.setitem result key d, kwargs)
    end.
Proof. reflexivity. Qed.

Lemma moved_keys (keys : list string) (result kwargs : Kwargs.dict V) (k : string) :
  let st := fold_left (@Kwargs.move V) keys (result, kwargs) in
  Kwargs.lookup (snd st) k = (if named keys k then None else Kwargs.lookup kwargs k)
  /\ Kwargs.lookup (fst st) k
     = (if named keys k
        then match Kwargs.lookup kwargs k with
             | Some v => Some v
             | None => Kwargs.lookup result k
             end
        else Kwargs.lookup result k).
Proof.
  revert result kwargs. induction keys as [|key r IH]; intros result kwargs.
  - cbn. auto.
  - cbn [fold_left named existsb]. fold (named r k).
    rewrite move_step.
    destruct (Kwargs.lookup kwargs key) as [v|] eqn:E.
    + destruct (IH (Kwargs.setitem result key v) (Kwargs.delitem kwargs key)) as (H1 & H2).
      cbv zeta in H1, H2. rewrite H1, H2, lookup_delitem, lookup_setitem.
      rewrite (String.eqb_sym k key).
      destruct (String.eqb_spec key k) as [<-|_]; cbn [orb].
      * rewrite E. destruct (named r key); auto.
      * auto.
    + destruct (IH result kwargs) as (H1 & H2).
      cbv zeta in H1, H2. rewrite H1, H2.
      rewrite (String.eqb_sym k key).
      destruct (String.eqb_spec key k) as [<-|_]; cbn [orb]; [|auto].
      rewrite E. destruct (named r key); auto.
Qed.

Lemma lookup_not_in (d : Kwargs.dict V) (k : string) :
  ~ In k (map fst d) -> Kwargs.lookup d k = None.
Proof.
  induction d as [|[k' v'] r IH]; cbn [map fst In Kwargs.lookup]; [reflexivity|].
  intros H. destruct (String.eqb_spec k' k) as [->|_]; [contradiction H; auto|].
  apply IH. auto.
Qed.

Lemma moved_defaults (keyvalues result kwargs : Kwargs.dict V) (k : string) :
  NoDup (map fst keyvalues) ->
  let st := fold_left (@Kwargs.move_or_default V) keyvalues (result, kwargs) in
  Kwargs.lookup (snd st) k
  = (if Kwargs.contains keyvalues k then None else Kwargs.lookup kwargs k)
  /\ Kwargs.lookup (fst st) k
     = match Kwargs.lookup keyvalues k with
       | Some d => match Kwargs.lookup kwargs k with
                   | Some v => Some v
                   | None => Some d
                   end
       | None => Kwargs.lookup result k
       end.
Proof.
  revert result kwargs. induction keyvalues as [|[key d] r IH]; intros result kwargs Hnd.
  - cbn. auto.
  - cbn [map fst] in Hnd. inversion Hnd as [|? ? Hnot Hnd']; subst.
    pose proof (lookup_not_in r key Hnot) as Hr.
    cbn [fold_left]. rewrite move_or_default_step.
    unfold Kwargs.contains. cbn [Kwargs.lookup].
    destruct (Kwargs.lookup kwargs key) as [v|] eqn:E.
    + destruct (IH (Kwargs.setitem result key v) (Kwargs.delitem kwargs key) Hnd')
        as (H1 & H2).
      cbv zeta in H1, H2. unfold Kwargs.contains in H1.
      rewrite H1, H2, lookup_delitem, lookup_setitem.
      destruct (String.eqb_spec key k) as [<-|_].
      * rewrite Hr, E. auto.
      * destruct (Kwargs.lookup r k); auto.
    + destruct (IH (Kwargs.setitem result key d) kwargs Hnd') as (H1 & H2).
      cbv zeta in H1, H2. unfold Kwargs.contains in H1.
      rewrite H1, H2, lookup_setitem.
      destruct (String.eqb_spec key k) as [<-|_].
      * rewrite Hr, E. auto.
      * destruct (Kwargs.lookup r k); auto.
Qed.

(** X24. [parse_kwargs] moves the named arguments out of [kwargs].  What
    is left in [kwargs] are its items under keys that are neither in
    [keys] nor in [keyvalues].  The returned dict holds, for a key of
    [keyvalues], the value of [kwargs] or else the default, and for a key
    of [keys] the value of [kwargs] if there is one; but a key given both
    in [keys] and in [keyvalues] gets the default even if [kwargs] held a
    value for it.  No other key is returned. *)
Theorem parse_kwargs_splits (kwargs keyvalues : Kwargs.dict V) (keys : list string) :
  NoDup (map fst keyvalues) ->
  let result := fst (Kwargs.parse_kwargs kwargs keys keyvalues) in
  let rest := snd (Kwargs.parse_kwargs kwargs keys keyvalues) in
  forall k,
    Kwargs.lookup rest k
    = (if named keys k || Kwargs.contains keyvalues k then None
       else Kwargs.lookup kwargs k)
    /\ Kwargs.lookup result k
       = match Kwargs.lookup keyvalues k with
         | Some d => if named keys k then Some d
                     else match Kwargs.lookup kwargs k with
                          | Some v => Some v
                          | None => Some d
                          end
         | None => if named keys k then Kwargs.lookup kwargs k else None
         end.
Proof.
  intros Hnd result rest k. unfold result, rest, Kwargs.parse_kwargs.
  set (st1 := fold_left (@Kwargs.move V) keys _).
  assert (K : Kwargs.lookup (snd st1) k
              = (if named keys k then None else Kwargs.lookup kwargs k)
              /\ Kwargs.lookup (fst st1) k
                 = (if named keys k then Kwargs.lookup kwargs k else None)).
  { destruct (moved_keys keys [] kwargs k) as (K1 & K2). split; [exact K1|].
    etransitivity; [exact K2|]. cbn [Kwargs.lookup].
    destruct (named keys k); [|reflexivity]. destruct (Kwargs.lookup kwargs k); reflexivity. }
  clearbody st1. destruct st1 as [res1 kw1]. cbn [fst snd] in K.
  destruct K as (K1 & K2).
  pose proof (moved_defaults keyvalues res1 kw1 k Hnd) as D. cbv zeta in D.
  destruct D as (D1 & D2).
  rewrite D1, D2, K1, K2. unfold Kwargs.contains.
  destruct (Kwargs.lookup keyvalues k), (named keys k), (Kwargs.lookup kwargs k); auto.
Qed.

End parse.

Lemma parse_kwargs_splits_witness :
  let kwargs := [("one", 1); ("two", 2); ("four", 4)] in
  let keyvalues := [("four", 0); ("five", 5); ("two", 9)] in
  Kwargs.parse_kwargs kwargs ["two"; "three"] keyvalues
  = ([("two", 9); ("four", 4); ("five", 5)], [("one", 1)])
  /\ Kwargs.lookup (fst (Kwargs.parse_kwargs kwargs ["two"; "three"] keyvalues)) "two"
     = Some 9.
Proof.
  intros kwargs keyvalues. split; [reflexivity|].
  assert (Hnd : NoDup (map fst keyvalues)).
  { repeat constructor; simpl; intuition discriminate. }
  exact (proj2 (parse_kwargs_splits Z kwargs keyvalues ["two"; "three"] Hnd "two")).
Defined.

(** ** FileHandle on an embedded file *)

Lemma stream_seek_start (s : Stream.t) (o : Z) :
  0 <= o -> Stream.seek o 0 s = (Ok tt, Stream.mk (Stream.data s) o).
Proof.
  intros Ho. unfold Stream.seek. cbn [TIFF.mem existsb Z.eqb orb negb].
  destruct (Z.ltb_spec o 0); [lia|reflexivity].
Qed.

Lemma stream_seek_end (s : Stream.t) (o : Z) :
  0 <= Z.of_nat (length (Stream.data s)) + o ->
  Stream.seek o 2 s
  = (Ok tt, Stream.mk (Stream.data s) (Z.of_nat (length (Stream.data s)) + o)).
Proof.
  intros Ho. unfold Stream.seek.
  change (negb (TIFF.mem 2 [0; 1; 2])) with false. cbv beta iota.
  change (2 =? 0) with false. change (2 =? 1) with false. cbv beta iota.
  destruct (Z.ltb_spec (Z.of_nat (length (Stream.data s)) + o) 0); [lia|reflexivity].
Qed.

Lemma init_embedded (bytes : list byte) (offset : Z) :
  0 <= offset ->
  FileHandle_methods.__init__ (Stream.mk bytes 0) (Some offset) None
  = Ok (FileHandle_methods.mk (Stream.mk bytes offset) offset
          (Z.of_nat (length bytes) + offset)).
Proof.
  intros Ho. unfold FileHandle_methods.__init__, FileHandle_methods.open.
  unfold bind at 1, ret at 1.
  assert (H1 : (if negb (offset =? 0) then Stream.seek offset 0 else ret tt)
                 (Stream.mk bytes 0) = (Ok tt, Stream.mk bytes offset)).
  { destruct (Z.eqb_spec offset 0) as [->|_]; cbn [negb]; [reflexivity|].
    apply stream_seek_start. exact Ho. }
  rewrite (bind_Ok _ _ _ _ _ H1).
  assert (H2 : (pos <- Stream.tell ;;
                Stream.seek offset 2 ;;;
                n <- Stream.tell ;;
                Stream.seek pos 0 ;;;
                ret n) (Stream.mk bytes offset)
               = (Ok (Z.of_nat (length bytes) + offset), Stream.mk bytes offset)).
  { unfold bind at 1, Stream.tell at 1. cbn [Stream.pos].
    rewrite (bind_Ok _ _ _ _ _ (stream_seek_end (Stream.mk bytes offset) offset
                                  ltac:(cbn [Stream.data]; lia))).
    cbn [Stream.data]. unfold bind at 1, Stream.tell at 1. cbn [Stream.pos].
    rewrite (bind_Ok _ _ _ _ _ (stream_seek_start _ offset Ho)). reflexivity. }
  rewrite (bind_Ok _ _ _ _ _ H2). reflexivity.
Qed.

(** X25. A FileHandle opened at [offset] in a file of [n] bytes that is at
    its start, without a [size]: the position of the file is the offset,
    [tell()] is 0, and the size is what [tell] gave after
    [seek(offset, 2)], that is [n + offset]; with offset 0 it is [n].
    [read()] then returns all bytes from the offset to the end of the
    file. *)
Theorem open_default_size (bytes : list byte) (offset : Z) :
  0 <= offset ->
  let n := Z.of_nat (length bytes) in
  exists self,
    FileHandle_methods.__init__ (Stream.mk bytes 0) (Some offset) None = Ok self
    /\ Stream.pos (FileHandle_methods._fh self) = offset
    /\ Stream.data (FileHandle_methods._fh self) = bytes
    /\ FileHandle_methods._offset self = offset
    /\ FileHandle_methods.size self = n + offset
    /\ fst (FileHandle_methods.tell self) = Ok 0
    /\ fst (FileHandle_methods.read (-1) self) = Ok (skipn (Z.to_nat offset) bytes).
Proof.
  intros Ho n.
  eexists. split; [exact (init_embedded bytes offset Ho)|].
  cbn [FileHandle_methods._fh FileHandle_methods._offset FileHandle_methods._size
       FileHandle_methods.size Stream.pos Stream.data].
  repeat split.
  - unfold FileHandle_methods.tell, bind, get, FileHandle_methods.on_fh, Stream.tell, ret.
    cbn. f_equal. lia.
  - unfold FileHandle_methods.read, bind, get, FileHandle_methods.on_fh, Stream.read.
    cbn [FileHandle_methods._fh FileHandle_methods._offset FileHandle_methods._size
         Stream.pos Stream.data fst].
    change (-1 <? 0) with true. cbn [andb].
    destruct (Z.eqb_spec offset 0) as [->|Hne]; cbn [negb].
    + reflexivity.
    + fold n. destruct (Z.ltb_spec (n + offset) 0); [lia|].
      f_equal. apply firstn_all2. rewrite length_skipn. unfold n. lia.
Qed.

Lemma open_default_size_witness :
  exists self,
    FileHandle_methods.__init__ (Stream.mk two_rows_file 0) (Some 8) None = Ok self
    /\ FileHandle_methods.size self = 24
    /\ fst (FileHandle_methods.read (-1) self)
       = Ok [x01; x02; x03; x04; x09; x09; x09; x09].
Proof.
  destruct (open_default_size two_rows_file 8 ltac:(lia))
    as (self & H1 & _ & _ & _ & H5 & _ & H7).
  exists self. split; [exact H1|]. split; [exact H5|exact H7].
Defined.

(** X26. Positions of a FileHandle are relative to its offset.  After
    [seek(p)], [tell()] is [p].  [seek(p, 2)] on an embedded file (offset
    not 0) of positive size goes to [p] after the end of the embedded
    file, and [tell()] is then [size + p]; with offset 0 or a size that
    is not positive it goes to [p] after the end of the whole file.
    [read()] on an embedded file reads [size] bytes from the current
    position, wherever that is in the embedded file. *)
Theorem embedded_positions_relative (self : FileHandle_methods.t) (p : Z) :
  let o := FileHandle_methods._offset self in
  let n := FileHandle_methods._size self in
  let bytes := Stream.data (FileHandle_methods._fh self) in
  let at_ q := FileHandle_methods.mk (Stream.mk bytes q) o n in
  (0 <= o + p ->
   FileHandle_methods.seek p 0 self = (Ok tt, at_ (o + p))
   /\ FileHandle_methods.tell (at_ (o + p)) = (Ok p, at_ (o + p)))
  /\ (o <> 0 -> 0 < n -> 0 <= o + n + p ->
      FileHandle_methods.seek p 2 self = (Ok tt, at_ (o + n + p))
      /\ fst (FileHandle_methods.tell (at_ (o + n + p))) = Ok (n + p))
  /\ (o = 0 \/ n <= 0 -> 0 <= Z.of_nat (length bytes) + p ->
      FileHandle_methods.seek p 2 self = (Ok tt, at_ (Z.of_nat (length bytes) + p))
      /\ fst (FileHandle_methods.tell (at_ (Z.of_nat (length bytes) + p)))
         = Ok (Z.of_nat (length bytes) + p - o))
  /\ (o <> 0 -> 0 <= n ->
      fst (FileHandle_methods.read (-1) self)
      = Ok (firstn (Z.to_nat n)
              (skipn (Z.to_nat (Stream.pos (FileHandle_methods._fh self))) bytes))).
Proof.
  intros o n bytes at_.
  assert (Htell : forall q, FileHandle_methods.tell (at_ q) = (Ok (q - o), at_ q)).
  { intros q. reflexivity. }
  split; [|split; [|split]].
  - intros Hp. split.
    + unfold FileHandle_methods.seek, bind, get. fold o.
      destruct (Z.eqb_spec o 0) as [E|E]; cbn [negb Z.eqb];
        unfold FileHandle_methods.on_fh; rewrite stream_seek_start by lia;
        fold bytes o n; unfold at_; [rewrite E|]; reflexivity.
    + rewrite Htell. f_equal. f_equal. lia.
  - intros Ho Hn Hp. split.
    + unfold FileHandle_methods.seek, bind, get. fold o n.
      destruct (Z.eqb_spec o 0) as [E|_]; [contradiction|]. cbn [negb].
      change (2 =? 0) with false. change (2 =? 2) with true. cbv beta iota.
      destruct (Z.gtb_spec n 0) as [_|]; [|lia]. cbn [andb].
      unfold FileHandle_methods.on_fh. rewrite stream_seek_start by lia. reflexivity.
    + rewrite Htell. cbn [fst]. f_equal. lia.
  - intros Hon Hp. split.
    + unfold FileHandle_methods.seek, bind, get. fold o n.
      assert (Hany : FileHandle_methods.on_fh (Stream.seek p 2) self
                     = (Ok tt, at_ (Z.of_nat (length bytes) + p))).
      { unfold FileHandle_methods.on_fh. rewrite stream_seek_end by (fold bytes; lia).
        reflexivity. }
      destruct (Z.eqb_spec o 0) as [E|E]; cbn [negb]; [exact Hany|].
      change (2 =? 0) with false. change (2 =? 2) with true. cbv beta iota.
      destruct (Z.gtb_spec n 0) as [|_]; [lia|]. cbn [andb]. exact Hany.
    + rewrite Htell. reflexivity.
  - intros Ho Hn. unfold FileHandle_methods.read, bind, get. fold o n.
    change (-1 <? 0) with true. cbn [andb].
    destruct (Z.eqb_spec o 0) as [E|_]; [contradiction|]. cbn [negb].
    unfold FileHandle_methods.on_fh, Stream.read.
    destruct (Z.ltb_spec n 0); [lia|]. reflexivity.
Qed.

(** ** Out-of-line tag values are read in full *)

(** The warnings that the second half of [TiffTag.__init__] can log. *)
Definition normalise_warning (entry : warning) : Prop :=
  fst entry = "TiffTag %i: coercing invalid ASCII to bytes"
  \/ fst entry = "TiffTag  %i: %s".

(** The log grew by warnings of the second half only. *)
Definition logged_since (log0 : list warning) (w : World) : Prop :=
  exists added, log w = log0 ++ added /\ Forall normalise_warning added.

Definition short_read (e : exn) : Prop :=
  e = ValueError "failed to read %i bytes".

Lemma logged_since_refl (w : World) : logged_since (log w) w.
Proof. exists []. split; [now rewrite app_nil_r|constructor]. Qed.

Lemma normalise_logs env code type_ count dt valueoffset value log0 :
  triple (logged_since log0)
         (TiffTag.normalise env code type_ count dt valueoffset value)
         (fun r w => logged_since log0 w
                     /\ forall e, r = Raise e -> ~ short_read e).
Proof.
  assert (Hwarn : forall fmt args (Q : result unit -> World -> Prop),
            normalise_warning (fmt, args) ->
            (forall w, logged_since log0 w -> Q (Ok tt) w) ->
            triple (logged_since log0) (log_warning fmt args) Q).
  { intros fmt args Q Hf HQ w (added & Hl & Hall). apply HQ.
    exists (added ++ [(fmt, args)]). cbn [log_warning modify snd log].
    split; [rewrite Hl; symmetry; apply app_assoc|].
    apply Forall_app. split; [exact Hall|]. constructor; [exact Hf|constructor]. }
  unfold TiffTag.normalise.
  destruct value;
    repeat first
      [ apply triple_ret; intros ? ?; split; [assumption|intros ? E; discriminate E]
      | apply triple_raise; intros ? ?; split;
        [assumption|intros ? E; injection E as <-; unfold short_read; discriminate]
      | apply Hwarn; [unfold normalise_warning; cbn [fst]; auto|intros ? ?]
      | eapply triple_bind with (R := fun _ => logged_since log0); [|intros ?]
      | apply triple_lift; intros ? ?
      | match goal with
        | |- triple _ (if ?b then _ else _) _ => destruct b
        | |- triple _ (match ?x with _ => _ end) _ => destruct x
        end ].
  all: try assumption.
  all: try (split; [assumption|intros ? E; discriminate E]).
  all: match goal with
       | |- match py_len ?a with _ => _ end => destruct a; cbn [py_len]
       end;
       try assumption;
       (split; [assumption|intros ? E; injection E as <-; unfold short_read; discriminate]).
Qed.

Lemma DATA_FORMATS_n (type_ : Z) (dt : dtype_fmt) :
  TIFF.DATA_FORMATS type_ = Some dt -> 1 <= dt_n dt.
Proof.
  unfold TIFF.DATA_FORMATS.
  destruct type_ as [|p|p]; try discriminate.
  do 6 (try destruct p as [p|p|]; try discriminate);
    intros E; injection E as <-; simpl; lia.
Qed.

Lemma struct_unpack_raises bo n c data e :
  struct_unpack bo n c data = Raise e -> e = struct_error.
Proof.
  unfold struct_unpack, struct_calcsize.
  destruct (_ >? PY_SSIZE_T_MAX); [intros E; injection E as <-; reflexivity|].
  destruct (negb _); [intros E; injection E as <-; reflexivity|].
  destruct c; discriminate.
Qed.

(** A read of [k] bytes that the file holds, after a seek to [o]. *)
Lemma seek_read_full (w : World) (o k : Z) :
  0 <= o -> 0 <= k -> o + k <= Z.of_nat (length (fh_data (fh w))) ->
  exists w1 data w2,
    fh_seek o w = (Ok tt, w1) /\ fh_read k w1 = (Ok data, w2)
    /\ Z.of_nat (length data) = k /\ log w2 = log w.
Proof.
  intros Ho Hk Hlen.
  unfold fh_seek. destruct (Z.ltb_spec o 0) as [|_]; [lia|].
  eexists. eexists. eexists. split; [reflexivity|].
  unfold fh_read. cbn [fh fh_pos fh_data log].
  destruct (Z.ltb_spec k 0) as [|_]; [lia|].
  split; [reflexivity|]. split; [|reflexivity].
  rewrite length_firstn, length_skipn. lia.
Qed.

Lemma read_value_complete env tiff tagoffset code type_ count raw dt size (w : World) :
  TIFF.DATA_FORMATS type_ = Some dt ->
  struct_calcsize (count * dt_n dt) (dt_c dt) = Ok size ->
  0 <= count ->
  TIFF.in_TAG_READERS code = false ->
  fh_size (fh w) = Z.of_nat (length (fh_data (fh w))) ->
  let r := TiffTag.read_value env tiff tagoffset code type_ count raw dt size w in
  log (snd r) = log w /\ forall e, fst r = Raise e -> ~ short_read e.
Proof.
  intros Hdt Hsize Hcount Hrd Hfile r.
  pose proof (DATA_FORMATS_n _ _ Hdt) as Hn.
  assert (Hitem : 0 < itemsize (dt_c dt)) by (destruct (dt_c dt); simpl; lia).
  assert (Hsz : size = count * dt_n dt * itemsize (dt_c dt)).
  { unfold struct_calcsize in Hsize. destruct (_ >? PY_SSIZE_T_MAX); [discriminate|].
    injection Hsize as <-. reflexivity. }
  assert (Hle : 0 <= count * itemsize (dt_c dt) <= size) by (rewrite Hsz; nia).
  assert (Hstruct : forall e, Raise (A := Z * pyvalue) struct_error = Raise e -> ~ short_read e).
  { intros e E. injection E as <-. unfold short_read. discriminate. }
  unfold r. destruct (TiffTag.read_value env tiff tagoffset code type_ count raw dt size w)
    as [res w'] eqn:Hrun. cbn [fst snd].
  unfold TiffTag.read_value in Hrun. rewrite Hrd, orb_false_r in Hrun.
  assert (Hleaf : forall (x : result (Z * pyvalue)) (w0 : World),
            (x, w0) = (res, w') -> log w0 = log w ->
            (forall e, x = Raise e -> ~ short_read e) ->
            log w' = log w /\ forall e, res = Raise e -> ~ short_read e).
  { intros x w0 E Hl Hx. injection E as <- <-. split; assumption. }
  assert (Hother : forall e0, e0 <> ValueError "failed to read %i bytes" ->
            forall e, Raise (A := Z * pyvalue) e0 = Raise e -> ~ short_read e).
  { intros e0 Hne e E. injection E as <-. exact Hne. }
  destruct (size >? TIFF.offsetsize tiff).
  - unfold bind at 1, lift at 1 in Hrun.
    destruct (unpack (TIFF.byteorder_ tiff) (TIFF.offsetformat tiff) raw) as [offset|e] eqn:Eo.
    2:{ apply (Hleaf _ _ Hrun eq_refl).
        unfold unpack in Eo. destruct (_ =? _); [discriminate|].
        injection Eo as <-. apply Hother. discriminate. }
    unfold bind at 1, get at 1 in Hrun. cbv beta iota in Hrun.
    destruct ((offset <? 8) || (offset >? fh_size (fh w) - size)) eqn:B.
    { apply (Hleaf _ _ Hrun eq_refl). apply Hother. discriminate. }
    apply orb_false_iff in B. destruct B as (H8 & Hup).
    apply Z.ltb_ge in H8. rewrite Z.gtb_ltb in Hup. apply Z.ltb_ge in Hup.
    rewrite Hfile in Hup.
    destruct ((type_ =? 7) || ((count >? 1) && TiffTag.is_c_B (dt_c dt))).
    + (* read_bytes *)
      destruct (seek_read_full w offset (count * itemsize (dt_c dt)))
        as (w1 & data & w2 & Hs & Hr & Hl & Hlog); try lia.
      rewrite (bind_Ok _ _ _ _ _ Hs) in Hrun.
      unfold TiffTag.read_bytes in Hrun. unfold bind at 1 in Hrun.
      unfold bind at 1 in Hrun. rewrite Hr in Hrun.
      rewrite Hl, Z.eqb_refl in Hrun. cbn [negb] in Hrun. unfold bind, ret in Hrun.
      apply (Hleaf _ _ Hrun Hlog). discriminate.
    + destruct (TiffTag.in_TAGS env code || TiffTag.is_c_s (dt_c dt)).
      * (* struct.unpack on the bytes read *)
        destruct (seek_read_full w offset size)
          as (w1 & data & w2 & Hs & Hr & Hl & Hlog); try lia.
        rewrite (bind_Ok _ _ _ _ _ Hs) in Hrun.
        unfold bind at 1 in Hrun. unfold bind at 1 in Hrun. rewrite Hr in Hrun.
        unfold lift in Hrun.
        destruct (struct_unpack _ _ _ data) as [v|e] eqn:Eu.
        -- unfold ret in Hrun. apply (Hleaf _ _ Hrun Hlog). discriminate.
        -- apply (Hleaf _ _ Hrun Hlog). apply struct_unpack_raises in Eu. subst e.
           apply Hother. discriminate.
      * (* read_numpy *)
        set (c' := match dt_c dt with c_s => c_b | c => c end) in *.
        assert (Hc' : itemsize c' = itemsize (dt_c dt))
          by (unfold c'; destruct (dt_c dt); reflexivity).
        destruct (seek_read_full w offset (count * itemsize c'))
          as (w1 & data & w2 & Hs & Hr & Hl & Hlog); try lia; try (rewrite Hc'; lia).
        rewrite (bind_Ok _ _ _ _ _ Hs) in Hrun.
        unfold TiffTag.read_numpy in Hrun. fold c' in Hrun. cbv zeta in Hrun.
        unfold bind at 1 in Hrun. unfold bind at 1 in Hrun. rewrite Hr in Hrun.
        rewrite Hl, Z.eqb_refl in Hrun. cbn [negb] in Hrun. unfold bind, ret in Hrun.
        apply (Hleaf _ _ Hrun Hlog). discriminate.
  - destruct (TiffTag.is_c_B (dt_c dt) || (type_ =? 7)).
    + unfold ret in Hrun. apply (Hleaf _ _ Hrun eq_refl). discriminate.
    + unfold bind, lift in Hrun.
      destruct (struct_unpack _ _ _ _) as [v|e] eqn:Eu.
      * unfold ret in Hrun. apply (Hleaf _ _ Hrun eq_refl). discriminate.
      * apply (Hleaf _ _ Hrun eq_refl). apply struct_unpack_raises in Eu. subst e.
        apply Hother. discriminate.
Qed.

(** X27. An out-of-line tag value is always read in full.  For a channel
    whose size is the length of the file and a code outside TAG_READERS,
    the bounds test on the value offset leaves no room for a short read:
    [TiffTag.__init__] never raises the ValueError of [read_numpy]
    ('failed to read') and never logs the warning of [read_bytes]
    ('failed to read all bytes'); what it logs are the warnings about
    invalid ASCII and enumeration values only. *)
Theorem tag_value_read_complete
        (env : TiffTag.TagEnv) (tiff : TIFF.descriptor)
        (tagheader : list byte) (tagoffset : Z)
        (code type_ count size : Z) (raw : list byte) (dt : dtype_fmt) (w : World) :
  unpack_HH (TIFF.byteorder_ tiff) (py_slice tagheader 0 4) = Ok (code, type_) ->
  TiffTag.unpack_tagformat2 tiff (skipn 4 tagheader) = Ok (count, raw) ->
  TIFF.DATA_FORMATS type_ = Some dt ->
  struct_calcsize (count * dt_n dt) (dt_c dt) = Ok size ->
  TIFF.in_TAG_READERS code = false ->
  fh_size (fh w) = Z.of_nat (length (fh_data (fh w))) ->
  let r := TiffTag.init env tiff tagheader tagoffset w in
  fst r <> Raise (ValueError "failed to read %i bytes")
  /\ (exists added, log (snd r) = log w ++ added /\ Forall normalise_warning added)
  /\ forall args,
       ~ In ("read_bytes: failed to read all bytes (%i < %i)", args)
            (skipn (length (log w)) (log (snd r))).
Proof.
  intros Hhead Hfield Hdt Hsize Hrd Hfile r.
  assert (Hcount : 0 <= count).
  { unfold TiffTag.unpack_tagformat2 in Hfield. destruct (_ =? _); [|discriminate].
    injection Hfield as <- _. apply bytes_to_Z_nonneg. }
  assert (Hmain : (forall e, fst r = Raise e -> ~ short_read e)
                  /\ logged_since (log w) (snd r)).
  { unfold r.
    rewrite (init_unfold env tiff tagheader tagoffset code type_ count size raw dt
               Hhead Hfield Hdt Hsize w).
    destruct (read_value_complete env tiff tagoffset code type_ count raw dt size w
                Hdt Hsize Hcount Hrd Hfile) as (Hlog & Hexn).
    cbv zeta in Hlog, Hexn.
    destruct (TiffTag.read_value env tiff tagoffset code type_ count raw dt size w)
      as [[ov|e] w1] eqn:Hrv; cbn [fst snd] in Hlog, Hexn.
    - rewrite (bind_Ok _ _ _ _ _ Hrv).
      assert (Hpre : logged_since (log w) w1).
      { rewrite <- Hlog. apply logged_since_refl. }
      destruct (normalise_logs env code type_ count dt (fst ov) (snd ov) (log w) w1 Hpre)
        as (H1 & H2).
      split; [exact H2|exact H1].
    - rewrite (bind_Raise _ _ _ _ _ Hrv). cbn [fst snd]. split.
      + intros e0 E. injection E as <-. apply Hexn. reflexivity.
      + rewrite <- Hlog. apply logged_since_refl. }
  destruct Hmain as (Hexn & added & Hl & Hall).
  split; [|split].
  - intros E. exact (Hexn _ E eq_refl).
  - exists added. split; assumption.
  - intros args Hin. rewrite Hl in Hin.
    rewrite skipn_app, skipn_all, Nat.sub_diag, skipn_O, app_nil_l in Hin.
    rewrite Forall_forall in Hall. specialize (Hall _ Hin).
    destruct Hall as [E|E]; cbn [fst] in E; discriminate E.
Qed.

Lemma tag_value_read_complete_witness :
  let hdr := [x11; x01; x04; x00; x02; x00; x00; x00; x08; x00; x00; x00] in
  let w := World_of_bytes (repeat x01 64) in
  fst (TiffTag.init example_env TIFF.CLASSIC_LE hdr 10 w)
  = Ok (TiffTag.mk 273 2 (mkDtype 1 c_I) (PTuple [NInt 16843009; NInt 16843009]) 8)
  /\ fst (TiffTag.init example_env TIFF.CLASSIC_LE hdr 10 w)
     <> Raise (ValueError "failed to read %i bytes").
Proof.
  intros hdr w. split; [reflexivity|].
  exact (proj1 (tag_value_read_complete example_env TIFF.CLASSIC_LE hdr 10
                  273 4 2 8 [x08; x00; x00; x00] (mkDtype 1 c_I) w
                  eq_refl eq_refl eq_refl eq_refl eq_refl eq_refl)).
Defined.

(** ** ASCII values *)

(** A byte of text: printable and not white space. *)
Definition text_byte (b : byte) : Prop := 32 < Util.byte2int b < 127.

Lemma text_printable (b : byte) : text_byte b -> printable b = true.
Proof.
  unfold text_byte, printable. intros H.
  destruct (Z.ltb_spec 8 (Util.byte2int b)); [|lia].
  destruct (Z.ltb_spec (Util.byte2int b) 127); [reflexivity|lia].
Qed.

Lemma text_not_space (b : byte) : text_byte b -> TiffTag.is_space b = false.
Proof.
  unfold text_byte, TiffTag.is_space, Util.byte2int. intros H. cbv zeta.
  destruct (Z.eqb_spec (Z.of_N (Byte.to_N b)) 32); [lia|].
  destruct (Z.leb_spec 9 (Z.of_N (Byte.to_N b))); [|reflexivity].
  destruct (Z.leb_spec (Z.of_N (Byte.to_N b)) 13); [lia|reflexivity].
Qed.

Lemma stripascii_text (s : list byte) (nuls : nat) :
  Forall text_byte s -> TiffTag.stripascii (s ++ repeat x00 nuls) = s.
Proof.
  intros Hs. induction nuls as [|k IH].
  - rewrite app_nil_r. destruct s as [|a s'] using rev_ind; [reflexivity|].
    rewrite tag_stripascii_snoc.
    apply Forall_app in Hs. destruct Hs as (_ & Ha). inversion Ha; subst.
    rewrite text_printable by assumption. reflexivity.
  - replace (repeat x00 (S k)) with (repeat x00 k ++ [x00]).
    + rewrite app_assoc, tag_stripascii_snoc. exact IH.
    + change [x00] with (repeat x00 1). rewrite <- repeat_app. f_equal. lia.
Qed.

Lemma lstrip_text (s : list byte) :
  (forall b r, s = b :: r -> text_byte b) -> TiffTag.lstrip s = s.
Proof.
  destruct s as [|b r]; [reflexivity|]. intros H. cbn [TiffTag.lstrip].
  rewrite (text_not_space b (H b r eq_refl)). reflexivity.
Qed.

Lemma strip_text (s : list byte) : Forall text_byte s -> TiffTag.strip s = s.
Proof.
  intros Hs. unfold TiffTag.strip.
  rewrite (lstrip_text s).
  - rewrite (lstrip_text (rev s)); [apply rev_involutive|].
    intros b r E. rewrite Forall_forall in Hs. apply Hs.
    apply in_rev. rewrite E. left. reflexivity.
  - intros b r ->. inversion Hs; assumption.
Qed.

Lemma tag_header_decodes (tiff : TIFF.descriptor) (code type_ count : Z) (field : list byte) :
  module_descriptor tiff ->
  0 <= code < 65536 -> 0 <= type_ < 65536 ->
  0 <= count < 256 ^ TIFF.offsetsize tiff ->
  length field = Z.to_nat (TIFF.offsetsize tiff) ->
  unpack_HH (TIFF.byteorder_ tiff) (py_slice (tag_header tiff code type_ count field) 0 4)
  = Ok (code, type_)
  /\ TiffTag.unpack_tagformat2 tiff (skipn 4 (tag_header tiff code type_ count field))
     = Ok (count, field).
Proof.
  intros Hmd Hcode Htype Hcount Hfield.
  set (bo := TIFF.byteorder_ tiff). set (osz := TIFF.offsetsize tiff) in *.
  assert (Hosz : osz = 4 \/ osz = 8).
  { unfold osz. unfold module_descriptor in Hmd. simpl in Hmd.
    destruct Hmd as [<-|[<-|[<-|[<-|[<-|[]]]]]]; simpl; lia. }
  assert (L4 : length (pack bo 2 code ++ pack bo 2 type_) = 4%nat)
    by (rewrite length_app, !length_pack; reflexivity).
  split.
  - unfold tag_header, py_slice. fold bo. cbn [skipn Z.to_nat Z.sub].
    change (Z.to_nat (4 - 0)) with 4%nat. rewrite app_assoc.
    rewrite (firstn_app_exact _ _ _ L4).
    unfold unpack_HH. rewrite L4. cbn [Z.of_nat Pos.of_succ_nat Pos.succ Z.eqb Pos.eqb].
    rewrite (firstn_app_exact _ _ _ (length_pack bo 2 code)).
    rewrite (skipn_app_exact _ _ _ (length_pack bo 2 code)).
    rewrite !bytes_to_Z_pack by (simpl; lia). reflexivity.
  - unfold tag_header. fold bo osz. rewrite app_assoc.
    rewrite (skipn_app_exact _ _ _ L4).
    unfold TiffTag.unpack_tagformat2. fold bo osz.
    rewrite length_app, length_pack, Hfield.
    destruct (Z.eqb_spec (Z.of_nat (Z.to_nat osz + Z.to_nat osz)) (2 * osz)) as [_|E]; [|lia].
    rewrite (firstn_app_exact _ _ _ (length_pack bo (Z.to_nat osz) count)).
    rewrite (skipn_app_exact _ _ _ (length_pack bo (Z.to_nat osz) count)).
    rewrite bytes_to_Z_pack; [reflexivity|].
    rewrite Z2Nat.id by lia. exact Hcount.
Qed.

(** X28. An ASCII tag whose value does not fit the inline field: when the
    offset field points at a text [s] (bytes between 33 and 126) followed
    by NUL bytes up to the count, inside the file and not before offset
    8, [TiffTag.__init__] seeks there, reads [count] bytes once and
    returns the tag with the str [s] as value, the count as stored, and
    the file offset as value offset.  Nothing is logged. *)
Theorem ascii_tag_round_trip (env : TiffTag.TagEnv) (tiff : TIFF.descriptor)
        (code : Z) (s : list byte) (nuls : nat) (offset tagoffset : Z) (w : World) :
  module_descriptor tiff ->
  0 <= code < 65536 ->
  TIFF.in_TAG_READERS code = false ->
  TIFF.in_TAG_TUPLE code = false ->
  Forall text_byte s ->
  TiffTag.decodable env s = true ->
  let count := Z.of_nat (length s + nuls) in
  TIFF.offsetsize tiff < count < 2 ^ 31 ->
  8 <= offset < 2 ^ 32 ->
  fh_size (fh w) = Z.of_nat (length (fh_data (fh w))) ->
  peek (fh_data (fh w)) offset count = s ++ repeat x00 nuls ->
  let field := pack (TIFF.byteorder_ tiff) (Z.to_nat (TIFF.offsetsize tiff)) offset in
  let r := TiffTag.init env tiff (tag_header tiff code 2 count field) tagoffset w in
  fst r = Ok (TiffTag.mk code count (mkDtype 1 c_s) (PStr s) offset)
  /\ reads (snd r) = reads w ++ [(offset, count)]
  /\ log (snd r) = log w
  /\ fh_data (fh (snd r)) = fh_data (fh w).
Proof.
  intros Hmd Hcode Hrd Htuple Hs Hdec count Hcount Hoff Hfile Hpeek field r.
  set (bo := TIFF.byteorder_ tiff) in *.
  set (osz := TIFF.offsetsize tiff) in *.
  assert (Hosz : (osz = 4 \/ osz = 8) /\ calcsize (TIFF.offsetformat tiff) = osz).
  { unfold osz. unfold module_descriptor in Hmd. simpl in Hmd.
    destruct Hmd as [<-|[<-|[<-|[<-|[<-|[]]]]]]; simpl; lia. }
  destruct Hosz as (Hosz & Hfmt).
  assert (Hpow : 2 ^ 32 <= 256 ^ osz).
  { destruct Hosz as [-> | ->]; simpl; lia. }
  assert (Hfield : length field = Z.to_nat osz) by apply length_pack.
  destruct (tag_header_decodes tiff code 2 count field Hmd Hcode ltac:(lia)
              ltac:(fold osz; lia) Hfield) as (Hhead & Hraw).
  assert (Hsize : struct_calcsize (count * dt_n (mkDtype 1 c_s)) (dt_c (mkDtype 1 c_s))
                  = Ok count).
  { unfold struct_calcsize. cbn [dt_n dt_c itemsize]. rewrite !Z.mul_1_r.
    destruct (Z.gtb_spec count PY_SSIZE_T_MAX) as [G|_]; [|reflexivity].
    unfold PY_SSIZE_T_MAX in G. lia. }
  assert (Hlen : Z.of_nat (length (s ++ repeat x00 nuls)) = count).
  { rewrite length_app, repeat_length. reflexivity. }
  assert (Hin : offset + count <= Z.of_nat (length (fh_data (fh w)))).
  { pose proof (length_peek (fh_data (fh w)) offset count ltac:(lia) ltac:(lia)) as Hp.
    rewrite Hpeek, Hlen in Hp. lia. }
  set (w2 := mkWorld (mkFileHandle (fh_data (fh w)) (offset + count) (fh_size (fh w))
                        (fh_is_file (fh w)) (fh_closed (fh w))
                        ((fh_events (fh w) ++ [EvSeek offset]) ++ [EvRead offset count]))
                     (log w)).
  assert (Hrun : r = (Ok (TiffTag.mk code count (mkDtype 1 c_s) (PStr s) offset), w2)).
  { unfold r.
    rewrite (init_unfold env tiff _ tagoffset code 2 count count field (mkDtype 1 c_s)
               Hhead Hraw eq_refl Hsize w).
    assert (Hrv : TiffTag.read_value env tiff tagoffset code 2 count field (mkDtype 1 c_s)
                    count w
                  = (Ok (offset, PBytes1 (s ++ repeat x00 nuls)), w2)).
    { unfold TiffTag.read_value. fold bo osz. rewrite Hrd, orb_false_r.
      destruct (Z.gtb_spec count osz) as [_|]; [|lia].
      assert (Ho : unpack bo (TIFF.offsetformat tiff) field = Ok offset).
      { unfold unpack. rewrite Hfield, Hfmt, Z2Nat.id by lia. rewrite Z.eqb_refl.
        unfold field. rewrite bytes_to_Z_pack; [reflexivity|].
        rewrite Z2Nat.id by lia. lia. }
      unfold bind at 1, lift at 1. rewrite Ho.
      unfold bind at 1, get at 1. cbv beta iota.
      destruct (Z.ltb_spec offset 8) as [|_]; [lia|].
      destruct (Z.gtb_spec offset (fh_size (fh w) - count)) as [|_]; [lia|].
      cbn [orb].
      assert (Hseek : fh_seek offset w
                      = (Ok tt, mkWorld (mkFileHandle (fh_data (fh w)) offset (fh_size (fh w))
                                           (fh_is_file (fh w)) (fh_closed (fh w))
                                           (fh_events (fh w) ++ [EvSeek offset])) (log w))).
      { unfold fh_seek. destruct (Z.ltb_spec offset 0) as [|_]; [lia|]. reflexivity. }
      rewrite (bind_Ok _ _ _ _ _ Hseek).
      change (2 =? 7) with false. cbn [dt_c TiffTag.is_c_B TiffTag.is_c_s andb orb].
      rewrite andb_false_r, orb_true_r. cbn [orb].
      unfold bind at 1. unfold bind at 1.
      assert (Hread : fh_read count
                        (mkWorld (mkFileHandle (fh_data (fh w)) offset (fh_size (fh w))
                                    (fh_is_file (fh w)) (fh_closed (fh w))
                                    (fh_events (fh w) ++ [EvSeek offset])) (log w))
                      = (Ok (s ++ repeat x00 nuls), w2)).
      { unfold fh_read. cbn [fh fh_data fh_pos fh_size fh_is_file fh_closed fh_events log].
        assert (Hp : (if count <? 0
                      then skipn (Z.to_nat offset) (fh_data (fh w))
                      else firstn (Z.to_nat count) (skipn (Z.to_nat offset) (fh_data (fh w))))
                     = s ++ repeat x00 nuls) by exact Hpeek.
        rewrite Hp, Hlen. reflexivity. }
      rewrite Hread. unfold lift, struct_unpack.
      cbn [dt_n dt_c] in Hsize |- *. rewrite Hsize, Hlen, Z.eqb_refl. reflexivity. }
    rewrite (bind_Ok _ _ _ _ _ Hrv). cbn [fst snd].
    unfold TiffTag.normalise. rewrite Hrd, Htuple.
    change (2 =? 7) with false. cbn [negb andb dt_c TiffTag.is_c_s].
    rewrite (stripascii_text s nuls Hs), (strip_text s Hs), Hdec. reflexivity. }
  rewrite Hrun. cbn [fst snd]. split; [reflexivity|]. split; [|split; reflexivity].
  unfold reads, w2. cbn [fh fh_events]. rewrite !reads_of_app. cbn. rewrite app_nil_r.
  reflexivity.
Qed.

Lemma ascii_tag_round_trip_witness :
  let text := [x48; x65; x6c; x6c; x6f] in
  let w := World_of_bytes (classic_header ++ text ++ [x00]) in
  let hdr := [x0e; x01; x02; x00; x06; x00; x00; x00; x08; x00; x00; x00] in
  fst (TiffTag.init example_env TIFF.CLASSIC_LE hdr 10 w)
  = Ok (TiffTag.mk 270 6 (mkDtype 1 c_s) (PStr text) 8)
  /\ reads (snd (TiffTag.init example_env TIFF.CLASSIC_LE hdr 10 w)) = [(8, 6)].
Proof.
  intros text w hdr.
  destruct (ascii_tag_round_trip example_env TIFF.CLASSIC_LE 270 text 1 8 10 w)
    as (H1 & H2 & _).
  - unfold module_descriptor. simpl. auto.
  - lia.
  - reflexivity.
  - reflexivity.
  - repeat constructor; unfold text_byte; simpl; lia.
  - reflexivity.
  - simpl. lia.
  - lia.
  - reflexivity.
  - reflexivity.
  - split; [exact H1|exact H2].
Defined.

(** ** The cache of open files *)



Lemma refcount_set (fs : list (Z * Z)) (f n g : Z) :
  OpenFileCache.refcount (OpenFileCache.set_refcount fs f n) g
  = if f =? g then Some n else OpenFileCache.refcount fs g.
Proof.
  induction fs as [|[k m] r IH]; cbn [OpenFileCache.set_refcount OpenFileCache.refcount].
  - reflexivity.
  - destruct (Z.eqb_spec k f) as [->|Hne]; cbn [OpenFileCache.refcount].
    + destruct (f =? g); reflexivity.
    + rewrite IH. destruct (Z.eqb_spec k g) as [->|_]; [|reflexivity].
      destruct (Z.eqb_spec f g) as [->|_]; [contradiction Hne; reflexivity|reflexivity].
Qed.

Lemma refcount_del (fs : list (Z * Z)) (f g : Z) :
  OpenFileCache.refcount (OpenFileCache.del_refcount fs f) g
  = if f =? g then None else OpenFileCache.refcount fs g.
Proof.
  unfold OpenFileCache.del_refcount.
  induction fs as [|[k m] r IH]; cbn [filter OpenFileCache.refcount fst].
  - destruct (f =? g); reflexivity.
  - destruct (Z.eqb_spec k f) as [->|Hne]; cbn [negb OpenFileCache.refcount].
    + rewrite IH. destruct (f =? g); reflexivity.
    + rewrite IH. destruct (Z.eqb_spec k g) as [->|_]; [|reflexivity].
      destruct (Z.eqb_spec f g) as [->|_]; [contradiction Hne; reflexivity|reflexivity].
Qed.

Lemma refcount_In (fs : list (Z * Z)) (f : Z) :
  OpenFileCache.refcount fs f <> None <-> In f (map fst fs).
Proof.
  induction fs as [|[k m] r IH]; cbn [OpenFileCache.refcount map fst In].
  - split; [intros H; contradiction H; reflexivity|intros []].
  - destruct (Z.eqb_spec k f) as [->|Hne].
    + split; [auto|discriminate].
    + rewrite IH. split; [auto|]. intros [E|H]; [contradiction|exact H].
Qed.

Lemma keys_set (fs : list (Z * Z)) (f n : Z) :
  map fst (OpenFileCache.set_refcount fs f n)
  = match OpenFileCache.refcount fs f with
    | Some _ => map fst fs
    | None => map fst fs ++ [f]
    end.
Proof.
  induction fs as [|[k m] r IH]; cbn [OpenFileCache.set_refcount OpenFileCache.refcount map fst app].
  - reflexivity.
  - destruct (Z.eqb_spec k f) as [->|Hne]; cbn [map fst]; [reflexivity|].
    rewrite IH. destruct (OpenFileCache.refcount r f); reflexivity.
Qed.

Lemma keys_del (fs : list (Z * Z)) (f : Z) :
  map fst (OpenFileCache.del_refcount fs f) = filter (fun k => negb (k =? f)) (map fst fs).
Proof.
  unfold OpenFileCache.del_refcount. induction fs as [|[k m] r IH]; cbn [filter map fst]; [reflexivity|].
  destruct (k =? f); cbn [negb map fst]; rewrite IH; reflexivity.
Qed.

(** What the methods of the cache maintain: the files of [past] are the
    keys of [files], each once, and they are open. *)
Definition cache_ok (c : OpenFileCache.t) : Prop :=
  NoDup (OpenFileCache.past c)
  /\ NoDup (map fst (OpenFileCache.files c))
  /\ (forall f, In f (OpenFileCache.past c) <-> OpenFileCache.refcount (OpenFileCache.files c) f <> None)
  /\ (forall f, In f (OpenFileCache.past c) -> OpenFileCache.closed c f = false).

Lemma init_ok (size : Z) (closed : Z -> bool) : cache_ok (OpenFileCache.__init__ size closed).
Proof.
  unfold cache_ok, OpenFileCache.__init__. cbn [OpenFileCache.past OpenFileCache.files OpenFileCache.closed map OpenFileCache.refcount In].
  split; [constructor|]. split; [constructor|]. split.
  - intros f. split; [intros []|intros H; contradiction H; reflexivity].
  - intros f [].
Qed.

Lemma set_refcount_ok (c : OpenFileCache.t) (f n m : Z) :
  cache_ok c -> OpenFileCache.refcount (OpenFileCache.files c) f = Some n ->
  cache_ok (OpenFileCache.mk (OpenFileCache.past c) (OpenFileCache.set_refcount (OpenFileCache.files c) f m) (OpenFileCache.size c) (OpenFileCache.closed c)).
Proof.
  intros (Hp & Hk & Hin & Hopen) Hf. unfold cache_ok. cbn [OpenFileCache.past OpenFileCache.files OpenFileCache.closed].
  split; [exact Hp|]. split.
  - rewrite keys_set, Hf. exact Hk.
  - split; [|exact Hopen]. intros g. rewrite refcount_set, Hin.
    destruct (Z.eqb_spec f g) as [<-|_]; [|reflexivity].
    rewrite Hf. split; discriminate.
Qed.

(** X29. [OpenFileCache.open] for file handles that own their file.  From
    a fresh cache on, [open] keeps the files of [past] and the keys of
    [files] the same files, each once and all open.  After [open(f)] the
    file [f] is open: a cached file has its count raised by one, a closed
    file is opened and entered with count 1 at the end of [past], and a
    file that is open and not cached is left alone and not counted.  No
    other file and no other count changes. *)
Theorem filecache_open (c : OpenFileCache.t) (f : Z) :
  cache_ok c ->
  let c' := OpenFileCache.open f c in
  cache_ok c'
  /\ OpenFileCache.closed c' f = false
  /\ (forall g, g <> f ->
        OpenFileCache.closed c' g = OpenFileCache.closed c g
        /\ OpenFileCache.refcount (OpenFileCache.files c') g = OpenFileCache.refcount (OpenFileCache.files c) g)
  /\ OpenFileCache.refcount (OpenFileCache.files c') f
     = match OpenFileCache.refcount (OpenFileCache.files c) f with
       | Some n => Some (n + 1)
       | None => if OpenFileCache.closed c f then Some 1 else None
       end
  /\ OpenFileCache.past c'
     = match OpenFileCache.refcount (OpenFileCache.files c) f with
       | Some _ => OpenFileCache.past c
       | None => if OpenFileCache.closed c f then OpenFileCache.past c ++ [f] else OpenFileCache.past c
       end.
Proof.
  intros Hok c'. pose proof Hok as (Hp & Hk & Hin & Hopen).
  unfold c', OpenFileCache.open.
  destruct (OpenFileCache.refcount (OpenFileCache.files c) f) as [n|] eqn:Ef.
  - split; [exact (set_refcount_ok c f n (n + 1) Hok Ef)|].
    cbn [OpenFileCache.past OpenFileCache.files OpenFileCache.closed].
    split; [apply Hopen, Hin; rewrite Ef; discriminate|].
    split; [|split; [|reflexivity]].
    + intros g Hg. split; [reflexivity|]. rewrite refcount_set.
      destruct (Z.eqb_spec f g) as [E|_]; [congruence|reflexivity].
    + rewrite refcount_set, Z.eqb_refl. reflexivity.
  - destruct (OpenFileCache.closed c f) eqn:Ec.
    + cbn [OpenFileCache.past OpenFileCache.files OpenFileCache.closed].
      assert (Hnot : ~ In f (OpenFileCache.past c)).
      { intros H. apply Hin in H. contradiction. }
      split.
      * unfold cache_ok. cbn [OpenFileCache.past OpenFileCache.files OpenFileCache.closed].
        split.
        { apply NoDup_app; [exact Hp|repeat constructor; intros []|].
          intros g Hg [<-|[]]. contradiction. }
        split.
        { rewrite keys_set, Ef. apply NoDup_app; [exact Hk|repeat constructor; intros []|].
          intros g Hg [<-|[]]. apply refcount_In in Hg. contradiction. }
        split.
        { intros g. rewrite in_app_iff, refcount_set, Hin. cbn [In].
          destruct (Z.eqb_spec f g) as [<-|Hne].
          - split; [discriminate|auto].
          - split; [intros [H|[E|[]]]; [exact H|contradiction]|auto]. }
        { intros g Hg. unfold OpenFileCache.set_closed.
          destruct (Z.eqb_spec g f) as [_|Hne]; [reflexivity|].
          apply in_app_iff in Hg. destruct Hg as [Hg|[E|[]]]; [apply Hopen, Hg|congruence]. }
      * split; [unfold OpenFileCache.set_closed; rewrite Z.eqb_refl; reflexivity|].
        split; [|split; [|reflexivity]].
        { intros g Hg. unfold OpenFileCache.set_closed. rewrite refcount_set.
          destruct (Z.eqb_spec g f) as [E|_]; [contradiction|].
          destruct (Z.eqb_spec f g) as [E|_]; [congruence|]. split; reflexivity. }
        { rewrite refcount_set, Z.eqb_refl. reflexivity. }
    + split; [exact Hok|]. split; [exact Ec|].
      split; [intros g _; split; reflexivity|]. split; [exact Ef|reflexivity].
Qed.

Lemma filecache_open_witness :
  let c := OpenFileCache.open 7 (OpenFileCache.open 7 (OpenFileCache.__init__ 4 (fun _ => true))) in
  cache_ok c /\ OpenFileCache.closed c 7 = false /\ OpenFileCache.refcount (OpenFileCache.files c) 7 = Some 2
  /\ OpenFileCache.past c = [7].
Proof.
  intros c.
  pose proof (filecache_open (OpenFileCache.__init__ 4 (fun _ => true)) 7 (init_ok _ _)) as (H1 & _).
  destruct (filecache_open _ 7 H1) as (K1 & K2 & _ & K4 & K5).
  split; [exact K1|]. split; [exact K2|]. split; [exact K4|exact K5].
Defined.

Lemma remove_at_split {A} (xs : list A) (i : nat) :
  OpenFileCache.remove_at i xs = firstn i xs ++ skipn (S i) xs.
Proof.
  revert i. induction xs as [|x r IH]; intros i.
  - destruct i; reflexivity.
  - destruct i as [|i]; cbn [OpenFileCache.remove_at firstn skipn app]; [reflexivity|].
    rewrite IH. reflexivity.
Qed.

Lemma nth_error_split' {A} (xs : list A) (i : nat) (a : A) :
  nth_error xs i = Some a -> xs = firstn i xs ++ a :: skipn (S i) xs.
Proof.
  revert i. induction xs as [|x r IH]; intros i H.
  - destruct i; discriminate.
  - destruct i as [|i]; cbn [firstn skipn app].
    + injection H as ->. reflexivity.
    + f_equal. apply IH. exact H.
Qed.

Lemma In_firstn' {A} (x : A) (n : nat) (l : list A) : In x (firstn n l) -> In x l.
Proof.
  intros H. rewrite <- (firstn_skipn n l). apply in_app_iff. left. exact H.
Qed.

Lemma firstn_succ {A} (l : list A) (i : nat) (a : A) :
  nth_error l i = Some a -> firstn (S i) l = firstn i l ++ [a].
Proof.
  revert i. induction l as [|x r IH]; intros i H.
  - destruct i; discriminate.
  - destruct i as [|i]; cbn [firstn app].
    + injection H as ->. reflexivity.
    + f_equal. apply IH. exact H.
Qed.

Lemma trim_S (fuel : nat) (index size_ : Z) (c : OpenFileCache.t) :
  OpenFileCache.trim (S fuel) index size_ c
  = if (size_ >? OpenFileCache.size c) && (index <? size_) then
      filehandle <~ py_index (OpenFileCache.past c) index ;;
      match OpenFileCache.refcount (OpenFileCache.files c) filehandle with
      | None => Raise KeyError
      | Some n =>
          if n =? 0 then
            OpenFileCache.trim fuel index (size_ - 1)
              (OpenFileCache.mk (OpenFileCache.remove_at (Z.to_nat index) (OpenFileCache.past c))
                 (OpenFileCache.del_refcount (OpenFileCache.files c) filehandle)
                 (OpenFileCache.size c)
                 (OpenFileCache.set_closed (OpenFileCache.closed c) filehandle true))
          else OpenFileCache.trim fuel (index + 1) size_ c
      end
    else Ok c.
Proof. reflexivity. Qed.

Lemma trim_more (fuel : nat) :
  forall (index size_ : Z) (c : OpenFileCache.t),
    size_ - index <= Z.of_nat fuel ->
    OpenFileCache.trim (S fuel) index size_ c = OpenFileCache.trim fuel index size_ c.
Proof.
  induction fuel as [|k IH]; intros index size_ c Hm.
  - rewrite trim_S. cbn [OpenFileCache.trim].
    destruct (Z.ltb_spec index size_); [lia|]. rewrite andb_false_r. reflexivity.
  - rewrite (trim_S (S k) index size_ c), (trim_S k index size_ c).
    destruct ((size_ >? OpenFileCache.size c) && (index <? size_)) eqn:Ec; [|reflexivity].
    apply andb_true_iff in Ec. destruct Ec as (_ & Hlt). apply Z.ltb_lt in Hlt.
    destruct (py_index (OpenFileCache.past c) index) as [f|e]; [|reflexivity].
    cbn [rbind].
    destruct (OpenFileCache.refcount (OpenFileCache.files c) f) as [n|]; [|reflexivity].
    destruct (n =? 0); apply IH; lia.
Qed.

(** What the trimming loop does to a cache: files leave [past] only with
    count 0, and are closed then; nothing else changes. *)
Definition trimmed (c c' : OpenFileCache.t) : Prop :=
  cache_ok c'
  /\ OpenFileCache.size c' = OpenFileCache.size c
  /\ (forall g, In g (OpenFileCache.past c') ->
        In g (OpenFileCache.past c)
        /\ OpenFileCache.refcount (OpenFileCache.files c') g
           = OpenFileCache.refcount (OpenFileCache.files c) g)
  /\ (forall g, In g (OpenFileCache.past c) -> ~ In g (OpenFileCache.past c') ->
        OpenFileCache.refcount (OpenFileCache.files c) g = Some 0
        /\ OpenFileCache.closed c' g = true)
  /\ (forall g, ~ In g (OpenFileCache.past c) ->
        OpenFileCache.closed c' g = OpenFileCache.closed c g).

(** The cache is within its size, or holds files in use only. *)
Definition trim_done (c : OpenFileCache.t) : Prop :=
  Z.of_nat (length (OpenFileCache.past c)) <= OpenFileCache.size c
  \/ forall g, In g (OpenFileCache.past c) ->
       OpenFileCache.refcount (OpenFileCache.files c) g <> Some 0.

Lemma trimmed_refl (c : OpenFileCache.t) : cache_ok c -> trimmed c c.
Proof.
  intros H. unfold trimmed. split; [exact H|]. split; [reflexivity|].
  split; [auto|]. split; [intros g H1 H2; contradiction|auto].
Qed.

Lemma removed_ok (c : OpenFileCache.t) (i : nat) (f : Z) :
  cache_ok c -> nth_error (OpenFileCache.past c) i = Some f ->
  let c1 := OpenFileCache.mk (OpenFileCache.remove_at i (OpenFileCache.past c))
              (OpenFileCache.del_refcount (OpenFileCache.files c) f)
              (OpenFileCache.size c)
              (OpenFileCache.set_closed (OpenFileCache.closed c) f true) in
  cache_ok c1
  /\ S (length (OpenFileCache.past c1)) = length (OpenFileCache.past c)
  /\ firstn i (OpenFileCache.past c1) = firstn i (OpenFileCache.past c)
  /\ (forall g, In g (OpenFileCache.past c1) <-> In g (OpenFileCache.past c) /\ g <> f).
Proof.
  intros (Hp & Hk & Hin & Hopen) Hnth c1.
  pose proof (nth_error_split' _ _ _ Hnth) as Hsplit.
  assert (Hi : (i < length (OpenFileCache.past c))%nat)
    by (apply nth_error_Some; congruence).
  set (l1 := firstn i (OpenFileCache.past c)) in *.
  set (l2 := skipn (S i) (OpenFileCache.past c)) in *.
  assert (Hl1 : length l1 = i) by (unfold l1; rewrite length_firstn; lia).
  assert (Hpast1 : OpenFileCache.past c1 = l1 ++ l2).
  { unfold c1. cbn [OpenFileCache.past]. apply remove_at_split. }
  rewrite Hsplit in Hp. pose proof (NoDup_remove _ _ _ Hp) as (Hp1 & Hnot).
  assert (Hmem : forall g, In g (l1 ++ l2) <-> In g (OpenFileCache.past c) /\ g <> f).
  { intros g. rewrite Hsplit. rewrite !in_app_iff. cbn [In]. split.
    - intros H. split; [tauto|]. intros ->. apply Hnot. apply in_app_iff. exact H.
    - intros ([H|[H|H]] & Hne); [auto|congruence|auto]. }
  split; [|split; [|split]].
  - unfold cache_ok. rewrite Hpast1. unfold c1. cbn [OpenFileCache.files OpenFileCache.closed].
    split; [exact Hp1|]. split.
    + rewrite keys_del. apply NoDup_filter. exact Hk.
    + split.
      * intros g. rewrite Hmem, refcount_del, Hin.
        destruct (Z.eqb_spec f g) as [<-|Hne].
        -- split; [intros (_ & H); contradiction H; reflexivity|intros H; contradiction H; reflexivity].
        -- split; [tauto|]. intros H. split; [exact H|congruence].
      * intros g Hg. apply Hmem in Hg. destruct Hg as (Hg & Hne).
        unfold OpenFileCache.set_closed. destruct (Z.eqb_spec g f); [contradiction|].
        apply Hopen, Hg.
  - rewrite Hpast1. rewrite Hsplit. rewrite !length_app. cbn [length]. lia.
  - rewrite Hpast1. rewrite <- Hl1 at 1. rewrite firstn_app, Nat.sub_diag, firstn_O, app_nil_r.
    apply firstn_all.
  - rewrite Hpast1. exact Hmem.
Qed.

Lemma trim_spec (fuel : nat) :
  forall (c : OpenFileCache.t) (i : nat),
    cache_ok c ->
    (i <= length (OpenFileCache.past c))%nat ->
    (length (OpenFileCache.past c) - i <= fuel)%nat ->
    (forall g, In g (firstn i (OpenFileCache.past c)) ->
       OpenFileCache.refcount (OpenFileCache.files c) g <> Some 0) ->
    exists c',
      OpenFileCache.trim fuel (Z.of_nat i) (Z.of_nat (length (OpenFileCache.past c))) c = Ok c'
      /\ trimmed c c' /\ trim_done c'.
Proof.
  induction fuel as [|k IH]; intros c i Hok Hi Hfuel Hprefix.
  - exists c. split; [reflexivity|]. split; [apply trimmed_refl, Hok|].
    right. intros g Hg. apply Hprefix.
    rewrite firstn_all2 by lia. exact Hg.
  - rewrite trim_S.
    destruct ((Z.of_nat (length (OpenFileCache.past c)) >? OpenFileCache.size c)
              && (Z.of_nat i <? Z.of_nat (length (OpenFileCache.past c)))) eqn:Ec.
    2:{ exists c. split; [reflexivity|]. split; [apply trimmed_refl, Hok|].
        apply andb_false_iff in Ec. destruct Ec as [Ec|Ec].
        - left. rewrite Z.gtb_ltb in Ec. apply Z.ltb_ge in Ec. exact Ec.
        - right. apply Z.ltb_ge in Ec. intros g Hg. apply Hprefix.
          rewrite firstn_all2 by lia. exact Hg. }
    apply andb_true_iff in Ec. destruct Ec as (_ & Hlt). apply Z.ltb_lt in Hlt.
    destruct (nth_error (OpenFileCache.past c) i) as [f|] eqn:Hnth.
    2:{ apply nth_error_None in Hnth. lia. }
    rewrite (py_index_nth _ _ _ Hnth). cbn [rbind].
    pose proof Hok as (Hp & Hk & Hin & Hopen).
    assert (Hf : In f (OpenFileCache.past c)) by (eapply nth_error_In; eauto).
    destruct (OpenFileCache.refcount (OpenFileCache.files c) f) as [n|] eqn:Ef.
    2:{ apply Hin in Hf. contradiction. }
    rewrite Nat2Z.id.
    destruct (Z.eqb_spec n 0) as [->|Hn].
    + destruct (removed_ok c i f Hok Hnth) as (Hok1 & Hlen1 & Hfirst1 & Hmem1).
      cbv zeta in Hok1, Hlen1, Hfirst1, Hmem1.
      set (c1 := OpenFileCache.mk (OpenFileCache.remove_at i (OpenFileCache.past c))
                   (OpenFileCache.del_refcount (OpenFileCache.files c) f)
                   (OpenFileCache.size c)
                   (OpenFileCache.set_closed (OpenFileCache.closed c) f true)) in *.
      replace (Z.of_nat (length (OpenFileCache.past c)) - 1)
        with (Z.of_nat (length (OpenFileCache.past c1))) by lia.
      replace (OpenFileCache.size c) with (OpenFileCache.size c1) at 1 by reflexivity.
      destruct (IH c1 i Hok1 ltac:(lia) ltac:(lia)) as (c' & Hrun & Ht & Hd).
      { intros g Hg. rewrite Hfirst1 in Hg.
        assert (Hg1 : In g (OpenFileCache.past c1)).
        { rewrite <- Hfirst1 in Hg. eapply In_firstn'; eauto. }
        apply Hmem1 in Hg1. destruct Hg1 as (_ & Hne).
        unfold c1. cbn [OpenFileCache.files]. rewrite refcount_del.
        destruct (Z.eqb_spec f g) as [E|_]; [congruence|].
        apply Hprefix. exact Hg. }
      exists c'. split; [exact Hrun|]. split; [|exact Hd].
      destruct Ht as (Hok' & Hsz & Hkeep & Hgone & Hout).
      unfold trimmed. split; [exact Hok'|]. split; [exact Hsz|].
      split; [|split].
      * intros g Hg. destruct (Hkeep g Hg) as (Hg1 & Hr).
        apply Hmem1 in Hg1. destruct Hg1 as (Hgc & Hne). split; [exact Hgc|].
        rewrite Hr. unfold c1. cbn [OpenFileCache.files]. rewrite refcount_del.
        destruct (Z.eqb_spec f g) as [E|_]; [congruence|reflexivity].
      * intros g Hgc Hnot.
        destruct (Z.eq_dec g f) as [->|Hne].
        -- split; [exact Ef|].
           rewrite Hout.
           ++ unfold c1. cbn [OpenFileCache.closed]. unfold OpenFileCache.set_closed.
              rewrite Z.eqb_refl. reflexivity.
           ++ intros H. apply Hmem1 in H. destruct H as (_ & H). contradiction H. reflexivity.
        -- assert (Hg1 : In g (OpenFileCache.past c1)) by (apply Hmem1; auto).
           destruct (Hgone g Hg1 Hnot) as (Hr & Hcl). split; [|exact Hcl].
           unfold c1 in Hr. cbn [OpenFileCache.files] in Hr. rewrite refcount_del in Hr.
           destruct (Z.eqb_spec f g) as [E|_]; [congruence|exact Hr].
      * intros g Hnot. rewrite Hout.
        -- unfold c1. cbn [OpenFileCache.closed]. unfold OpenFileCache.set_closed.
           destruct (Z.eqb_spec g f) as [->|_]; [contradiction|reflexivity].
        -- intros H. apply Hmem1 in H. destruct H as (H & _). contradiction.
    + replace (Z.of_nat i + 1) with (Z.of_nat (S i)) by lia.
      apply (IH c (S i) Hok); [lia|lia|].
      intros g Hg.
      rewrite (firstn_succ _ _ _ Hnth) in Hg. 
      apply in_app_iff in Hg. destruct Hg as [Hg|[<-|[]]]; [apply Hprefix, Hg|].
      rewrite Ef. intros E. injection E as E. contradiction.
Qed.

(** X30. [OpenFileCache.close] for file handles that own their file.  For
    a file that is not cached it does nothing.  Otherwise the count of
    the file goes down by one and the loop trims the cache: it ends
    within [len(past)] iterations without an exception, and then the
    cache is within its size or holds no file with count 0.  A file
    leaves the cache only with count 0, and is closed then; the files
    that stay keep their count, their order and stay open, so that a file
    in use is never closed; files outside the cache are not touched. *)
Theorem filecache_close (c : OpenFileCache.t) (f : Z) :
  cache_ok c ->
  let counts g :=
    if g =? f
    then option_map (fun n => n - 1) (OpenFileCache.refcount (OpenFileCache.files c) g)
    else OpenFileCache.refcount (OpenFileCache.files c) g in
  exists c',
    OpenFileCache.close f c = Ok c'
    /\ cache_ok c'
    /\ OpenFileCache.size c' = OpenFileCache.size c
    /\ (OpenFileCache.refcount (OpenFileCache.files c) f = None -> c' = c)
    /\ (forall g, In g (OpenFileCache.past c') ->
          In g (OpenFileCache.past c)
          /\ OpenFileCache.refcount (OpenFileCache.files c') g = counts g)
    /\ (forall g, In g (OpenFileCache.past c) -> ~ In g (OpenFileCache.past c') ->
          counts g = Some 0 /\ OpenFileCache.closed c' g = true)
    /\ (forall g, ~ In g (OpenFileCache.past c) ->
          OpenFileCache.closed c' g = OpenFileCache.closed c g)
    /\ (OpenFileCache.refcount (OpenFileCache.files c) f <> None -> trim_done c')
    /\ (forall n extra,
          OpenFileCache.refcount (OpenFileCache.files c) f = Some n ->
          OpenFileCache.trim (length (OpenFileCache.past c) + extra) 0
            (Z.of_nat (length (OpenFileCache.past c)))
            (OpenFileCache.mk (OpenFileCache.past c)
               (OpenFileCache.set_refcount (OpenFileCache.files c) f (n - 1))
               (OpenFileCache.size c) (OpenFileCache.closed c))
          = Ok c').
Proof.
  intros Hok counts. unfold OpenFileCache.close.
  destruct (OpenFileCache.refcount (OpenFileCache.files c) f) as [n|] eqn:Ef.
  - set (c1 := OpenFileCache.mk (OpenFileCache.past c)
                 (OpenFileCache.set_refcount (OpenFileCache.files c) f (n - 1))
                 (OpenFileCache.size c) (OpenFileCache.closed c)).
    assert (Hok1 : cache_ok c1) by exact (set_refcount_ok c f n (n - 1) Hok Ef).
    destruct (trim_spec (length (OpenFileCache.past c1)) c1 0 Hok1 ltac:(lia) ltac:(lia))
      as (c' & Hrun & Ht & Hd).
    { intros g []. }
    cbv zeta. change (OpenFileCache.past c1) with (OpenFileCache.past c) in Hrun.
    cbn [Z.of_nat] in Hrun.
    exists c'. split; [exact Hrun|].
    destruct Ht as (Hok' & Hsz & Hkeep & Hgone & Hout).
    assert (Hcounts : forall g, OpenFileCache.refcount (OpenFileCache.files c1) g = counts g).
    { intros g. unfold c1, counts. cbn [OpenFileCache.files]. rewrite refcount_set.
      rewrite (Z.eqb_sym g f).
      destruct (Z.eqb_spec f g) as [<-|_]; [rewrite Ef|]; reflexivity. }
    split; [exact Hok'|]. split; [exact Hsz|]. split; [discriminate|].
    split; [|split; [|split; [|split]]].
    + intros g Hg. destruct (Hkeep g Hg) as (H1 & H2). split; [exact H1|].
      rewrite H2. apply Hcounts.
    + intros g Hg Hnot. destruct (Hgone g Hg Hnot) as (H1 & H2).
      rewrite Hcounts in H1. split; assumption.
    + exact Hout.
    + intros _. exact Hd.
    + intros n' extra E. injection E as <-. fold c1.
      induction extra as [|e IHe].
      * rewrite Nat.add_0_r. exact Hrun.
      * rewrite Nat.add_succ_r, trim_more by lia. exact IHe.
  - exists c. split; [reflexivity|]. split; [exact Hok|]. split; [reflexivity|].
    split; [reflexivity|].
    split; [|split; [|split; [|split]]].
    + intros g Hg. split; [exact Hg|]. unfold counts.
      destruct (Z.eqb_spec g f) as [->|_]; [rewrite Ef|]; reflexivity.
    + intros g H1 H2. contradiction.
    + reflexivity.
    + intros H. contradiction H. reflexivity.
    + discriminate.
Qed.

Lemma filecache_close_witness :
  let c := OpenFileCache.open 7 (OpenFileCache.__init__ 0 (fun _ => true)) in
  exists c',
    OpenFileCache.close 7 c = Ok c'
    /\ OpenFileCache.past c' = []
    /\ OpenFileCache.closed c' 7 = true.
Proof.
  intros c.
  assert (Hok : cache_ok c).
  { unfold cache_ok, c. cbn [OpenFileCache.open OpenFileCache.__init__ OpenFileCache.refcount
      OpenFileCache.files OpenFileCache.past OpenFileCache.closed OpenFileCache.size
      OpenFileCache.set_refcount app map fst].
    split; [repeat constructor; intros []|]. split; [repeat constructor; intros []|].
    split.
    - intros g. cbn [In OpenFileCache.refcount]. split.
      + intros [<-|[]]. rewrite Z.eqb_refl. discriminate.
      + destruct (Z.eqb_spec 7 g) as [E|_]; [auto|]. intros H. contradiction H. reflexivity.
    - intros g [<-|[]]. reflexivity. }
  destruct (filecache_close c 7 Hok)
    as (c' & H1 & _ & Hsz & _ & Hkeep & Hgone & _ & Hdone & _).
  exists c'. split; [exact H1|].
  assert (Hempty : OpenFileCache.past c' = []).
  { destruct (OpenFileCache.past c') as [|g r] eqn:E; [reflexivity|].
    exfalso.
    destruct (Hkeep g (or_introl eq_refl)) as (Hg & Hr).
    destruct Hg as [<-|[]].
    destruct (Hdone ltac:(discriminate)) as [Hd|Hd].
    - rewrite E, Hsz in Hd. cbn in Hd. lia.
    - apply (Hd 7); [rewrite E; left; reflexivity|exact Hr]. }
  split; [exact Hempty|].
  apply Hgone; [left; reflexivity|rewrite Hempty; intros []].
Defined.
